(** * abstracta: finite groups, subgroup generation and isomorphism search

    A shallow embedding of [src/abstracta/Group.py].  Python exceptions are
    values of [result]; Python sets are lists kept free of duplicates with
    respect to the elements' [==]; loops that Python writes as [while True]
    take a bound on the number of rounds and report [Diverge] when it is
    exhausted. *)

From Stdlib Require Import String List ZArith QArith Bool Lia Arith PeanoNat.
From Stdlib Require Import Ascii.
From Stdlib Require DecimalString DecimalZ DecimalPos.
From Equations Require Import Equations.
Import ListNotations.

Set Implicit Arguments.
Local Open Scope Z_scope.
Local Open Scope nat_scope.

(** ** Exceptions and the result monad *)

Inductive exn : Type :=
| TypeError
| ValueError
| RuntimeError
| KeyError
| OverflowError.

Inductive result (A : Type) : Type :=
| Ok (a : A)
| Raise (x : exn)
| Diverge.

Arguments Ok {A} a.
Arguments Raise {A} x.
Arguments Diverge {A}.

Definition bind {A B} (c : result A) (k : A -> result B) : result B :=
  match c with
  | Ok a => k a
  | Raise x => Raise x
  | Diverge => Diverge
  end.

Notation "x <- c ;; k" := (bind c (fun x => k))
  (at level 61, c at next level, right associativity).
Notation "' p <- c ;; k" := (bind c (fun x => match x with p => k end))
  (at level 61, p pattern, c at next level, right associativity).

(** [all(p(x) for x in l)]: stops at the first false, an exception raised
    by [p] goes through. *)
Fixpoint py_all {A} (p : A -> result bool) (l : list A) : result bool :=
  match l with
  | [] => Ok true
  | x :: l' => b <- p x ;; if b then py_all p l' else Ok false
  end.

(** [any(p(x) for x in l)]: stops at the first true. *)
Fixpoint py_any {A} (p : A -> result bool) (l : list A) : result bool :=
  match l with
  | [] => Ok false
  | x :: l' => b <- p x ;; if b then Ok true else py_any p l'
  end.

(** A comprehension whose body may raise. *)
Fixpoint py_map {A B} (f : A -> result B) (l : list A) : result (list B) :=
  match l with
  | [] => Ok []
  | x :: l' => y <- f x ;; ys <- py_map f l' ;; Ok (y :: ys)
  end.

(** ** Python equality *)

Class PyEq (A : Type) := py_eqb : A -> A -> bool.

(** The [==] of ints, tuples and strings is structural. *)
Class PyEqOk (A : Type) {H : PyEq A} :=
  py_eqb_eq : forall x y : A, py_eqb x y = true <-> x = y.

Arguments PyEqOk A {H}.

#[export] Instance PyEq_Z : PyEq Z := Z.eqb.
#[export] Instance PyEq_nat : PyEq nat := Nat.eqb.
#[export] Instance PyEq_prod {A B} `{PyEq A} `{PyEq B} : PyEq (A * B) :=
  fun p q => py_eqb (fst p) (fst q) && py_eqb (snd p) (snd q).

Fixpoint tuple_eqb {A} `{PyEq A} (l m : list A) : bool :=
  match l, m with
  | [], [] => true
  | x :: l', y :: m' => py_eqb x y && tuple_eqb l' m'
  | _, _ => false
  end.

(** ** AlgSet *)

Module AlgSet.

(** Modelled from the spec: [abstracta.Set.AlgSet] is not part of the
    sources.  The spec (4.1) gives a FiniteSet: an unordered, deduplicated
    collection, iterated in a stable order, with membership, cardinality,
    Cartesian product, union, subset test, difference, equality (same
    cardinality and every element of one is a member of the other) and the
    selection of an arbitrary element.  The list holds the elements in
    iteration order. *)
Definition t (A : Type) := list A.

Section Ops.
Context {A : Type} `{PyEq A}.

Definition mem (x : A) (s : t A) : bool := existsb (py_eqb x) s.

Definition add (s : t A) (x : A) : t A := if mem x s then s else s ++ [x].

(** [AlgSet(iterable)] *)
Definition of_list (l : list A) : t A := fold_left add l [].

Definition len (s : t A) : nat := length s.

(** [a | b] *)
Definition union (a b : t A) : t A := fold_left add b a.

(** [a <= b] *)
Definition subset (a b : t A) : bool := forallb (fun x => mem x b) a.

(** [a == b] *)
Definition eqb (a b : t A) : bool := Nat.eqb (len a) (len b) && subset a b.

(** [a - b] *)
Definition diff (a b : t A) : t A := filter (fun x => negb (mem x b)) a.
End Ops.

(** [a * b] *)
Definition prod {A B} (a : t A) (b : t B) : t (A * B) := list_prod a b.

End AlgSet.

(** Modelled from the spec: [AlgSet.pick], the selection of an arbitrary
    element.  Which element is returned is left open, so it is a parameter;
    nothing is asked of it on the empty set. *)
Class Pick (A : Type) := pick : AlgSet.t A -> result A.

Class PickOk (A : Type) {P : Pick A} :=
  pick_In : forall s : AlgSet.t A, s <> [] -> exists x, pick s = Ok x /\ In x s.

Arguments PickOk A {P}.

(** The selection that returns the first element in iteration order. *)
Definition pick_first {A} : Pick A :=
  fun s => match s with [] => Raise KeyError | x :: _ => Ok x end.

Lemma pick_first_ok {A} : @PickOk A pick_first.
Proof.
  intros [|x s] Hs; [congruence|]. exists x. simpl. auto.
Qed.

(** ** Function *)

(** Modelled from the spec: [abstracta.Function.Function] is not part of
    the sources.  The spec (3, 4.2) gives a TotalFunction: a domain, a
    codomain and a rule; the rule is not checked against the codomain when
    the function is built; applying it outside the domain fails, with the
    [TypeError] that [GroupElem.__mul__] catches. *)
Record Function (A B : Type) : Type := mkFunction
  { domain : AlgSet.t A;
    codomain : AlgSet.t B;
    function : A -> B }.

Arguments domain {A B} f.
Arguments codomain {A B} f.
Arguments function {A B} f _.

Definition Function_call {A B} `{PyEq A} (f : Function A B) (x : A) : result B :=
  if AlgSet.mem x (domain f) then Ok (function f x) else Raise TypeError.

Definition new_domains {A B} (f : Function A B)
    (d : AlgSet.t A) (c : AlgSet.t B) : Function A B :=
  mkFunction d c (function f).

(** ** Python values that reach [Group.__init__] *)

Inductive pyobj (E : Type) : Type :=
| PySet (s : AlgSet.t E)
| PyFunction (f : Function (E * E) E)
| PyOther.

Arguments PyOther {E}.

(** ** Group and GroupElem *)

Record Group (E : Type) : Type := mkGroup
  { abelian : bool;
    Set_ : AlgSet.t E;
    e_elem : E;
    bin_op : Function (E * E) E }.

Record GroupElem (E : Type) : Type := mkGroupElem
  { elem : E;
    group : Group E }.

Arguments abelian {E} g.
Arguments Set_ {E} g.
Arguments e_elem {E} g.
Arguments bin_op {E} g.
Arguments elem {E} g.
Arguments group {E} g.

(** [GroupElem.__eq__]: the same element, whatever the groups. *)
#[export] Instance PyEq_GroupElem {E} `{PyEq E} : PyEq (GroupElem E) :=
  fun x y => py_eqb (elem x) (elem y).

(** [itertools.product(G, G, G)] *)
Definition product3 {A} (a b c : list A) : list (A * A * A) :=
  list_prod (list_prod a b) c.

Section GroupOps.
Context {E : Type} `{PyEq E}.

(** [GroupElem.__init__] *)
Definition GroupElem_init (elem : E) (group : Group E) : result (GroupElem E) :=
  if negb (AlgSet.mem elem (Set_ group)) then Raise TypeError
  else Ok (mkGroupElem elem group).

(** The search for the identity in [Group.__init__]: the first [e] of
    [G] with [bin_op((e, a)) == a] for every [a]. *)
Fixpoint find_identity (bin_op : Function (E * E) E) (G : AlgSet.t E)
    (candidates : list E) : result (option E) :=
  match candidates with
  | [] => Ok None
  | e :: rest =>
      b <- py_all (fun a => ea <- Function_call bin_op (e, a) ;;
                            Ok (py_eqb ea a)) G ;;
      if b then Ok (Some e) else find_identity bin_op G rest
  end.

(** [Group.__init__] *)
Definition Group_init (G bin_op : pyobj E) : result (Group E) :=
  match G with
  | PySet G =>
    match bin_op with
    | PyFunction bin_op =>
      if negb (AlgSet.eqb (codomain bin_op) G) then Raise TypeError else
      if negb (AlgSet.eqb (domain bin_op) (AlgSet.prod G G)) then Raise TypeError else
      assoc <- py_all (fun '(a, b, c) =>
                 bc <- Function_call bin_op (b, c) ;;
                 l <- Function_call bin_op (a, bc) ;;
                 ab <- Function_call bin_op (a, b) ;;
                 r <- Function_call bin_op (ab, c) ;;
                 Ok (py_eqb l r)) (product3 G G G) ;;
      if negb assoc then Raise ValueError else
      found <- find_identity bin_op G G ;;
      match found with
      | None => Raise ValueError
      | Some e =>
        inverses <- py_all (fun a =>
                      py_any (fun b => ab <- Function_call bin_op (a, b) ;;
                                       Ok (py_eqb ab e)) G) G ;;
        if negb inverses then Raise ValueError else
        abelian <- py_all (fun '(a, b) =>
                     ab <- Function_call bin_op (a, b) ;;
                     ba <- Function_call bin_op (b, a) ;;
                     Ok (py_eqb ab ba)) (list_prod G G) ;;
        Ok (mkGroup abelian G e bin_op)
      end
    | _ => Raise TypeError
    end
  | _ => Raise TypeError
  end.

(** [self.group_elems], set by [__init__] from [self.Set] *)
Definition group_elems (self : Group E) : AlgSet.t (GroupElem E) :=
  AlgSet.of_list (map (fun g => mkGroupElem g self) (Set_ self)).

(** [self.e] *)
Definition e (self : Group E) : GroupElem E := mkGroupElem (e_elem self) self.

(** [Group.__iter__] *)
Definition Group_iter (self : Group E) : list (GroupElem E) :=
  e self :: filter (fun g => negb (py_eqb g (e self))) (group_elems self).

(** [Group.__len__] *)
Definition Group_len (self : Group E) : nat := AlgSet.len (Set_ self).

(** [Group.__contains__] *)
Definition Group_contains (self : Group E) (item : GroupElem E) : bool :=
  AlgSet.mem item (group_elems self).

(** [GroupElem.__rmul__], for [other] a GroupElem *)
Definition GroupElem_rmul (self other : GroupElem E) : result (GroupElem E) :=
  v <- Function_call (bin_op (group self)) (elem other, elem self) ;;
  GroupElem_init v (group self).

(** [GroupElem.__mul__], for [other] a GroupElem: the product in
    [self.group], and on a [TypeError] the product in [other.group]. *)
Definition GroupElem_mul (self other : GroupElem E) : result (GroupElem E) :=
  match (v <- Function_call (bin_op (group self)) (elem self, elem other) ;;
         GroupElem_init v (group self)) with
  | Raise TypeError => GroupElem_rmul other self
  | r => r
  end.

(** The loop of [Group.inverse] over the iteration of the group *)
Fixpoint inverse_search (self : Group E) (g : GroupElem E)
    (l : list (GroupElem E)) : result (GroupElem E) :=
  match l with
  | [] => Raise RuntimeError
  | a :: l' =>
      ga <- GroupElem_mul g a ;;
      if py_eqb ga (e self) then Ok a else inverse_search self g l'
  end.

(** [Group.inverse] *)
Definition Group_inverse (self : Group E) (g : GroupElem E) : result (GroupElem E) :=
  if negb (AlgSet.mem g (group_elems self)) then Raise TypeError
  else inverse_search self g (Group_iter self).

End GroupOps.

Unset Implicit Arguments.

(** ** Facts about the result monad and the comprehensions *)

Lemma bind_Ok_inv {A B} (c : result A) (k : A -> result B) (b : B) :
  bind c k = Ok b -> exists a, c = Ok a /\ k a = Ok b.
Proof. destruct c; simpl; intros Hk; try discriminate. eauto. Qed.

Lemma py_all_pure {A} (p : A -> result bool) (q : A -> bool) (l : list A) :
  (forall x, In x l -> p x = Ok (q x)) -> py_all p l = Ok (forallb q l).
Proof.
  induction l as [|x l IH]; simpl; intros Hp; [reflexivity|].
  rewrite (Hp x (or_introl eq_refl)); simpl.
  destruct (q x); simpl; [apply IH; auto | reflexivity].
Qed.

Lemma py_any_pure {A} (p : A -> result bool) (q : A -> bool) (l : list A) :
  (forall x, In x l -> p x = Ok (q x)) -> py_any p l = Ok (existsb q l).
Proof.
  induction l as [|x l IH]; simpl; intros Hp; [reflexivity|].
  rewrite (Hp x (or_introl eq_refl)); simpl.
  destruct (q x); simpl; [reflexivity | apply IH; auto].
Qed.

Lemma py_map_pure {A B} (f : A -> result B) (g : A -> B) (l : list A) :
  (forall x, In x l -> f x = Ok (g x)) -> py_map f l = Ok (map g l).
Proof.
  induction l as [|x l IH]; simpl; intros Hf; [reflexivity|].
  rewrite (Hf x (or_introl eq_refl)); simpl.
  rewrite IH by auto. reflexivity.
Qed.

(** A successful [py_all] evaluated every element up to the first false. *)
Lemma py_all_true_inv {A} (p : A -> result bool) (l : list A) :
  py_all p l = Ok true -> forall x, In x l -> p x = Ok true.
Proof.
  induction l as [|y l IH]; simpl; intros Hall x Hx; [contradiction|].
  destruct (p y) as [[|]| |] eqn:Hy; simpl in Hall; try discriminate.
  destruct Hx as [<-|Hx]; auto.
Qed.

(** ** Facts about AlgSet on elements with a structural [==] *)

#[export] Instance PyEqOk_Z : PyEqOk Z.
Proof. intros x y. apply Z.eqb_eq. Qed.

#[export] Instance PyEqOk_nat : PyEqOk nat.
Proof. intros x y. apply Nat.eqb_eq. Qed.

#[export] Instance PyEqOk_prod {A B} `{PyEqOk A} `{PyEqOk B} : PyEqOk (A * B).
Proof.
  intros [a b] [a' b']. unfold py_eqb, PyEq_prod; simpl.
  rewrite andb_true_iff, !py_eqb_eq. split; [intros [-> ->]|intros [= -> ->]]; auto.
Qed.

Section AlgSetFacts.
Context {A : Type} `{PyEqOk A}.

Lemma py_eqb_refl (x : A) : py_eqb x x = true.
Proof. apply py_eqb_eq. reflexivity. Qed.

Lemma py_eqb_neq (x y : A) : py_eqb x y = false <-> x <> y.
Proof.
  rewrite <- py_eqb_eq. destruct (py_eqb x y); split; congruence.
Qed.

Lemma py_eq_dec (x y : A) : {x = y} + {x <> y}.
Proof.
  destruct (py_eqb x y) eqn:Hxy; [left; apply py_eqb_eq | right; apply py_eqb_neq]; auto.
Defined.

Lemma mem_In (x : A) (s : list A) : AlgSet.mem x s = true <-> In x s.
Proof.
  unfold AlgSet.mem. rewrite existsb_exists. split.
  - intros (y & Hy & Hxy). apply py_eqb_eq in Hxy. subst. exact Hy.
  - intros Hx. exists x. split; [exact Hx | apply py_eqb_refl].
Qed.

Lemma mem_not_In (x : A) (s : list A) : AlgSet.mem x s = false <-> ~ In x s.
Proof.
  rewrite <- mem_In. destruct (AlgSet.mem x s); split; congruence.
Qed.

Lemma In_add (s : list A) (x y : A) : In y (AlgSet.add s x) <-> In y s \/ y = x.
Proof.
  unfold AlgSet.add. destruct (AlgSet.mem x s) eqn:Hm.
  - apply mem_In in Hm. split; [auto | intros [?| ->]; auto].
  - rewrite in_app_iff. simpl. intuition.
Qed.

Lemma NoDup_add (s : list A) (x : A) : NoDup s -> NoDup (AlgSet.add s x).
Proof.
  intros Hs. unfold AlgSet.add. destruct (AlgSet.mem x s) eqn:Hm; [exact Hs|].
  apply mem_not_In in Hm.
  apply NoDup_app; [exact Hs | repeat constructor; simpl; tauto |].
  intros y Hy [<-|[]]. contradiction.
Qed.

Lemma In_union (a b : list A) (y : A) : In y (AlgSet.union a b) <-> In y a \/ In y b.
Proof.
  unfold AlgSet.union. revert a. induction b as [|x b IH]; simpl; intros a.
  - tauto.
  - rewrite IH, In_add. intuition.
Qed.

Lemma NoDup_union (a b : list A) : NoDup a -> NoDup (AlgSet.union a b).
Proof.
  unfold AlgSet.union. revert a. induction b as [|x b IH]; simpl; intros a Ha.
  - exact Ha.
  - apply IH, NoDup_add, Ha.
Qed.

Lemma In_of_list (l : list A) (y : A) : In y (AlgSet.of_list l) <-> In y l.
Proof.
  change (AlgSet.of_list l) with (AlgSet.union [] l).
  rewrite In_union. simpl. tauto.
Qed.

Lemma NoDup_of_list (l : list A) : NoDup (AlgSet.of_list l).
Proof.
  change (AlgSet.of_list l) with (AlgSet.union [] l).
  apply NoDup_union. constructor.
Qed.

Lemma add_fresh (s : list A) (x : A) : ~ In x s -> AlgSet.add s x = s ++ [x].
Proof.
  intros Hx. unfold AlgSet.add. apply mem_not_In in Hx. rewrite Hx. reflexivity.
Qed.

Lemma union_NoDup_id (a b : list A) :
  NoDup b -> (forall x, In x b -> ~ In x a) -> AlgSet.union a b = a ++ b.
Proof.
  unfold AlgSet.union. revert a. induction b as [|x b IH]; simpl; intros a Hb Hd.
  - rewrite app_nil_r. reflexivity.
  - inversion Hb as [|? ? Hx Hb']; subst.
    rewrite add_fresh by (apply Hd; auto).
    rewrite IH; [rewrite <- app_assoc; reflexivity | exact Hb' |].
    intros y Hy. rewrite in_app_iff. simpl.
    intros [Hya|[<-|[]]]; [apply (Hd y); auto | contradiction].
Qed.

Lemma of_list_NoDup_id (l : list A) : NoDup l -> AlgSet.of_list l = l.
Proof.
  intros Hl. change (AlgSet.of_list l) with (AlgSet.union [] l).
  rewrite union_NoDup_id; auto.
Qed.

Lemma subset_incl (a b : list A) : AlgSet.subset a b = true <-> incl a b.
Proof.
  unfold AlgSet.subset. rewrite forallb_forall. unfold incl.
  split; intros Hs x Hx; [apply mem_In | apply mem_In]; auto.
Qed.

Lemma In_diff (a b : list A) (x : A) : In x (AlgSet.diff a b) <-> In x a /\ ~ In x b.
Proof.
  unfold AlgSet.diff. rewrite filter_In, negb_true_iff, mem_not_In. tauto.
Qed.

Lemma eqb_true_incl (a b : list A) :
  AlgSet.eqb a b = true -> length a = length b /\ incl a b.
Proof.
  unfold AlgSet.eqb, AlgSet.len. rewrite andb_true_iff, Nat.eqb_eq, subset_incl. tauto.
Qed.

(** On duplicate-free lists [==] is mutual inclusion. *)
Lemma eqb_true_iff (a b : list A) :
  NoDup a -> NoDup b -> (AlgSet.eqb a b = true <-> incl a b /\ incl b a).
Proof.
  intros Ha Hb. unfold AlgSet.eqb, AlgSet.len.
  rewrite andb_true_iff, Nat.eqb_eq, subset_incl. split.
  - intros [Hlen Hab]. split; [exact Hab|].
    apply NoDup_length_incl; auto. lia.
  - intros [Hab Hba]. split; [|exact Hab].
    apply Nat.le_antisymm; apply NoDup_incl_length; auto.
Qed.

Lemma eqb_refl (a : list A) : AlgSet.eqb a a = true.
Proof.
  unfold AlgSet.eqb. rewrite Nat.eqb_refl, (proj2 (subset_incl a a)); auto.
  apply incl_refl.
Qed.

End AlgSetFacts.

(** ** Finite groups on a list of elements *)

Lemma NoDup_map_on {A B} (g : A -> B) (l : list A) :
  (forall x y, In x l -> In y l -> g x = g y -> x = y) ->
  NoDup l -> NoDup (map g l).
Proof.
  induction l as [|a l IH]; simpl; intros Hinj Hl; [constructor|].
  inversion Hl as [|? ? Ha Hl']; subst. constructor.
  - rewrite in_map_iff. intros (x & Hx & Hin).
    apply Ha. rewrite (Hinj a x); auto.
  - apply IH; auto.
Qed.

(** An injective map of a duplicate-free list into itself reaches every
    element of it. *)
Lemma inj_on_surj {A} (g : A -> A) (l : list A) :
  NoDup l ->
  (forall x, In x l -> In (g x) l) ->
  (forall x y, In x l -> In y l -> g x = g y -> x = y) ->
  forall y, In y l -> exists x, In x l /\ g x = y.
Proof.
  intros Hl Hin Hinj y Hy.
  assert (Hincl : incl l (map g l)).
  { apply NoDup_length_incl.
    - apply NoDup_map_on; auto.
    - rewrite length_map. lia.
    - intros z Hz. apply in_map_iff in Hz. destruct Hz as (x & <- & Hx). auto. }
  apply Hincl, in_map_iff in Hy. destruct Hy as (x & Hx & Hxl). eauto.
Qed.

Section GroupTheory.
Context {E : Type} `{PyEqOk E}.

(** The group axioms, two-sided, for the operation [f] on the elements
    of [S] with identity [e]. *)
Record is_group (S : list E) (f : E * E -> E) (e : E) : Prop := mk_is_group
  { grp_NoDup : NoDup S;
    grp_e : In e S;
    grp_closed : forall a b, In a S -> In b S -> In (f (a, b)) S;
    grp_assoc : forall a b c, In a S -> In b S -> In c S ->
                f (a, f (b, c)) = f (f (a, b), c);
    grp_id_l : forall a, In a S -> f (e, a) = a;
    grp_id_r : forall a, In a S -> f (a, e) = a;
    grp_inv : forall a, In a S -> exists b, In b S /\ f (a, b) = e /\ f (b, a) = e }.

Section Laws.
Variables (S : list E) (f : E * E -> E) (e : E).
Hypothesis HG : is_group S f e.

Lemma grp_cancel_l a x y :
  In a S -> In x S -> In y S -> f (a, x) = f (a, y) -> x = y.
Proof.
  intros Ha Hx Hy Heq.
  destruct (grp_inv _ _ _ HG a Ha) as (b & Hb & _ & Hba).
  rewrite <- (grp_id_l _ _ _ HG x Hx), <- (grp_id_l _ _ _ HG y Hy), <- Hba.
  rewrite <- !(grp_assoc _ _ _ HG) by assumption. congruence.
Qed.

Lemma grp_cancel_r a x y :
  In a S -> In x S -> In y S -> f (x, a) = f (y, a) -> x = y.
Proof.
  intros Ha Hx Hy Heq.
  destruct (grp_inv _ _ _ HG a Ha) as (b & Hb & Hab & _).
  rewrite <- (grp_id_r _ _ _ HG x Hx), <- (grp_id_r _ _ _ HG y Hy), <- Hab.
  rewrite !(grp_assoc _ _ _ HG) by assumption. congruence.
Qed.

Lemma grp_left_id_unique e' :
  In e' S -> (forall a, In a S -> f (e', a) = a) -> e' = e.
Proof.
  intros He' Hid. rewrite <- (Hid e (grp_e _ _ _ HG)). symmetry. apply (grp_id_r _ _ _ HG), He'.
Qed.

Lemma grp_idem_e a : In a S -> f (a, a) = a -> a = e.
Proof.
  intros Ha Haa. pose proof (grp_e _ _ _ HG) as He.
  apply (grp_cancel_l a); auto.
  rewrite Haa. symmetry. apply (grp_id_r _ _ _ HG), Ha.
Qed.

Lemma grp_right_inv_unique a b :
  In a S -> In b S -> f (a, b) = e -> f (b, a) = e.
Proof.
  intros Ha Hb Hab.
  destruct (grp_inv _ _ _ HG a Ha) as (c & Hc & Hac & Hca).
  assert (b = c) by (apply (grp_cancel_l a); auto; congruence).
  subst. exact Hca.
Qed.

(** A non-empty part of a finite group closed under the operation is a
    group: translation by one of its elements permutes it. *)
Lemma closed_is_group (K : list E) :
  NoDup K -> incl K S -> K <> [] ->
  (forall a b, In a K -> In b K -> In (f (a, b)) K) ->
  is_group K f e.
Proof.
  intros HK Hincl Hne Hcl.
  assert (Hsurj : forall a y, In a K -> In y K ->
             exists x, In x K /\ f (a, x) = y).
  { intros a y Ha Hy. apply (inj_on_surj (fun x => f (a, x))); auto.
    intros x x' Hx Hx'. apply grp_cancel_l; auto. }
  assert (He : In e K).
  { destruct K as [|a K']; [congruence|].
    destruct (Hsurj a a) as (x & Hx & Hax); simpl; auto.
    assert (x = e); [|subst; exact Hx].
    apply (grp_cancel_l a); auto with datatypes.
    - exact (grp_e _ _ _ HG).
    - rewrite Hax. symmetry. apply (grp_id_r _ _ _ HG). auto with datatypes. }
  constructor; auto.
  - intros a b c Ha Hb Hc. apply (grp_assoc _ _ _ HG); auto.
  - intros a Ha. apply (grp_id_l _ _ _ HG); auto.
  - intros a Ha. apply (grp_id_r _ _ _ HG); auto.
  - intros a Ha. destruct (Hsurj a e Ha He) as (b & Hb & Hab).
    exists b. split; [exact Hb|]. split; [exact Hab|].
    apply grp_right_inv_unique; auto.
Qed.

End Laws.

(** [self.abelian] as [__init__] computes it *)
Definition abelian_check (S : list E) (f : E * E -> E) : bool :=
  forallb (fun '(a, b) => py_eqb (f (a, b)) (f (b, a))) (list_prod S S).

(** A Group object whose fields obey the group axioms: what
    [__init__] is meant to guarantee. *)
Record valid_Group (G : Group E) : Prop := mk_valid_Group
  { vg_group : is_group (Set_ G) (function (bin_op G)) (e_elem G);
    vg_dom_NoDup : NoDup (domain (bin_op G));
    vg_dom : AlgSet.eqb (domain (bin_op G)) (AlgSet.prod (Set_ G) (Set_ G)) = true;
    vg_cod : AlgSet.eqb (codomain (bin_op G)) (Set_ G) = true;
    vg_abelian : abelian G = abelian_check (Set_ G) (function (bin_op G)) }.

End GroupTheory.

Lemma NoDup_list_prod {A B} (l : list A) (l' : list B) :
  NoDup l -> NoDup l' -> NoDup (list_prod l l').
Proof.
  intros Hl Hl'. induction Hl as [|a l Ha Hl IH]; simpl; [constructor|].
  apply NoDup_app; [| exact IH |].
  - apply NoDup_map_on; [|exact Hl']. intros x y _ _ [= ->]. reflexivity.
  - intros [x y] Hxy Hin. apply in_map_iff in Hxy. destruct Hxy as (z & [= <- <-] & _).
    apply in_prod_iff in Hin. tauto.
Qed.

(** ** What [Group.__init__] accepts *)

Section GroupInitFacts.
Context {E : Type} `{PyEqOk E}.

Variables (S : list E) (F : Function (E * E) E).
Hypothesis HS : NoDup S.
Hypothesis HD : NoDup (domain F).
Hypothesis HDS : AlgSet.eqb (domain F) (AlgSet.prod S S) = true.

Lemma domain_In a b : In (a, b) (domain F) <-> In a S /\ In b S.
Proof.
  apply eqb_true_iff in HDS; [| exact HD | apply NoDup_list_prod; exact HS].
  destruct HDS as [H1 H2]. unfold AlgSet.prod in *. rewrite <- in_prod_iff.
  split; [apply H1 | apply H2].
Qed.

Lemma Function_call_in a b :
  In a S -> In b S -> Function_call F (a, b) = Ok (function F (a, b)).
Proof.
  intros Ha Hb. unfold Function_call.
  rewrite (proj2 (mem_In (a, b) (domain F))); [reflexivity|].
  apply domain_In. auto.
Qed.

Lemma Function_call_out a b :
  ~ (In a S /\ In b S) -> Function_call F (a, b) = Raise TypeError.
Proof.
  intros Hab. unfold Function_call.
  rewrite (proj2 (mem_not_In (a, b) (domain F))); [reflexivity|].
  rewrite domain_In. exact Hab.
Qed.

Let f := function F.

Lemma find_identity_group e cands :
  is_group S f e -> incl cands S -> In e cands ->
  find_identity F S cands = Ok (Some e).
Proof.
  intros HG. induction cands as [|c cands IH]; simpl; intros Hincl He; [contradiction|].
  assert (Hc : In c S) by (apply Hincl; simpl; auto).
  rewrite (py_all_pure _ (fun a => py_eqb (f (c, a)) a)).
  2:{ intros a Ha. rewrite Function_call_in by auto. reflexivity. }
  simpl. destruct (forallb _ S) eqn:Hall.
  - f_equal. f_equal. apply (grp_left_id_unique S f e HG); auto.
    intros a Ha. rewrite forallb_forall in Hall. apply py_eqb_eq, Hall, Ha.
  - destruct He as [->|He].
    + exfalso. assert (Ht : forallb (fun a => py_eqb (f (e, a)) a) S = true).
      { apply forallb_forall. intros a Ha. apply py_eqb_eq, (grp_id_l _ _ _ HG), Ha. }
      congruence.
    + apply IH; auto. intros x Hx. apply Hincl. simpl. auto.
Qed.

(** [__init__] accepts every group and records its identity. *)
Lemma Group_init_group e :
  is_group S f e -> AlgSet.eqb (codomain F) S = true ->
  Group_init (PySet S) (PyFunction F) = Ok (mkGroup (abelian_check S f) S e F).
Proof.
  intros HG HC. unfold Group_init. rewrite HC, HDS. simpl.
  rewrite (py_all_pure _ (fun '(a, b, c) => py_eqb (f (a, f (b, c))) (f (f (a, b), c)))).
  2:{ intros [[a b] c] Hin. unfold product3 in Hin.
      apply in_prod_iff in Hin. destruct Hin as [Hab Hc].
      apply in_prod_iff in Hab. destruct Hab as [Ha Hb].
      rewrite (Function_call_in b c) by auto. simpl.
      rewrite (Function_call_in a) by (auto; apply (grp_closed _ _ _ HG); auto). simpl.
      rewrite (Function_call_in a b) by auto. simpl.
      rewrite (Function_call_in _ c) by (auto; apply (grp_closed _ _ _ HG); auto).
      reflexivity. }
  rewrite (proj2 (forallb_forall _ _)).
  2:{ intros [[a b] c] Hin. unfold product3 in Hin.
      apply in_prod_iff in Hin. destruct Hin as [Hab Hc].
      apply in_prod_iff in Hab. destruct Hab as [Ha Hb].
      apply py_eqb_eq, (grp_assoc _ _ _ HG); auto. }
  simpl. rewrite (find_identity_group e S HG (incl_refl S) (grp_e _ _ _ HG)).
  simpl.
  rewrite (py_all_pure _ (fun a => existsb (fun b => py_eqb (f (a, b)) e) S)).
  2:{ intros a Ha. apply py_any_pure. intros b Hb.
      rewrite Function_call_in by auto. reflexivity. }
  rewrite (proj2 (forallb_forall _ _)).
  2:{ intros a Ha. apply existsb_exists.
      destruct (grp_inv _ _ _ HG a Ha) as (b & Hb & Hab & _).
      exists b. split; [exact Hb | apply py_eqb_eq, Hab]. }
  simpl.
  rewrite (py_all_pure _ (fun '(a, b) => py_eqb (f (a, b)) (f (b, a)))).
  2:{ intros [a b] Hin. apply in_prod_iff in Hin. destruct Hin as [Ha Hb].
      rewrite !Function_call_in by auto. reflexivity. }
  reflexivity.
Qed.

End GroupInitFacts.

Section ValidGroupFacts.
Context {E : Type} `{PyEqOk E}.

(** The constructor accepts a valid Group and returns it. *)
Lemma valid_Group_init (G : Group E) :
  valid_Group G -> Group_init (PySet (Set_ G)) (PyFunction (bin_op G)) = Ok G.
Proof.
  intros [HG HD HDS HC Hab].
  rewrite (Group_init_group _ _ (grp_NoDup _ _ _ HG) HD HDS _ HG HC).
  destruct G; simpl in *. rewrite Hab. reflexivity.
Qed.

(** A group given by its elements, operation and identity, as the
    constructor builds it from [AlgSet(S)] and
    [Function(S * S, S, f)]. *)
Definition Group_of (S : list E) (f : E * E -> E) (e : E) : Group E :=
  mkGroup (abelian_check S f) S e (mkFunction (AlgSet.prod S S) S f).

Lemma Group_of_valid S f e : is_group S f e -> valid_Group (Group_of S f e).
Proof.
  intros HG. pose proof (grp_NoDup _ _ _ HG) as HS.
  constructor; simpl; auto.
  - apply NoDup_list_prod; exact HS.
  - apply eqb_refl.
  - apply eqb_refl.
Qed.

End ValidGroupFacts.

(** ** Exponentiation of group elements *)

(** The numbers that reach [GroupElem.__pow__]: an int, or the float that
    [n / 2] produces. *)
Inductive pynum : Type :=
| PyInt (n : Z)
| PyFloat (q : Q).

(** [n / 2] on an int [n] is true division: a float, or [OverflowError]
    when the quotient rounds beyond the largest double. *)
Definition double_overflow : Z := (2 ^ 1024 - 2 ^ 970)%Z.

Definition int_truediv_2 (n : Z) : result Q :=
  if (2 * double_overflow <=? Z.abs n)%Z then Raise OverflowError
  else Ok (n # 2)%Q.

Definition pow_measure (n : pynum) : nat :=
  match n with
  | PyInt z => 2 * Z.abs_nat z + (if (z <? 0)%Z then 1 else 0)
  | PyFloat _ => 0
  end.

Section Pow.
Context {E : Type} `{PyEq E}.

(** [GroupElem.__pow__] *)
Equations? GroupElem_pow (self : GroupElem E) (n : pynum) : result (GroupElem E)
  by wf (pow_measure n) lt :=
  GroupElem_pow self (PyFloat _) := Raise TypeError;
  GroupElem_pow self (PyInt n) with Z.eq_dec n 0 := {
    | left _ := Ok (e (group self));
    | right _ with Z_lt_dec n 0 := {
      | left _ :=
          i <- Group_inverse (group self) self ;;
          GroupElem_pow i (PyInt (- n));
      | right _ with bool_dec (n mod 2 =? 1)%Z true := {
        | left _ :=
            r <- GroupElem_pow self (PyInt (n - 1)) ;;
            GroupElem_mul self r;
        | right _ :=
            s <- GroupElem_mul self self ;;
            q <- int_truediv_2 n ;;
            GroupElem_pow s (PyFloat q) } } }.
Proof.
  all: clear GroupElem_pow; unfold pow_measure.
  - destruct (Z.ltb_spec (- n) 0); destruct (Z.ltb_spec n 0); lia.
  - destruct (Z.ltb_spec (n - 1) 0); destruct (Z.ltb_spec n 0); lia.
  - destruct (Z.ltb_spec n 0); lia.
Qed.

End Pow.

(** ** The standard families *)

(** [range(n)] *)
Definition py_range (n : Z) : list Z := map Z.of_nat (seq 0 (Z.to_nat n)).

(** [Zn(n)] *)
Definition Zn (n : Z) : result (Group Z) :=
  let G := AlgSet.of_list (py_range n) in
  let bin_op := mkFunction (AlgSet.prod G G) G (fun x => ((fst x + snd x) mod n)%Z) in
  Group_init (PySet G) (PyFunction bin_op).

(** ** Facts about AlgSet that hold for every [==] *)

Section AlgSetAny.
Context {B : Type} `{PyEq B}.

Lemma In_add_inv (s : list B) (x y : B) : In y (AlgSet.add s x) -> In y s \/ y = x.
Proof.
  unfold AlgSet.add. destruct (AlgSet.mem x s); [auto|].
  rewrite in_app_iff. simpl. intuition.
Qed.

Lemma In_union_inv (a b : list B) (y : B) : In y (AlgSet.union a b) -> In y a \/ In y b.
Proof.
  unfold AlgSet.union. revert a. induction b as [|x b IH]; simpl; intros a Hy; [auto|].
  apply IH in Hy. destruct Hy as [Hy|Hy]; [|auto].
  apply In_add_inv in Hy. intuition.
Qed.

Lemma In_of_list_inv (l : list B) (y : B) : In y (AlgSet.of_list l) -> In y l.
Proof. intros Hy. apply (In_union_inv [] l) in Hy. simpl in Hy. tauto. Qed.

Lemma incl_add (s : list B) (x : B) : incl s (AlgSet.add s x).
Proof.
  unfold AlgSet.add. destruct (AlgSet.mem x s); [apply incl_refl | apply incl_appl, incl_refl].
Qed.

Lemma incl_union_l (a b : list B) : incl a (AlgSet.union a b).
Proof.
  unfold AlgSet.union. revert a. induction b as [|x b IH]; simpl; intros a; [apply incl_refl|].
  eapply incl_tran; [apply incl_add | apply IH].
Qed.

End AlgSetAny.

(** ** Sets of values compared through a key *)

(** Wrapped elements are compared by the element they wrap, and groups by
    their sets: a set of such values is a set of their keys. *)
Section KeyedSets.
Context {B A : Type} `{PyEq B} `{PyEqOk A}.
Variable key : B -> A.

Definition keyed (l : list B) : Prop :=
  forall x y, In x l -> In y l -> py_eqb x y = py_eqb (key x) (key y).

Lemma keyed_incl (l l' : list B) : incl l l' -> keyed l' -> keyed l.
Proof. intros Hi Hk x y Hx Hy. apply Hk; apply Hi; assumption. Qed.

Lemma mem_key (x : B) (s : list B) :
  keyed (x :: s) -> AlgSet.mem x s = AlgSet.mem (key x) (map key s).
Proof.
  intros Hk. unfold AlgSet.mem.
  induction s as [|y s IH]; simpl; [reflexivity|].
  rewrite IH.
  - rewrite (Hk x y); simpl; auto.
  - apply (keyed_incl _ (x :: y :: s)); [|exact Hk].
    intros z [<-|Hz]; simpl; auto.
Qed.

Lemma map_key_add (s : list B) (x : B) :
  keyed (x :: s) -> map key (AlgSet.add s x) = AlgSet.add (map key s) (key x).
Proof.
  intros Hk. unfold AlgSet.add. rewrite mem_key by exact Hk.
  destruct (AlgSet.mem (key x) (map key s)); [reflexivity|].
  rewrite map_app. reflexivity.
Qed.

Lemma map_key_union (a b : list B) :
  keyed (a ++ b) -> map key (AlgSet.union a b) = AlgSet.union (map key a) (map key b).
Proof.
  unfold AlgSet.union. revert a. induction b as [|x b IH]; simpl; intros a Hk.
  - reflexivity.
  - rewrite IH, map_key_add; [reflexivity | |].
    + apply (keyed_incl _ (a ++ x :: b)); [|exact Hk].
      intros z [<-|Hz]; apply in_or_app; simpl; auto.
    + apply (keyed_incl _ (a ++ x :: b)); [|exact Hk].
      intros z Hz. apply in_app_or in Hz. destruct Hz as [Hz|Hz].
      * apply In_add_inv in Hz. apply in_or_app. simpl. intuition.
      * apply in_or_app. simpl. auto.
Qed.

Lemma map_key_of_list (l : list B) :
  keyed l -> map key (AlgSet.of_list l) = AlgSet.of_list (map key l).
Proof. intros Hk. apply (map_key_union [] l). exact Hk. Qed.

Lemma union_fresh_keys (a b : list B) :
  keyed (a ++ b) -> NoDup (map key (a ++ b)) -> AlgSet.union a b = a ++ b.
Proof.
  unfold AlgSet.union. revert a. induction b as [|x b IH]; simpl; intros a Hk Hnd.
  - rewrite app_nil_r. reflexivity.
  - assert (Hx : AlgSet.mem x a = false).
    { rewrite mem_key.
      - apply mem_not_In. intros Hin.
        rewrite map_app in Hnd. simpl in Hnd.
        apply NoDup_remove_2 in Hnd. apply Hnd. apply in_or_app. auto.
      - apply (keyed_incl _ (a ++ x :: b)); [|exact Hk].
        intros z [<-|Hz]; apply in_or_app; simpl; auto. }
    unfold AlgSet.add at 2. rewrite Hx.
    rewrite IH; rewrite <- app_assoc; simpl; [reflexivity | exact Hk | exact Hnd].
Qed.

Lemma subset_key (a b : list B) :
  keyed (a ++ b) -> AlgSet.subset a b = AlgSet.subset (map key a) (map key b).
Proof.
  unfold AlgSet.subset. induction a as [|x a IH]; simpl; intros Hk; [reflexivity|].
  rewrite IH, mem_key; [reflexivity | |].
  - apply (keyed_incl _ (x :: a ++ b)); [|exact Hk].
    intros z [<-|Hz]; simpl; auto. right. apply in_or_app. auto.
  - apply (keyed_incl _ (x :: a ++ b)); [|exact Hk].
    intros z Hz. simpl. auto.
Qed.

Lemma eqb_key (a b : list B) :
  keyed (a ++ b) -> AlgSet.eqb a b = AlgSet.eqb (map key a) (map key b).
Proof.
  intros Hk. unfold AlgSet.eqb, AlgSet.len.
  rewrite subset_key, !length_map by exact Hk. reflexivity.
Qed.

End KeyedSets.

(** ** Elements of a group and their products *)

Section ElemFacts.
Context {E : Type} `{PyEqOk E}.

Lemma mem_elem (x : GroupElem E) (s : list (GroupElem E)) :
  AlgSet.mem x s = AlgSet.mem (elem x) (map elem s).
Proof. apply mem_key. intros u v _ _. reflexivity. Qed.

Lemma map_elem_add (s : list (GroupElem E)) (x : GroupElem E) :
  map elem (AlgSet.add s x) = AlgSet.add (map elem s) (elem x).
Proof. apply map_key_add. intros u v _ _. reflexivity. Qed.

Lemma map_elem_union (a b : list (GroupElem E)) :
  map elem (AlgSet.union a b) = AlgSet.union (map elem a) (map elem b).
Proof. apply map_key_union. intros u v _ _. reflexivity. Qed.

Lemma map_elem_of_list (l : list (GroupElem E)) :
  map elem (AlgSet.of_list l) = AlgSet.of_list (map elem l).
Proof. apply map_key_of_list. intros u v _ _. reflexivity. Qed.

Lemma union_fresh_elems (a b : list (GroupElem E)) :
  NoDup (map elem (a ++ b)) -> AlgSet.union a b = a ++ b.
Proof. apply union_fresh_keys. intros u v _ _. reflexivity. Qed.

Lemma subset_elem (a b : list (GroupElem E)) :
  AlgSet.subset a b = AlgSet.subset (map elem a) (map elem b).
Proof. apply subset_key. intros u v _ _. reflexivity. Qed.

Lemma eqb_elem (a b : list (GroupElem E)) :
  AlgSet.eqb a b = AlgSet.eqb (map elem a) (map elem b).
Proof. apply eqb_key. intros u v _ _. reflexivity. Qed.

Variable G : Group E.
Hypothesis HG : valid_Group G.

Let S := Set_ G.
Let f := function (bin_op G).

(** The wrapper of [x] owned by [G] *)
Definition own (x : E) : GroupElem E := mkGroupElem x G.

Lemma valid_NoDup : NoDup (Set_ G).
Proof. exact (grp_NoDup _ _ _ (vg_group G HG)). Qed.

Lemma group_elems_own : group_elems G = map own (Set_ G).
Proof.
  unfold group_elems. apply (union_fresh_elems []). simpl.
  rewrite map_map. simpl. rewrite map_id. exact valid_NoDup.
Qed.

Lemma call_op a b : In a S -> In b S -> Function_call (bin_op G) (a, b) = Ok (f (a, b)).
Proof.
  apply Function_call_in; [exact valid_NoDup | apply (vg_dom_NoDup G HG) | apply (vg_dom G HG)].
Qed.

Lemma op_closed a b : In a S -> In b S -> In (f (a, b)) S.
Proof. apply (grp_closed _ _ _ (vg_group G HG)). Qed.

Lemma GroupElem_init_own x : In x S -> GroupElem_init x G = Ok (own x).
Proof.
  intros Hx. unfold GroupElem_init.
  rewrite (proj2 (mem_In x (Set_ G)) Hx). reflexivity.
Qed.

(** The product of two elements owned by [G] is the operation of [G]. *)
Lemma mul_own a b :
  In a S -> In b S -> GroupElem_mul (own a) (own b) = Ok (own (f (a, b))).
Proof.
  intros Ha Hb. unfold GroupElem_mul. simpl.
  rewrite call_op by assumption. simpl.
  rewrite GroupElem_init_own by (apply op_closed; assumption). reflexivity.
Qed.

Lemma filter_own (l : list E) :
  filter (fun g => negb (py_eqb g (e G))) (map own l)
  = map own (filter (fun x => negb (py_eqb x (e_elem G))) l).
Proof.
  induction l as [|x l IH]; [reflexivity|].
  cbn [map filter]. rewrite IH.
  change (py_eqb (own x) (e G)) with (py_eqb x (e_elem G)).
  destruct (py_eqb x (e_elem G)); reflexivity.
Qed.

Lemma Group_iter_own :
  Group_iter G = own (e_elem G) :: map own (filter (fun x => negb (py_eqb x (e_elem G))) S).
Proof.
  unfold Group_iter. rewrite group_elems_own, filter_own. reflexivity.
Qed.

End ElemFacts.

(** ** A decision procedure for the group axioms on concrete groups *)

Section GroupCheck.
Context {E : Type} `{PyEqOk E}.

Fixpoint nodup_b (l : list E) : bool :=
  match l with
  | [] => true
  | x :: l' => negb (AlgSet.mem x l') && nodup_b l'
  end.

Definition is_group_b (S : list E) (f : E * E -> E) (e : E) : bool :=
  nodup_b S && AlgSet.mem e S
  && forallb (fun '(a, b) => AlgSet.mem (f (a, b)) S) (list_prod S S)
  && forallb (fun '(a, b, c) => py_eqb (f (a, f (b, c))) (f (f (a, b), c))) (product3 S S S)
  && forallb (fun a => py_eqb (f (e, a)) a && py_eqb (f (a, e)) a) S
  && forallb (fun a => existsb (fun b => py_eqb (f (a, b)) e && py_eqb (f (b, a)) e) S) S.

Lemma nodup_b_NoDup (l : list E) : nodup_b l = true -> NoDup l.
Proof.
  induction l as [|x l IH]; simpl; intros Hl; [constructor|].
  apply andb_true_iff in Hl. destruct Hl as [Hx Hl].
  constructor; [|auto]. apply mem_not_In. apply negb_true_iff, Hx.
Qed.

Lemma is_group_b_ok (S : list E) (f : E * E -> E) (e : E) :
  is_group_b S f e = true -> is_group S f e.
Proof.
  unfold is_group_b. rewrite !andb_true_iff.
  intros [[[[[Hnd He] Hcl] Has] Hid] Hinv].
  rewrite forallb_forall in Hcl, Has, Hid, Hinv.
  constructor.
  - apply nodup_b_NoDup, Hnd.
  - apply mem_In, He.
  - intros a b Ha Hb. apply mem_In. apply (Hcl (a, b)). apply in_prod; assumption.
  - intros a b c Ha Hb Hc. apply py_eqb_eq. apply (Has (a, b, c)).
    unfold product3. apply in_prod; [apply in_prod|]; assumption.
  - intros a Ha. specialize (Hid a Ha). apply andb_true_iff in Hid.
    apply py_eqb_eq. tauto.
  - intros a Ha. specialize (Hid a Ha). apply andb_true_iff in Hid.
    apply py_eqb_eq. tauto.
  - intros a Ha. specialize (Hinv a Ha). apply existsb_exists in Hinv.
    destruct Hinv as (b & Hb & Hab). apply andb_true_iff in Hab.
    exists b. rewrite <- !py_eqb_eq. tauto.
Qed.

End GroupCheck.

(** The cyclic group of order 3, as [Zn(3)] builds it. *)
Definition Z3 : Group Z := Group_of [0; 1; 2]%Z (fun x => ((fst x + snd x) mod 3)%Z) 0%Z.

Lemma Zn_3 : Zn 3 = Ok Z3.
Proof. reflexivity. Qed.

Lemma Z3_valid : valid_Group Z3.
Proof. apply Group_of_valid, is_group_b_ok. reflexivity. Qed.

(** The cyclic group of order 6, as [Zn(6)] builds it. *)
Definition Z6 : Group Z :=
  Group_of [0; 1; 2; 3; 4; 5]%Z (fun x => ((fst x + snd x) mod 6)%Z) 0%Z.

Lemma Zn_6 : Zn 6 = Ok Z6.
Proof. reflexivity. Qed.

Lemma Z6_valid : valid_Group Z6.
Proof. apply Group_of_valid, is_group_b_ok. reflexivity. Qed.

(** ** Iteration and inverses *)

Section IterInverse.
Context {E : Type} `{PyEqOk E}.
Variable G : Group E.
Hypothesis HG : valid_Group G.

Let S := Set_ G.
Let f := function (bin_op G).
Let e0 := e_elem G.

Lemma inverse_search_own (x : E) (l : list E) :
  In x S -> incl l S -> (exists b, In b l /\ f (x, b) = e0) ->
  exists b, In b l /\ f (x, b) = e0 /\
            inverse_search G (own G x) (map (own G) l) = Ok (own G b).
Proof.
  intros Hx. induction l as [|a l IH]; intros Hincl (b & Hb & Hxb); [contradiction|].
  assert (Ha : In a S) by (apply Hincl; simpl; auto).
  simpl. rewrite (mul_own G HG) by assumption. simpl.
  change (py_eqb (own G (function (bin_op G) (x, a))) (e G)) with (py_eqb (f (x, a)) e0).
  destruct (py_eqb (f (x, a)) e0) eqn:Hxa.
  - exists a. apply py_eqb_eq in Hxa. simpl. auto.
  - apply py_eqb_neq in Hxa. destruct Hb as [->|Hb]; [contradiction|].
    destruct IH as (b' & Hb' & Hxb' & Hs).
    + intros y Hy. apply Hincl. simpl. auto.
    + eauto.
    + exists b'. simpl. auto.
Qed.

Lemma iter_elems_perm :
  exists rest, Group_iter G = map (own G) (e0 :: rest) /\
    ~ In e0 rest /\ NoDup (e0 :: rest) /\ (forall x, In x (e0 :: rest) <-> In x S).
Proof.
  exists (filter (fun x => negb (py_eqb x e0)) S).
  pose proof (valid_NoDup G HG) as Hnd.
  pose proof (grp_e _ _ _ (vg_group G HG)) as He.
  assert (Hnot : ~ In e0 (filter (fun x => negb (py_eqb x e0)) S)).
  { rewrite filter_In, negb_true_iff, py_eqb_neq. tauto. }
  split; [apply Group_iter_own, HG|]. split; [exact Hnot|]. split.
  - constructor; [exact Hnot | apply NoDup_filter, Hnd].
  - intros x. simpl. rewrite filter_In, negb_true_iff, py_eqb_neq.
    destruct (py_eq_dec x e0) as [->|Hne]; [tauto|].
    split; [intros [Heq|[? _]]; [congruence|assumption] | auto].
Qed.

End IterInverse.

(** ** The defining equations of [GroupElem_pow] *)

Section PowFacts.
Context {E : Type} `{PyEq E}.

Lemma pow_float (g : GroupElem E) (q : Q) :
  GroupElem_pow g (PyFloat q) = Raise TypeError.
Proof. apply GroupElem_pow_equation_2. Qed.

(** [__pow__] on an int, branch by branch as in the source. *)
Lemma pow_int (self : GroupElem E) (n : Z) :
  GroupElem_pow self (PyInt n) =
  if (n =? 0)%Z then Ok (e (group self))
  else if (n <? 0)%Z then
    i <- Group_inverse (group self) self ;; GroupElem_pow i (PyInt (- n))
  else if (n mod 2 =? 1)%Z then
    r <- GroupElem_pow self (PyInt (n - 1)) ;; GroupElem_mul self r
  else
    s <- GroupElem_mul self self ;; q <- int_truediv_2 n ;; GroupElem_pow s (PyFloat q).
Proof.
  rewrite GroupElem_pow_equation_1.
  unfold GroupElem_pow_unfold_clause_2, GroupElem_pow_unfold_clause_2_clause_2,
    GroupElem_pow_unfold_clause_2_clause_2_clause_2.
  destruct (Z.eq_dec n 0) as [->|Hn]; [reflexivity|].
  rewrite (proj2 (Z.eqb_neq n 0) Hn).
  destruct (Z_lt_dec n 0) as [Hlt|Hge].
  - rewrite (proj2 (Z.ltb_lt n 0) Hlt). reflexivity.
  - rewrite (proj2 (Z.ltb_ge n 0)) by lia.
    destruct (bool_dec (n mod 2 =? 1)%Z true) as [Ho|He].
    + rewrite Ho. reflexivity.
    + apply not_true_is_false in He. rewrite He. reflexivity.
Qed.

(** A positive even exponent never gives a result: [n / 2] is a float (or
    overflows), and [__pow__] refuses a float. *)
Lemma pow_even_fails (g : GroupElem E) (n : Z) :
  (0 < n)%Z -> (n mod 2 = 0)%Z -> forall r, GroupElem_pow g (PyInt n) <> Ok r.
Proof.
  intros Hpos Hev r. rewrite pow_int.
  rewrite (proj2 (Z.eqb_neq n 0)) by lia.
  rewrite (proj2 (Z.ltb_ge n 0)) by lia.
  rewrite Hev. simpl.
  destruct (GroupElem_mul g g); simpl; try discriminate.
  destruct (int_truediv_2 n); simpl; try discriminate.
  all: rewrite ?pow_float; discriminate.
Qed.

(** Every exponent other than -1, 0 and 1 fails. *)
Lemma pow_fails (g : GroupElem E) (n : Z) :
  (n < -1 \/ 1 < n)%Z -> forall r, GroupElem_pow g (PyInt n) <> Ok r.
Proof.
  assert (Hpos : forall g n, (1 < n)%Z -> forall r, GroupElem_pow g (PyInt n) <> Ok r).
  { clear g n. intros g n Hn r.
    destruct (Z.eq_dec (n mod 2) 0) as [Hev|Hodd]; [apply pow_even_fails; lia|].
    assert (Hmod : (n mod 2 = 1)%Z) by (pose proof (Z.mod_pos_bound n 2); lia).
    rewrite pow_int.
    rewrite (proj2 (Z.eqb_neq n 0)) by lia.
    rewrite (proj2 (Z.ltb_ge n 0)) by lia.
    rewrite Hmod. simpl.
    destruct (GroupElem_pow g (PyInt (n - 1))) eqn:Hrec; simpl; try discriminate.
    exfalso. apply (pow_even_fails g (n - 1)) in Hrec; [exact Hrec | lia |].
    rewrite Zminus_mod, Hmod. reflexivity. }
  intros [Hneg|Hbig] r; [|apply Hpos; exact Hbig].
  rewrite pow_int.
  rewrite (proj2 (Z.eqb_neq n 0)) by lia.
  rewrite (proj2 (Z.ltb_lt n 0)) by lia.
  destruct (Group_inverse (group g) g); simpl; try discriminate.
  apply Hpos. lia.
Qed.

End PowFacts.

(** ** An operation with left identities and right inverses only *)

(** [Group(G, Function(G * G, G, lambda x: x[1]))] for [G = AlgSet([0, 1])]:
    the operation returns its second argument. *)
Definition second_arg_op : Function (Z * Z) Z :=
  let G := AlgSet.of_list [0; 1]%Z in
  mkFunction (AlgSet.prod G G) G (fun x => snd x).

Definition second_arg_Group : result (Group Z) :=
  Group_init (PySet (AlgSet.of_list [0; 1]%Z)) (PyFunction second_arg_op).

(** ** Subgroup generation *)

(** An item of the iterable given to [generate]: a GroupElem, or a value
    that [generate] wraps first. *)
Inductive gen_item (E : Type) : Type :=
| Wrapped (g : GroupElem E)
| Raw (x : E).

Arguments Wrapped {E} g.
Arguments Raw {E} x.

Section Generate.
Context {E : Type} `{PyEq E}.

(** The [while True] loop of [generate]; [fuel] bounds its rounds. *)
Fixpoint generate_loop (fuel : nat) (oldG : AlgSet.t (GroupElem E))
    : result (AlgSet.t (GroupElem E)) :=
  match fuel with
  | O => Diverge
  | S fuel' =>
      prods <- py_map (fun '(a, b) => GroupElem_mul a b) (list_prod oldG oldG) ;;
      let newG := AlgSet.union oldG (AlgSet.of_list prods) in
      if AlgSet.eqb oldG newG then Ok oldG else generate_loop fuel' newG
  end.

(** [Group.generate] *)
Definition generate (fuel : nat) (self : Group E) (elems : list (gen_item E))
    : result (Group E) :=
  elems <- py_map (fun g => match g with
                            | Wrapped g => Ok g
                            | Raw x => GroupElem_init x self
                            end) elems ;;
  let elems := AlgSet.of_list elems in
  if negb (AlgSet.subset elems (group_elems self)) then Raise ValueError else
  if Nat.eqb (AlgSet.len elems) 0 then Raise ValueError else
  oldG <- generate_loop fuel elems ;;
  let oldG := AlgSet.of_list (map elem oldG) in
  Group_init (PySet oldG)
             (PyFunction (new_domains (bin_op self) (AlgSet.prod oldG oldG) oldG)).

(** [GroupElem.order] *)
Definition GroupElem_order (fuel : nat) (self : GroupElem E) : result nat :=
  H <- generate fuel (group self) [Wrapped self] ;; Ok (Group_len H).

(** [Group.is_cyclic] *)
Definition is_cyclic (fuel : nat) (self : Group E) : result bool :=
  py_any (fun g => n <- GroupElem_order fuel g ;; Ok (Nat.eqb n (Group_len self)))
         (Group_iter self).

End Generate.

(** ** The closure of a list of elements under an operation *)

Section Closure.
Context {E : Type} `{PyEqOk E}.
Variable f : E * E -> E.

(** One round of the loop on the wrapped values. *)
Definition closure_step (L : list E) : list E :=
  AlgSet.union L (AlgSet.of_list (map f (list_prod L L))).

Fixpoint closure_loop (fuel : nat) (L : list E) : option (list E) :=
  match fuel with
  | O => None
  | S fuel' =>
      let L' := closure_step L in
      if AlgSet.eqb L L' then Some L else closure_loop fuel' L'
  end.

(** The elements obtained from [L] by products. *)
Inductive generated (L : list E) : E -> Prop :=
| gen_base x : In x L -> generated L x
| gen_mul a b : generated L a -> generated L b -> generated L (f (a, b)).

Definition closed (K : list E) : Prop :=
  forall a b, In a K -> In b K -> In (f (a, b)) K.

Lemma generated_closed (L K : list E) :
  incl L K -> closed K -> forall x, generated L x -> In x K.
Proof.
  intros HLK HK x Hx. induction Hx as [x Hx|a b _ IHa _ IHb]; auto.
Qed.

Lemma generated_mono (L L' : list E) :
  (forall x, In x L -> generated L' x) -> forall x, generated L x -> generated L' x.
Proof.
  intros HL x Hx. induction Hx as [x Hx|a b _ IHa _ IHb]; [auto | apply gen_mul; auto].
Qed.

Lemma In_closure_step (L : list E) (x : E) :
  In x (closure_step L) <-> In x L \/ exists a b, In a L /\ In b L /\ x = f (a, b).
Proof.
  unfold closure_step. rewrite In_union, In_of_list, in_map_iff. split.
  - intros [Hx|([a b] & Hab & Hin)]; [auto|]. right.
    apply in_prod_iff in Hin. exists a, b. intuition.
  - intros [Hx|(a & b & Ha & Hb & ->)]; [auto|]. right.
    exists (a, b). split; [reflexivity | apply in_prod; assumption].
Qed.

Lemma NoDup_closure_step (L : list E) : NoDup L -> NoDup (closure_step L).
Proof. apply NoDup_union. Qed.

Lemma closure_step_fix (L : list E) :
  NoDup L -> (AlgSet.eqb L (closure_step L) = true <-> closed L).
Proof.
  intros HL. rewrite eqb_true_iff by auto using NoDup_closure_step. split.
  - intros [_ Hback] a b Ha Hb. apply Hback, In_closure_step. right. eauto.
  - intros Hcl. split.
    + intros x Hx. apply In_closure_step. auto.
    + intros x Hx. apply In_closure_step in Hx.
      destruct Hx as [Hx|(a & b & Ha & Hb & ->)]; auto.
Qed.

Lemma closure_step_grows (L : list E) :
  NoDup L -> AlgSet.eqb L (closure_step L) = false ->
  length L < length (closure_step L).
Proof.
  intros HL Hne.
  assert (Hincl : incl L (closure_step L)).
  { intros x Hx. apply In_closure_step. auto. }
  pose proof (NoDup_incl_length HL Hincl) as Hle.
  destruct (Nat.eq_dec (length L) (length (closure_step L))) as [Heq|]; [|lia].
  exfalso. unfold AlgSet.eqb, AlgSet.len in Hne.
  rewrite Heq, Nat.eqb_refl in Hne. simpl in Hne.
  rewrite (proj2 (subset_incl _ _) Hincl) in Hne. discriminate.
Qed.

(** The loop ends within the rounds that a closed list [S] leaves. *)
Lemma closure_loop_spec (S : list E) (fuel : nat) (L : list E) :
  closed S -> NoDup L -> incl L S ->
  length S - length L < fuel ->
  exists R, closure_loop fuel L = Some R /\
    NoDup R /\ incl L R /\ incl R S /\ closed R /\
    (forall x, In x R -> generated L x).
Proof.
  intros HS. revert L. induction fuel as [|fuel IH]; intros L HL HLS Hfuel; [lia|].
  simpl. destruct (AlgSet.eqb L (closure_step L)) eqn:Heq.
  - exists L. apply closure_step_fix in Heq; [|exact HL].
    repeat split; auto using incl_refl. intros x Hx. apply gen_base, Hx.
  - pose proof (closure_step_grows L HL Heq) as Hgrow.
    assert (HLS' : incl (closure_step L) S).
    { intros x Hx. apply In_closure_step in Hx.
      destruct Hx as [Hx|(a & b & Ha & Hb & ->)]; auto. }
    pose proof (NoDup_incl_length (NoDup_closure_step L HL) HLS') as Hle.
    destruct (IH (closure_step L)) as (R & HR & Hnd & HLR & HRS & Hcl & Hgen);
      auto using NoDup_closure_step; [lia|].
    exists R. repeat split; auto.
    + intros x Hx. apply HLR, In_closure_step. auto.
    + intros x Hx. apply (generated_mono (closure_step L)); [|auto].
      intros y Hy. apply In_closure_step in Hy.
      destruct Hy as [Hy|(a & b & Ha & Hb & ->)];
        [apply gen_base, Hy | apply gen_mul; apply gen_base; assumption].
Qed.

End Closure.

Lemma list_prod_map {A B} (g : A -> B) (a b : list A) :
  list_prod (map g a) (map g b) = map (fun p => (g (fst p), g (snd p))) (list_prod a b).
Proof.
  induction a as [|x a IH]; simpl; [reflexivity|].
  rewrite map_app, IH, !map_map. reflexivity.
Qed.

(** ** Products of wrapped elements owned by a group or one of its subgroups *)

Section Tagged.
Context {E : Type} `{PyEqOk E}.
Variables G K : Group E.
Hypothesis HG : valid_Group G.
Hypothesis HK : valid_Group K.
Hypothesis HKG : incl (Set_ K) (Set_ G).
Hypothesis HKf : forall p, function (bin_op K) p = function (bin_op G) p.

Let S := Set_ G.
Let f := function (bin_op G).

(** A wrapped element owned by [G] or by [K], as [GroupElem.__init__]
    leaves it: its value is in the set of its owner. *)
Definition tagged (x : GroupElem E) : Prop :=
  (group x = G \/ group x = K) /\ In (elem x) (Set_ (group x)).

Lemma tagged_own (x : E) : In x S -> tagged (own G x).
Proof. intros Hx. split; simpl; auto. Qed.

Lemma tagged_In (x : GroupElem E) : tagged x -> In (elem x) S.
Proof. intros [[Hg|Hg] Hx]; rewrite Hg in Hx; auto. Qed.

Lemma mul_tagged (x y : GroupElem E) :
  tagged x -> tagged y ->
  exists z, GroupElem_mul x y = Ok z /\ elem z = f (elem x, elem y) /\ tagged z.
Proof.
  intros Hx Hy. pose proof (tagged_In x Hx) as HxS. pose proof (tagged_In y Hy) as HyS.
  destruct x as [a gx], y as [b gy]. cbn [elem group] in *.
  destruct Hx as [[Hgx|Hgx] Ha]; cbn [elem group] in *; subst gx.
  - exists (own G (f (a, b))). unfold GroupElem_mul. cbn [elem group].
    rewrite (call_op G HG) by assumption. cbn [bind].
    rewrite (GroupElem_init_own G) by (apply (op_closed G HG); assumption).
    repeat split; auto. apply tagged_own, (op_closed G HG); assumption.
  - destruct (AlgSet.mem b (Set_ K)) eqn:Hb.
    + apply mem_In in Hb. exists (own K (f (a, b))). unfold GroupElem_mul. cbn [elem group].
      rewrite (call_op K HK) by assumption. cbn [bind]. rewrite HKf. fold f.
      assert (HfK : In (f (a, b)) (Set_ K)).
      { unfold f. rewrite <- HKf. apply (op_closed K HK); assumption. }
      rewrite (GroupElem_init_own K) by exact HfK.
      repeat split; cbn [elem group own]; auto.
    + apply mem_not_In in Hb. exists (own G (f (a, b))).
      assert (Hgy : gy = G).
      { destruct Hy as [[Hg|Hg] Hb']; cbn [elem group] in *; [exact Hg|]. subst. contradiction. }
      subst gy. unfold GroupElem_mul. cbn [elem group].
      rewrite (Function_call_out (Set_ K) (bin_op K) (valid_NoDup K HK)
                 (vg_dom_NoDup K HK) (vg_dom K HK)) by tauto.
      cbn [bind]. unfold GroupElem_rmul. cbn [elem group].
      rewrite (call_op G HG) by assumption. cbn [bind].
      rewrite (GroupElem_init_own G) by (apply (op_closed G HG); assumption).
      repeat split; auto. apply tagged_own, (op_closed G HG); assumption.
Qed.

Lemma py_map_mul_tagged (l : list (GroupElem E * GroupElem E)) :
  (forall p, In p l -> tagged (fst p) /\ tagged (snd p)) ->
  exists prods,
    py_map (fun '(a, b) => GroupElem_mul a b) l = Ok prods /\
    map elem prods = map (fun p => f (elem (fst p), elem (snd p))) l /\
    Forall tagged prods.
Proof.
  induction l as [|[a b] l IH]; intros Hl.
  - exists []. simpl. auto.
  - destruct (Hl (a, b)) as [Ha Hb]; [simpl; auto|]. simpl in Ha, Hb.
    destruct (mul_tagged a b Ha Hb) as (z & Hz & Hez & Htz).
    destruct IH as (prods & Hp & Hep & Htp); [intros p Hp; apply Hl; simpl; auto|].
    exists (z :: prods). simpl. rewrite Hz. simpl. rewrite Hp. simpl.
    rewrite Hez, Hep. auto.
Qed.

Lemma generate_round_tagged (oldG : list (GroupElem E)) :
  Forall tagged oldG ->
  exists prods,
    py_map (fun '(a, b) => GroupElem_mul a b) (list_prod oldG oldG) = Ok prods /\
    map elem (AlgSet.union oldG (AlgSet.of_list prods)) = closure_step f (map elem oldG) /\
    Forall tagged (AlgSet.union oldG (AlgSet.of_list prods)).
Proof.
  intros Hold. rewrite Forall_forall in Hold.
  destruct (py_map_mul_tagged (list_prod oldG oldG)) as (prods & Hp & Hep & Htp).
  { intros [a b] Hab. apply in_prod_iff in Hab. simpl. split; apply Hold; tauto. }
  exists prods. split; [exact Hp|]. split.
  - rewrite map_elem_union, map_elem_of_list, Hep. unfold closure_step.
    rewrite list_prod_map, map_map. reflexivity.
  - apply Forall_forall. intros z Hz. apply In_union_inv in Hz.
    destruct Hz as [Hz|Hz]; [auto|].
    apply In_of_list_inv in Hz. rewrite Forall_forall in Htp. auto.
Qed.

Lemma generate_loop_tagged (fuel : nat) (oldG : list (GroupElem E)) (R : list E) :
  Forall tagged oldG -> closure_loop f fuel (map elem oldG) = Some R ->
  exists R', generate_loop fuel oldG = Ok R' /\ map elem R' = R /\ Forall tagged R'.
Proof.
  revert oldG. induction fuel as [|fuel IH]; intros oldG Hold Hloop; [discriminate|].
  simpl in *. destruct (generate_round_tagged oldG Hold) as (prods & Hp & He & Ht).
  rewrite Hp. simpl. rewrite eqb_elem, He.
  destruct (AlgSet.eqb (map elem oldG) (closure_step f (map elem oldG))).
  - injection Hloop as <-. exists oldG. auto.
  - apply IH; [exact Ht | rewrite He; exact Hloop].
Qed.

Definition item_elem (it : gen_item E) : E :=
  match it with Wrapped g => elem g | Raw x => x end.

Definition item_ok (it : gen_item E) : Prop :=
  match it with Wrapped g => tagged g | Raw x => In x S end.

Lemma wrap_items (items : list (gen_item E)) :
  Forall item_ok items ->
  exists elems,
    py_map (fun g => match g with
                     | Wrapped g => Ok g
                     | Raw x => GroupElem_init x G
                     end) items = Ok elems /\
    map elem elems = map item_elem items /\ Forall tagged elems.
Proof.
  induction 1 as [|it items Hit _ IH]; [exists []; simpl; auto|].
  destruct IH as (elems & Hp & He & Ht).
  destruct it as [g|x]; simpl in Hit.
  - exists (g :: elems). simpl. rewrite Hp. simpl. rewrite He. auto.
  - exists (own G x :: elems). simpl.
    rewrite (GroupElem_init_own G) by exact Hit. simpl. rewrite Hp. simpl.
    rewrite He. split; [reflexivity|]. split; [reflexivity|].
    constructor; [apply tagged_own, Hit | exact Ht].
Qed.

(** [generate] on items owned by [G] or [K]: the group on the closure of
    the items under the operation. *)
Lemma generate_tagged (fuel : nat) (items : list (gen_item E)) :
  items <> [] -> Forall item_ok items -> length S <= fuel ->
  exists R,
    generate fuel G items = Ok (Group_of R f (e_elem G)) /\
    is_group R f (e_elem G) /\ incl R S /\
    (forall x, In x R <-> generated f (map item_elem items) x).
Proof.
  intros Hne Hok Hfuel.
  destruct (wrap_items items Hok) as (elems & Hp & He & Ht).
  pose proof (vg_group G HG) as Hgrp.
  remember (AlgSet.of_list (map item_elem items)) as L eqn:HLdef.
  assert (HL : NoDup L) by (subst L; apply NoDup_of_list).
  assert (HLS : incl L S).
  { intros x Hx. subst L. apply In_of_list, in_map_iff in Hx. destruct Hx as (it & <- & Hit).
    rewrite Forall_forall in Hok. specialize (Hok it Hit).
    destruct it; simpl in *; [apply tagged_In, Hok | exact Hok]. }
  assert (HLne : L <> []).
  { destruct items as [|it items]; [congruence|]. intros HL0.
    assert (Hin : In (item_elem it) L) by (subst L; apply In_of_list; simpl; auto).
    rewrite HL0 in Hin. contradiction. }
  assert (HlenL : 0 < length L) by (destruct L; [congruence | simpl; lia]).
  assert (Hlen : length S - length L < fuel).
  { pose proof (NoDup_incl_length HL HLS). lia. }
  destruct (closure_loop_spec f S fuel L (grp_closed _ _ _ Hgrp) HL HLS Hlen)
    as (R & HR & HRnd & HLR & HRS & HRcl & HRgen).
  assert (Htl : Forall tagged (AlgSet.of_list elems)).
  { apply Forall_forall. intros z Hz. apply In_of_list_inv in Hz.
    rewrite Forall_forall in Ht. auto. }
  destruct (generate_loop_tagged fuel (AlgSet.of_list elems) R Htl) as (R' & HR' & HeR' & _).
  { rewrite map_elem_of_list, He, <- HLdef. exact HR. }
  assert (HRne : R <> []).
  { intros HR0. pose proof (NoDup_incl_length HL HLR) as HlR.
    rewrite HR0 in HlR. simpl in HlR. lia. }
  exists R. split; [|split; [|split]].
  - unfold generate. rewrite Hp. cbn [bind].
    rewrite subset_elem, map_elem_of_list, He, (group_elems_own G HG), map_map.
    rewrite (map_ext _ id) by reflexivity. rewrite map_id.
    rewrite <- HLdef. rewrite (proj2 (subset_incl L (Set_ G)) HLS). cbn [negb].
    replace (AlgSet.len (AlgSet.of_list elems)) with (length L).
    2:{ unfold AlgSet.len. rewrite HLdef, <- He, <- map_elem_of_list, length_map. reflexivity. }
    destruct (length L) eqn:HlL; [lia|]. cbn [Nat.eqb].
    rewrite HR'. cbn [bind]. rewrite HeR', (of_list_NoDup_id R HRnd).
    unfold new_domains. fold f.
    rewrite (Group_init_group R (mkFunction (AlgSet.prod R R) R f) HRnd
               (NoDup_list_prod R R HRnd HRnd) (eqb_refl _) (e_elem G)).
    + reflexivity.
    + apply (closed_is_group S f (e_elem G) Hgrp); assumption.
    + apply eqb_refl.
  - apply (closed_is_group S f (e_elem G) Hgrp); assumption.
  - exact HRS.
  - intros x. split.
    + intros Hx. apply (generated_mono f L); [|auto].
      intros y Hy. subst L. apply gen_base, In_of_list, Hy.
    + apply generated_closed; [|exact HRcl].
      intros y Hy. apply HLR. subst L. apply In_of_list, Hy.
Qed.

End Tagged.

(** ** [generate] on a group's own elements, and its refusals *)

Section GenerateOwn.
Context {E : Type} `{PyEqOk E}.
Variable G : Group E.

Let S := Set_ G.
Let f := function (bin_op G).

(** An item that is an element of [G]: a value of its set, or a wrapper
    that [G] owns. *)
Definition owned (it : gen_item E) : Prop :=
  match it with
  | Wrapped g => group g = G /\ In (elem g) (Set_ G)
  | Raw x => In x (Set_ G)
  end.

Lemma owned_item_ok (it : gen_item E) : owned it -> item_ok G G it.
Proof.
  destruct it as [g|x]; simpl; [|auto].
  intros [Hg Hx]. split; [auto | rewrite Hg; exact Hx].
Qed.

Definition wrap_item (it : gen_item E) : result (GroupElem E) :=
  match it with
  | Wrapped g => Ok g
  | Raw x => GroupElem_init x G
  end.

Lemma wrap_raw_members (items : list (gen_item E)) :
  (forall x, In (Raw x) items -> In x S) ->
  exists elems, py_map wrap_item items = Ok elems /\
                map elem elems = map item_elem items.
Proof.
  induction items as [|it items IH]; intros Hraw; [exists []; auto|].
  destruct IH as (elems & Hp & He); [intros x Hx; apply Hraw; simpl; auto|].
  destruct it as [g|x]; simpl.
  - exists (g :: elems). rewrite Hp. simpl. rewrite He. auto.
  - assert (Hx : AlgSet.mem x (Set_ G) = true) by (apply mem_In, Hraw; simpl; auto).
    exists (mkGroupElem x G :: elems). unfold GroupElem_init. rewrite Hx. simpl.
    rewrite Hp. simpl. rewrite He. auto.
Qed.

Lemma wrap_raw_stranger (items : list (gen_item E)) :
  (exists x, In (Raw x) items /\ ~ In x S) ->
  py_map wrap_item items = Raise TypeError.
Proof.
  induction items as [|it items IH]; intros (x & Hx & Hxs); [contradiction|].
  destruct it as [g|y]; simpl.
  - rewrite IH; [reflexivity|]. destruct Hx as [Hx|Hx]; [discriminate|eauto].
  - unfold GroupElem_init. destruct (AlgSet.mem y (Set_ G)) eqn:Hy; simpl; [|reflexivity].
    rewrite IH; [reflexivity|]. destruct Hx as [Hx|Hx]; [|eauto].
    injection Hx as ->. apply mem_In in Hy. contradiction.
Qed.

Lemma generate_unfold (fuel : nat) (items : list (gen_item E)) :
  generate fuel G items =
  (elems <- py_map wrap_item items ;;
   let elems := AlgSet.of_list elems in
   if negb (AlgSet.subset elems (group_elems G)) then Raise ValueError else
   if Nat.eqb (AlgSet.len elems) 0 then Raise ValueError else
   oldG <- generate_loop fuel elems ;;
   let oldG := AlgSet.of_list (map elem oldG) in
   Group_init (PySet oldG)
              (PyFunction (new_domains (bin_op G) (AlgSet.prod oldG oldG) oldG))).
Proof. reflexivity. Qed.

Lemma generate_empty (fuel : nat) : generate fuel G [] = Raise ValueError.
Proof. reflexivity. Qed.

Lemma generate_raw_stranger (fuel : nat) (items : list (gen_item E)) :
  (exists x, In (Raw x) items /\ ~ In x S) ->
  generate fuel G items = Raise TypeError.
Proof.
  intros Hx. rewrite generate_unfold, (wrap_raw_stranger items Hx). reflexivity.
Qed.

Hypothesis HG : valid_Group G.

Lemma generate_wrapped_stranger (fuel : nat) (items : list (gen_item E)) :
  (forall x, In (Raw x) items -> In x S) ->
  (exists g, In (Wrapped g) items /\ ~ In (elem g) S) ->
  generate fuel G items = Raise ValueError.
Proof.
  intros Hraw (g & Hg & Hgs).
  destruct (wrap_raw_members items Hraw) as (elems & Hp & He).
  rewrite generate_unfold, Hp. cbn [bind].
  rewrite subset_elem, map_elem_of_list, He, (group_elems_own G HG), map_map.
  rewrite (map_ext _ id) by reflexivity. rewrite map_id.
  destruct (AlgSet.subset _ (Set_ G)) eqn:Hsub; [|reflexivity].
  exfalso. apply subset_incl in Hsub. apply Hgs, Hsub, In_of_list.
  apply (in_map item_elem) in Hg. exact Hg.
Qed.

Lemma generated_identity (x : E) : generated f [e_elem G] x -> x = e_elem G.
Proof.
  induction 1 as [x [<-|[]]|a b _ -> _ ->]; [reflexivity|].
  apply (grp_id_l _ _ _ (vg_group G HG)), (grp_e _ _ _ (vg_group G HG)).
Qed.

End GenerateOwn.

(** ** Generators *)

Section Generators.
Context {E : Type} `{PyEq E} `{Pick E}.

(** The [while len(H) < len(self)] loop of [generators]; [n] bounds its
    rounds and [fuel] those of each [generate]. *)
Fixpoint generators_loop (fuel n : nat) (self : Group E) (gens : list E) (H : Group E)
    : result (list E) :=
  match n with
  | O => Diverge
  | S n' =>
      if Nat.ltb (Group_len H) (Group_len self) then
        x <- pick (AlgSet.diff (Set_ self) (Set_ H)) ;;
        let gens := gens ++ [x] in
        H <- generate fuel self (map Raw gens) ;;
        generators_loop fuel n' self gens H
      else Ok gens
  end.

(** [Group.generators] *)
Definition generators (fuel : nat) (self : Group E) : result (list (GroupElem E)) :=
  let gens := [elem (e self)] in
  H <- generate fuel self (map Raw gens) ;;
  gens <- generators_loop fuel fuel self gens H ;;
  let gens := if negb (Nat.eqb (Group_len self) 1) then tl gens else gens in
  py_map (fun g => GroupElem_init g self) gens.

End Generators.

Section GeneratorsFacts.
Context {E : Type} `{PyEqOk E} `{PickOk E}.
Variable G : Group E.
Hypothesis HG : valid_Group G.

Let S := Set_ G.
Let f := function (bin_op G).
Let e0 := e_elem G.

(** A subgroup that misses an element of a larger one is at most half of
    it: the coset of the element is disjoint from it. *)
Lemma subgroup_doubles (R R' : list E) (x : E) :
  is_group R f e0 -> is_group R' f e0 -> incl R R' -> incl R' S ->
  In x R' -> ~ In x R -> 2 * length R <= length R'.
Proof.
  intros HR HR' HRR' HR'S Hx Hnx.
  pose proof (vg_group G HG) as Hgrp.
  assert (Hnd : NoDup (R ++ map (fun r => f (x, r)) R)).
  { apply NoDup_app.
    - apply (grp_NoDup _ _ _ HR).
    - apply NoDup_map_on; [|apply (grp_NoDup _ _ _ HR)].
      intros a b Ha Hb Hab. apply (grp_cancel_l S f e0 Hgrp x); auto.
    - intros r' Hr' Hin.
      pose proof (fun y Hy => HR'S y (HRR' y Hy)) as HRS. apply in_map_iff in Hin. destruct Hin as (r & Hxr & Hr).
      destruct (grp_inv _ _ _ HR r Hr) as (ri & Hri & Hrri & _).
      apply Hnx. replace x with (f (r', ri)); [apply (grp_closed _ _ _ HR); auto|].
      assert (HxS : In x S) by auto.
      assert (HrS : In r S) by auto.
      assert (HriS : In ri S) by auto.
      transitivity (f (x, f (r, ri))).
      + rewrite <- Hxr. symmetry. apply (grp_assoc _ _ _ Hgrp); auto.
      + rewrite Hrri. apply (grp_id_r _ _ _ Hgrp). auto. }
  assert (Hincl : incl (R ++ map (fun r => f (x, r)) R) R').
  { intros y Hy. apply in_app_or in Hy. destruct Hy as [Hy|Hy]; [auto|].
    apply in_map_iff in Hy. destruct Hy as (r & <- & Hr).
    apply (grp_closed _ _ _ HR'); auto. }
  pose proof (NoDup_incl_length Hnd Hincl) as Hlen.
  rewrite length_app, length_map in Hlen. lia.
Qed.

(** What holds of [gens = e :: xs] and of [H = generate(gens)] at each
    test of the loop. *)
Record gens_inv (xs : list E) (R : list E) : Prop := mk_gens_inv
  { gi_group : is_group R f e0;
    gi_incl : incl R S;
    gi_gen : forall x, In x R <-> generated f (e0 :: xs) x;
    gi_xs : incl xs S;
    gi_no_e : ~ In e0 xs;
    gi_nodup : NoDup xs;
    gi_pow : 2 ^ length xs <= length R }.

Lemma item_elem_Raw (l : list E) : map item_elem (map Raw l) = l.
Proof. rewrite map_map. simpl. apply map_id. Qed.

Lemma generate_raw (fuel : nat) (l : list E) :
  l <> [] -> incl l S -> length S <= fuel ->
  exists R, generate fuel G (map Raw l) = Ok (Group_of R f e0) /\
            is_group R f e0 /\ incl R S /\ (forall x, In x R <-> generated f l x).
Proof.
  intros Hne Hl Hfuel.
  destruct (generate_tagged G G HG HG (incl_refl _) (fun p => eq_refl) fuel (map Raw l))
    as (R & Hgen & Hgrp & HRS & HR); auto.
  - destruct l; [congruence | discriminate].
  - apply Forall_forall. intros it Hit. apply in_map_iff in Hit.
    destruct Hit as (x & <- & Hx). simpl. auto.
  - exists R. rewrite item_elem_Raw in HR. auto.
Qed.

Lemma generators_loop_spec (fuel n : nat) (xs R : list E) :
  length S <= fuel -> gens_inv xs R -> length S - length R < n ->
  exists xs' R',
    generators_loop fuel n G (e0 :: xs) (Group_of R f e0) = Ok (e0 :: xs') /\
    gens_inv xs' R' /\ length R' = length S /\
    (length R = length S -> xs' = xs).
Proof.
  intros Hfuel. revert xs R. induction n as [|n IH]; intros xs R Hinv Hn; [lia|].
  pose proof (vg_group G HG) as Hgrp.
  destruct Hinv as [HRg HRS HRgen Hxs Hne Hxnd Hpow].
  pose proof (NoDup_incl_length (grp_NoDup _ _ _ HRg) HRS) as HlenR.
  cbn [generators_loop]. unfold Group_len, AlgSet.len. cbn [Set_ Group_of].
  fold S. destruct (Nat.ltb_spec (length R) (length S)) as [Hlt|Hge].
  - assert (Hd : AlgSet.diff S R <> []).
    { intros Hd. assert (Hincl : incl S R).
      { intros y Hy. destruct (in_dec py_eq_dec y R) as [|Hny]; [assumption|].
        assert (Hin : In y (AlgSet.diff S R)) by (apply In_diff; auto).
        rewrite Hd in Hin. contradiction. }
      pose proof (NoDup_incl_length (grp_NoDup _ _ _ Hgrp) Hincl) as Hl.
      fold S in Hl. lia. }
    destruct (pick_In Hd) as (x & Hpick & Hx). apply In_diff in Hx.
    destruct Hx as [HxS HxR]. rewrite Hpick. cbn [bind].
    destruct (generate_raw fuel ((e0 :: xs) ++ [x])) as (R' & Hgen & HR'g & HR'S & HR'gen).
    { destruct xs; discriminate. }
    { intros y Hy. apply in_app_or in Hy. destruct Hy as [[<-|Hy]|[<-|[]]]; auto.
      apply (grp_e _ _ _ Hgrp). }
    { exact Hfuel. }
    change ((e0 :: xs) ++ [x]) with (e0 :: (xs ++ [x])) in *.
    rewrite Hgen. cbn [bind].
    assert (HRR' : incl R R').
    { intros y Hy. apply HR'gen. apply (generated_mono f (e0 :: xs)); [|apply HRgen, Hy].
      intros z Hz. apply gen_base. destruct Hz as [<-|Hz]; simpl; auto.
      right. apply in_or_app. auto. }
    assert (HxR' : In x R').
    { apply HR'gen, gen_base. right. apply in_or_app. simpl. auto. }
    pose proof (subgroup_doubles R R' x HRg HR'g HRR' HR'S HxR' HxR) as Hdbl.
    assert (Hinv' : gens_inv (xs ++ [x]) R').
    { constructor; auto.
      - intros y Hy. apply in_app_or in Hy. destruct Hy as [Hy|[<-|[]]]; auto.
      - intros Hin. apply in_app_or in Hin. destruct Hin as [Hin|[<-|[]]]; [auto|].
        apply HxR, (grp_e _ _ _ HRg).
      - apply NoDup_app; [exact Hxnd | repeat constructor; simpl; tauto|].
        intros y Hy [<-|[]]. apply HxR, HRgen, gen_base. simpl. auto.
      - rewrite length_app, Nat.add_comm. simpl. lia. }
    pose proof (NoDup_incl_length (grp_NoDup _ _ _ HR'g) HR'S) as HlenR'.
    assert (HR1 : 1 <= length R).
    { pose proof (grp_e _ _ _ HRg) as He. destruct R; [contradiction | simpl; lia]. }
    destruct (IH (xs ++ [x]) R' Hinv') as (xs' & R'' & Hloop & Hinv'' & Hlen'' & _); [lia|].
    exists xs', R''.
    split; [exact Hloop | split; [exact Hinv'' | split; [exact Hlen'' | intros; lia]]].
  - exists xs, R.
    split; [reflexivity | split; [constructor; auto | split; [lia | reflexivity]]].
Qed.

End GeneratorsFacts.

Lemma NoDup_all_equal {A} (l : list A) (a : A) :
  NoDup l -> (forall x, In x l -> x = a) -> length l <= 1.
Proof.
  intros Hnd Hall. destruct l as [|x [|y l]]; simpl; try lia.
  exfalso. inversion Hnd as [|? ? Hnot _]; subst. apply Hnot.
  rewrite (Hall x), (Hall y); simpl; auto.
Qed.

Section GeneratorsResult.
Context {E : Type} `{PyEqOk E} `{PickOk E}.
Variable G : Group E.
Hypothesis HG : valid_Group G.

Let S := Set_ G.
Let f := function (bin_op G).
Let e0 := e_elem G.

(** The list that [generators] returns, before it is wrapped. *)
Lemma generators_spec (fuel : nat) :
  length S <= fuel ->
  exists xs R,
    gens_inv G xs R /\ length R = length S /\
    (length S = 1 -> xs = []) /\
    generators fuel G
    = Ok (map (own G) (if Nat.eqb (length S) 1 then [e0] else xs)).
Proof.
  intros Hfuel. pose proof (vg_group G HG) as Hgrp.
  pose proof (grp_e _ _ _ Hgrp) as He. fold S e0 in He.
  destruct (generate_raw G HG fuel [e0]) as (R0 & Hgen0 & HR0g & HR0S & HR0gen); auto.
  { discriminate. }
  { intros y [<-|[]]. exact He. }
  assert (HR0 : 1 <= length R0).
  { pose proof (grp_e _ _ _ HR0g) as He'. destruct R0; [contradiction | simpl; lia]. }
  assert (Hinv0 : gens_inv G [] R0).
  { constructor; auto; [intros y [] | constructor]. }
  assert (HS1 : 1 <= length S).
  { destruct S; [contradiction | simpl; lia]. }
  destruct (generators_loop_spec G HG fuel fuel [] R0 Hfuel Hinv0)
    as (xs & R & Hloop & Hinv & Hlen & Hsame); [fold S; lia|].
  exists xs, R. split; [exact Hinv|]. split; [exact Hlen|].
  assert (Hone : length S = 1 -> xs = []).
  { intros Hl1. apply Hsame.
    pose proof (NoDup_incl_length (grp_NoDup _ _ _ HR0g) HR0S) as Hle.
    fold S in Hle. fold S. lia. }
  split; [exact Hone|].
  unfold generators. cbn [elem e]. unfold S, f, e0 in *.
  rewrite Hgen0. cbn [bind]. rewrite Hloop. cbn [bind].
  unfold Group_len, AlgSet.len.
  destruct (Nat.eqb_spec (length (Set_ G)) 1) as [Hl1|Hl1]; cbn [negb tl].
  - rewrite (Hone Hl1). apply py_map_pure. intros x [<-|[]].
    apply (GroupElem_init_own G), He.
  - apply py_map_pure. intros x Hx.
    apply (GroupElem_init_own G), (gi_xs G xs R Hinv), Hx.
Qed.

End GeneratorsResult.

(** ** Group homomorphisms *)

(** [GroupHomomorphism]: the two groups and the Python callable, which may
    raise. *)
Record GroupHomomorphism (E1 E2 : Type) : Type := mkGroupHomomorphism
  { hom_domain : Group E1;
    hom_codomain : Group E2;
    hom_function : GroupElem E1 -> result (GroupElem E2) }.

Arguments mkGroupHomomorphism {E1 E2} _ _ _.
Arguments hom_domain {E1 E2} _.
Arguments hom_codomain {E1 E2} _.
Arguments hom_function {E1 E2} _ _.

Section Homomorphism.
Context {E1 E2 : Type} `{PyEq E1} `{PyEq E2}.

(** [GroupHomomorphism.__init__] *)
Definition GroupHomomorphism_init (domain : Group E1) (codomain : Group E2)
    (function : GroupElem E1 -> result (GroupElem E2))
    : result (GroupHomomorphism E1 E2) :=
  inside <- py_all (fun elem => y <- function elem ;; Ok (Group_contains codomain y))
                   (Group_iter domain) ;;
  if negb inside then Raise TypeError else
  law <- py_all (fun '(a, b) =>
                   ab <- GroupElem_mul a b ;;
                   l <- function ab ;;
                   fa <- function a ;;
                   fb <- function b ;;
                   r <- GroupElem_mul fa fb ;;
                   Ok (py_eqb l r))
                (list_prod (Group_iter domain) (Group_iter domain)) ;;
  if negb law then Raise ValueError else
  Ok (mkGroupHomomorphism domain codomain function).

(** Modelled from the spec: [Function.__call__] inherited by
    GroupHomomorphism (apply: fails outside the domain), with the group as
    the domain. *)
Definition hom_call (self : GroupHomomorphism E1 E2) (g : GroupElem E1)
    : result (GroupElem E2) :=
  if negb (Group_contains (hom_domain self) g) then Raise TypeError
  else hom_function self g.

(** Modelled from the spec: [Function._image], the range of the mapping
    as a set. *)
Definition hom_image_set (self : GroupHomomorphism E1 E2) : result (AlgSet.t (GroupElem E2)) :=
  ys <- py_map (hom_call self) (Group_iter (hom_domain self)) ;;
  Ok (AlgSet.of_list ys).

(** The comprehension [g.elem for g in self.domain if self(g) == self.codomain.e] *)
Fixpoint kernel_elems (self : GroupHomomorphism E1 E2) (l : list (GroupElem E1))
    : result (list E1) :=
  match l with
  | [] => Ok []
  | g :: l' =>
      y <- hom_call self g ;;
      rest <- kernel_elems self l' ;;
      Ok (if py_eqb y (e (hom_codomain self)) then elem g :: rest else rest)
  end.

(** [GroupHomomorphism.kernel] *)
Definition kernel (self : GroupHomomorphism E1 E2) : result (Group E1) :=
  elems <- kernel_elems self (Group_iter (hom_domain self)) ;;
  let G := AlgSet.of_list elems in
  Group_init (PySet G)
             (PyFunction (new_domains (bin_op (hom_domain self)) (AlgSet.prod G G) G)).

(** [GroupHomomorphism.image] *)
Definition image (self : GroupHomomorphism E1 E2) : result (Group E2) :=
  img <- hom_image_set self ;;
  let G := AlgSet.of_list (map elem img) in
  Group_init (PySet G)
             (PyFunction (new_domains (bin_op (hom_codomain self)) (AlgSet.prod G G) G)).

End Homomorphism.

Lemma is_group_equiv {E : Type} `{PyEqOk E} (S S' : list E) (f : E * E -> E) (e : E) :
  is_group S f e -> NoDup S' -> (forall x, In x S' <-> In x S) -> is_group S' f e.
Proof.
  intros HG Hnd Heq. constructor; try exact Hnd.
  - apply Heq, (grp_e _ _ _ HG).
  - intros a b Ha Hb. apply Heq, (grp_closed _ _ _ HG); apply Heq; assumption.
  - intros a b c Ha Hb Hc. apply (grp_assoc _ _ _ HG); apply Heq; assumption.
  - intros a Ha. apply (grp_id_l _ _ _ HG), Heq, Ha.
  - intros a Ha. apply (grp_id_r _ _ _ HG), Heq, Ha.
  - intros a Ha. destruct (grp_inv _ _ _ HG a) as (b & Hb & Hab); [apply Heq, Ha|].
    exists b. split; [apply Heq, Hb | exact Hab].
Qed.

(** ** Kernel and image of a map that respects the operations *)

Section FirstIsomorphism.
Context {E1 E2 : Type} `{PyEqOk E1} `{PyEqOk E2}.
Variables (SD : list E1) (fD : E1 * E1 -> E1) (eD : E1).
Variables (SC : list E2) (fC : E2 * E2 -> E2) (eC : E2).
Hypothesis HD : is_group SD fD eD.
Hypothesis HC : is_group SC fC eC.
Variable phi : E1 -> E2.
Hypothesis phi_in : forall x, In x SD -> In (phi x) SC.
Hypothesis phi_law : forall a b, In a SD -> In b SD -> phi (fD (a, b)) = fC (phi a, phi b).

Definition fiber (y : E2) : list E1 := filter (fun x => py_eqb (phi x) y) SD.

Definition ker_list : list E1 := fiber eC.

Definition img_list : list E2 := AlgSet.of_list (map phi SD).

Lemma In_fiber y x : In x (fiber y) <-> In x SD /\ phi x = y.
Proof. unfold fiber. rewrite filter_In, py_eqb_eq. tauto. Qed.

Lemma In_img y : In y img_list <-> exists x, In x SD /\ phi x = y.
Proof.
  unfold img_list. rewrite In_of_list, in_map_iff.
  split; intros (x & Hx); exists x; tauto.
Qed.

Lemma phi_e : phi eD = eC.
Proof.
  pose proof (grp_e _ _ _ HD) as He.
  apply (grp_idem_e SC fC eC HC); [auto|].
  rewrite <- phi_law by assumption. rewrite (grp_id_l _ _ _ HD) by assumption. reflexivity.
Qed.

Lemma ker_group : is_group ker_list fD eD.
Proof.
  apply (closed_is_group SD fD eD HD).
  - apply NoDup_filter, (grp_NoDup _ _ _ HD).
  - intros x Hx. apply In_fiber in Hx. tauto.
  - intros Hnil. assert (Hin : In eD ker_list).
    { apply In_fiber. split; [apply (grp_e _ _ _ HD) | apply phi_e]. }
    rewrite Hnil in Hin. contradiction.
  - intros a b Ha Hb. apply In_fiber in Ha, Hb. destruct Ha as [Ha Hpa], Hb as [Hb Hpb].
    apply In_fiber. split; [apply (grp_closed _ _ _ HD); assumption|].
    rewrite phi_law, Hpa, Hpb by assumption.
    apply (grp_id_l _ _ _ HC), (grp_e _ _ _ HC).
Qed.

Lemma img_group : is_group img_list fC eC.
Proof.
  apply (closed_is_group SC fC eC HC).
  - apply NoDup_of_list.
  - intros y Hy. apply In_img in Hy. destruct Hy as (x & Hx & <-). auto.
  - intros Hnil. assert (Hin : In eC img_list).
    { apply In_img. exists eD. split; [apply (grp_e _ _ _ HD) | apply phi_e]. }
    rewrite Hnil in Hin. contradiction.
  - intros y z Hy Hz. apply In_img in Hy, Hz.
    destruct Hy as (a & Ha & <-), Hz as (b & Hb & <-).
    apply In_img. exists (fD (a, b)).
    split; [apply (grp_closed _ _ _ HD); assumption | apply phi_law; assumption].
Qed.

(** Every fibre is a coset of the kernel. *)
Lemma fiber_length (a : E1) :
  In a SD -> length (fiber (phi a)) = length ker_list.
Proof.
  intros Ha. pose proof (grp_NoDup _ _ _ HD) as Hnd.
  assert (Hk : forall k, In k ker_list -> In k SD /\ phi k = eC) by (intros k; apply In_fiber).
  apply Nat.le_antisymm.
  - destruct (grp_inv _ _ _ HD a Ha) as (ai & Hai & Haai & Haia).
    assert (Hinj : NoDup (map (fun x => fD (ai, x)) (fiber (phi a)))).
    { apply NoDup_map_on; [|apply NoDup_filter, Hnd].
      intros x y Hx Hy. apply In_fiber in Hx, Hy.
      apply (grp_cancel_l SD fD eD HD ai); tauto. }
    rewrite <- (length_map (fun x => fD (ai, x))).
    apply NoDup_incl_length; [exact Hinj|].
    intros k Hk'. apply in_map_iff in Hk'. destruct Hk' as (x & <- & Hx).
    apply In_fiber in Hx. destruct Hx as [Hx Hpx].
    apply In_fiber. split; [apply (grp_closed _ _ _ HD); assumption|].
    rewrite phi_law, Hpx, <- phi_law, Haia by assumption. apply phi_e.
  - assert (Hinj : NoDup (map (fun k => fD (a, k)) ker_list)).
    { apply NoDup_map_on; [|apply NoDup_filter, Hnd].
      intros x y Hx Hy. apply Hk in Hx, Hy.
      apply (grp_cancel_l SD fD eD HD a); tauto. }
    rewrite <- (length_map (fun k => fD (a, k)) ker_list).
    apply NoDup_incl_length; [exact Hinj|].
    intros x Hx. apply in_map_iff in Hx. destruct Hx as (k & <- & Hk').
    apply Hk in Hk'. destruct Hk' as [HkS Hpk].
    apply In_fiber. split; [apply (grp_closed _ _ _ HD); assumption|].
    rewrite phi_law, Hpk by assumption. apply (grp_id_r _ _ _ HC). auto.
Qed.

Definition fiber_count (l : list E1) (y : E2) : nat :=
  length (filter (fun x => py_eqb (phi x) y) l).

Lemma fiber_count_cons (x : E1) (l : list E1) (y : E2) :
  fiber_count (x :: l) y = fiber_count l y + (if py_eqb (phi x) y then 1 else 0).
Proof.
  unfold fiber_count. simpl. destruct (py_eqb (phi x) y); simpl; lia.
Qed.

Lemma fibers_cons (x : E1) (l : list E1) (ys : list E2) :
  NoDup ys ->
  list_sum (map (fiber_count (x :: l)) ys)
  = list_sum (map (fiber_count l) ys) + (if AlgSet.mem (phi x) ys then 1 else 0).
Proof.
  induction 1 as [|y ys Hny Hys IH]; [reflexivity|].
  change (list_sum (map (fiber_count (x :: l)) (y :: ys)))
    with (fiber_count (x :: l) y + list_sum (map (fiber_count (x :: l)) ys)).
  change (list_sum (map (fiber_count l) (y :: ys)))
    with (fiber_count l y + list_sum (map (fiber_count l) ys)).
  rewrite IH, fiber_count_cons.
  change (AlgSet.mem (phi x) (y :: ys)) with (py_eqb (phi x) y || AlgSet.mem (phi x) ys).
  destruct (py_eqb (phi x) y) eqn:Hxy; cbn [orb].
  - apply py_eqb_eq in Hxy. subst y.
    rewrite (proj2 (mem_not_In (phi x) ys) Hny). lia.
  - lia.
Qed.

Lemma fibers_partition (l : list E1) (ys : list E2) :
  NoDup ys -> (forall x, In x l -> In (phi x) ys) ->
  length l = list_sum (map (fiber_count l) ys).
Proof.
  intros Hys. induction l as [|x l IH]; intros Hl.
  - simpl. clear. induction ys as [|y ys IHy]; simpl; auto.
  - rewrite fibers_cons by exact Hys.
    rewrite <- IH by (intros z Hz; apply Hl; simpl; auto).
    rewrite (proj2 (mem_In (phi x) ys)) by (apply Hl; simpl; auto).
    simpl. lia.
Qed.

(** The order form of the first isomorphism theorem. *)
Lemma kernel_image_order : length ker_list * length img_list = length SD.
Proof.
  rewrite (fibers_partition SD img_list).
  - assert (Hall : forall ys, incl ys img_list ->
        list_sum (map (fiber_count SD) ys) = length ker_list * length ys).
    { induction ys as [|y ys IH]; intros Hys; simpl; [lia|].
      rewrite IH by (intros z Hz; apply Hys; simpl; auto).
      destruct (proj1 (In_img y)) as (a & Ha & <-); [apply Hys; simpl; auto|].
      change (fiber_count SD (phi a)) with (length (fiber (phi a))).
      rewrite fiber_length by assumption. lia. }
    rewrite Hall by apply incl_refl. reflexivity.
  - apply NoDup_of_list.
  - intros x Hx. apply In_img. eauto.
Qed.

End FirstIsomorphism.

(** ** Constructed homomorphisms *)

Lemma py_all_Ok_true {A} (p : A -> result bool) (l : list A) (b : bool) :
  py_all p l = Ok b -> negb b = false -> forall x, In x l -> p x = Ok true.
Proof.
  intros Hall Hb. destruct b; [|discriminate]. apply py_all_true_inv, Hall.
Qed.

Section HomFacts.
Context {E1 E2 : Type} `{PyEqOk E1} `{PyEqOk E2}.
Variables (D : Group E1) (C : Group E2).
Hypothesis HD : valid_Group D.
Hypothesis HC : valid_Group C.
Variable fn : GroupElem E1 -> result (GroupElem E2).
Variable h : GroupHomomorphism E1 E2.
Hypothesis Hinit : GroupHomomorphism_init D C fn = Ok h.

(** The callable returns elements that the codomain owns. *)
Hypothesis Hown : forall x y, In x (Set_ D) -> fn (own D x) = Ok y -> group y = C.

(** The map on the wrapped values. *)
Definition hom_map (x : E1) : E2 :=
  match fn (own D x) with
  | Ok y => elem y
  | _ => e_elem C
  end.

Lemma In_Group_iter (x : E1) : In x (Set_ D) -> In (own D x) (Group_iter D).
Proof.
  intros Hx. destruct (iter_elems_perm D HD) as (rest & Hiter & _ & _ & Hall).
  rewrite Hiter. apply in_map, Hall, Hx.
Qed.

Lemma hom_init_inv :
  h = mkGroupHomomorphism D C fn /\
  py_all (fun elem => y <- fn elem ;; Ok (Group_contains C y)) (Group_iter D) = Ok true /\
  py_all (fun '(a, b) =>
            ab <- GroupElem_mul a b ;;
            l <- fn ab ;;
            fa <- fn a ;;
            fb <- fn b ;;
            r <- GroupElem_mul fa fb ;;
            Ok (py_eqb l r))
         (list_prod (Group_iter D) (Group_iter D)) = Ok true.
Proof.
  unfold GroupHomomorphism_init in Hinit.
  apply bind_Ok_inv in Hinit. destruct Hinit as (b1 & Hb1 & Hi).
  destruct b1; cbn [negb] in Hi; [|discriminate].
  apply bind_Ok_inv in Hi. destruct Hi as (b2 & Hb2 & Hi).
  destruct b2; cbn [negb] in Hi; [|discriminate].
  injection Hi as <-. auto.
Qed.

Lemma hom_init_shape : h = mkGroupHomomorphism D C fn.
Proof. apply hom_init_inv. Qed.

Lemma hom_domain_h : hom_domain h = D.
Proof. rewrite hom_init_shape. reflexivity. Qed.

Lemma hom_codomain_h : hom_codomain h = C.
Proof. rewrite hom_init_shape. reflexivity. Qed.

Lemma hom_function_h : hom_function h = fn.
Proof. rewrite hom_init_shape. reflexivity. Qed.

Lemma hom_init_inside (g : GroupElem E1) :
  In g (Group_iter D) ->
  exists y, fn g = Ok y /\ Group_contains C y = true.
Proof.
  intros Hg. destruct hom_init_inv as (_ & Hin & _).
  pose proof (py_all_true_inv _ _ Hin g Hg) as Hp. cbv beta in Hp.
  destruct (fn g) as [y| |]; cbn [bind] in Hp; try discriminate.
  exists y. split; [reflexivity | congruence].
Qed.

Lemma fn_own (x : E1) :
  In x (Set_ D) -> fn (own D x) = Ok (own C (hom_map x)) /\ In (hom_map x) (Set_ C).
Proof.
  intros Hx. destruct (hom_init_inside (own D x) (In_Group_iter x Hx)) as (y & Hy & Hc).
  pose proof (Hown x y Hx Hy) as Hg. unfold hom_map. rewrite Hy.
  unfold Group_contains in Hc. rewrite (group_elems_own C HC), mem_elem, map_map in Hc.
  rewrite (map_ext _ id), map_id in Hc by reflexivity. apply mem_In in Hc.
  destruct y as [v gy]. simpl in *. subst gy. auto.
Qed.

Lemma hom_map_law (a b : E1) :
  In a (Set_ D) -> In b (Set_ D) ->
  hom_map (function (bin_op D) (a, b))
  = function (bin_op C) (hom_map a, hom_map b).
Proof.
  intros Ha Hb. destruct hom_init_inv as (_ & _ & Hlaw).
  pose proof (py_all_true_inv _ _ Hlaw (own D a, own D b)) as Hp.
  assert (Hab : In (function (bin_op D) (a, b)) (Set_ D)) by (apply (op_closed D HD); assumption).
  cbv beta iota in Hp.
  rewrite (mul_own D HD) in Hp by assumption. cbn [bind] in Hp.
  rewrite (proj1 (fn_own _ Hab)), (proj1 (fn_own a Ha)), (proj1 (fn_own b Hb)) in Hp.
  cbn [bind] in Hp.
  rewrite (mul_own C HC) in Hp by (apply fn_own; assumption). cbn [bind] in Hp.
  specialize (Hp (in_prod _ _ _ _ (In_Group_iter a Ha) (In_Group_iter b Hb))).
  injection Hp as Hp.
  change (py_eqb (hom_map (function (bin_op D) (a, b)))
                 (function (bin_op C) (hom_map a, hom_map b)) = true) in Hp.
  apply py_eqb_eq in Hp. exact Hp.
Qed.

Lemma hom_call_own (x : E1) :
  In x (Set_ D) -> hom_call h (own D x) = Ok (own C (hom_map x)).
Proof.
  intros Hx. unfold hom_call. rewrite hom_domain_h, hom_function_h.
  unfold Group_contains. rewrite (group_elems_own D HD), mem_elem, map_map.
  rewrite (map_ext _ id), map_id by reflexivity.
  cbn [elem own]. rewrite (proj2 (mem_In x (Set_ D)) Hx). cbn [negb].
  apply fn_own, Hx.
Qed.

Lemma kernel_elems_own (l : list E1) :
  incl l (Set_ D) ->
  kernel_elems h (map (own D) l)
  = Ok (filter (fun x => py_eqb (hom_map x) (e_elem C)) l).
Proof.
  induction l as [|x l IH]; intros Hl; [reflexivity|].
  cbn [map kernel_elems filter].
  rewrite hom_call_own by (apply Hl; simpl; auto). cbn [bind].
  rewrite IH by (intros y Hy; apply Hl; simpl; auto). cbn [bind].
  rewrite hom_codomain_h.
  change (py_eqb (own C (hom_map x)) (e C)) with (py_eqb (hom_map x) (e_elem C)).
  reflexivity.
Qed.

(** The kernel and the image are groups, and their orders multiply to the
    order of the domain. *)
Lemma kernel_image_spec :
  exists Kl Il,
    kernel h = Ok (Group_of Kl (function (bin_op D)) (e_elem D)) /\
    image h = Ok (Group_of Il (function (bin_op C)) (e_elem C)) /\
    is_group Kl (function (bin_op D)) (e_elem D) /\
    is_group Il (function (bin_op C)) (e_elem C) /\
    (forall x, In x Kl <-> In x (Set_ D) /\ hom_map x = e_elem C) /\
    (forall y, In y Il <-> exists x, In x (Set_ D) /\ hom_map x = y) /\
    length Kl * length Il = length (Set_ D).
Proof.
  destruct (iter_elems_perm D HD) as (rest & Hiter & _ & Hnd & Hall).
  set (it := e_elem D :: rest) in *.
  pose proof (is_group_equiv _ it _ _ (vg_group D HD) Hnd Hall) as Hit.
  pose proof (vg_group C HC) as HCg.
  assert (Hin : forall x, In x it -> In (hom_map x) (Set_ C)).
  { intros x Hx. apply fn_own, Hall, Hx. }
  assert (Hlaw : forall a b, In a it -> In b it ->
            hom_map (function (bin_op D) (a, b))
            = function (bin_op C) (hom_map a, hom_map b)).
  { intros a b Ha Hb. apply hom_map_law; apply Hall; assumption. }
  pose proof (ker_group it _ _ (Set_ C) _ _ Hit HCg hom_map Hin Hlaw) as Hker.
  pose proof (img_group it _ _ (Set_ C) _ _ Hit HCg hom_map Hin Hlaw) as Himg.
  pose proof (kernel_image_order it _ _ (Set_ C) _ _ Hit HCg hom_map Hin Hlaw) as Hord.
  exists (ker_list it (e_elem C) hom_map), (img_list it hom_map).
  split; [|split; [|split; [exact Hker | split; [exact Himg | split; [|split]]]]].
  - unfold kernel. rewrite hom_domain_h, Hiter.
    rewrite kernel_elems_own by (intros x Hx; apply Hall, Hx). cbn [bind].
    unfold new_domains.
    fold (fiber it hom_map (e_elem C)). fold (ker_list it (e_elem C) hom_map).
    pose proof (grp_NoDup _ _ _ Hker) as Hknd.
    rewrite (of_list_NoDup_id _ Hknd).
    apply (Group_init_group _ (mkFunction _ _ _) Hknd (NoDup_list_prod _ _ Hknd Hknd)
             (eqb_refl _) _ Hker (eqb_refl _)).
  - unfold image, hom_image_set. rewrite hom_domain_h, hom_codomain_h, Hiter.
    rewrite (py_map_pure _ (fun g => own C (hom_map (elem g)))).
    2:{ intros g Hg. apply in_map_iff in Hg. destruct Hg as (x & <- & Hx).
        apply hom_call_own, Hall, Hx. }
    cbn [bind]. unfold new_domains.
    rewrite map_elem_of_list, !map_map. cbn [elem own].
    fold (img_list it hom_map).
    pose proof (grp_NoDup _ _ _ Himg) as Hind.
    rewrite (of_list_NoDup_id _ Hind).
    apply (Group_init_group _ (mkFunction _ _ _) Hind (NoDup_list_prod _ _ Hind Hind)
             (eqb_refl _) _ Himg (eqb_refl _)).
  - intros x. unfold ker_list. rewrite In_fiber, Hall. reflexivity.
  - intros y. rewrite In_img. split; intros (x & Hx & Hy); exists x; split; auto; apply Hall; auto.
  - rewrite Hord. apply Nat.le_antisymm; apply NoDup_incl_length; auto.
    + intros x Hx. apply Hall, Hx.
    + apply (valid_NoDup D HD).
    + intros x Hx. apply Hall, Hx.
Qed.

End HomFacts.

(** The reduction modulo 3 from [Zn(6)] to [Zn(3)], as a Python callable. *)
Definition mod3 (g : GroupElem Z) : result (GroupElem Z) :=
  GroupElem_init (elem g mod 3)%Z Z3.

(** ** Python dicts and [itertools.permutations] *)

Module Dict.

(** A dict in insertion order; keys are compared with [==]. *)
Definition t (K V : Type) := list (K * V).

Section Ops.
Context {K V : Type} `{PyEq K}.

(** [d[k]] *)
Fixpoint get (d : t K V) (k : K) : result V :=
  match d with
  | [] => Raise KeyError
  | (k', v) :: d' => if py_eqb k k' then Ok v else get d' k
  end.

(** [k in d] *)
Definition mem (k : K) (d : t K V) : bool := existsb (fun kv => py_eqb k (fst kv)) d.

(** [d[k] = v]: an equal key keeps its place and its key object. *)
Fixpoint set (d : t K V) (k : K) (v : V) : t K V :=
  match d with
  | [] => [(k, v)]
  | (k', v') :: d' => if py_eqb k k' then (k', v) :: d' else (k', v') :: set d' k v
  end.

(** [d.update(n)] *)
Definition update (d n : t K V) : t K V :=
  fold_left (fun d kv => set d (fst kv) (snd kv)) n d.

(** [dict(pairs)] *)
Definition of_pairs (l : list (K * V)) : t K V := update [] l.

Definition keys (d : t K V) : list K := map fst d.
Definition values (d : t K V) : list V := map snd d.
Definition len (d : t K V) : nat := length d.

End Ops.

End Dict.

(** The elements of [l], each with the others in their order. *)
Fixpoint select {A} (l : list A) : list (A * list A) :=
  match l with
  | [] => []
  | x :: l' => (x, l') :: map (fun p => (fst p, x :: snd p)) (select l')
  end.

(** [itertools.permutations(l, r)]: the tuples of [r] elements at distinct
    positions of [l], in the order of the positions. *)
Fixpoint permutations {A} (r : nat) (l : list A) : list (list A) :=
  match r with
  | O => [[]]
  | S r' => flat_map (fun p => map (cons (fst p)) (permutations r' (snd p))) (select l)
  end.

(** ** The isomorphism search *)

Section FindIsomorphism.
Context {E1 E2 : Type} `{PyEq E1} `{PyEq E2} `{Pick E1}.

(** The [for g, h in itertools.product(func, func)] loop: the flag
    [counterexample] at its end, and [noobs]. *)
Fixpoint scan (func : Dict.t (GroupElem E1) (GroupElem E2))
    (pairs : list (GroupElem E1 * GroupElem E1))
    (noobs : Dict.t (GroupElem E1) (GroupElem E2))
    : result (bool * Dict.t (GroupElem E1) (GroupElem E2)) :=
  match pairs with
  | [] => Ok (false, noobs)
  | (g, h) :: rest =>
      gh <- GroupElem_mul g h ;;
      if Dict.mem gh func then
        fg <- Dict.get func g ;;
        fh <- Dict.get func h ;;
        p <- GroupElem_mul fg fh ;;
        gh' <- GroupElem_mul g h ;;
        fgh <- Dict.get func gh' ;;
        if negb (py_eqb p fgh) then Ok (true, noobs) else scan func rest noobs
      else
        fg <- Dict.get func g ;;
        fh <- Dict.get func h ;;
        p <- GroupElem_mul fg fh ;;
        gh' <- GroupElem_mul g h ;;
        scan func rest (Dict.set noobs gh' p)
  end.

(** The [while not counterexample] loop: the flag and [func] at its end. *)
Fixpoint extend (fuel : nat) (self : Group E1)
    (func : Dict.t (GroupElem E1) (GroupElem E2))
    : result (bool * Dict.t (GroupElem E1) (GroupElem E2)) :=
  match fuel with
  | O => Diverge
  | S fuel' =>
      '(counterexample, noobs) <-
         scan func (list_prod (Dict.keys func) (Dict.keys func)) [] ;;
      if Nat.eqb (Dict.len func) (Group_len self) then Ok (counterexample, func)
      else
        let imagelen :=
          AlgSet.len (AlgSet.union (AlgSet.of_list (Dict.values noobs))
                                   (AlgSet.of_list (Dict.values func))) in
        let counterexample :=
          counterexample || negb (Nat.eqb imagelen (Dict.len noobs + Dict.len func)) in
        let func := Dict.update func noobs in
        if counterexample then Ok (true, func) else extend fuel' self func
  end.

(** The [for B in itertools.permutations(other, len(A))] loop. *)
Fixpoint try_permutations (fuel : nat) (self : Group E1) (other : Group E2)
    (A : list (GroupElem E1)) (Bs : list (list (GroupElem E2)))
    : result (option (GroupHomomorphism E1 E2)) :=
  match Bs with
  | [] => Ok None
  | B :: rest =>
      let func := Dict.of_pairs (combine A B) in
      '(counterexample, func) <- extend fuel self func ;;
      if negb counterexample then
        h <- GroupHomomorphism_init self other (fun x => Dict.get func x) ;;
        Ok (Some h)
      else try_permutations fuel self other A rest
  end.

(** [Group.find_isomorphism]; [None] is the negative answer. *)
Definition find_isomorphism (fuel : nat) (self : Group E1) (other : Group E2)
    : result (option (GroupHomomorphism E1 E2)) :=
  if negb (Nat.eqb (Group_len self) (Group_len other))
     || negb (Bool.eqb (abelian self) (abelian other))
  then Ok None
  else
    A <- generators fuel self ;;
    try_permutations fuel self other A
      (permutations (length A) (Group_iter other)).

(** [Group.is_isomorphic] *)
Definition is_isomorphic (fuel : nat) (self : Group E1) (other : Group E2)
    : result bool :=
  r <- find_isomorphism fuel self other ;;
  Ok (match r with Some _ => true | None => false end).

End FindIsomorphism.

(** ** Products of groups *)

Section GroupProduct.
Context {E1 E2 : Type} `{PyEq E1} `{PyEq E2}.

(** [Group.__mul__], the Cartesian product.  The lambda calls
    [self.bin_op] and [other.bin_op] on arguments of their domains whenever
    its own argument is in the domain of the new Function, outside of which
    [Function.__call__] does not run it: it is modelled by their rules. *)
Definition Group_mul (self : Group E1) (other : Group E2) : result (Group (E1 * E2)) :=
  let SO := AlgSet.prod (Set_ self) (Set_ other) in
  let bin_op :=
    mkFunction (AlgSet.prod SO SO) SO
      (fun x => (function (bin_op self) (fst (fst x), fst (snd x)),
                 function (bin_op other) (snd (fst x), snd (snd x)))) in
  Group_init (PySet SO) (PyFunction bin_op).

End GroupProduct.

(** ** Facts about dicts with structurally compared keys *)

Section DictFacts.
Context {K V : Type} `{PyEqOk K}.
Implicit Types (d n : Dict.t K V) (k : K) (v : V).

Lemma dict_mem_In d k : Dict.mem k d = true <-> In k (Dict.keys d).
Proof.
  unfold Dict.mem, Dict.keys. rewrite existsb_exists, in_map_iff. split.
  - intros ([k' v] & Hin & Hk). apply py_eqb_eq in Hk. simpl in Hk. subst. exists (k', v). auto.
  - intros ([k' v] & Hk & Hin). simpl in Hk. subst. exists (k, v). split; [auto|apply py_eqb_refl].
Qed.

Lemma dict_mem_not_In d k : Dict.mem k d = false <-> ~ In k (Dict.keys d).
Proof. rewrite <- dict_mem_In. destruct (Dict.mem k d); split; congruence. Qed.

Lemma dict_get_In d k v : Dict.get d k = Ok v -> In (k, v) d.
Proof.
  induction d as [|[k' v'] d IH]; simpl; [discriminate|].
  destruct (py_eqb k k') eqn:Hk.
  - apply py_eqb_eq in Hk. intros [= ->]. subst. auto.
  - auto.
Qed.

Lemma dict_In_get d k v : NoDup (Dict.keys d) -> In (k, v) d -> Dict.get d k = Ok v.
Proof.
  induction d as [|[k' v'] d IH]; simpl; intros Hnd Hin; [contradiction|].
  inversion Hnd as [|? ? Hk' Hnd']; subst.
  destruct Hin as [[= -> ->]|Hin]; [rewrite py_eqb_refl; reflexivity|].
  destruct (py_eqb k k') eqn:Hk; [|auto].
  apply py_eqb_eq in Hk. subst. exfalso. apply Hk'.
  apply (in_map fst) in Hin. exact Hin.
Qed.

Lemma dict_get_key d k : In k (Dict.keys d) -> exists v, Dict.get d k = Ok v.
Proof.
  induction d as [|[k' v'] d IH]; simpl; [contradiction|].
  destruct (py_eqb k k') eqn:Hk; [eauto|].
  apply py_eqb_neq in Hk. intros [Heq|Hin]; [congruence | auto].
Qed.

Lemma dict_set_fresh d k v : ~ In k (Dict.keys d) -> Dict.set d k v = d ++ [(k, v)].
Proof.
  induction d as [|[k' v'] d IH]; simpl; intros Hk; [reflexivity|].
  destruct (py_eqb k k') eqn:Hkk.
  - apply py_eqb_eq in Hkk. subst. tauto.
  - rewrite IH by tauto. reflexivity.
Qed.

Lemma dict_keys_set d k v :
  Dict.keys (Dict.set d k v) = if Dict.mem k d then Dict.keys d else Dict.keys d ++ [k].
Proof.
  induction d as [|[k' v'] d IH]; [reflexivity|].
  cbn [Dict.set]. unfold Dict.mem. cbn [existsb fst].
  destruct (py_eqb k k') eqn:Hkk; cbn [orb]; [reflexivity|].
  change (Dict.keys ((k', v') :: Dict.set d k v)) with (k' :: Dict.keys (Dict.set d k v)).
  rewrite IH. unfold Dict.mem. destruct (existsb _ d); reflexivity.
Qed.

Lemma dict_In_set d k v k' v' :
  In (k', v') (Dict.set d k v) -> (k' = k /\ v' = v) \/ In (k', v') d.
Proof.
  induction d as [|[k0 v0] d IH]; simpl.
  - intros [[= -> ->]|[]]. auto.
  - destruct (py_eqb k k0) eqn:Hk.
    + apply py_eqb_eq in Hk. subst. intros [[= -> ->]|Hin]; auto.
    + intros [Heq|Hin]; [auto|]. destruct (IH Hin); auto.
Qed.

Lemma dict_set_key_In d k v : In k (Dict.keys (Dict.set d k v)).
Proof.
  rewrite dict_keys_set. destruct (Dict.mem k d) eqn:Hm.
  - apply dict_mem_In, Hm.
  - apply in_or_app. simpl. auto.
Qed.

Lemma dict_keys_set_incl d k v : incl (Dict.keys d) (Dict.keys (Dict.set d k v)).
Proof.
  rewrite dict_keys_set. destruct (Dict.mem k d); [apply incl_refl | apply incl_appl, incl_refl].
Qed.

Lemma dict_NoDup_set d k v : NoDup (Dict.keys d) -> NoDup (Dict.keys (Dict.set d k v)).
Proof.
  intros Hnd. rewrite dict_keys_set. destruct (Dict.mem k d) eqn:Hm; [exact Hnd|].
  apply dict_mem_not_In in Hm. apply NoDup_app; [exact Hnd | repeat constructor; simpl; tauto|].
  intros x Hx [<-|[]]. contradiction.
Qed.

Lemma dict_update_fresh d n :
  NoDup (Dict.keys n) -> (forall k, In k (Dict.keys n) -> ~ In k (Dict.keys d)) ->
  Dict.update d n = d ++ n.
Proof.
  unfold Dict.update. revert d. induction n as [|[k v] n IH]; simpl; intros d Hnd Hdis.
  - rewrite app_nil_r. reflexivity.
  - inversion Hnd as [|? ? Hk Hnd']; subst.
    rewrite dict_set_fresh by (apply Hdis; auto).
    rewrite IH; [rewrite <- app_assoc; reflexivity | exact Hnd' |].
    intros k' Hk'. unfold Dict.keys. rewrite map_app, in_app_iff. simpl.
    intros [Hin|[<-|[]]]; [apply (Hdis k'); auto | contradiction].
Qed.

Lemma dict_of_pairs_NoDup (l : list (K * V)) : NoDup (map fst l) -> Dict.of_pairs l = l.
Proof.
  intros Hnd. unfold Dict.of_pairs. rewrite dict_update_fresh; auto.
Qed.

Lemma dict_value_key d k k' v :
  NoDup (Dict.values d) -> In (k, v) d -> In (k', v) d -> k = k'.
Proof.
  induction d as [|[k0 v0] d IH]; simpl; intros Hnd Hk Hk'; [contradiction|].
  inversion Hnd as [|? ? Hv Hnd']; subst.
  destruct Hk as [Hk|Hk], Hk' as [Hk'|Hk'].
  - congruence.
  - injection Hk as -> ->. exfalso. apply Hv. apply (in_map snd) in Hk'. exact Hk'.
  - injection Hk' as -> ->. exfalso. apply Hv. apply (in_map snd) in Hk. exact Hk.
  - auto.
Qed.

End DictFacts.

(** ** Facts about [permutations] *)

Lemma select_spec {A} (l : list A) (x : A) (rest : list A) :
  In (x, rest) (select l) <-> exists l1 l2, l = l1 ++ x :: l2 /\ rest = l1 ++ l2.
Proof.
  revert x rest. induction l as [|a l IH]; intros x rest; simpl.
  - split; [contradiction|]. intros ([|? ?] & l2 & Hl & _); discriminate.
  - rewrite in_map_iff. split.
    + intros [Heq|([y r] & Heq & Hin)]; simpl in Heq; injection Heq as Hx Hr; subst.
      * eexists [], _. split; reflexivity.
      * apply IH in Hin. destruct Hin as (l1 & l2 & Hl & Hr). subst.
        eexists (_ :: _), _. split; reflexivity.
    + intros ([|b l1] & l2 & Hl & Hr); simpl in Hl; injection Hl as Ha Hl; subst.
      * auto.
      * right. exists (x, l1 ++ l2). split; [reflexivity|]. apply IH. eauto.
Qed.

Lemma permutations_map {A B} (g : A -> B) (r : nat) (l : list A) :
  permutations r (map g l) = map (map g) (permutations r l).
Proof.
  assert (Hsel : forall l, select (map g l)
                           = map (fun p => (g (fst p), map g (snd p))) (select l)).
  { clear l. induction l as [|a l IH]; simpl; [reflexivity|].
    rewrite IH, !map_map. reflexivity. }
  revert l. induction r as [|r IH]; intros l; simpl; [reflexivity|].
  rewrite Hsel, flat_map_concat_map, map_map, flat_map_concat_map, concat_map, map_map.
  f_equal. apply map_ext. intros [x rest]. simpl. rewrite IH, !map_map. reflexivity.
Qed.

Lemma permutations_sound {A} (r : nat) (l B : list A) :
  In B (permutations r l) -> length B = r /\ incl B l /\ (NoDup l -> NoDup B).
Proof.
  revert l B. induction r as [|r IH]; intros l B; simpl.
  - intros [<-|[]]. repeat split; [apply incl_nil_l | constructor].
  - rewrite in_flat_map. intros ([x rest] & Hsel & HB). simpl in HB.
    apply in_map_iff in HB. destruct HB as (B' & <- & HB').
    apply select_spec in Hsel. destruct Hsel as (l1 & l2 & -> & ->).
    destruct (IH _ _ HB') as (Hlen & Hincl & Hnd). simpl. split; [lia|]. split.
    + intros y [<-|Hy]; [apply in_or_app; simpl; auto|].
      apply Hincl in Hy. apply in_app_or in Hy. apply in_or_app. simpl. tauto.
    + intros Hl. pose proof (NoDup_remove_1 _ _ _ Hl) as H1.
      pose proof (NoDup_remove_2 _ _ _ Hl) as H2.
      constructor; [|auto]. intros Hx. apply H2, Hincl, Hx.
Qed.

Lemma permutations_complete {A} (r : nat) (l B : list A) :
  NoDup B -> incl B l -> length B = r -> In B (permutations r l).
Proof.
  revert l B. induction r as [|r IH]; intros l B Hnd Hincl Hlen.
  - destruct B; [simpl; auto | discriminate].
  - destruct B as [|b B]; [discriminate|]. simpl in Hlen. injection Hlen as Hlen.
    inversion Hnd as [|? ? Hb Hnd']; subst.
    assert (Hbl : In b l) by (apply Hincl; simpl; auto).
    apply in_split in Hbl. destruct Hbl as (l1 & l2 & ->).
    simpl. apply in_flat_map. exists (b, l1 ++ l2). split.
    + apply select_spec. eauto.
    + simpl. apply in_map. apply IH; auto.
      intros y Hy. assert (Hyl : In y (l1 ++ b :: l2)) by (apply Hincl; simpl; auto).
      apply in_app_or in Hyl. apply in_or_app.
      destruct Hyl as [|[<-|]]; [auto | contradiction | auto].
Qed.

(** ** The search on the wrapped values *)

Section PureSearch.
Context {E1 E2 : Type} `{PyEqOk E1} `{PyEqOk E2}.
Variables (SG : list E1) (fG : E1 * E1 -> E1) (eG : E1).
Variables (SH : list E2) (fH : E2 * E2 -> E2) (eH : E2).

(** [scan], [extend] on the values that the GroupElems wrap, with the
    operations of the two groups for the products. *)
Fixpoint pscan (func : Dict.t E1 E2) (pairs : list (E1 * E1)) (noobs : Dict.t E1 E2)
    : result (bool * Dict.t E1 E2) :=
  match pairs with
  | [] => Ok (false, noobs)
  | (g, h) :: rest =>
      if Dict.mem (fG (g, h)) func then
        fg <- Dict.get func g ;;
        fh <- Dict.get func h ;;
        fgh <- Dict.get func (fG (g, h)) ;;
        if negb (py_eqb (fH (fg, fh)) fgh) then Ok (true, noobs)
        else pscan func rest noobs
      else
        fg <- Dict.get func g ;;
        fh <- Dict.get func h ;;
        pscan func rest (Dict.set noobs (fG (g, h)) (fH (fg, fh)))
  end.

Fixpoint pextend (fuel : nat) (func : Dict.t E1 E2) : result (bool * Dict.t E1 E2) :=
  match fuel with
  | O => Diverge
  | S fuel' =>
      '(counterexample, noobs) <-
         pscan func (list_prod (Dict.keys func) (Dict.keys func)) [] ;;
      if Nat.eqb (Dict.len func) (length SG) then Ok (counterexample, func)
      else
        let imagelen :=
          AlgSet.len (AlgSet.union (AlgSet.of_list (Dict.values noobs))
                                   (AlgSet.of_list (Dict.values func))) in
        let counterexample :=
          counterexample || negb (Nat.eqb imagelen (Dict.len noobs + Dict.len func)) in
        let func := Dict.update func noobs in
        if counterexample then Ok (true, func) else pextend fuel' func
  end.

Hypothesis HG : is_group SG fG eG.
Hypothesis HH : is_group SH fH eH.

(** The entries of a dict are pairs of elements of the two groups. *)
Definition dgood (d : Dict.t E1 E2) : Prop :=
  forall k v, In (k, v) d -> In k SG /\ In v SH.

(** The entries of a dict are on the graph of [phi]. *)
Definition on_graph (phi : E1 -> E2) (d : Dict.t E1 E2) : Prop :=
  forall k v, In (k, v) d -> v = phi k.

Definition respects (phi : E1 -> E2) : Prop :=
  forall a b, In a SG -> In b SG -> phi (fG (a, b)) = fH (phi a, phi b).

Lemma dgood_key (d : Dict.t E1 E2) (k : E1) :
  dgood d -> In k (Dict.keys d) ->
  In k SG /\ exists v, Dict.get d k = Ok v /\ In (k, v) d /\ In v SH.
Proof.
  intros Hd Hk. destruct (dict_get_key d k Hk) as (v & Hv).
  pose proof (dict_get_In d k v Hv) as Hin. destruct (Hd k v Hin). eauto 6.
Qed.

Lemma pscan_spec (func : Dict.t E1 E2) (pairs : list (E1 * E1)) (noobs : Dict.t E1 E2) :
  NoDup (Dict.keys func) -> dgood func ->
  (forall g h, In (g, h) pairs -> In g (Dict.keys func) /\ In h (Dict.keys func)) ->
  NoDup (Dict.keys noobs) -> dgood noobs ->
  (forall k, In k (Dict.keys noobs) -> ~ In k (Dict.keys func)) ->
  exists c nb,
    pscan func pairs noobs = Ok (c, nb) /\
    NoDup (Dict.keys nb) /\ dgood nb /\
    (forall k, In k (Dict.keys nb) -> ~ In k (Dict.keys func)) /\
    incl (Dict.keys noobs) (Dict.keys nb) /\
    (c = false -> forall g h, In (g, h) pairs ->
       (In (fG (g, h)) (Dict.keys func) ->
        exists fg fh, Dict.get func g = Ok fg /\ Dict.get func h = Ok fh /\
                      Dict.get func (fG (g, h)) = Ok (fH (fg, fh))) /\
       (~ In (fG (g, h)) (Dict.keys func) -> In (fG (g, h)) (Dict.keys nb))) /\
    (forall phi, respects phi -> on_graph phi func -> on_graph phi noobs ->
       c = false /\ on_graph phi nb).
Proof.
  intros Hnd Hfunc. revert noobs.
  induction pairs as [|[g h] rest IH]; intros noobs Hpairs Hnnd Hngood Hndis.
  - exists false, noobs. simpl.
    split; [reflexivity|]. split; [exact Hnnd|]. split; [exact Hngood|].
    split; [exact Hndis|]. split; [apply incl_refl|]. split.
    + intros _ g h [].
    + intros phi _ _ Hgn. auto.
  - destruct (Hpairs g h) as [Hg Hh]; [simpl; auto|].
    destruct (dgood_key func g Hfunc Hg) as (HgS & fg & Hfg & Hfgin & HfgS).
    destruct (dgood_key func h Hfunc Hh) as (HhS & fh & Hfh & Hfhin & HfhS).
    assert (HghS : In (fG (g, h)) SG) by (apply (grp_closed _ _ _ HG); assumption).
    assert (HpS : In (fH (fg, fh)) SH) by (apply (grp_closed _ _ _ HH); assumption).
    assert (Hrest : forall g' h', In (g', h') rest ->
              In g' (Dict.keys func) /\ In h' (Dict.keys func)).
    { intros g' h' Hin. apply Hpairs. simpl. auto. }
    cbn [pscan]. rewrite Hfg, Hfh. cbn [bind].
    destruct (Dict.mem (fG (g, h)) func) eqn:Hmem.
    + apply dict_mem_In in Hmem.
      destruct (dgood_key func _ Hfunc Hmem) as (_ & fgh & Hfgh & Hfghin & _).
      rewrite Hfgh. cbn [bind].
      destruct (py_eqb (fH (fg, fh)) fgh) eqn:Heq; cbn [negb].
      * apply py_eqb_eq in Heq. subst fgh.
        destruct (IH noobs Hrest Hnnd Hngood Hndis)
          as (c & nb & Hscan & Hnb1 & Hnb2 & Hnb3 & Hnb4 & Hc & Hphi).
        exists c, nb. split; [exact Hscan|]. split; [exact Hnb1|]. split; [exact Hnb2|].
        split; [exact Hnb3|]. split; [exact Hnb4|]. split; [|exact Hphi].
        intros Hcf g' h' [Heq|Hin]; [|apply (Hc Hcf _ _ Hin)].
        injection Heq as <- <-. split; [eauto | contradiction].
      * exists true, noobs. split; [reflexivity|]. split; [exact Hnnd|].
        split; [exact Hngood|]. split; [exact Hndis|]. split; [apply incl_refl|].
        split; [discriminate|].
        intros phi Hresp Hgf Hgn. exfalso. apply py_eqb_neq in Heq. apply Heq.
        rewrite (Hgf _ _ Hfgin), (Hgf _ _ Hfhin), (Hgf _ _ Hfghin).
        symmetry. apply Hresp; assumption.
    + apply dict_mem_not_In in Hmem.
      destruct (IH (Dict.set noobs (fG (g, h)) (fH (fg, fh))))
        as (c & nb & Hscan & Hnb1 & Hnb2 & Hnb3 & Hnb4 & Hc & Hphi); auto.
      * apply dict_NoDup_set, Hnnd.
      * intros k v Hin. apply dict_In_set in Hin.
        destruct Hin as [[-> ->]|Hin]; [auto | apply (Hngood k v Hin)].
      * intros k Hk. rewrite dict_keys_set in Hk.
        destruct (Dict.mem (fG (g, h)) noobs); [auto|].
        apply in_app_or in Hk. destruct Hk as [Hk|[<-|[]]]; auto.
      * exists c, nb. split; [exact Hscan|]. split; [exact Hnb1|]. split; [exact Hnb2|].
        split; [exact Hnb3|]. split; [|split].
        -- eapply incl_tran; [apply dict_keys_set_incl | exact Hnb4].
        -- intros Hcf g' h' [Heq|Hin]; [|apply (Hc Hcf _ _ Hin)].
           injection Heq as <- <-. split; [contradiction|].
           intros _. apply Hnb4, dict_set_key_In.
        -- intros phi Hresp Hgf Hgn. apply (Hphi phi); auto.
           intros k v Hin. apply dict_In_set in Hin.
           destruct Hin as [[-> ->]|Hin]; [|auto].
           rewrite (Hgf _ _ Hfgin), (Hgf _ _ Hfhin). symmetry. apply Hresp; assumption.
Qed.

End PureSearch.

(** The collision test: the distinct values are as many as the entries
    exactly when no value is repeated. *)
Lemma distinct_count_NoDup {A : Type} `{PyEqOk A} (vn vf : list A) :
  Nat.eqb (AlgSet.len (AlgSet.union (AlgSet.of_list vn) (AlgSet.of_list vf)))
          (length vn + length vf) = true
  <-> NoDup (vf ++ vn).
Proof.
  set (U := AlgSet.union (AlgSet.of_list vn) (AlgSet.of_list vf)).
  assert (HU : NoDup U) by apply NoDup_union, NoDup_of_list.
  assert (HUin : forall y, In y U <-> In y (vf ++ vn)).
  { intros y. unfold U. rewrite In_union, !In_of_list, in_app_iff. tauto. }
  unfold AlgSet.len. rewrite Nat.eqb_eq. split.
  - intros Hlen. apply (@NoDup_incl_NoDup _ U); [exact HU | |].
    + rewrite length_app. lia.
    + intros y Hy. apply HUin, Hy.
  - intros Hnd. rewrite Nat.add_comm, <- length_app.
    apply Nat.le_antisymm; apply NoDup_incl_length; auto; intros y Hy; apply HUin, Hy.
Qed.

Section PureExtend.
Context {E1 E2 : Type} `{PyEqOk E1} `{PyEqOk E2}.
Variables (SG : list E1) (fG : E1 * E1 -> E1) (eG : E1).
Variables (SH : list E2) (fH : E2 * E2 -> E2) (eH : E2).
Hypothesis HG : is_group SG fG eG.
Hypothesis HH : is_group SH fH eH.
Variable As : list E1.
Hypothesis HgenA : forall x, In x SG -> generated fG As x.

Abbreviation dgood := (dgood SG SH).
Abbreviation respects := (respects SG fG fH).

(** The mapping is total and respects the operations. *)
Definition total_hom (func : Dict.t E1 E2) : Prop :=
  forall g h, In g SG -> In h SG ->
    exists fg fh, Dict.get func g = Ok fg /\ Dict.get func h = Ok fh /\
                  Dict.get func (fG (g, h)) = Ok (fH (fg, fh)).

Lemma keys_length (d : Dict.t E1 E2) : length (Dict.keys d) = length d.
Proof. apply length_map. Qed.

Lemma values_on_graph (phi : E1 -> E2) (d : Dict.t E1 E2) :
  on_graph phi d -> Dict.values d = map phi (Dict.keys d).
Proof.
  intros Hg. unfold Dict.values, Dict.keys. rewrite map_map.
  apply map_ext_in. intros [k v] Hin. simpl. apply (Hg k v Hin).
Qed.

Lemma dgood_keys (d : Dict.t E1 E2) : dgood d -> incl (Dict.keys d) SG.
Proof.
  intros Hd k Hk. apply in_map_iff in Hk. destruct Hk as ([k' v] & <- & Hin).
  apply (Hd k' v Hin).
Qed.

Lemma dgood_values (d : Dict.t E1 E2) : dgood d -> incl (Dict.values d) SH.
Proof.
  intros Hd v Hv. apply in_map_iff in Hv. destruct Hv as ([k v'] & <- & Hin).
  apply (Hd k v' Hin).
Qed.

Lemma pextend_spec (fuel : nat) (func : Dict.t E1 E2) :
  NoDup (Dict.keys func) -> dgood func -> incl As (Dict.keys func) ->
  NoDup (Dict.values func) -> length SG - length func < fuel ->
  exists c func',
    pextend SG fG fH fuel func = Ok (c, func') /\ dgood func' /\
    (c = false ->
       NoDup (Dict.keys func') /\ NoDup (Dict.values func') /\
       length func' = length SG /\ total_hom func') /\
    (forall phi, respects phi ->
       (forall x y, In x SG -> In y SG -> phi x = phi y -> x = y) ->
       on_graph phi func -> c = false).
Proof.
  revert func. induction fuel as [|fuel IH]; intros func Hnd Hgood HAs Hvnd Hfuel; [lia|].
  pose proof (dgood_keys func Hgood) as Hkeys.
  pose proof (NoDup_incl_length Hnd Hkeys) as Hklen. rewrite keys_length in Hklen.
  destruct (pscan_spec SG fG eG SH fH eH HG HH func
              (list_prod (Dict.keys func) (Dict.keys func)) [])
    as (c & nb & Hscan & Hnb1 & Hnb2 & Hnb3 & _ & Hc & Hphi); auto.
  { intros g h Hin. apply in_prod_iff in Hin. exact Hin. }
  { constructor. }
  { intros k v []. }
  cbn [pextend]. rewrite Hscan. cbn [bind]. unfold Dict.len.
  destruct (Nat.eqb_spec (length func) (length SG)) as [Hfull|Hpart].
  - exists c, func. split; [reflexivity|]. split; [exact Hgood|]. split.
    + intros ->. split; [exact Hnd|]. split; [exact Hvnd|]. split; [exact Hfull|].
      assert (HSk : incl SG (Dict.keys func)).
      { apply NoDup_length_incl; [exact Hnd | rewrite keys_length; lia | exact Hkeys]. }
      intros g h Hg Hh.
      apply (Hc eq_refl g h); [apply in_prod; auto|].
      apply HSk, (grp_closed _ _ _ HG); assumption.
    + intros phi Hresp _ Hgf. apply (Hphi phi); auto. intros k v [].
  - assert (Hupd : Dict.update func nb = func ++ nb) by (apply dict_update_fresh; auto).
    rewrite Hupd.
    assert (Hgood' : dgood (func ++ nb)).
    { intros k v Hin. apply in_app_or in Hin. destruct Hin; [apply Hgood | apply Hnb2]; auto. }
    destruct c.
    + exists true, (func ++ nb). cbn [orb]. split; [reflexivity|]. split; [exact Hgood'|].
      split; [discriminate|].
      intros phi Hresp _ Hgf. apply (Hphi phi); auto. intros k v [].
    + cbn [orb].
      destruct (Nat.eqb _ (length nb + length func)) eqn:Hcoll; cbn [negb].
      * unfold Dict.values in Hcoll. rewrite <- !(length_map snd) in Hcoll.
        apply distinct_count_NoDup in Hcoll.
        assert (Hnbne : nb <> []).
        { intros ->. apply Hpart. apply Nat.le_antisymm; [exact Hklen|].
          rewrite <- keys_length. apply NoDup_incl_length; [apply (grp_NoDup _ _ _ HG)|].
          intros x Hx. apply (generated_closed fG As (Dict.keys func)); auto.
          intros a b Ha Hb.
          destruct (in_dec py_eq_dec (fG (a, b)) (Dict.keys func)) as [Hin|Hnin]; [exact Hin|].
          exfalso. apply (proj2 (Hc eq_refl a b (in_prod _ _ _ _ Ha Hb))) in Hnin.
          exact Hnin. }
        destruct (IH (func ++ nb)) as (c' & func' & Hext & Hg' & Hc' & Hphi').
        -- unfold Dict.keys. rewrite map_app. apply NoDup_app; auto.
           intros k Hk Hk'. apply (Hnb3 k Hk' Hk).
        -- exact Hgood'.
        -- intros a Ha. unfold Dict.keys. rewrite map_app. apply in_or_app. left.
           apply HAs, Ha.
        -- unfold Dict.values. rewrite map_app. exact Hcoll.
        -- rewrite length_app. destruct nb; [congruence|]. simpl. lia.
        -- exists c', func'. split; [exact Hext|]. split; [exact Hg'|]. split; [exact Hc'|].
           intros phi Hresp Hinj Hgf. apply (Hphi' phi); auto.
           intros k v Hin. apply in_app_or in Hin. destruct Hin as [Hin|Hin]; [auto|].
           apply (proj2 (Hphi phi Hresp Hgf (fun k v (F : In (k, v) []) => match F with end))).
           exact Hin.
      * exists true, (func ++ nb). split; [reflexivity|]. split; [exact Hgood'|].
        split; [discriminate|].
        intros phi Hresp Hinj Hgf. exfalso.
        destruct (Hphi phi Hresp Hgf) as [_ Hgnb]; [intros k v []|].
        assert (Hnd' : NoDup (Dict.values func ++ Dict.values nb)).
        { rewrite (values_on_graph phi func Hgf), (values_on_graph phi nb Hgnb).
          rewrite <- map_app. apply NoDup_map_on.
          - intros x y Hx Hy. apply Hinj.
            + apply in_app_or in Hx. destruct Hx; [apply Hkeys | apply (dgood_keys nb Hnb2)]; auto.
            + apply in_app_or in Hy. destruct Hy; [apply Hkeys | apply (dgood_keys nb Hnb2)]; auto.
          - apply NoDup_app; auto. intros k Hk Hk'. apply (Hnb3 k Hk' Hk). }
        apply distinct_count_NoDup in Hnd'.
        unfold Dict.values in Hcoll, Hnd'. rewrite !length_map in Hnd'.
        rewrite Hnd' in Hcoll. discriminate.
Qed.

End PureExtend.

(** ** The search on GroupElems is the search on their values *)

Section SearchWrap.
Context {E1 E2 : Type} `{PyEqOk E1} `{PyEqOk E2}.
Variables (G : Group E1) (K : Group E2).
Hypothesis HG : valid_Group G.
Hypothesis HK : valid_Group K.

Let SG := Set_ G.
Let fG := function (bin_op G).
Let SK := Set_ K.
Let fK := function (bin_op K).

(** A dict of values, with its keys wrapped by [G] and its values by [K]. *)
Definition wrapd (d : Dict.t E1 E2) : Dict.t (GroupElem E1) (GroupElem E2) :=
  map (fun kv => (own G (fst kv), own K (snd kv))) d.

Definition lift_scan (r : result (bool * Dict.t E1 E2))
    : result (bool * Dict.t (GroupElem E1) (GroupElem E2)) :=
  match r with
  | Ok (c, d) => Ok (c, wrapd d)
  | Raise x => Raise x
  | Diverge => Diverge
  end.

Lemma get_wrapd (d : Dict.t E1 E2) (k : E1) :
  Dict.get (wrapd d) (own G k)
  = match Dict.get d k with
    | Ok v => Ok (own K v)
    | Raise x => Raise x
    | Diverge => Diverge
    end.
Proof.
  induction d as [|[k' v] d IH]; [reflexivity|].
  cbn [wrapd map Dict.get fst snd].
  change (py_eqb (own G k) (own G k')) with (py_eqb k k').
  destruct (py_eqb k k'); [reflexivity | exact IH].
Qed.

Lemma mem_wrapd (d : Dict.t E1 E2) (k : E1) :
  Dict.mem (own G k) (wrapd d) = Dict.mem k d.
Proof.
  unfold Dict.mem, wrapd. induction d as [|[k' v] d IH]; [reflexivity|].
  cbn [map existsb fst snd]. rewrite IH. reflexivity.
Qed.

Lemma set_wrapd (d : Dict.t E1 E2) (k : E1) (v : E2) :
  Dict.set (wrapd d) (own G k) (own K v) = wrapd (Dict.set d k v).
Proof.
  induction d as [|[k' v'] d IH]; [reflexivity|].
  cbn [wrapd map Dict.set fst snd].
  change (py_eqb (own G k) (own G k')) with (py_eqb k k').
  destruct (py_eqb k k'); [reflexivity|].
  cbn [map fst snd]. f_equal. exact IH.
Qed.

Lemma update_wrapd (d n : Dict.t E1 E2) :
  Dict.update (wrapd d) (wrapd n) = wrapd (Dict.update d n).
Proof.
  unfold Dict.update. revert d. induction n as [|[k v] n IH]; intros d; [reflexivity|].
  cbn [wrapd map fold_left fst snd]. rewrite set_wrapd. apply IH.
Qed.

Lemma keys_wrapd (d : Dict.t E1 E2) : Dict.keys (wrapd d) = map (own G) (Dict.keys d).
Proof. unfold Dict.keys, wrapd. rewrite !map_map. reflexivity. Qed.

Lemma values_wrapd (d : Dict.t E1 E2) : Dict.values (wrapd d) = map (own K) (Dict.values d).
Proof. unfold Dict.values, wrapd. rewrite !map_map. reflexivity. Qed.

Lemma len_wrapd (d : Dict.t E1 E2) : Dict.len (wrapd d) = Dict.len d.
Proof. apply length_map. Qed.

Lemma distinct_wrapped (a b : list E2) :
  AlgSet.len (AlgSet.union (AlgSet.of_list (map (own K) a)) (AlgSet.of_list (map (own K) b)))
  = AlgSet.len (AlgSet.union (AlgSet.of_list a) (AlgSet.of_list b)).
Proof.
  unfold AlgSet.len. rewrite <- (length_map elem).
  rewrite map_elem_union, !map_elem_of_list, !map_map.
  rewrite !(map_ext (fun x => elem (own K x)) id), !map_id by reflexivity.
  reflexivity.
Qed.

Lemma scan_wrap (func : Dict.t E1 E2) (pairs : list (E1 * E1)) (noobs : Dict.t E1 E2) :
  dgood SG SK func ->
  (forall g h, In (g, h) pairs -> In g (Dict.keys func) /\ In h (Dict.keys func)) ->
  scan (wrapd func) (map (fun p => (own G (fst p), own G (snd p))) pairs) (wrapd noobs)
  = lift_scan (pscan fG fK func pairs noobs).
Proof.
  intros Hfunc. revert noobs. induction pairs as [|[g h] rest IH]; intros noobs Hpairs.
  - reflexivity.
  - destruct (Hpairs g h) as [Hg Hh]; [simpl; auto|].
    destruct (dgood_key SG SK func g Hfunc Hg) as (HgS & fg & Hfg & _ & HfgS).
    destruct (dgood_key SG SK func h Hfunc Hh) as (HhS & fh & Hfh & _ & HfhS).
    assert (Hrest : forall g' h', In (g', h') rest ->
              In g' (Dict.keys func) /\ In h' (Dict.keys func)).
    { intros g' h' Hin. apply Hpairs. simpl. auto. }
    cbn [map scan pscan fst snd].
    rewrite (mul_own G HG) by assumption. cbn [bind]. fold fG.
    rewrite mem_wrapd, !get_wrapd, Hfg, Hfh. cbn [bind].
    rewrite (mul_own K HK) by assumption. cbn [bind]. fold fK.
    destruct (Dict.mem (fG (g, h)) func) eqn:Hmem; cbn [bind].
    + destruct (Dict.get func (fG (g, h))) as [fgh| |]; cbn [bind]; try reflexivity.
      change (py_eqb (own K (fK (fg, fh))) (own K fgh)) with (py_eqb (fK (fg, fh)) fgh).
      destruct (py_eqb (fK (fg, fh)) fgh); cbn [negb]; [apply IH, Hrest | reflexivity].
    + rewrite set_wrapd. apply IH, Hrest.
Qed.

Lemma dgood_update (d n : Dict.t E1 E2) :
  dgood SG SK d -> dgood SG SK n -> dgood SG SK (Dict.update d n).
Proof.
  unfold Dict.update. revert d. induction n as [|[k v] n IH]; intros d Hd Hn; [exact Hd|].
  simpl. apply IH.
  - intros k' v' Hin. apply dict_In_set in Hin.
    destruct Hin as [[-> ->]|Hin]; [apply (Hn k v); simpl; auto | apply (Hd k' v' Hin)].
  - intros k' v' Hin. apply (Hn k' v'). simpl. auto.
Qed.

Lemma extend_wrap (fuel : nat) (func : Dict.t E1 E2) :
  NoDup (Dict.keys func) -> dgood SG SK func ->
  extend fuel G (wrapd func) = lift_scan (pextend SG fG fK fuel func).
Proof.
  revert func. induction fuel as [|fuel IH]; intros func Hnd Hgood; [reflexivity|].
  destruct (pscan_spec SG fG (e_elem G) SK fK (e_elem K) (vg_group G HG) (vg_group K HK) func
              (list_prod (Dict.keys func) (Dict.keys func)) [])
    as (c & nb & Hscan & Hnb1 & Hnb2 & Hnb3 & _); auto.
  { intros g h Hin. apply in_prod_iff in Hin. exact Hin. }
  { constructor. }
  { intros k v []. }
  cbn [extend pextend]. rewrite keys_wrapd, list_prod_map.
  change (@nil (GroupElem E1 * GroupElem E2)) with (wrapd []).
  rewrite scan_wrap; auto.
  2:{ intros g h Hin. apply in_prod_iff in Hin. exact Hin. }
  rewrite Hscan. cbn [lift_scan bind].
  rewrite !len_wrapd, !values_wrapd, distinct_wrapped, update_wrapd.
  unfold Group_len, AlgSet.len. fold SG.
  destruct (Nat.eqb (Dict.len func) (length SG)); [reflexivity|].
  destruct (c || _); [reflexivity|].
  apply IH.
  - rewrite dict_update_fresh by auto. unfold Dict.keys. rewrite map_app.
    apply NoDup_app; auto. intros k Hk Hk'. apply (Hnb3 k Hk' Hk).
  - apply dgood_update; assumption.
Qed.

End SearchWrap.

(** ** What the search needs of [generators] *)

Section GeneratorsGenerating.
Context {E : Type} `{PyEqOk E} `{PickOk E}.
Variable G : Group E.
Hypothesis HG : valid_Group G.

Lemma generators_generating (fuel : nat) :
  length (Set_ G) <= fuel ->
  exists l,
    generators fuel G = Ok (map (own G) l) /\
    l <> [] /\ NoDup l /\ incl l (Set_ G) /\
    (forall x, In x (Set_ G) -> generated (function (bin_op G)) l x).
Proof.
  intros Hfuel. pose proof (vg_group G HG) as Hgrp.
  pose proof (grp_e _ _ _ Hgrp) as He.
  destruct (generators_spec G HG fuel Hfuel) as (xs & R & Hinv & Hlen & Hone & Hgens).
  destruct Hinv as [HRg HRS HRgen Hxs Hne Hxnd Hpow].
  assert (HSR : incl (Set_ G) R).
  { apply NoDup_length_incl; [apply (grp_NoDup _ _ _ HRg) | lia | exact HRS]. }
  destruct (Nat.eqb_spec (length (Set_ G)) 1) as [Hl1|Hl1].
  - exists [e_elem G]. split; [exact Hgens|]. split; [discriminate|].
    split; [repeat constructor; simpl; tauto|]. split; [intros y [<-|[]]; exact He|].
    intros x Hx. rewrite (Hone Hl1) in HRgen. apply HRgen, HSR, Hx.
  - exists xs. split; [exact Hgens|].
    assert (Hxne : xs <> []).
    { intros ->. simpl in Hpow.
      assert (Hle : length R <= 1); [|lia].
      apply (NoDup_all_equal R (e_elem G)); [apply (grp_NoDup _ _ _ HRg)|].
      intros x Hx. apply (generated_identity G HG), HRgen, Hx. }
    split; [exact Hxne|]. split; [exact Hxnd|]. split; [exact Hxs|].
    destruct (generate_raw G HG fuel xs Hxne Hxs Hfuel) as (R' & _ & HR'g & _ & HR'gen).
    intros x Hx. apply HSR, HRgen in Hx.
    apply (generated_mono _ (e_elem G :: xs)); [|exact Hx].
    intros y [<-|Hy]; [apply HR'gen, (grp_e _ _ _ HR'g) | apply gen_base, Hy].
Qed.

End GeneratorsGenerating.

(** ** Isomorphisms *)

Section Isomorphism.
Context {E1 E2 : Type} `{PyEqOk E1} `{PyEqOk E2}.
Variables (G : Group E1) (K : Group E2).

(** A bijection between the sets of the two groups that respects their
    operations. *)
Record is_isomorphism_map (psi : E1 -> E2) : Prop := mk_is_isomorphism_map
  { iso_in : forall x, In x (Set_ G) -> In (psi x) (Set_ K);
    iso_law : forall a b, In a (Set_ G) -> In b (Set_ G) ->
              psi (function (bin_op G) (a, b))
              = function (bin_op K) (psi a, psi b);
    iso_inj : forall x y, In x (Set_ G) -> In y (Set_ G) -> psi x = psi y -> x = y;
    iso_surj : forall y, In y (Set_ K) -> exists x, In x (Set_ G) /\ psi x = y }.

Definition isomorphic : Prop := exists psi, is_isomorphism_map psi.

(** [h] is a GroupHomomorphism from [G] to [K], accepted by the
    constructor, whose callable is a bijection of the elements. *)
Definition is_isomorphism (h : GroupHomomorphism E1 E2) : Prop :=
  GroupHomomorphism_init G K (hom_function h) = Ok h /\
  exists psi, is_isomorphism_map psi /\
    forall x, In x (Set_ G) -> hom_function h (own G x) = Ok (own K (psi x)).

Hypothesis HG : valid_Group G.
Hypothesis HK : valid_Group K.

Lemma isomorphic_len : isomorphic -> Group_len G = Group_len K.
Proof.
  intros (psi & [Hin Hlaw Hinj Hsurj]). unfold Group_len, AlgSet.len.
  apply Nat.le_antisymm.
  - rewrite <- (length_map psi). apply NoDup_incl_length.
    + apply NoDup_map_on; [exact Hinj | apply (valid_NoDup G HG)].
    + intros y Hy. apply in_map_iff in Hy. destruct Hy as (x & <- & Hx). auto.
  - rewrite <- (length_map psi (Set_ G)). apply NoDup_incl_length.
    + apply (valid_NoDup K HK).
    + intros y Hy. destruct (Hsurj y Hy) as (x & Hx & <-). apply in_map, Hx.
Qed.

Lemma abelian_check_spec {E : Type} `{PyEqOk E} (S : list E) (f : E * E -> E) :
  abelian_check S f = true <-> forall a b, In a S -> In b S -> f (a, b) = f (b, a).
Proof.
  unfold abelian_check. rewrite forallb_forall. split.
  - intros Hall a b Ha Hb. apply py_eqb_eq. apply (Hall (a, b)). apply in_prod; assumption.
  - intros Hc [a b] Hin. apply in_prod_iff in Hin. apply py_eqb_eq, Hc; tauto.
Qed.

Lemma isomorphic_abelian : isomorphic -> abelian G = abelian K.
Proof.
  intros (psi & [Hin Hlaw Hinj Hsurj]).
  rewrite (vg_abelian G HG), (vg_abelian K HK).
  apply eq_true_iff_eq. rewrite !abelian_check_spec. split.
  - intros Hc y z Hy Hz. destruct (Hsurj y Hy) as (a & Ha & <-).
    destruct (Hsurj z Hz) as (b & Hb & <-).
    rewrite <- !Hlaw by assumption. f_equal. apply Hc; assumption.
  - intros Hc a b Ha Hb. apply Hinj.
    + apply (op_closed G HG); assumption.
    + apply (op_closed G HG); assumption.
    + rewrite !Hlaw by assumption. apply Hc; apply Hin; assumption.
Qed.

End Isomorphism.

Lemma py_all_const_true {A} (p : A -> result bool) (l : list A) :
  (forall x, In x l -> p x = Ok true) -> py_all p l = Ok true.
Proof.
  intros Hp. rewrite (py_all_pure p (fun _ => true) l Hp).
  f_equal. apply forallb_forall. reflexivity.
Qed.

Lemma combine_fst {A B} (l : list A) (l' : list B) :
  length l = length l' -> map fst (combine l l') = l.
Proof.
  revert l'. induction l as [|x l IH]; intros [|y l'] Hlen; simpl in *;
    try discriminate; [reflexivity|]. f_equal. apply IH. lia.
Qed.

Lemma combine_snd {A B} (l : list A) (l' : list B) :
  length l = length l' -> map snd (combine l l') = l'.
Proof.
  revert l'. induction l as [|x l IH]; intros [|y l'] Hlen; simpl in *;
    try discriminate; [reflexivity|]. f_equal. apply IH. lia.
Qed.

Lemma combine_map2 {A B A' B'} (g : A -> A') (g' : B -> B') (l : list A) (l' : list B) :
  combine (map g l) (map g' l') = map (fun p => (g (fst p), g' (snd p))) (combine l l').
Proof.
  revert l'. induction l as [|x l IH]; intros [|y l']; simpl; try reflexivity.
  f_equal. apply IH.
Qed.

Lemma combine_graph {A B} (g : A -> B) (l : list A) (k : A) (v : B) :
  In (k, v) (combine l (map g l)) -> v = g k.
Proof.
  induction l as [|x l IH]; simpl; [contradiction|].
  intros [[= -> ->]|Hin]; auto.
Qed.

(** ** The search succeeds exactly on the isomorphic groups *)

Section SearchSpec.
Context {E1 E2 : Type} `{PyEqOk E1} `{PyEqOk E2}.
Variables (G : Group E1) (K : Group E2).
Hypothesis HG : valid_Group G.
Hypothesis HK : valid_Group K.
Hypothesis Hlen : length (Set_ G) = length (Set_ K).

Let SG := Set_ G.
Let fG := function (bin_op G).
Let SK := Set_ K.
Let fK := function (bin_op K).

(** A total, injective mapping that respects the operations is accepted
    by [GroupHomomorphism] and is an isomorphism. *)
Lemma total_hom_isomorphism (func : Dict.t E1 E2) :
  dgood SG SK func -> NoDup (Dict.keys func) -> NoDup (Dict.values func) ->
  length func = length SG -> total_hom SG fG fK func ->
  exists h,
    GroupHomomorphism_init G K (fun x => Dict.get (wrapd G K func) x) = Ok h /\
    is_isomorphism G K h.
Proof.
  intros Hgood Hknd Hvnd Hflen Htot.
  set (psi := fun x => match Dict.get func x with Ok v => v | _ => e_elem K end).
  assert (Hget : forall x, In x SG -> Dict.get func x = Ok (psi x) /\ In (psi x) SK).
  { intros x Hx. destruct (Htot x x Hx Hx) as (fx & _ & Hfx & _).
    unfold psi. rewrite Hfx. split; [reflexivity|].
    apply (Hgood x fx), dict_get_In, Hfx. }
  assert (Hlaw : forall a b, In a SG -> In b SG -> psi (fG (a, b)) = fK (psi a, psi b)).
  { intros a b Ha Hb. destruct (Htot a b Ha Hb) as (fa & fb & Hfa & Hfb & Hfab).
    unfold psi. rewrite Hfa, Hfb, Hfab. reflexivity. }
  assert (Hfn : forall x, In x SG ->
            Dict.get (wrapd G K func) (own G x) = Ok (own K (psi x))).
  { intros x Hx. rewrite get_wrapd, (proj1 (Hget x Hx)). reflexivity. }
  exists (mkGroupHomomorphism G K (fun x => Dict.get (wrapd G K func) x)).
  destruct (iter_elems_perm G HG) as (rest & Hiter & _ & _ & Hall).
  assert (Hinit : GroupHomomorphism_init G K (fun x => Dict.get (wrapd G K func) x)
                  = Ok (mkGroupHomomorphism G K (fun x => Dict.get (wrapd G K func) x))).
  { unfold GroupHomomorphism_init. rewrite Hiter.
    rewrite py_all_const_true.
    2:{ intros g Hg. apply in_map_iff in Hg. destruct Hg as (x & <- & Hx).
        apply Hall in Hx. rewrite (Hfn x Hx). cbn [bind].
        unfold Group_contains. rewrite (group_elems_own K HK), mem_elem, map_map.
        rewrite (map_ext _ id), map_id by reflexivity.
        cbn [elem own]. f_equal. apply mem_In, Hget, Hx. }
    cbn [bind negb].
    rewrite py_all_const_true; [reflexivity|].
    intros [g g'] Hin. apply in_prod_iff in Hin. destruct Hin as [Hg Hg'].
    apply in_map_iff in Hg, Hg'.
    destruct Hg as (a & <- & Ha), Hg' as (b & <- & Hb). apply Hall in Ha, Hb.
    rewrite (mul_own G HG) by assumption. cbn [bind].
    rewrite (Hfn _ (op_closed G HG a b Ha Hb)), (Hfn a Ha), (Hfn b Hb). cbn [bind].
    rewrite (mul_own K HK) by (apply Hget; assumption). cbn [bind].
    f_equal. change (py_eqb (psi (fG (a, b))) (fK (psi a, psi b)) = true).
    apply py_eqb_eq, Hlaw; assumption. }
  split; [exact Hinit|]. split; [exact Hinit|].
  exists psi. split; [|exact Hfn].
  constructor.
  - intros x Hx. apply Hget, Hx.
  - exact Hlaw.
  - intros x y Hx Hy Hxy.
    apply (dict_value_key func x y (psi x) Hvnd).
    + apply dict_get_In, Hget, Hx.
    + rewrite Hxy. apply dict_get_In, Hget, Hy.
  - intros y Hy.
    assert (Hvals : incl SK (Dict.values func)).
    { apply NoDup_length_incl; [exact Hvnd | |].
      - unfold Dict.values. rewrite length_map. unfold SK, SG in *. lia.
      - apply (dgood_values SG SK), Hgood. }
    apply Hvals, in_map_iff in Hy. destruct Hy as ([k v] & <- & Hin).
    exists k. split; [apply (Hgood k v Hin)|].
    unfold psi. rewrite (dict_In_get func k v Hknd Hin). reflexivity.
Qed.

Variable As : list E1.
Hypothesis HAne : As <> [].
Hypothesis HAnd : NoDup As.
Hypothesis HAs : incl As SG.
Hypothesis HgenA : forall x, In x SG -> generated fG As x.
Variable fuel : nat.
Hypothesis Hfuel : length SG <= fuel.

Lemma try_permutations_spec (Bls : list (list E2)) :
  (forall Bl, In Bl Bls -> NoDup Bl /\ incl Bl SK /\ length Bl = length As) ->
  exists r,
    try_permutations fuel G K (map (own G) As) (map (map (own K)) Bls) = Ok r /\
    (forall h, r = Some h -> is_isomorphism G K h) /\
    (r = None -> forall psi, is_isomorphism_map G K psi -> ~ In (map psi As) Bls).
Proof.
  induction Bls as [|Bl Bls IH]; intros HBls.
  - exists None. split; [reflexivity|]. split; [discriminate|]. intros _ psi _ [].
  - destruct (HBls Bl) as (HBnd & HBS & HBlen); [simpl; auto|].
    destruct IH as (r & Hr & Hsome & Hnone); [intros B HB; apply HBls; simpl; auto|].
    set (func := combine As Bl).
    assert (Hkeys : Dict.keys func = As) by (apply combine_fst; lia).
    assert (Hvals : Dict.values func = Bl) by (apply combine_snd; lia).
    assert (Hgood : dgood SG SK func).
    { intros k v Hin. split; [apply HAs, (in_combine_l _ _ _ _ Hin)
                             | apply HBS, (in_combine_r _ _ _ _ Hin)]. }
    assert (Hfl : length SG - length func < fuel).
    { rewrite <- (keys_length func), Hkeys.
      pose proof (NoDup_incl_length HAnd HAs) as HlA.
      assert (0 < length As) by (destruct As; [congruence | simpl; lia]). lia. }
    destruct (pextend_spec SG fG (e_elem G) SK fK (e_elem K) (vg_group G HG) (vg_group K HK)
                As HgenA fuel func)
      as (c & func' & Hext & Hgood' & Hc & Hphi).
    { rewrite Hkeys. exact HAnd. }
    { exact Hgood. }
    { rewrite Hkeys. apply incl_refl. }
    { rewrite Hvals. exact HBnd. }
    { exact Hfl. }
    cbn [map try_permutations].
    rewrite combine_map2. fold (wrapd G K (combine As Bl)). fold func.
    replace (Dict.of_pairs (wrapd G K func)) with (wrapd G K func).
    2:{ unfold Dict.of_pairs. change (@nil (GroupElem E1 * GroupElem E2)) with (wrapd G K []).
        rewrite update_wrapd. f_equal. symmetry.
        apply (dict_of_pairs_NoDup func). fold (Dict.keys func). rewrite Hkeys. exact HAnd. }
    rewrite (extend_wrap G K HG HK) by (rewrite ?Hkeys; assumption).
    fold SG fG fK. rewrite Hext. cbn [lift_scan bind].
    destruct c; cbn [negb].
    + exists r. split; [exact Hr|]. split; [exact Hsome|].
      intros Hrn psi Hpsi [Heq|Hin]; [|apply (Hnone Hrn psi Hpsi Hin)].
      assert (Hf : true = false); [|discriminate].
      apply (Hphi psi).
      * intros a b Ha Hb. apply (iso_law G K psi Hpsi); assumption.
      * intros x y Hx Hy. apply (iso_inj G K psi Hpsi); assumption.
      * intros k v Hin. unfold func in Hin. rewrite Heq in Hin.
        apply (combine_graph psi As k v Hin).
    + destruct (Hc eq_refl) as (Hknd & Hvnd & Hflen & Htot).
      destruct (total_hom_isomorphism func' Hgood' Hknd Hvnd Hflen Htot) as (h & Hh & Hiso).
      rewrite Hh. cbn [bind]. exists (Some h). split; [reflexivity|].
      split; [intros h' [= <-]; exact Hiso | discriminate].
Qed.

End SearchSpec.

(** ** Equality of functions and groups, and the subgroup lattice *)

(** Tuples are compared component by component. *)
#[export] Instance PyEq_tuple {A} `{PyEq A} : PyEq (list A) := tuple_eqb.

Lemma tuple_eqb_eq {A} `{PyEqOk A} (l m : list A) : tuple_eqb l m = true <-> l = m.
Proof.
  revert m. induction l as [|x l IH]; intros [|y m]; simpl.
  - tauto.
  - split; discriminate.
  - split; discriminate.
  - rewrite andb_true_iff, py_eqb_eq, IH. split; [intros [-> ->]|intros [= -> ->]]; auto.
Qed.

#[export] Instance PyEqOk_tuple {A} `{PyEqOk A} : PyEqOk (list A).
Proof. intros l m. apply tuple_eqb_eq. Qed.

Section GroupEq.
Context {E : Type} `{PyEq E}.

(** Modelled from the spec: [Function.__eq__], equal domains, equal
    codomains and the same value at every element of the domain. *)
Definition Function_eqb (f g : Function (E * E) E) : bool :=
  AlgSet.eqb (domain f) (domain g) && AlgSet.eqb (codomain f) (codomain g)
  && forallb (fun x => py_eqb (function f x) (function g x)) (domain f).

(** [Group.__eq__]; an object is also equal to itself by this test. *)
Definition Group_eqb (self other : Group E) : bool :=
  AlgSet.eqb (Set_ self) (Set_ other) && Function_eqb (bin_op self) (bin_op other).

End GroupEq.

#[export] Instance PyEq_Group {E} `{PyEq E} : PyEq (Group E) := Group_eqb.

Section Subgroups.
Context {E : Type} `{PyEq E}.

(** One evaluation of the comprehension
    [self.generate(list(sg.group_elems) + [g]) for sg in old_sgs for g in self
     if g not in sg.group_elems]. *)
Definition subgroups_round (fuel : nat) (self : Group E) (old_sgs : AlgSet.t (Group E))
    : result (list (Group E)) :=
  py_map (fun p => generate fuel self (map Wrapped (group_elems (fst p)) ++ [Wrapped (snd p)]))
         (filter (fun p => negb (AlgSet.mem (snd p) (group_elems (fst p))))
                 (list_prod old_sgs (Group_iter self))).

(** The [while True] loop of [subgroups]; [n] bounds its rounds. *)
Fixpoint subgroups_loop (fuel n : nat) (self : Group E) (old_sgs : AlgSet.t (Group E))
    : result (AlgSet.t (Group E)) :=
  match n with
  | O => Diverge
  | S n' =>
      news <- subgroups_round fuel self old_sgs ;;
      let new_sgs := AlgSet.union old_sgs (AlgSet.of_list news) in
      if AlgSet.eqb new_sgs old_sgs then Ok old_sgs
      else subgroups_loop fuel n' self new_sgs
  end.

(** [Group.subgroups] *)
Definition subgroups (fuel : nat) (self : Group E) : result (AlgSet.t (Group E)) :=
  trivial <- generate fuel self [Wrapped (e self)] ;;
  subgroups_loop fuel fuel self (AlgSet.of_list [trivial]).

End Subgroups.

(** [Sn(n)]: the permutations of [range(n)] as tuples, composed by
    indexing. *)
Definition Sn (n : Z) : result (Group (list Z)) :=
  let G := AlgSet.of_list (permutations (Z.to_nat n) (py_range n)) in
  let bin_op :=
    mkFunction (AlgSet.prod G G) G
      (fun x => map (fun j => nth (Z.to_nat j) (fst x) 0%Z) (snd x)) in
  Group_init (PySet G) (PyFunction bin_op).

(** ** Facts used to count subgroups *)

Fixpoint powerset {A} (l : list A) : list (list A) :=
  match l with
  | [] => [[]]
  | x :: l' => map (cons x) (powerset l') ++ powerset l'
  end.

Lemma filter_In_powerset {A} (p : A -> bool) (l : list A) : In (filter p l) (powerset l).
Proof.
  induction l as [|x l IH]; simpl; [auto|].
  apply in_or_app. destruct (p x); [left; apply in_map, IH | right; exact IH].
Qed.

Lemma length_powerset {A} (l : list A) : length (powerset l) = 2 ^ length l.
Proof.
  induction l as [|x l IH]; simpl; [reflexivity|].
  rewrite length_app, length_map, IH. lia.
Qed.

Lemma filter_agree {A} (p q : A -> bool) (l : list A) :
  filter p l = filter q l -> forall x, In x l -> p x = q x.
Proof.
  induction l as [|a l IH]; simpl; intros Heq x Hx; [contradiction|].
  destruct (p a) eqn:Hpa, (q a) eqn:Hqa.
  - injection Heq as Heq. destruct Hx as [<-|Hx]; [congruence | auto].
  - exfalso. assert (Hin : In a (filter q l)) by (rewrite <- Heq; simpl; auto).
    apply filter_In in Hin. destruct Hin. congruence.
  - exfalso. assert (Hin : In a (filter p l)) by (rewrite Heq; simpl; auto).
    apply filter_In in Hin. destruct Hin. congruence.
  - destruct Hx as [<-|Hx]; [congruence | auto].
Qed.

Lemma py_map_exists {A B} (f : A -> result B) (P : A -> B -> Prop) (l : list A) :
  (forall x, In x l -> exists y, f x = Ok y /\ P x y) ->
  exists ys, py_map f l = Ok ys /\ Forall2 P l ys.
Proof.
  induction l as [|x l IH]; intros Hl.
  - exists []. split; [reflexivity | constructor].
  - destruct (Hl x) as (y & Hy & HP); [simpl; auto|].
    destruct IH as (ys & Hys & HF); [intros z Hz; apply Hl; simpl; auto|].
    exists (y :: ys). simpl. rewrite Hy. simpl. rewrite Hys. simpl.
    split; [reflexivity | constructor; assumption].
Qed.

Lemma Forall2_In_l {A B} (P : A -> B -> Prop) (l : list A) (ys : list B) (x : A) :
  Forall2 P l ys -> In x l -> exists y, In y ys /\ P x y.
Proof.
  induction 1 as [|a b l ys Hab _ IH]; intros Hx; [contradiction|].
  destruct Hx as [<-|Hx]; [exists b; simpl; auto|].
  destruct (IH Hx) as (y & Hy & HP). exists y. simpl. auto.
Qed.

Lemma Forall2_In_r {A B} (P : A -> B -> Prop) (l : list A) (ys : list B) (y : B) :
  Forall2 P l ys -> In y ys -> exists x, In x l /\ P x y.
Proof.
  induction 1 as [|a b l ys Hab _ IH]; intros Hy; [contradiction|].
  destruct Hy as [<-|Hy]; [exists a; simpl; auto|].
  destruct (IH Hy) as (x & Hx & HP). exists x. simpl. auto.
Qed.

Lemma not_incl_witness {A : Type} `{PyEqOk A} (l m : list A) :
  incl l m \/ exists x, In x l /\ ~ In x m.
Proof.
  induction l as [|a l IH].
  - left. intros x [].
  - destruct (in_dec py_eq_dec a m) as [Ha|Ha].
    + destruct IH as [IH|(x & Hx & Hm)].
      * left. intros x [<-|Hx]; auto.
      * right. exists x. simpl. auto.
    + right. exists a. simpl. auto.
Qed.

Lemma NoDup_map_pairs {A B} (k : A -> B) (l : list A) :
  NoDup (map k l) -> ForallOrdPairs (fun a b => k a <> k b) l.
Proof.
  induction l as [|a l IH]; simpl; intros Hnd; [constructor|].
  inversion Hnd as [|? ? Ha Hnd']; subst. constructor; [|auto].
  apply Forall_forall. intros b Hb Heq. apply Ha. rewrite Heq. apply in_map, Hb.
Qed.

(** ** The subgroups found by [subgroups] *)

Section SubgroupsFacts.
Context {E : Type} `{PyEqOk E}.
Variable G : Group E.
Hypothesis HG : valid_Group G.

(** The subgroup of [G] on the elements [R], as [generate] builds it. *)
Definition sub_rec (R : list E) : Group E :=
  Group_of R (function (bin_op G)) (e_elem G).

Definition is_sub (R : list E) : Prop :=
  is_group R (function (bin_op G)) (e_elem G) /\ incl R (Set_ G).

Definition same_set (R R' : list E) : Prop := forall x, In x R <-> In x R'.

(** The elements of [G] that are in a group, in the order of [G]: equal
    for two subgroups exactly when they have the same elements. *)
Definition sub_key (K : Group E) : list E :=
  filter (fun x => AlgSet.mem x (Set_ K)) (Set_ G).

Definition lattice_inv (sgs : list (Group E)) : Prop :=
  forall K, In K sgs -> exists R, K = sub_rec R /\ is_sub R.

Lemma sub_key_same (R R' : list E) :
  incl R (Set_ G) -> incl R' (Set_ G) ->
  (sub_key (sub_rec R) = sub_key (sub_rec R') <-> same_set R R').
Proof.
  intros HR HR'. unfold sub_key. cbn [sub_rec Group_of Set_]. split.
  - intros Heq x.
    assert (Hag : forall y, In y (Set_ G) -> AlgSet.mem y R = AlgSet.mem y R')
      by (apply filter_agree, Heq).
    split; intros Hx.
    + apply mem_In. rewrite <- Hag by auto. apply mem_In, Hx.
    + apply mem_In. rewrite Hag by auto. apply mem_In, Hx.
  - intros Hs. apply filter_ext_in. intros x _. apply eq_true_iff_eq.
    rewrite !mem_In. apply Hs.
Qed.

Lemma Group_eqb_same (R R' : list E) :
  is_sub R -> is_sub R' ->
  (Group_eqb (sub_rec R) (sub_rec R') = true <-> same_set R R').
Proof.
  intros [HRg _] [HR'g _].
  pose proof (grp_NoDup _ _ _ HRg) as Hnd. pose proof (grp_NoDup _ _ _ HR'g) as Hnd'.
  unfold Group_eqb, Function_eqb. cbn [sub_rec Group_of Set_ bin_op domain codomain function].
  rewrite !andb_true_iff, !eqb_true_iff by auto using NoDup_list_prod.
  split.
  - intros [[H1 H2] _] x. split; auto.
  - intros Hs. assert (H1 : incl R R') by (intros x; apply Hs).
    assert (H2 : incl R' R) by (intros x; apply Hs).
    split; [auto|]. split; [split; [|auto]|].
    + unfold AlgSet.prod. split; intros [a b] Hab; apply in_prod_iff in Hab;
        destruct Hab as [Ha Hb]; apply in_prod_iff; split; auto.
    + apply forallb_forall. intros x _. apply py_eqb_refl.
Qed.

Lemma keyed_lattice (sgs : list (Group E)) : lattice_inv sgs -> keyed sub_key sgs.
Proof.
  intros Hl x y Hx Hy.
  destruct (Hl x Hx) as (R & -> & HR), (Hl y Hy) as (R' & -> & HR').
  apply eq_true_iff_eq.
  change (py_eqb (sub_rec R) (sub_rec R')) with (Group_eqb (sub_rec R) (sub_rec R')).
  rewrite Group_eqb_same, py_eqb_eq, sub_key_same by (auto; apply HR || apply HR').
  reflexivity.
Qed.

Lemma lattice_inv_app (a b : list (Group E)) :
  lattice_inv a -> lattice_inv b -> lattice_inv (a ++ b).
Proof.
  intros Ha Hb K HK. apply in_app_or in HK. destruct HK; auto.
Qed.

Lemma sub_rec_valid (R : list E) : is_sub R -> valid_Group (sub_rec R).
Proof. intros [HR _]. apply Group_of_valid, HR. Qed.

(** The subgroup generated by a subgroup and one more element. *)
Definition extension (R : list E) (g : E) (R' : list E) : Prop :=
  is_sub R' /\ forall x, In x R' <-> generated (function (bin_op G)) (R ++ [g]) x.

Lemma generate_extension (fuel : nat) (R : list E) (g : E) :
  length (Set_ G) <= fuel -> is_sub R -> In g (Set_ G) ->
  exists R',
    generate fuel G (map Wrapped (group_elems (sub_rec R)) ++ [Wrapped (own G g)])
    = Ok (sub_rec R') /\ extension R g R'.
Proof.
  intros Hfuel HR Hg. pose proof (sub_rec_valid R HR) as HRv. destruct HR as [HRg HRS].
  destruct (generate_tagged G (sub_rec R) HG HRv HRS (fun p => eq_refl) fuel
              (map Wrapped (group_elems (sub_rec R)) ++ [Wrapped (own G g)]))
    as (R' & Hgen & HR'g & HR'S & HR'gen); auto.
  - intros Hnil. apply app_eq_nil in Hnil. destruct Hnil as [_ Hnil]. discriminate.
  - apply Forall_app. split.
    + apply Forall_forall. intros it Hit. apply in_map_iff in Hit.
      destruct Hit as (x & <- & Hx). rewrite (group_elems_own _ HRv) in Hx.
      apply in_map_iff in Hx. destruct Hx as (r & <- & Hr).
      simpl. split; simpl; auto.
    + repeat constructor; simpl; auto.
  - exists R'. split; [exact Hgen|]. split; [split; assumption|].
    intros x. rewrite HR'gen, map_app, map_map, (group_elems_own _ HRv), map_map.
    simpl. rewrite map_id. reflexivity.
Qed.

Lemma subgroups_round_spec (fuel : nat) (old : list (Group E)) :
  length (Set_ G) <= fuel -> lattice_inv old ->
  exists news,
    subgroups_round fuel G old = Ok news /\ lattice_inv news /\
    (forall R g, In (sub_rec R) old -> is_sub R -> In g (Set_ G) -> ~ In g R ->
       exists R', In (sub_rec R') news /\ extension R g R').
Proof.
  intros Hfuel Hold.
  destruct (iter_elems_perm G HG) as (rest & Hiter & _ & _ & Hall).
  destruct (py_map_exists
              (fun p => generate fuel G
                          (map Wrapped (group_elems (fst p)) ++ [Wrapped (snd p)]))
              (fun p K => exists R g R', fst p = sub_rec R /\ snd p = own G g /\
                                         K = sub_rec R' /\ extension R g R')
              (filter (fun p => negb (AlgSet.mem (snd p) (group_elems (fst p))))
                      (list_prod old (Group_iter G))))
    as (news & Hnews & HF).
  { intros [sg g'] Hp. apply filter_In in Hp. destruct Hp as [Hp _].
    apply in_prod_iff in Hp. destruct Hp as [Hsg Hg'].
    destruct (Hold sg Hsg) as (R & -> & HR).
    rewrite Hiter in Hg'. apply in_map_iff in Hg'. destruct Hg' as (g & <- & Hg).
    apply Hall in Hg.
    destruct (generate_extension fuel R g Hfuel HR Hg) as (R' & Hgen & Hext).
    exists (sub_rec R'). split; [exact Hgen|]. exists R, g, R'. auto. }
  exists news. split; [exact Hnews|]. split.
  - intros K HK. destruct (Forall2_In_r _ _ _ K HF HK) as (p & _ & R & g & R' & _ & _ & -> & Hext).
    exists R'. split; [reflexivity | apply Hext].
  - intros R g HRold HR Hg HgR.
    assert (Hin : In (sub_rec R, own G g)
                     (filter (fun p => negb (AlgSet.mem (snd p) (group_elems (fst p))))
                             (list_prod old (Group_iter G)))).
    { apply filter_In. split.
      - apply in_prod; [exact HRold|]. rewrite Hiter. apply in_map, Hall, Hg.
      - cbn [fst snd]. rewrite (group_elems_own _ (sub_rec_valid R HR)), mem_elem, map_map.
        rewrite (map_ext _ id), map_id by reflexivity.
        apply negb_true_iff, mem_not_In. exact HgR. }
    destruct (Forall2_In_l _ _ _ _ HF Hin) as (K & HK & R1 & g1 & R' & HR1 & Hg1 & -> & Hext).
    cbn [fst snd] in HR1, Hg1.
    assert (R1 = R) by (apply (f_equal Set_) in HR1; simpl in HR1; congruence).
    assert (g1 = g) by (apply (f_equal elem) in Hg1; simpl in Hg1; congruence).
    subst. exists R'. auto.
Qed.

End SubgroupsFacts.

Section SubgroupsLoop.
Context {E : Type} `{PyEqOk E}.
Variable G : Group E.
Hypothesis HG : valid_Group G.

(** Every extension of a found subgroup by an element is found. *)
Definition extension_closed (sgs : list (Group E)) : Prop :=
  forall R g, In (sub_rec G R) sgs -> is_sub G R -> In g (Set_ G) -> ~ In g R ->
    exists R', In (sub_rec G R') sgs /\ extension G R g R'.

Lemma sub_key_powerset (sgs : list (Group E)) :
  incl (map (sub_key G) sgs) (powerset (Set_ G)).
Proof.
  intros k Hk. apply in_map_iff in Hk. destruct Hk as (K & <- & _).
  apply filter_In_powerset.
Qed.

Lemma subgroups_loop_spec (fuel n : nat) (old : list (Group E)) :
  length (Set_ G) <= fuel -> lattice_inv G old -> NoDup (map (sub_key G) old) ->
  2 ^ length (Set_ G) - length old < n ->
  exists sgs,
    subgroups_loop fuel n G old = Ok sgs /\
    lattice_inv G sgs /\ NoDup (map (sub_key G) sgs) /\ incl old sgs /\
    extension_closed sgs.
Proof.
  intros Hfuel. revert old. induction n as [|n IH]; intros old Hold Hnd Hn; [lia|].
  destruct (subgroups_round_spec G HG fuel old Hfuel Hold) as (news & Hnews & Hnl & Hext).
  cbn [subgroups_loop]. rewrite Hnews. cbn [bind].
  set (new := AlgSet.union old (AlgSet.of_list news)).
  assert (Hnew : lattice_inv G new).
  { intros K HK. apply In_union_inv in HK. destruct HK as [HK|HK]; [auto|].
    apply In_of_list_inv in HK. auto. }
  assert (Hol : lattice_inv G (AlgSet.of_list news)).
  { intros K HK. apply In_of_list_inv in HK. auto. }
  assert (Hkeys : map (sub_key G) new
                  = AlgSet.union (map (sub_key G) old)
                                 (AlgSet.of_list (map (sub_key G) news))).
  { unfold new. rewrite map_key_union by (apply keyed_lattice, lattice_inv_app; assumption).
    rewrite map_key_of_list by (apply keyed_lattice; assumption). reflexivity. }
  assert (Hnnd : NoDup (map (sub_key G) new)).
  { rewrite Hkeys. apply NoDup_union, Hnd. }
  assert (Hinc : incl (map (sub_key G) old) (map (sub_key G) new)).
  { rewrite Hkeys. intros k Hk. apply In_union. auto. }
  rewrite (eqb_key (sub_key G) new old)
    by (apply keyed_lattice, lattice_inv_app; assumption).
  destruct (AlgSet.eqb (map (sub_key G) new) (map (sub_key G) old)) eqn:Heq.
  - apply eqb_true_iff in Heq; auto. destruct Heq as [Hno _].
    exists old. split; [reflexivity|]. split; [exact Hold|]. split; [exact Hnd|].
    split; [apply incl_refl|].
    intros R g HR HRs Hg HgR.
    destruct (Hext R g HR HRs Hg HgR) as (R' & HR' & HR'e).
    assert (Hk : In (sub_key G (sub_rec G R')) (map (sub_key G) old)).
    { apply Hno. rewrite Hkeys. apply In_union. right. apply In_of_list.
      apply in_map, HR'. }
    apply in_map_iff in Hk. destruct Hk as (M & HMk & HM).
    destruct (Hold M HM) as (R'' & -> & HR'').
    apply sub_key_same in HMk; [|apply HR'' | apply HR'e].
    exists R''. split; [exact HM|]. split; [exact HR''|].
    intros x. rewrite (HMk x). apply HR'e.
  - assert (Hgrow : length old < length new).
    { pose proof (NoDup_incl_length Hnd Hinc) as Hle. rewrite !length_map in Hle.
      destruct (Nat.eq_dec (length old) (length new)) as [Hsame|]; [|lia].
      exfalso. assert (Hback : incl (map (sub_key G) new) (map (sub_key G) old)).
      { apply NoDup_length_incl; [exact Hnd | rewrite !length_map; lia | exact Hinc]. }
      assert (Ht : AlgSet.eqb (map (sub_key G) new) (map (sub_key G) old) = true)
        by (apply eqb_true_iff; auto).
      congruence. }
    assert (Hbound : length new <= 2 ^ length (Set_ G)).
    { rewrite <- (length_map (sub_key G)), <- length_powerset.
      apply NoDup_incl_length; [exact Hnnd | apply sub_key_powerset]. }
    destruct (IH new Hnew Hnnd) as (sgs & Hloop & Hs1 & Hs2 & Hs3 & Hs4); [lia|].
    exists sgs. split; [exact Hloop|]. split; [exact Hs1|]. split; [exact Hs2|].
    split; [|exact Hs4].
    intros K HK. apply Hs3. unfold new. apply incl_union_l, HK.
Qed.

(** A family of subgroups that holds the trivial one and every extension
    holds every subgroup. *)
Lemma lattice_complete (sgs : list (Group E)) (R0 : list E) :
  lattice_inv G sgs -> extension_closed sgs ->
  In (sub_rec G R0) sgs -> is_sub G R0 -> (forall x, In x R0 -> x = e_elem G) ->
  forall K, is_sub G K ->
    exists R, In (sub_rec G R) sgs /\ is_sub G R /\ same_set R K.
Proof.
  intros Hl Hcl HR0 HR0s HR0e K HK.
  assert (Haux : forall n R, In (sub_rec G R) sgs -> is_sub G R -> incl R K ->
            length K - length R <= n ->
            exists R', In (sub_rec G R') sgs /\ is_sub G R' /\ same_set R' K).
  { induction n as [|n IH]; intros R HR HRs HRK Hn.
    - exists R. split; [exact HR|]. split; [exact HRs|].
      assert (HKR : incl K R).
      { apply NoDup_length_incl; [apply (grp_NoDup _ _ _ (proj1 HRs)) | lia | exact HRK]. }
      intros x. split; auto.
    - destruct (not_incl_witness K R) as [HKR|(g & HgK & HgR)].
      + exists R. split; [exact HR|]. split; [exact HRs|]. intros x. split; auto.
      + destruct (Hcl R g HR HRs (proj2 HK g HgK) HgR) as (R' & HR' & HR's & HR'gen).
        assert (HR'K : incl R' K).
        { intros x Hx. apply HR'gen in Hx.
          apply (generated_closed (function (bin_op G)) (R ++ [g]) K); auto.
          - intros y Hy. apply in_app_or in Hy. destruct Hy as [Hy|[<-|[]]]; auto.
          - intros a b. apply (grp_closed _ _ _ (proj1 HK)). }
        assert (Hlen : length R < length R').
        { assert (Hnd : NoDup (g :: R)).
          { constructor; [exact HgR | apply (grp_NoDup _ _ _ (proj1 HRs))]. }
          assert (Hinc : incl (g :: R) R').
          { intros y [<-|Hy]; apply HR'gen, gen_base, in_or_app; simpl; auto. }
          pose proof (NoDup_incl_length Hnd Hinc) as Hle. simpl in Hle. lia. }
        pose proof (NoDup_incl_length (grp_NoDup _ _ _ (proj1 HR's)) HR'K) as Hle.
        apply (IH R' HR' HR's HR'K). lia. }
  apply (Haux (length K) R0 HR0 HR0s); [|lia].
  intros x Hx. rewrite (HR0e x Hx). apply (grp_e _ _ _ (proj1 HK)).
Qed.

Lemma subgroups_spec (fuel : nat) :
  2 ^ length (Set_ G) <= fuel ->
  exists sgs,
    subgroups fuel G = Ok sgs /\
    lattice_inv G sgs /\ NoDup (map (sub_key G) sgs) /\
    (forall K, is_sub G K -> exists R, In (sub_rec G R) sgs /\ is_sub G R /\ same_set R K).
Proof.
  intros Hfuel.
  assert (Hlen : length (Set_ G) <= fuel).
  { pose proof (Nat.pow_gt_lin_r 2 (length (Set_ G))). lia. }
  pose proof (vg_group G HG) as Hgrp.
  destruct (generate_tagged G G HG HG (incl_refl _) (fun p => eq_refl) fuel [Wrapped (e G)])
    as (R0 & Hgen & HR0g & HR0S & HR0gen); auto.
  { discriminate. }
  { repeat constructor; simpl; auto. apply (grp_e _ _ _ Hgrp). }
  assert (HR0s : is_sub G R0) by (split; assumption).
  assert (Hinv0 : lattice_inv G [sub_rec G R0]).
  { intros K [<-|[]]. exists R0. auto. }
  destruct (subgroups_loop_spec fuel fuel [sub_rec G R0] Hlen Hinv0)
    as (sgs & Hloop & Hs1 & Hs2 & Hs3 & Hs4).
  { repeat constructor. simpl. tauto. }
  { simpl. pose proof (Nat.pow_nonzero 2 (length (Set_ G))). lia. }
  exists sgs. split; [|split; [exact Hs1 | split; [exact Hs2|]]].
  - unfold subgroups. rewrite Hgen. cbn [bind]. exact Hloop.
  - apply (lattice_complete sgs R0 Hs1 Hs4); auto.
    + apply Hs3. simpl. auto.
    + intros x Hx. apply (generated_identity G HG), HR0gen, Hx.
Qed.

End SubgroupsLoop.

Lemma lattice_distinct {E : Type} `{PyEqOk E} (G : Group E) (sgs : list (Group E)) :
  lattice_inv G sgs -> NoDup (map (sub_key G) sgs) ->
  ForallOrdPairs (fun K1 K2 => ~ same_set (Set_ K1) (Set_ K2)) sgs.
Proof.
  induction sgs as [|K sgs IH]; intros Hl Hnd; [constructor|].
  simpl in Hnd. inversion Hnd as [|? ? HK Hnd']; subst. constructor.
  - apply Forall_forall. intros K' HK' Hsame.
    destruct (Hl K) as (R & -> & HR); [simpl; auto|].
    destruct (Hl K') as (R' & -> & HR'); [simpl; auto|].
    apply HK. apply (sub_key_same G R R' (proj2 HR) (proj2 HR')) in Hsame.
    rewrite Hsame. apply in_map, HK'.
  - apply IH; [|exact Hnd']. intros K' HK'. apply Hl. simpl. auto.
Qed.

(** The symmetric group on three symbols, as [Sn(3)] builds it. *)
Definition S3 : Group (list Z) :=
  Group_of [[0; 1; 2]; [0; 2; 1]; [1; 0; 2]; [1; 2; 0]; [2; 0; 1]; [2; 1; 0]]%Z
           (fun x => map (fun j => nth (Z.to_nat j) (fst x) 0%Z) (snd x))
           [0; 1; 2]%Z.

Lemma Sn_3 : Sn 3 = Ok S3.
Proof. vm_compute. reflexivity. Qed.

(** The subgroups of [Sn(3)] in the order in which [subgroups] finds them. *)
Definition S3_subgroups : list (Group (list Z)) :=
  map (sub_rec S3)
      [ [[0; 1; 2]];
        [[0; 1; 2]; [0; 2; 1]];
        [[0; 1; 2]; [1; 0; 2]];
        [[0; 1; 2]; [1; 2; 0]; [2; 0; 1]];
        [[0; 1; 2]; [2; 1; 0]];
        [[0; 1; 2]; [0; 2; 1]; [1; 0; 2]; [2; 0; 1]; [1; 2; 0]; [2; 1; 0]] ]%Z.

Lemma subgroups_S3 : subgroups 64 S3 = Ok S3_subgroups.
Proof. vm_compute. reflexivity. Qed.

(** ** Subgroup test, normality and quotient *)

(** [AlgSet.__eq__] as the [==] of the elements of a set of sets. *)
Definition PyEq_AlgSet {E : Type} `{PyEq E} : PyEq (AlgSet.t E) := AlgSet.eqb.

Section Quotient.
Context {E : Type} `{PyEq E} `{Pick E}.

(** [Group.__le__], for [other] a Group (so that the [isinstance] test
    passes). *)
Definition Group_le (self other : Group E) : result bool :=
  if AlgSet.subset (Set_ self) (Set_ other) then
    py_all (fun '(a, b) =>
              x <- Function_call (bin_op self) (a, b) ;;
              y <- Function_call (bin_op other) (a, b) ;;
              Ok (py_eqb x y))
           (list_prod (Set_ self) (Set_ self))
  else Ok false.

(** [Group.is_normal_subgroup]: [self <= other] and, for every [g] of
    [other], [AlgSet(g * h for h in self) == AlgSet(h * g for h in self)]. *)
Definition is_normal_subgroup (self other : Group E) : result bool :=
  le <- Group_le self other ;;
  if le then
    py_all (fun g =>
              l <- py_map (fun h => GroupElem_mul g h) (Group_iter self) ;;
              r <- py_map (fun h => GroupElem_mul h g) (Group_iter self) ;;
              Ok (AlgSet.eqb (AlgSet.of_list l) (AlgSet.of_list r)))
           (Group_iter other)
  else Ok false.

(** The function [multiply_cosets] of [Group.__div__]:
    [h = x[0].pick()] and [AlgSet(self.bin_op((h, g)) for g in x[1])]. *)
Definition multiply_cosets (self : Group E) (x : AlgSet.t E * AlgSet.t E)
    : result (AlgSet.t E) :=
  h <- pick (fst x) ;;
  l <- py_map (fun g => Function_call (bin_op self) (h, g)) (snd x) ;;
  Ok (AlgSet.of_list l).

(** [Group.__div__].  The rule of a [Function] is a total function here:
    where [multiply_cosets] raises, the rule is given the empty set. *)
Definition Group_div (self other : Group E) : result (Group (AlgSet.t E)) :=
  normal <- is_normal_subgroup other self ;;
  if negb normal then Raise ValueError else
  cosets <- py_map (fun g =>
              l <- py_map (fun h => Function_call (bin_op self) (g, h)) (Set_ other) ;;
              Ok (AlgSet.of_list l)) (Set_ self) ;;
  let G := @AlgSet.of_list _ PyEq_AlgSet cosets in
  let rule := fun x => match multiply_cosets self x with
                       | Ok c => c
                       | _ => []
                       end in
  @Group_init _ PyEq_AlgSet
    (PySet G) (PyFunction (mkFunction (AlgSet.prod G G) G rule)).

(** The methods of class [Group] that take a Group and return its
    quotient, by name: the class defines one, [__div__]. *)
Definition Group_quotient_method (name : string)
    : option (Group E -> Group E -> result (Group (AlgSet.t E))) :=
  if String.eqb name "__div__" then Some Group_div else None.

(** [a / b] in Python 3: the method [__truediv__] of the class of [a];
    without it the reflected [__rtruediv__] of the class of [b]; without
    both [TypeError] (unsupported operand types).  [__div__] is the name
    that Python 2 gave to the operator. *)
Definition py_truediv {A B C : Type}
    (truediv : option (A -> B -> result C))
    (rtruediv : option (B -> A -> result C)) (a : A) (b : B) : result C :=
  match truediv, rtruediv with
  | Some m, _ => m a b
  | None, Some m => m b a
  | None, None => Raise TypeError
  end.

(** [self / other] for two Groups. *)
Definition Group_truediv (self other : Group E) : result (Group (AlgSet.t E)) :=
  py_truediv (Group_quotient_method "__truediv__")
             (Group_quotient_method "__rtruediv__") self other.

End Quotient.

(** ** Sets whose elements are compared by an [==] that is not structural *)

Section AlgSetUpto.
Context {B : Type} `{PyEq B}.

Lemma mem_exists (x : B) (s : list B) :
  AlgSet.mem x s = true <-> exists y, In y s /\ py_eqb x y = true.
Proof. unfold AlgSet.mem. apply existsb_exists. Qed.

Lemma mem_app_any (x : B) (s s' : list B) :
  AlgSet.mem x (s ++ s') = AlgSet.mem x s || AlgSet.mem x s'.
Proof. unfold AlgSet.mem. apply existsb_app. Qed.

Lemma mem_add_mono (x y : B) (s : list B) :
  AlgSet.mem x s = true -> AlgSet.mem x (AlgSet.add s y) = true.
Proof.
  intros Hx. unfold AlgSet.add. destruct (AlgSet.mem y s); [exact Hx|].
  rewrite mem_app_any, Hx. reflexivity.
Qed.

Lemma mem_union_any (x : B) (a b : list B) :
  py_eqb x x = true -> AlgSet.mem x a = true \/ In x b ->
  AlgSet.mem x (AlgSet.union a b) = true.
Proof.
  intros Hxx. unfold AlgSet.union. revert a.
  induction b as [|y b IH]; simpl; intros a Hx.
  - destruct Hx as [Hx|[]]. exact Hx.
  - apply IH. destruct Hx as [Hx|[->|Hx]]; [left|left|right; exact Hx].
    + apply mem_add_mono, Hx.
    + unfold AlgSet.add. destruct (AlgSet.mem x a) eqn:Hm; [exact Hm|].
      rewrite mem_app_any. simpl. rewrite Hxx. apply orb_true_iff. right. reflexivity.
Qed.

Lemma mem_of_list_any (x : B) (l : list B) :
  py_eqb x x = true -> In x l -> AlgSet.mem x (AlgSet.of_list l) = true.
Proof. intros Hxx Hx. apply (mem_union_any x [] l Hxx). right. exact Hx. Qed.

(** No two elements of a set are equal by [==], when [==] is symmetric
    on what the set is built from. *)
Definition distinct (s : list B) : Prop :=
  forall x y, In x s -> In y s -> py_eqb x y = true -> x = y.

Lemma distinct_add (s : list B) (x : B) :
  (forall y, In y s -> py_eqb y x = py_eqb x y) ->
  distinct s -> distinct (AlgSet.add s x).
Proof.
  intros Hsym Hs. unfold AlgSet.add. destruct (AlgSet.mem x s) eqn:Hm; [exact Hs|].
  assert (Hno : forall y, In y s -> py_eqb x y = false).
  { intros y Hy. destruct (py_eqb x y) eqn:Hxy; [|reflexivity].
    assert (AlgSet.mem x s = true) by (apply mem_exists; eauto). congruence. }
  intros u v Hu Hv Huv. rewrite in_app_iff in Hu, Hv. simpl in Hu, Hv.
  destruct Hu as [Hu|[<-|[]]], Hv as [Hv|[<-|[]]].
  - apply Hs; assumption.
  - rewrite Hsym, Hno in Huv by assumption. discriminate.
  - rewrite Hno in Huv by assumption. discriminate.
  - reflexivity.
Qed.

Lemma distinct_union (a b : list B) :
  (forall x y, In x (a ++ b) -> In y (a ++ b) -> py_eqb y x = py_eqb x y) ->
  distinct a -> distinct (AlgSet.union a b).
Proof.
  unfold AlgSet.union. revert a. induction b as [|x b IH]; simpl; intros a Hsym Ha; [exact Ha|].
  apply IH.
  - intros u v Hu Hv. apply Hsym.
    + rewrite in_app_iff in *. simpl. destruct Hu as [Hu|Hu]; [|auto].
      apply In_add_inv in Hu. destruct Hu as [Hu| ->]; auto.
    + rewrite in_app_iff in *. simpl. destruct Hv as [Hv|Hv]; [|auto].
      apply In_add_inv in Hv. destruct Hv as [Hv| ->]; auto.
  - apply distinct_add; [|exact Ha].
    intros y Hy. apply Hsym; rewrite in_app_iff; simpl; auto.
Qed.

Lemma distinct_of_list (l : list B) :
  (forall x y, In x l -> In y l -> py_eqb y x = py_eqb x y) ->
  distinct (AlgSet.of_list l).
Proof.
  intros Hsym. apply (distinct_union [] l); [exact Hsym|].
  intros x y [].
Qed.

Lemma subset_refl_any (s : list B) :
  (forall x, In x s -> py_eqb x x = true) -> AlgSet.subset s s = true.
Proof.
  intros Hr. unfold AlgSet.subset. apply forallb_forall. intros x Hx.
  apply mem_exists. exists x. auto.
Qed.

Lemma eqb_refl_any (s : list B) :
  (forall x, In x s -> py_eqb x x = true) -> AlgSet.eqb s s = true.
Proof.
  intros Hr. unfold AlgSet.eqb. rewrite Nat.eqb_refl, subset_refl_any by exact Hr.
  reflexivity.
Qed.

End AlgSetUpto.

Lemma mem_prod_any {A B : Type} `{PyEq A} `{PyEq B} (a : A) (b : B)
    (s : list A) (t : list B) :
  AlgSet.mem a s = true -> AlgSet.mem b t = true ->
  AlgSet.mem (a, b) (AlgSet.prod s t) = true.
Proof.
  intros Ha Hb. apply mem_exists in Ha. apply mem_exists in Hb.
  destruct Ha as (a' & Ha' & Haa), Hb as (b' & Hb' & Hbb).
  apply mem_exists. exists (a', b'). split.
  - apply in_prod; assumption.
  - unfold py_eqb, PyEq_prod. simpl. apply andb_true_iff. split; assumption.
Qed.

(** ** The constructor on a set with an [==] that is not structural *)

Section InitUpto.
Context {A : Type} `{PyEq A}.
Variables (S : list A) (F : Function (A * A) A) (e0 : A).
Hypothesis HD : domain F = AlgSet.prod S S.
Hypothesis HC : codomain F = S.
Hypothesis Hrefl : forall a, In a S -> py_eqb a a = true.
Hypothesis Hclosed : forall a b, In a S -> In b S ->
  AlgSet.mem (function F (a, b)) S = true.
Hypothesis Hassoc : forall a b c, In a S -> In b S -> In c S ->
  py_eqb (function F (a, function F (b, c))) (function F (function F (a, b), c)) = true.
Hypothesis He : In e0 S.
Hypothesis Hid : forall a, In a S -> py_eqb (function F (e0, a)) a = true.
Hypothesis Hunique : forall c, In c S ->
  (forall a, In a S -> py_eqb (function F (c, a)) a = true) -> c = e0.
Hypothesis Hinv : forall a, In a S ->
  exists b, In b S /\ py_eqb (function F (a, b)) e0 = true.

Lemma mem_self (a : A) : In a S -> AlgSet.mem a S = true.
Proof. intros Ha. apply mem_exists. exists a. auto. Qed.

Lemma call_upto (a b : A) :
  AlgSet.mem a S = true -> AlgSet.mem b S = true ->
  Function_call F (a, b) = Ok (function F (a, b)).
Proof.
  intros Ha Hb. unfold Function_call. rewrite HD.
  rewrite mem_prod_any by assumption. reflexivity.
Qed.

Lemma find_identity_upto (cands : list A) :
  incl cands S -> In e0 cands -> find_identity F S cands = Ok (Some e0).
Proof.
  induction cands as [|c cands IH]; simpl; intros Hincl Hin; [contradiction|].
  assert (Hc : In c S) by (apply Hincl; simpl; auto).
  rewrite (py_all_pure _ (fun a => py_eqb (function F (c, a)) a)).
  2:{ intros a Ha. rewrite call_upto by (apply mem_self; assumption). reflexivity. }
  cbn [bind]. destruct (forallb _ S) eqn:Hall.
  - rewrite forallb_forall in Hall. rewrite (Hunique c Hc Hall). reflexivity.
  - destruct Hin as [->|Hin].
    + exfalso. assert (Ht : forallb (fun a => py_eqb (function F (e0, a)) a) S = true).
      { apply forallb_forall. exact Hid. }
      congruence.
    + apply IH; [|exact Hin]. intros x Hx. apply Hincl. simpl. auto.
Qed.

Lemma Group_init_upto :
  exists ab, Group_init (PySet S) (PyFunction F) = Ok (mkGroup ab S e0 F).
Proof.
  unfold Group_init. rewrite HC, HD.
  rewrite (eqb_refl_any S Hrefl).
  rewrite eqb_refl_any.
  2:{ intros [a b] Hab. apply in_prod_iff in Hab.
      unfold py_eqb, PyEq_prod. simpl. rewrite !Hrefl by tauto. reflexivity. }
  cbn [negb].
  rewrite (py_all_pure _ (fun '(a, b, c) =>
             py_eqb (function F (a, function F (b, c)))
                    (function F (function F (a, b), c)))).
  2:{ intros [[a b] c] Hin. unfold product3 in Hin.
      apply in_prod_iff in Hin. destruct Hin as [Hab Hc].
      apply in_prod_iff in Hab. destruct Hab as [Ha Hb].
      pose proof (mem_self a Ha) as Ha'. pose proof (mem_self b Hb) as Hb'.
      pose proof (mem_self c Hc) as Hc'.
      rewrite (call_upto b c) by assumption. cbn [bind].
      rewrite (call_upto a) by auto. cbn [bind].
      rewrite (call_upto a b) by assumption. cbn [bind].
      rewrite (call_upto _ c) by auto. reflexivity. }
  rewrite (proj2 (forallb_forall _ _)).
  2:{ intros [[a b] c] Hin. unfold product3 in Hin.
      apply in_prod_iff in Hin. destruct Hin as [Hab Hc].
      apply in_prod_iff in Hab. destruct Hab as [Ha Hb]. apply Hassoc; assumption. }
  cbn [bind negb].
  rewrite (find_identity_upto S) by (auto using incl_refl).
  cbn [bind].
  rewrite (py_all_pure _ (fun a => existsb (fun b => py_eqb (function F (a, b)) e0) S)).
  2:{ intros a Ha. apply py_any_pure. intros b Hb.
      rewrite call_upto by (apply mem_self; assumption). reflexivity. }
  rewrite (proj2 (forallb_forall _ _)).
  2:{ intros a Ha. apply existsb_exists. apply Hinv, Ha. }
  cbn [bind negb].
  rewrite (py_all_pure _ (fun '(a, b) => py_eqb (function F (a, b)) (function F (b, a)))).
  2:{ intros [a b] Hab. apply in_prod_iff in Hab. destruct Hab as [Ha Hb].
      rewrite !call_upto by (apply mem_self; assumption). reflexivity. }
  cbn [bind]. eexists. reflexivity.
Qed.

End InitUpto.

(** ** The subgroup test and the normality test *)

(** The elements of a group in the order of [Group.__iter__]. *)
Definition iter_list {E : Type} `{PyEq E} (K : Group E) : list E :=
  e_elem K :: filter (fun x => negb (py_eqb x (e_elem K))) (Set_ K).

Section NormalFacts.
Context {E : Type} `{PyEqOk E}.
Variables G N : Group E.
Hypothesis HG : valid_Group G.
Hypothesis HN : valid_Group N.

(** The left and right cosets of [N] by [g], with the operation of [G]. *)
Definition lcoset (g : E) : list E :=
  map (fun h => function (bin_op G) (g, h)) (Set_ N).

Definition rcoset (g : E) : list E :=
  map (fun h => function (bin_op G) (h, g)) (Set_ N).

(** [N] is a subgroup of [G]: its elements are elements of [G] and its
    operation is that of [G]. *)
Definition subgroup_of : Prop :=
  incl (Set_ N) (Set_ G) /\
  forall a b, In a (Set_ N) -> In b (Set_ N) ->
    function (bin_op N) (a, b) = function (bin_op G) (a, b).

(** [N] is a normal subgroup of [G]: [gN = Ng] for every [g] of [G]. *)
Definition normal_subgroup : Prop :=
  subgroup_of /\ forall g, In g (Set_ G) -> same_set (lcoset g) (rcoset g).

Lemma Group_iter_list (K : Group E) :
  valid_Group K -> Group_iter K = map (own K) (iter_list K).
Proof. intros HK. rewrite (Group_iter_own K HK). reflexivity. Qed.

Lemma In_iter_list (K : Group E) (x : E) :
  valid_Group K -> (In x (iter_list K) <-> In x (Set_ K)).
Proof.
  intros HK. pose proof (grp_e _ _ _ (vg_group K HK)) as He.
  unfold iter_list. simpl. rewrite filter_In, negb_true_iff, py_eqb_neq.
  destruct (py_eq_dec x (e_elem K)) as [->|Hne]; [tauto|].
  split; [intros [Heq|[Hx _]]; [congruence|exact Hx] | auto].
Qed.

Definition le_b : bool :=
  AlgSet.subset (Set_ N) (Set_ G)
  && forallb (fun '(a, b) => py_eqb (function (bin_op N) (a, b))
                                    (function (bin_op G) (a, b)))
             (list_prod (Set_ N) (Set_ N)).

Lemma Group_le_spec : Group_le N G = Ok le_b.
Proof.
  unfold Group_le, le_b. destruct (AlgSet.subset (Set_ N) (Set_ G)) eqn:Hs; [|reflexivity].
  apply subset_incl in Hs. cbn [andb].
  apply py_all_pure. intros [a b] Hab. apply in_prod_iff in Hab. destruct Hab as [Ha Hb].
  rewrite (call_op N HN) by assumption. cbn [bind].
  rewrite (call_op G HG) by (apply Hs; assumption). reflexivity.
Qed.

Lemma le_b_iff : le_b = true <-> subgroup_of.
Proof.
  unfold le_b, subgroup_of. rewrite andb_true_iff, subset_incl, forallb_forall.
  split; intros [Hs Hf]; (split; [exact Hs|]).
  - intros a b Ha Hb. apply py_eqb_eq. apply (Hf (a, b)). apply in_prod; assumption.
  - intros [a b] Hab. apply in_prod_iff in Hab. apply py_eqb_eq. apply Hf; tauto.
Qed.

Hypothesis Hsub : subgroup_of.

Lemma sub_In (h : E) : In h (Set_ N) -> In h (Set_ G).
Proof. apply (proj1 Hsub). Qed.

Lemma sub_op (a b : E) :
  In a (Set_ N) -> In b (Set_ N) -> In (function (bin_op G) (a, b)) (Set_ N).
Proof.
  intros Ha Hb. rewrite <- (proj2 Hsub) by assumption. apply (op_closed N HN); assumption.
Qed.

Lemma mul_G_N (g h : E) :
  In g (Set_ G) -> In h (Set_ N) ->
  GroupElem_mul (own G g) (own N h) = Ok (own G (function (bin_op G) (g, h))).
Proof.
  intros Hg Hh. unfold GroupElem_mul. cbn [elem group own].
  rewrite (call_op G HG) by (auto using sub_In). cbn [bind].
  rewrite (GroupElem_init_own G) by (apply (op_closed G HG); auto using sub_In).
  reflexivity.
Qed.

Lemma mul_N_G (h g : E) :
  In g (Set_ G) -> In h (Set_ N) ->
  exists z, GroupElem_mul (own N h) (own G g) = Ok z /\
            elem z = function (bin_op G) (h, g).
Proof.
  intros Hg Hh. unfold GroupElem_mul. cbn [elem group own].
  destruct (AlgSet.mem g (Set_ N)) eqn:Hm.
  - apply mem_In in Hm. rewrite (call_op N HN) by assumption. cbn [bind].
    rewrite (GroupElem_init_own N) by (apply (op_closed N HN); assumption).
    eexists. split; [reflexivity|]. cbn [elem own]. apply (proj2 Hsub); assumption.
  - apply mem_not_In in Hm.
    rewrite (Function_call_out (Set_ N) (bin_op N) (valid_NoDup N HN)
               (vg_dom_NoDup N HN) (vg_dom N HN)) by tauto.
    cbn [bind]. unfold GroupElem_rmul. cbn [elem group own].
    rewrite (call_op G HG) by (auto using sub_In). cbn [bind].
    rewrite (GroupElem_init_own G) by (apply (op_closed G HG); auto using sub_In).
    eexists. split; reflexivity.
Qed.

Lemma py_map_mul_left (g : E) (l : list E) :
  In g (Set_ G) -> incl l (Set_ N) ->
  exists r, py_map (fun h => GroupElem_mul (own G g) h) (map (own N) l) = Ok r /\
            map elem r = map (fun h => function (bin_op G) (g, h)) l.
Proof.
  intros Hg. induction l as [|h l IH]; intros Hl; [exists []; auto|].
  destruct IH as (r & Hr & Her); [intros x Hx; apply Hl; simpl; auto|].
  cbn [map py_map]. rewrite mul_G_N by (auto; apply Hl; simpl; auto). cbn [bind].
  rewrite Hr. cbn [bind]. eexists. split; [reflexivity|]. cbn [map elem own].
  rewrite Her. reflexivity.
Qed.

Lemma py_map_mul_right (g : E) (l : list E) :
  In g (Set_ G) -> incl l (Set_ N) ->
  exists r, py_map (fun h => GroupElem_mul h (own G g)) (map (own N) l) = Ok r /\
            map elem r = map (fun h => function (bin_op G) (h, g)) l.
Proof.
  intros Hg. induction l as [|h l IH]; intros Hl; [exists []; auto|].
  destruct IH as (r & Hr & Her); [intros x Hx; apply Hl; simpl; auto|].
  destruct (mul_N_G h g Hg) as (z & Hz & Hez); [apply Hl; simpl; auto|].
  cbn [map py_map]. rewrite Hz. cbn [bind].
  rewrite Hr. cbn [bind]. eexists. split; [reflexivity|]. cbn [map].
  rewrite Her, Hez. reflexivity.
Qed.

(** The comparison that [is_normal_subgroup] makes for one [g]. *)
Definition normal_at (g : E) : bool :=
  AlgSet.eqb
    (AlgSet.of_list (map (fun h => function (bin_op G) (g, h)) (iter_list N)))
    (AlgSet.of_list (map (fun h => function (bin_op G) (h, g)) (iter_list N))).

Lemma normal_at_iff (g : E) :
  normal_at g = true <-> same_set (lcoset g) (rcoset g).
Proof.
  unfold normal_at. rewrite eqb_true_iff by apply NoDup_of_list.
  unfold same_set, lcoset, rcoset, incl.
  assert (Hl : forall (k : E -> E) x,
             In x (AlgSet.of_list (map k (iter_list N))) <-> In x (map k (Set_ N))).
  { intros k x. rewrite In_of_list, !in_map_iff.
    split; intros (h & Hh & Hin); exists h; (split; [exact Hh|]);
      apply (In_iter_list N h HN); exact Hin. }
  split.
  - intros [H1 H2] x. rewrite <- !Hl. split; auto.
  - intros Hs. split; intros x; rewrite !Hl; apply Hs.
Qed.

Lemma normal_test :
  py_all (fun g =>
            l <- py_map (fun h => GroupElem_mul g h) (Group_iter N) ;;
            r <- py_map (fun h => GroupElem_mul h g) (Group_iter N) ;;
            Ok (AlgSet.eqb (AlgSet.of_list l) (AlgSet.of_list r)))
         (Group_iter G)
  = Ok (forallb (fun g => normal_at (elem g)) (Group_iter G)).
Proof.
  apply py_all_pure. intros g' Hg'.
  rewrite (Group_iter_list G HG) in Hg'. apply in_map_iff in Hg'.
  destruct Hg' as (g & <- & Hg). apply (In_iter_list G g HG) in Hg.
  rewrite (Group_iter_list N HN).
  assert (Hit : incl (iter_list N) (Set_ N)) by (intros x; apply (In_iter_list N x HN)).
  destruct (py_map_mul_left g (iter_list N) Hg Hit) as (l & Hl & Hel).
  destruct (py_map_mul_right g (iter_list N) Hg Hit) as (r & Hr & Her).
  rewrite Hl. cbn [bind]. rewrite Hr. cbn [bind].
  rewrite eqb_elem, !map_elem_of_list, Hel, Her. reflexivity.
Qed.

End NormalFacts.

Section NormalSpec.
Context {E : Type} `{PyEqOk E}.
Variables G N : Group E.
Hypothesis HG : valid_Group G.
Hypothesis HN : valid_Group N.

Lemma is_normal_subgroup_spec :
  exists b, is_normal_subgroup N G = Ok b /\ (b = true <-> normal_subgroup G N).
Proof.
  unfold is_normal_subgroup. rewrite (Group_le_spec G N HG HN). cbn [bind].
  destruct (le_b G N) eqn:Hle.
  - apply (le_b_iff G N) in Hle. rewrite (normal_test G N HG HN Hle).
    eexists. split; [reflexivity|]. rewrite forallb_forall. unfold normal_subgroup.
    split.
    + intros Hall. split; [exact Hle|]. intros g Hg.
      apply (normal_at_iff G N HN). apply (Hall (own G g)).
      rewrite (Group_iter_list G HG). apply in_map. apply (In_iter_list G g HG), Hg.
    + intros [_ Hn] g' Hg'. rewrite (Group_iter_list G HG) in Hg'.
      apply in_map_iff in Hg'. destruct Hg' as (g & <- & Hg).
      apply (normal_at_iff G N HN). apply Hn. apply (In_iter_list G g HG), Hg.
  - exists false. split; [reflexivity|]. split; [discriminate|].
    intros [Hs _]. apply (le_b_iff G N) in Hs. congruence.
Qed.

End NormalSpec.

(** ** The quotient by a normal subgroup *)

Section QuotientFacts.
Context {E : Type} `{PyEqOk E} `{PickOk E}.
Variables G N : Group E.
Hypothesis HG : valid_Group G.
Hypothesis HN : valid_Group N.
Hypothesis Hnormal : normal_subgroup G N.

Let S := Set_ G.
Let f := function (bin_op G).
Let SN := Set_ N.

(** A duplicate-free list with the elements of the coset [aN]. *)
Definition is_coset (c : list E) (a : E) : Prop :=
  NoDup c /\ In a (Set_ G) /\ same_set c (lcoset G N a).

Lemma quo_sub : subgroup_of G N.
Proof. exact (proj1 Hnormal). Qed.

Lemma In_lcoset (a x : E) :
  In x (lcoset G N a) <-> exists h, In h SN /\ x = f (a, h).
Proof.
  unfold lcoset. rewrite in_map_iff. split; intros (h & Hh & Hx); exists h; auto.
Qed.

Lemma lcoset_incl (a : E) : In a S -> incl (lcoset G N a) S.
Proof.
  intros Ha x Hx. apply In_lcoset in Hx. destruct Hx as (h & Hh & ->).
  apply (op_closed G HG); [exact Ha | apply (sub_In G N quo_sub), Hh].
Qed.

Lemma NoDup_translate (a : E) (l : list E) :
  In a S -> incl l S -> NoDup l -> NoDup (map (fun y => f (a, y)) l).
Proof.
  intros Ha Hl Hnd. apply NoDup_map_on; [|exact Hnd].
  intros x y Hx Hy. apply (grp_cancel_l _ _ _ (vg_group G HG)); auto.
Qed.

Lemma NoDup_lcoset (a : E) : In a S -> NoDup (lcoset G N a).
Proof.
  intros Ha. apply NoDup_translate; [exact Ha | | apply (valid_NoDup N HN)].
  intros x. apply (sub_In G N quo_sub).
Qed.

Lemma is_coset_lcoset (a : E) : In a S -> is_coset (lcoset G N a) a.
Proof.
  intros Ha. split; [apply NoDup_lcoset, Ha|]. split; [exact Ha|]. intros x. tauto.
Qed.

Lemma is_coset_incl (c : list E) (a : E) : is_coset c a -> incl c S.
Proof.
  intros (_ & Ha & Hc) x Hx. apply (lcoset_incl a Ha). apply Hc, Hx.
Qed.

Lemma is_coset_length (c : list E) (a : E) : is_coset c a -> length c = length SN.
Proof.
  intros (Hnd & Ha & Hc).
  assert (Hlen : length (lcoset G N a) = length SN) by (unfold lcoset; apply length_map).
  rewrite <- Hlen. apply Nat.le_antisymm; apply NoDup_incl_length; auto.
  - intros x. apply Hc.
  - apply NoDup_lcoset, Ha.
  - intros x. apply Hc.
Qed.

Lemma is_coset_same (c d : list E) (a : E) :
  is_coset c a -> NoDup d -> same_set c d -> is_coset d a.
Proof.
  intros (Hnd & Ha & Hc) Hd Hcd. split; [exact Hd|]. split; [exact Ha|].
  intros x. rewrite <- (Hcd x). apply Hc.
Qed.

(** [AlgSet.__eq__] on duplicate-free lists is equality of sets. *)
Lemma set_eqb_iff (c d : list E) :
  NoDup c -> NoDup d -> (AlgSet.eqb c d = true <-> same_set c d).
Proof.
  intros Hc Hd. rewrite eqb_true_iff by assumption. unfold same_set, incl.
  split; [intros [Hcd Hdc] x; split; auto | intros Hs; split; intros x; apply Hs].
Qed.

Lemma SN_nonempty : In (e_elem N) SN.
Proof. apply (grp_e _ _ _ (vg_group N HN)). Qed.

Lemma is_coset_nonempty (c : list E) (a : E) : is_coset c a -> c <> [].
Proof.
  intros (_ & Ha & Hc) ->. apply (Hc (f (a, e_elem N))).
  apply In_lcoset. exists (e_elem N). split; [apply SN_nonempty | reflexivity].
Qed.

(** The product of two cosets, taken over all their elements, is in the
    coset of the product: this is where normality enters. *)
Lemma coset_product (a b x y : E) :
  In a S -> In b S -> In x (lcoset G N a) -> In y (lcoset G N b) ->
  In (f (x, y)) (lcoset G N (f (a, b))).
Proof.
  intros Ha Hb Hx Hy. apply In_lcoset in Hx, Hy.
  destruct Hx as (n & Hn & ->), Hy as (m & Hm & ->).
  pose proof (vg_group G HG) as Hgrp.
  pose proof (sub_In G N quo_sub n Hn) as HnS.
  pose proof (sub_In G N quo_sub m Hm) as HmS.
  assert (Hnb : In (f (n, b)) (lcoset G N b)).
  { apply (proj2 Hnormal b Hb). unfold rcoset. apply in_map_iff. exists n. auto. }
  apply In_lcoset in Hnb. destruct Hnb as (n' & Hn' & Hnb).
  pose proof (sub_In G N quo_sub n' Hn') as Hn'S.
  apply In_lcoset. exists (f (n', m)). split; [apply (sub_op G N HN quo_sub); assumption|].
  assert (Hcl : forall u v, In u S -> In v S -> In (f (u, v)) S)
    by (intros u v; apply (op_closed G HG)).
  unfold f, S in *.
  rewrite <- (grp_assoc _ _ _ Hgrp a n (function (bin_op G) (b, m))) by auto.
  rewrite (grp_assoc _ _ _ Hgrp n b m) by auto.
  rewrite Hnb.
  rewrite <- (grp_assoc _ _ _ Hgrp b n' m) by auto.
  rewrite (grp_assoc _ _ _ Hgrp a b (function (bin_op G) (n', m))) by auto.
  reflexivity.
Qed.

(** [multiply_cosets] on two cosets: the coset of the product, whatever
    element [pick] returns. *)
Lemma multiply_cosets_spec (c d : list E) (a b : E) :
  is_coset c a -> is_coset d b ->
  exists r, multiply_cosets G (c, d) = Ok r /\ is_coset r (f (a, b)).
Proof.
  intros Hc Hd.
  destruct (pick_In (s := c) (is_coset_nonempty c a Hc)) as (h & Hpick & Hh).
  pose proof (is_coset_incl c a Hc) as HcS. pose proof (is_coset_incl d b Hd) as HdS.
  destruct Hc as (Hcnd & Ha & Hca). destruct Hd as (Hdnd & Hb & Hdb).
  pose proof (HcS h Hh) as HhS.
  exists (map (fun y => f (h, y)) d). split.
  - unfold multiply_cosets. cbn [fst snd]. rewrite Hpick. cbn [bind].
    rewrite (py_map_pure _ (fun y => f (h, y))).
    2:{ intros y Hy. apply (call_op G HG); auto. }
    cbn [bind]. rewrite of_list_NoDup_id; [reflexivity|].
    apply NoDup_translate; assumption.
  - assert (Hnd : NoDup (map (fun y => f (h, y)) d)) by (apply NoDup_translate; assumption).
    assert (Hab : In (f (a, b)) S) by (apply (op_closed G HG); assumption).
    assert (Hincl : incl (map (fun y => f (h, y)) d) (lcoset G N (f (a, b)))).
    { intros x Hx. apply in_map_iff in Hx. destruct Hx as (y & <- & Hy).
      apply coset_product; auto; [apply Hca, Hh | apply Hdb, Hy]. }
    split; [exact Hnd|]. split; [exact Hab|]. intros x. split; [apply Hincl|].
    apply NoDup_length_incl; [exact Hnd | | exact Hincl].
    rewrite length_map.
    rewrite (is_coset_length d b (conj Hdnd (conj Hb Hdb))).
    unfold lcoset. rewrite length_map. apply Nat.le_refl.
Qed.

End QuotientFacts.

Section QuotientGroup.
Context {E : Type} `{PyEqOk E} `{PickOk E}.
Variables G N : Group E.
Hypothesis HG : valid_Group G.
Hypothesis HN : valid_Group N.
Hypothesis Hnormal : normal_subgroup G N.

(** The set, the rule and the [Function] that [Group.__div__] hands to
    the constructor. *)
Definition quotient_set : AlgSet.t (AlgSet.t E) :=
  @AlgSet.of_list _ PyEq_AlgSet (map (lcoset G N) (Set_ G)).

Definition quotient_rule (x : AlgSet.t E * AlgSet.t E) : AlgSet.t E :=
  match multiply_cosets G x with
  | Ok c => c
  | _ => []
  end.

Definition quotient_op : Function (AlgSet.t E * AlgSet.t E) (AlgSet.t E) :=
  mkFunction (AlgSet.prod quotient_set quotient_set) quotient_set quotient_rule.

Lemma cosets_computed :
  py_map (fun g =>
            l <- py_map (fun h => Function_call (bin_op G) (g, h)) (Set_ N) ;;
            Ok (AlgSet.of_list l)) (Set_ G)
  = Ok (map (lcoset G N) (Set_ G)).
Proof.
  apply py_map_pure. intros g Hg.
  rewrite (py_map_pure _ (fun h => function (bin_op G) (g, h))).
  2:{ intros h Hh. apply (call_op G HG); [exact Hg|].
      apply (sub_In G N (proj1 Hnormal)), Hh. }
  cbn [bind]. f_equal. apply of_list_NoDup_id.
  apply (NoDup_lcoset G N HG HN Hnormal), Hg.
Qed.

Lemma Group_div_unfold :
  Group_div G N
  = @Group_init _ PyEq_AlgSet (PySet quotient_set) (PyFunction quotient_op).
Proof.
  unfold Group_div.
  destruct (is_normal_subgroup_spec G N HG HN) as (b & Hb & Hiff).
  rewrite Hb. assert (Hbt : b = true) by (apply Hiff, Hnormal). subst b.
  cbn [bind negb]. rewrite cosets_computed. reflexivity.
Qed.

Lemma quo_member (c : list E) :
  In c quotient_set -> exists a, In a (Set_ G) /\ c = lcoset G N a.
Proof.
  intros Hc. apply (@In_of_list_inv _ PyEq_AlgSet) in Hc.
  apply in_map_iff in Hc. destruct Hc as (a & <- & Ha). eauto.
Qed.

Lemma quo_member_coset (c : list E) :
  In c quotient_set -> exists a, is_coset G N c a.
Proof.
  intros Hc. destruct (quo_member c Hc) as (a & Ha & ->).
  exists a. apply (is_coset_lcoset G N HG HN Hnormal), Ha.
Qed.

Lemma coset_same (c d : list E) (a : E) :
  is_coset G N c a -> is_coset G N d a -> same_set c d.
Proof.
  intros (_ & _ & Hc) (_ & _ & Hd) x. rewrite (Hc x), (Hd x). tauto.
Qed.

Lemma coset_eqb (c d : list E) (a : E) :
  is_coset G N c a -> is_coset G N d a -> AlgSet.eqb c d = true.
Proof.
  intros Hc Hd. apply set_eqb_iff; [apply Hc | apply Hd | apply (coset_same c d a Hc Hd)].
Qed.

Lemma quo_mem (c : list E) (a : E) :
  is_coset G N c a -> exists c', In c' quotient_set /\ is_coset G N c' a.
Proof.
  intros Hc. destruct Hc as (Hnd & Ha & Hca).
  pose proof (is_coset_lcoset G N HG HN Hnormal a Ha) as Hl.
  assert (Hm : @AlgSet.mem _ PyEq_AlgSet (lcoset G N a) quotient_set = true).
  { apply (@mem_of_list_any _ PyEq_AlgSet); [apply eqb_refl | apply in_map, Ha]. }
  apply (@mem_exists _ PyEq_AlgSet) in Hm. destruct Hm as (c' & Hc' & Heq).
  exists c'. split; [exact Hc'|].
  destruct (quo_member_coset c' Hc') as (a' & Ha').
  apply (is_coset_same G N (lcoset G N a) c' a Hl); [apply Ha'|].
  apply set_eqb_iff; [apply Hl | apply Ha' | exact Heq].
Qed.

Lemma quo_distinct (c d : list E) :
  In c quotient_set -> In d quotient_set -> same_set c d -> c = d.
Proof.
  intros Hc Hd Hcd.
  destruct (quo_member_coset c Hc) as (a & Ha), (quo_member_coset d Hd) as (b & Hb).
  apply (@distinct_of_list _ PyEq_AlgSet (map (lcoset G N) (Set_ G))); auto.
  - intros x y Hx Hy. apply in_map_iff in Hx, Hy.
    destruct Hx as (gx & <- & Hgx), Hy as (gy & <- & Hgy).
    pose proof (NoDup_lcoset G N HG HN Hnormal gx Hgx) as Hnx.
    pose proof (NoDup_lcoset G N HG HN Hnormal gy Hgy) as Hny.
    apply eq_true_iff_eq.
    change (AlgSet.eqb (lcoset G N gy) (lcoset G N gx) = true
            <-> AlgSet.eqb (lcoset G N gx) (lcoset G N gy) = true).
    rewrite !set_eqb_iff by assumption. unfold same_set.
    split; intros Hs z; symmetry; apply Hs.
  - change (AlgSet.eqb c d = true). apply set_eqb_iff; [apply Ha | apply Hb | exact Hcd].
Qed.

Lemma rule_coset (c d : list E) (a b : E) :
  is_coset G N c a -> is_coset G N d b ->
  is_coset G N (quotient_rule (c, d)) (function (bin_op G) (a, b)).
Proof.
  intros Hc Hd.
  destruct (multiply_cosets_spec G N HG HN Hnormal c d a b Hc Hd) as (r & Hr & Hrc).
  unfold quotient_rule. rewrite Hr. exact Hrc.
Qed.

Lemma quotient_init :
  exists ab e', Group_div G N = Ok (mkGroup ab quotient_set e' quotient_op) /\
                In e' quotient_set /\ is_coset G N e' (e_elem G).
Proof.
  pose proof (vg_group G HG) as Hgrp.
  pose proof (grp_e _ _ _ Hgrp) as HeS.
  destruct (quo_mem _ _ (is_coset_lcoset G N HG HN Hnormal (e_elem G) HeS))
    as (e' & He' & Hce').
  destruct (@Group_init_upto _ PyEq_AlgSet quotient_set quotient_op e') as (ab & Hinit).
  - reflexivity.
  - reflexivity.
  - intros a _. apply eqb_refl.
  - intros a b Ha Hb.
    destruct (quo_member_coset a Ha) as (ga & Hga), (quo_member_coset b Hb) as (gb & Hgb).
    pose proof (rule_coset a b ga gb Hga Hgb) as Hr.
    destruct (quo_mem _ _ Hr) as (c' & Hc' & Hcc').
    apply (@mem_exists _ PyEq_AlgSet). exists c'. split; [exact Hc'|].
    apply (coset_eqb _ _ _ Hr Hcc').
  - intros a b c Ha Hb Hc.
    destruct (quo_member_coset a Ha) as (ga & Hga), (quo_member_coset b Hb) as (gb & Hgb),
             (quo_member_coset c Hc) as (gc & Hgc).
    pose proof (rule_coset a _ ga _ Hga (rule_coset b c gb gc Hgb Hgc)) as Hl.
    pose proof (rule_coset _ c _ gc (rule_coset a b ga gb Hga Hgb) Hgc) as Hr.
    rewrite (grp_assoc _ _ _ Hgrp ga gb gc) in Hl by (apply Hga || apply Hgb || apply Hgc).
    apply (coset_eqb _ _ _ Hl Hr).
  - exact He'.
  - intros a Ha. destruct (quo_member_coset a Ha) as (ga & Hga).
    pose proof (rule_coset e' a _ ga Hce' Hga) as Hl.
    rewrite (grp_id_l _ _ _ Hgrp ga) in Hl by apply Hga.
    apply (coset_eqb _ _ _ Hl Hga).
  - intros c Hc Hall. destruct (quo_member_coset c Hc) as (gc & Hgc).
    apply quo_distinct; [exact Hc | exact He' |].
    pose proof (rule_coset c e' gc _ Hgc Hce') as Hl.
    rewrite (grp_id_r _ _ _ Hgrp gc) in Hl by apply Hgc.
    specialize (Hall e' He').
    change (AlgSet.eqb (quotient_rule (c, e')) e' = true) in Hall.
    apply set_eqb_iff in Hall; [|apply Hl | apply Hce'].
    intros x. rewrite <- (Hall x). apply (coset_same c _ gc Hgc Hl).
  - intros a Ha. destruct (quo_member_coset a Ha) as (ga & Hga).
    destruct (grp_inv _ _ _ Hgrp ga) as (gi & Hgi & Hagi & _); [apply Hga|].
    destruct (quo_mem _ _ (is_coset_lcoset G N HG HN Hnormal gi Hgi)) as (b & Hb & Hcb).
    exists b. split; [exact Hb|].
    pose proof (rule_coset a b ga gi Hga Hcb) as Hl. rewrite Hagi in Hl.
    apply (coset_eqb _ _ _ Hl Hce').
  - exists ab, e'. rewrite Group_div_unfold. auto.
Qed.

End QuotientGroup.

Lemma NoDup_of_list_any {B : Type} `{PyEq B} (l : list B) :
  (forall x, In x l -> py_eqb x x = true) -> NoDup (AlgSet.of_list l).
Proof.
  intros Hr. unfold AlgSet.of_list.
  assert (Hgen : forall s, NoDup s -> NoDup (fold_left AlgSet.add l s)).
  { induction l as [|x l IH]; simpl; intros s Hs; [exact Hs|].
    apply IH; [intros y Hy; apply Hr; simpl; auto|].
    unfold AlgSet.add. destruct (AlgSet.mem x s) eqn:Hm; [exact Hs|].
    apply NoDup_app; [exact Hs | repeat constructor; simpl; tauto |].
    intros y Hy [Heq|[]].
    assert (AlgSet.mem x s = true); [|congruence].
    apply mem_exists. exists y. split; [exact Hy|].
    rewrite Heq. apply Hr; simpl; auto. }
  apply Hgen. constructor.
Qed.

Lemma NoDup_concat_disjoint {A : Type} (Q : list (list A)) :
  NoDup Q -> (forall c, In c Q -> NoDup c) ->
  (forall c d x, In c Q -> In d Q -> In x c -> In x d -> c = d) ->
  NoDup (concat Q).
Proof.
  induction Q as [|c Q IH]; simpl; intros Hnd Hc Hdis; [constructor|].
  inversion Hnd as [|? ? HcQ HQ]; subst.
  apply NoDup_app.
  - apply Hc. auto.
  - apply IH; [exact HQ | intros d Hd; apply Hc; auto |].
    intros d d' x Hd Hd'. apply Hdis; auto.
  - intros x Hx Hx'. apply in_concat in Hx'. destruct Hx' as (d & Hd & Hxd).
    apply HcQ. rewrite (Hdis c d x); auto.
Qed.

Lemma length_concat_const {A : Type} (Q : list (list A)) (n : nat) :
  (forall c, In c Q -> length c = n) -> length (concat Q) = length Q * n.
Proof.
  induction Q as [|c Q IH]; simpl; intros Hc; [reflexivity|].
  rewrite length_app, Hc, IH by auto. reflexivity.
Qed.

Section QuotientOrder.
Context {E : Type} `{PyEqOk E}.
Variables G N : Group E.
Hypothesis HG : valid_Group G.
Hypothesis HN : valid_Group N.
Hypothesis Hnormal : normal_subgroup G N.

Lemma sub_identity : In (e_elem G) (Set_ N).
Proof.
  pose proof (grp_e _ _ _ (vg_group N HN)) as HeN.
  assert (Heq : e_elem N = e_elem G).
  { apply (grp_idem_e _ _ _ (vg_group G HG)).
    - apply (sub_In G N (proj1 Hnormal)), HeN.
    - rewrite <- (proj2 (proj1 Hnormal)) by assumption.
      apply (grp_id_l _ _ _ (vg_group N HN)), HeN. }
  rewrite <- Heq. exact HeN.
Qed.

Lemma In_own_coset (a : E) : In a (Set_ G) -> In a (lcoset G N a).
Proof.
  intros Ha. apply In_lcoset. exists (e_elem G). split; [apply sub_identity|].
  symmetry. apply (grp_id_r _ _ _ (vg_group G HG)), Ha.
Qed.

(** A coset is the coset of each of its elements. *)
Lemma coset_of_member (a x : E) :
  In a (Set_ G) -> In x (lcoset G N a) -> same_set (lcoset G N x) (lcoset G N a).
Proof.
  intros Ha Hx. pose proof (vg_group G HG) as Hgrp.
  pose proof (lcoset_incl G N HG Hnormal a Ha x Hx) as HxS.
  assert (Hincl : incl (lcoset G N x) (lcoset G N a)).
  { intros y Hy. apply In_lcoset in Hy. destruct Hy as (k & Hk & ->).
    rewrite <- (grp_id_r _ _ _ Hgrp a Ha).
    apply (coset_product G N HG HN Hnormal); auto.
    - apply (grp_e _ _ _ Hgrp).
    - apply In_lcoset. exists k. split; [exact Hk|].
      symmetry. apply (grp_id_l _ _ _ Hgrp).
      apply (sub_In G N (proj1 Hnormal)), Hk. }
  intros y. split; [apply Hincl|].
  apply NoDup_length_incl; [apply (NoDup_lcoset G N HG HN Hnormal), HxS | | exact Hincl].
  unfold lcoset. rewrite !length_map. apply Nat.le_refl.
Qed.

Lemma NoDup_quotient_set : NoDup (quotient_set G N).
Proof.
  apply (@NoDup_of_list_any _ PyEq_AlgSet). intros x _. apply eqb_refl.
Qed.

(** Lagrange: the cosets of [N] partition [G]. *)
Lemma quotient_order :
  length (quotient_set G N) * length (Set_ N) = length (Set_ G).
Proof.
  rewrite <- (length_concat_const (quotient_set G N)).
  2:{ intros c Hc. destruct (quo_member_coset G N HG HN Hnormal c Hc) as (a & Hca).
      apply (is_coset_length G N HG HN Hnormal c a Hca). }
  assert (Hnd : NoDup (concat (quotient_set G N))).
  { apply NoDup_concat_disjoint.
    - apply NoDup_quotient_set.
    - intros c Hc. destruct (quo_member_coset G N HG HN Hnormal c Hc) as (a & Hca). apply Hca.
    - intros c d x Hc Hd Hxc Hxd.
      apply (quo_distinct G N HG HN Hnormal); auto.
      destruct (quo_member G N c Hc) as (a & Ha & ->).
      destruct (quo_member G N d Hd) as (b & Hb & ->).
      intros y. rewrite <- (coset_of_member a x Ha Hxc y). apply (coset_of_member b x Hb Hxd). }
  apply Nat.le_antisymm; apply NoDup_incl_length; auto.
  - intros x Hx. apply in_concat in Hx. destruct Hx as (c & Hc & Hxc).
    destruct (quo_member G N c Hc) as (a & Ha & ->).
    apply (lcoset_incl G N HG Hnormal a Ha), Hxc.
  - apply (valid_NoDup G HG).
  - intros x Hx. apply in_concat.
    destruct (quo_mem G N HG HN Hnormal _ _ (is_coset_lcoset G N HG HN Hnormal x Hx))
      as (c & Hc & Hcx).
    exists c. split; [exact Hc|]. apply Hcx. apply In_own_coset, Hx.
Qed.

End QuotientOrder.

(** ** What the quotient is *)

(** The group axioms on a set whose elements are compared by a
    relation [R] coarser than structural equality. *)
Record group_upto {A : Type} (R : A -> A -> Prop) (S : list A) (f : A * A -> A) (e : A)
    : Prop := mk_group_upto
  { gu_e : In e S;
    gu_distinct : forall a b, In a S -> In b S -> R a b -> a = b;
    gu_closed : forall a b, In a S -> In b S -> exists c, In c S /\ R (f (a, b)) c;
    gu_assoc : forall a b c, In a S -> In b S -> In c S ->
               R (f (a, f (b, c))) (f (f (a, b), c));
    gu_id : forall a, In a S -> R (f (e, a)) a /\ R (f (a, e)) a;
    gu_inv : forall a, In a S -> exists b, In b S /\ R (f (a, b)) e /\ R (f (b, a)) e }.

Section QuotientSpec.
Context {E : Type} `{PyEqOk E}.
Variables G N : Group E.

(** [Q] is the quotient of [G] by [N]: its elements are the cosets of [N],
    each once; its identity is [N]; the product of the coset of [a] and the
    coset of [b], however the two are listed, is the coset of [a * b]. *)
Record quotient_of (Q : Group (AlgSet.t E)) : Prop := mk_quotient_of
  { qo_cosets : forall c, In c (Set_ Q) -> exists a, In a (Set_ G) /\ c = lcoset G N a;
    qo_all : forall a, In a (Set_ G) ->
             exists c, In c (Set_ Q) /\ same_set c (lcoset G N a);
    qo_distinct : forall c d, In c (Set_ Q) -> In d (Set_ Q) -> same_set c d -> c = d;
    qo_identity : In (e_elem Q) (Set_ Q) /\ same_set (e_elem Q) (Set_ N);
    qo_product : forall c d a b, is_coset G N c a -> is_coset G N d b ->
                 is_coset G N (function (bin_op Q) (c, d)) (function (bin_op G) (a, b));
    qo_domain : domain (bin_op Q) = AlgSet.prod (Set_ Q) (Set_ Q);
    qo_codomain : codomain (bin_op Q) = Set_ Q;
    qo_order : length (Set_ Q) * length (Set_ N) = length (Set_ G) }.

Hypothesis HG : valid_Group G.
Hypothesis HN : valid_Group N.

Lemma lcoset_identity : subgroup_of G N -> same_set (lcoset G N (e_elem G)) (Set_ N).
Proof.
  intros Hsub x. rewrite In_lcoset. split.
  - intros (h & Hh & ->).
    rewrite (grp_id_l _ _ _ (vg_group G HG)); [exact Hh | apply (sub_In G N Hsub), Hh].
  - intros Hx. exists x. split; [exact Hx|]. symmetry.
    apply (grp_id_l _ _ _ (vg_group G HG)). apply (sub_In G N Hsub), Hx.
Qed.

Hypothesis Hnormal : normal_subgroup G N.

Lemma quotient_group_upto (Q : Group (AlgSet.t E)) :
  quotient_of Q -> group_upto same_set (Set_ Q) (function (bin_op Q)) (e_elem Q).
Proof.
  intros HQ. pose proof (vg_group G HG) as Hgrp.
  assert (Hmem : forall c, In c (Set_ Q) -> exists a, is_coset G N c a).
  { intros c Hc. destruct (qo_cosets Q HQ c Hc) as (a & Ha & ->).
    exists a. apply (is_coset_lcoset G N HG HN Hnormal), Ha. }
  assert (Hrep : forall c a, is_coset G N c a ->
                   exists c', In c' (Set_ Q) /\ same_set c c').
  { intros c a Hc. destruct (qo_all Q HQ a (proj1 (proj2 Hc))) as (c' & Hc' & Hs).
    exists c'. split; [exact Hc'|]. intros x. rewrite (Hs x). apply Hc. }
  assert (He : is_coset G N (e_elem Q) (e_elem G)).
  { destruct (qo_identity Q HQ) as [HeQ HeN].
    destruct (Hmem _ HeQ) as (a & Hnd & _ & _).
    split; [exact Hnd|]. split; [apply (grp_e _ _ _ Hgrp)|].
    intros x. rewrite (HeN x). symmetry. apply (lcoset_identity (proj1 Hnormal)). }
  constructor.
  - apply (qo_identity Q HQ).
  - apply (qo_distinct Q HQ).
  - intros a b Ha Hb. destruct (Hmem a Ha) as (ga & Hga), (Hmem b Hb) as (gb & Hgb).
    apply (Hrep _ _ (qo_product Q HQ a b ga gb Hga Hgb)).
  - intros a b c Ha Hb Hc.
    destruct (Hmem a Ha) as (ga & Hga), (Hmem b Hb) as (gb & Hgb), (Hmem c Hc) as (gc & Hgc).
    pose proof (qo_product Q HQ _ _ _ _ Hga (qo_product Q HQ _ _ _ _ Hgb Hgc)) as Hl.
    pose proof (qo_product Q HQ _ _ _ _ (qo_product Q HQ _ _ _ _ Hga Hgb) Hgc) as Hr.
    rewrite (grp_assoc _ _ _ Hgrp ga gb gc) in Hl by (apply Hga || apply Hgb || apply Hgc).
    apply (coset_same G N _ _ _ Hl Hr).
  - intros a Ha. destruct (Hmem a Ha) as (ga & Hga).
    pose proof (qo_product Q HQ _ _ _ _ He Hga) as Hl.
    pose proof (qo_product Q HQ _ _ _ _ Hga He) as Hr.
    rewrite (grp_id_l _ _ _ Hgrp ga) in Hl by apply Hga.
    rewrite (grp_id_r _ _ _ Hgrp ga) in Hr by apply Hga.
    split; [apply (coset_same G N _ _ _ Hl Hga) | apply (coset_same G N _ _ _ Hr Hga)].
  - intros a Ha. destruct (Hmem a Ha) as (ga & Hga).
    destruct (grp_inv _ _ _ Hgrp ga) as (gi & Hgi & Hagi & Hgia); [apply Hga|].
    destruct (qo_all Q HQ gi Hgi) as (b & Hb & Hbs).
    destruct (Hmem b Hb) as (gb & Hnd & _ & _).
    assert (Hcb : is_coset G N b gi) by (split; [exact Hnd | split; assumption]).
    exists b. split; [exact Hb|].
    pose proof (qo_product Q HQ _ _ _ _ Hga Hcb) as Hl.
    pose proof (qo_product Q HQ _ _ _ _ Hcb Hga) as Hr.
    rewrite Hagi in Hl. rewrite Hgia in Hr.
    split; [apply (coset_same G N _ _ _ Hl He) | apply (coset_same G N _ _ _ Hr He)].
Qed.

Context `{PickOk E}.

Lemma Group_div_normal :
  exists Q, Group_div G N = Ok Q /\ quotient_of Q.
Proof.
  destruct (quotient_init G N HG HN Hnormal) as (ab & e' & Hdiv & He' & Hce').
  eexists. split; [exact Hdiv|].
  constructor; cbn [Set_ e_elem bin_op domain codomain function quotient_op].
  - apply quo_member.
  - intros a Ha.
    destruct (quo_mem G N HG HN Hnormal _ _ (is_coset_lcoset G N HG HN Hnormal a Ha))
      as (c & Hc & Hca).
    exists c. split; [exact Hc | apply Hca].
  - apply (quo_distinct G N HG HN Hnormal).
  - split; [exact He'|]. intros x. rewrite (proj2 (proj2 Hce') x).
    apply (lcoset_identity (proj1 Hnormal)).
  - apply (rule_coset G N HG HN Hnormal).
  - reflexivity.
  - reflexivity.
  - apply (quotient_order G N HG HN Hnormal).
Qed.

End QuotientSpec.

Section QuotientErrors.
Context {E : Type} `{PyEqOk E} `{Pick E}.
Variables G N : Group E.
Hypothesis HG : valid_Group G.
Hypothesis HN : valid_Group N.

Lemma Group_div_not_normal :
  ~ normal_subgroup G N -> Group_div G N = Raise ValueError.
Proof.
  intros Hno. unfold Group_div.
  destruct (is_normal_subgroup_spec G N HG HN) as (b & Hb & Hiff).
  rewrite Hb. destruct b; [exfalso; apply Hno, Hiff; reflexivity|]. reflexivity.
Qed.

Lemma normal_subgroup_dec : normal_subgroup G N \/ ~ normal_subgroup G N.
Proof.
  destruct (is_normal_subgroup_spec G N HG HN) as (b & _ & Hiff).
  destruct b; [left; apply Hiff; reflexivity | right; intros Hn; apply Hiff in Hn; discriminate].
Qed.

(** The operator [/] finds no method: [__div__] is not one of the names
    it looks up. *)
Lemma Group_truediv_unsupported : Group_truediv G N = Raise TypeError.
Proof. reflexivity. Qed.

End QuotientErrors.

(** The subgroup of [Zn(6)] generated by 2, as [generate] builds it. *)
Definition Z6_gen2 : Group Z :=
  Group_of [2; 4; 0]%Z (fun x => ((fst x + snd x) mod 6)%Z) 0%Z.

Lemma generate_Z6_2 : generate 6 Z6 [Raw 2%Z] = Ok Z6_gen2.
Proof. reflexivity. Qed.

Lemma Z6_gen2_valid : valid_Group Z6_gen2.
Proof. apply Group_of_valid, is_group_b_ok. reflexivity. Qed.

Lemma Z6_gen2_normal : normal_subgroup Z6 Z6_gen2.
Proof.
  destruct (is_normal_subgroup_spec Z6 Z6_gen2 Z6_valid Z6_gen2_valid) as (b & Hb & Hiff).
  apply Hiff. vm_compute in Hb. congruence.
Qed.

Lemma Z6_quotient_order (P : Pick Z) (PO : @PickOk Z P) :
  exists Q, @Group_div Z _ P Z6 Z6_gen2 = Ok Q /\ quotient_of Z6 Z6_gen2 Q /\ Group_len Q = 2.
Proof.
  destruct (@Group_div_normal Z _ _ Z6 Z6_gen2 Z6_valid Z6_gen2_valid Z6_gen2_normal P PO)
    as (Q & HQ & Hquo).
  exists Q. split; [exact HQ|]. split; [exact Hquo|].
  pose proof (qo_order Z6 Z6_gen2 Q Hquo) as Hord. unfold Group_len, AlgSet.len.
  change (length (Set_ Z6_gen2)) with 3 in Hord.
  change (length (Set_ Z6)) with 6 in Hord. lia.
Qed.

(** ** What a successful construction guarantees *)

Lemma py_any_true_inv {A} (p : A -> result bool) (l : list A) :
  py_any p l = Ok true -> exists x, In x l /\ p x = Ok true.
Proof.
  induction l as [|y l IH]; simpl; intros Hany; [discriminate|].
  destruct (p y) as [[|]| |] eqn:Hy; simpl in Hany; try discriminate.
  - exists y. auto.
  - destruct (IH Hany) as (x & Hx & Hpx). exists x. auto.
Qed.

Lemma find_identity_inv {E : Type} `{PyEq E}
    (F : Function (E * E) E) (S cands : list E) (e0 : E) :
  find_identity F S cands = Ok (Some e0) ->
  In e0 cands /\ forall a, In a S -> py_eqb (function F (e0, a)) a = true.
Proof.
  induction cands as [|c cands IH]; simpl; intros Hf; [discriminate|].
  apply bind_Ok_inv in Hf. destruct Hf as (b & Hall & Hf). destruct b.
  - injection Hf as <-. split; [auto|]. intros a Ha.
    pose proof (py_all_true_inv _ _ Hall a Ha) as Hp. cbn beta in Hp.
    apply bind_Ok_inv in Hp. destruct Hp as (ea & Hcall & Heq).
    unfold Function_call in Hcall. destruct (AlgSet.mem _ _); [|discriminate].
    injection Hcall as <-. injection Heq as Heq. exact Heq.
  - destruct (IH Hf) as [Hin Hid]. auto.
Qed.

Section GroupInitInv.
Context {E : Type} `{PyEqOk E}.

Lemma Function_call_Ok (F : Function (E * E) E) (x : E * E) (y : E) :
  Function_call F x = Ok y -> y = function F x /\ In x (domain F).
Proof.
  unfold Function_call. destruct (AlgSet.mem x (domain F)) eqn:Hm; [|discriminate].
  intros [= <-]. split; [reflexivity | apply mem_In, Hm].
Qed.

(** A Group that [__init__] returns has the set and the operation it was
    given; the operation is associative on the set, the identity found is
    a left identity and every element has a right inverse for it.  No
    more than this is checked. *)
Lemma Group_init_Ok_inv (S : AlgSet.t E) (F : Function (E * E) E) (G0 : Group E) :
  Group_init (PySet S) (PyFunction F) = Ok G0 ->
  Set_ G0 = S /\ bin_op G0 = F /\ In (e_elem G0) S /\
  AlgSet.eqb (codomain F) S = true /\
  AlgSet.eqb (domain F) (AlgSet.prod S S) = true /\
  (forall a b c, In a S -> In b S -> In c S ->
     function F (a, function F (b, c)) = function F (function F (a, b), c)) /\
  (forall a, In a S -> function F (e_elem G0, a) = a) /\
  (forall a, In a S -> exists b, In b S /\ function F (a, b) = e_elem G0).
Proof.
  unfold Group_init.
  destruct (AlgSet.eqb (codomain F) S) eqn:HC; cbn [negb]; [|discriminate].
  destruct (AlgSet.eqb (domain F) (AlgSet.prod S S)) eqn:HD; cbn [negb]; [|discriminate].
  intros Hinit. apply bind_Ok_inv in Hinit. destruct Hinit as (assoc & Hassoc & Hinit).
  destruct assoc; cbn [negb] in Hinit; [|discriminate].
  apply bind_Ok_inv in Hinit. destruct Hinit as (found & Hfound & Hinit).
  destruct found as [e0|]; [|discriminate].
  apply bind_Ok_inv in Hinit. destruct Hinit as (inverses & Hinv & Hinit).
  destruct inverses; cbn [negb] in Hinit; [|discriminate].
  apply bind_Ok_inv in Hinit. destruct Hinit as (ab & _ & Hinit).
  injection Hinit as <-. cbn [Set_ bin_op e_elem].
  destruct (find_identity_inv F S S e0 Hfound) as [He0 Hid].
  split; [reflexivity|]. split; [reflexivity|]. split; [exact He0|].
  split; [reflexivity|]. split; [reflexivity|]. split; [|split].
  - intros a b c Ha Hb Hc.
    pose proof (py_all_true_inv _ _ Hassoc (a, b, c)) as Hp. cbn beta iota in Hp.
    assert (Hin : In (a, b, c) (product3 S S S))
      by (unfold product3; apply in_prod; [apply in_prod|]; assumption).
    specialize (Hp Hin).
    apply bind_Ok_inv in Hp. destruct Hp as (bc & Hbc & Hp).
    apply bind_Ok_inv in Hp. destruct Hp as (l & Hl & Hp).
    apply bind_Ok_inv in Hp. destruct Hp as (ab' & Hab & Hp).
    apply bind_Ok_inv in Hp. destruct Hp as (r & Hr & Hp).
    apply Function_call_Ok in Hbc, Hl, Hab, Hr.
    destruct Hbc as [-> _], Hl as [-> _], Hab as [-> _], Hr as [-> _].
    injection Hp as Hp. apply py_eqb_eq, Hp.
  - intros a Ha. apply py_eqb_eq, Hid, Ha.
  - intros a Ha. pose proof (py_all_true_inv _ _ Hinv a Ha) as Hp. cbn beta in Hp.
    apply py_any_true_inv in Hp. destruct Hp as (b & Hb & Hp).
    apply bind_Ok_inv in Hp. destruct Hp as (ab' & Hab & Hp).
    apply Function_call_Ok in Hab. destruct Hab as [-> _].
    injection Hp as Hp. exists b. split; [exact Hb | apply py_eqb_eq, Hp].
Qed.

(** The type errors of [__init__]. *)
Lemma Group_init_not_set (bin_op : pyobj E) (G0 : pyobj E) :
  (forall S, G0 <> PySet S) -> Group_init G0 bin_op = Raise TypeError.
Proof. intros Hno. destruct G0; try reflexivity. exfalso. apply (Hno s). reflexivity. Qed.

Lemma Group_init_not_function (S : AlgSet.t E) (bin_op : pyobj E) :
  (forall F, bin_op <> PyFunction F) -> Group_init (PySet S) bin_op = Raise TypeError.
Proof.
  intros Hno. destruct bin_op; try reflexivity. exfalso. apply (Hno f). reflexivity.
Qed.

Lemma Group_init_wrong_domains (S : AlgSet.t E) (F : Function (E * E) E) :
  AlgSet.eqb (codomain F) S = false \/ AlgSet.eqb (domain F) (AlgSet.prod S S) = false ->
  Group_init (PySet S) (PyFunction F) = Raise TypeError.
Proof.
  intros Hd. unfold Group_init.
  destruct (AlgSet.eqb (codomain F) S); cbn [negb]; [|reflexivity].
  destruct Hd as [Hd|Hd]; [discriminate|]. rewrite Hd. reflexivity.
Qed.

End GroupInitInv.

(** ** More on what the constructor checks *)

Lemma py_all_Ok_pure {A} (p : A -> result bool) (q : A -> bool) (l : list A) (b : bool) :
  (forall x y, In x l -> p x = Ok y -> y = q x) ->
  py_all p l = Ok b -> b = forallb q l.
Proof.
  induction l as [|x l IH]; simpl; intros Hq Hall; [congruence|].
  apply bind_Ok_inv in Hall. destruct Hall as (y & Hy & Hall).
  rewrite <- (Hq x y (or_introl eq_refl) Hy). destruct y; simpl.
  - apply IH; [|exact Hall]. intros z w Hz. apply Hq. auto.
  - congruence.
Qed.

Section GroupInitClosed.
Context {E : Type} `{PyEqOk E}.

(** The associativity test calls the operation on its own results: a
    construction that succeeds has a closed operation. *)
Lemma Group_init_Ok_closed (S : AlgSet.t E) (F : Function (E * E) E) (G0 : Group E) :
  Group_init (PySet S) (PyFunction F) = Ok G0 ->
  forall a b, In a S -> In b S -> In (function F (a, b)) S.
Proof.
  unfold Group_init.
  destruct (AlgSet.eqb (codomain F) S) eqn:HC; cbn [negb]; [|discriminate].
  destruct (AlgSet.eqb (domain F) (AlgSet.prod S S)) eqn:HD; cbn [negb]; [|discriminate].
  intros Hinit. apply bind_Ok_inv in Hinit. destruct Hinit as (assoc & Hassoc & Hinit).
  destruct assoc; cbn [negb] in Hinit; [|discriminate].
  intros a b Ha Hb.
  pose proof (py_all_true_inv _ _ Hassoc (a, a, b)) as Hp. cbn beta iota in Hp.
  assert (Hin : In (a, a, b) (product3 S S S))
    by (unfold product3; apply in_prod; [apply in_prod|]; assumption).
  specialize (Hp Hin).
  apply bind_Ok_inv in Hp. destruct Hp as (bc & Hbc & Hp).
  apply bind_Ok_inv in Hp. destruct Hp as (l & Hl & _).
  apply Function_call_Ok in Hbc, Hl. destruct Hbc as [-> _], Hl as [_ Hl].
  apply eqb_true_incl in HD. apply (proj2 HD) in Hl.
  apply in_prod_iff in Hl. apply Hl.
Qed.

Lemma Group_init_Ok_abelian (S : AlgSet.t E) (F : Function (E * E) E) (G0 : Group E) :
  Group_init (PySet S) (PyFunction F) = Ok G0 ->
  abelian G0 = abelian_check S (function F).
Proof.
  unfold Group_init.
  destruct (AlgSet.eqb (codomain F) S) eqn:HC; cbn [negb]; [|discriminate].
  destruct (AlgSet.eqb (domain F) (AlgSet.prod S S)) eqn:HD; cbn [negb]; [|discriminate].
  intros Hinit. apply bind_Ok_inv in Hinit. destruct Hinit as (assoc & Hassoc & Hinit).
  destruct assoc; cbn [negb] in Hinit; [|discriminate].
  apply bind_Ok_inv in Hinit. destruct Hinit as (found & Hfound & Hinit).
  destruct found as [e0|]; [|discriminate].
  apply bind_Ok_inv in Hinit. destruct Hinit as (inverses & Hinv & Hinit).
  destruct inverses; cbn [negb] in Hinit; [|discriminate].
  apply bind_Ok_inv in Hinit. destruct Hinit as (ab & Hab & Hinit).
  injection Hinit as <-. cbn [abelian]. unfold abelian_check.
  apply (py_all_Ok_pure
           (fun '(a, b) => ab <- Function_call F (a, b) ;;
                           ba <- Function_call F (b, a) ;; Ok (py_eqb ab ba))
           (fun '(a, b) => py_eqb (function F (a, b)) (function F (b, a)))
           (list_prod S S) ab); [|exact Hab].
  intros [a b] y _ Hy.
  apply bind_Ok_inv in Hy. destruct Hy as (u & Hu & Hy).
  apply bind_Ok_inv in Hy. destruct Hy as (v & Hv & Hy).
  apply Function_call_Ok in Hu, Hv. destruct Hu as [-> _], Hv as [-> _].
  injection Hy as <-. reflexivity.
Qed.

End GroupInitClosed.

(** ** The cyclic groups [Zn(n)] *)

Lemma In_py_range (n x : Z) : In x (py_range n) <-> (0 <= x < n)%Z.
Proof.
  unfold py_range. rewrite in_map_iff. split.
  - intros (k & <- & Hk). apply in_seq in Hk. lia.
  - intros Hx. exists (Z.to_nat x). split; [lia|]. apply in_seq. lia.
Qed.

Lemma NoDup_py_range (n : Z) : NoDup (py_range n).
Proof.
  unfold py_range. apply NoDup_map_on; [|apply seq_NoDup].
  intros x y _ _. apply Nat2Z.inj.
Qed.

Lemma length_py_range (n : Z) : length (py_range n) = Z.to_nat n.
Proof. unfold py_range. rewrite length_map, length_seq. reflexivity. Qed.

(** Addition modulo [n], the rule that [Zn] gives to its [Function]. *)
Definition add_mod (n : Z) (x : Z * Z) : Z := ((fst x + snd x) mod n)%Z.

Lemma Zn_is_group (n : Z) : (1 <= n)%Z -> is_group (py_range n) (add_mod n) 0%Z.
Proof.
  intros Hn. unfold add_mod. constructor; cbn [fst snd].
  - apply NoDup_py_range.
  - apply In_py_range. lia.
  - intros a b _ _. apply In_py_range. apply Z.mod_pos_bound. lia.
  - intros a b c _ _ _.
    rewrite Zplus_mod_idemp_r, Zplus_mod_idemp_l, Z.add_assoc. reflexivity.
  - intros a Ha. apply In_py_range in Ha. apply Z.mod_small. lia.
  - intros a Ha. apply In_py_range in Ha. rewrite Z.add_0_r. apply Z.mod_small. lia.
  - intros a Ha. apply In_py_range in Ha. exists ((n - a) mod n)%Z.
    split; [apply In_py_range, Z.mod_pos_bound; lia|].
    rewrite Zplus_mod_idemp_r, Zplus_mod_idemp_l.
    replace (a + (n - a))%Z with n by lia. replace (n - a + a)%Z with n by lia.
    rewrite Z.mod_same by lia. auto.
Qed.

Lemma Zn_Ok (n : Z) :
  (1 <= n)%Z -> Zn n = Ok (Group_of (py_range n) (add_mod n) 0%Z).
Proof.
  intros Hn. unfold Zn. rewrite of_list_NoDup_id by apply NoDup_py_range.
  apply (Group_init_group (py_range n)
           (mkFunction (AlgSet.prod (py_range n) (py_range n)) (py_range n) (add_mod n))).
  - apply NoDup_py_range.
  - apply NoDup_list_prod; apply NoDup_py_range.
  - apply eqb_refl.
  - apply Zn_is_group, Hn.
  - apply eqb_refl.
Qed.

Lemma Zn_abelian (n : Z) : abelian_check (py_range n) (add_mod n) = true.
Proof.
  unfold abelian_check. apply forallb_forall. intros [a b] _.
  apply py_eqb_eq. unfold add_mod. cbn [fst snd]. rewrite Z.add_comm. reflexivity.
Qed.

Lemma Zn_empty (n : Z) : (n <= 0)%Z -> Zn n = Raise ValueError.
Proof.
  intros Hn. unfold Zn, py_range.
  assert (Hz : Z.to_nat n = 0) by lia. rewrite Hz. reflexivity.
Qed.

(** ** Inverses, powers and the additive notation *)

Section InverseFacts.
Context {E : Type} `{PyEqOk E}.
Variable G : Group E.
Hypothesis HG : valid_Group G.

Lemma Group_inverse_own (x : E) :
  In x (Set_ G) ->
  exists xi, In xi (Set_ G) /\
             function (bin_op G) (x, xi) = e_elem G /\
             function (bin_op G) (xi, x) = e_elem G /\
             Group_inverse G (own G x) = Ok (own G xi).
Proof.
  intros Hx. pose proof (vg_group G HG) as Hgrp.
  destruct (iter_elems_perm G HG) as (rest & Hiter & _ & _ & Hall).
  destruct (grp_inv _ _ _ Hgrp x Hx) as (b & Hb & Hxb & _).
  destruct (inverse_search_own G HG x (e_elem G :: rest)) as (a & Ha & Hxa & Hs).
  - exact Hx.
  - intros y Hy. apply Hall, Hy.
  - exists b. split; [apply Hall, Hb | exact Hxb].
  - assert (HaS : In a (Set_ G)) by (apply Hall, Ha).
    exists a. split; [exact HaS|]. split; [exact Hxa|].
    split; [apply (grp_right_inv_unique _ _ _ Hgrp x a Hx HaS Hxa)|].
    unfold Group_inverse. rewrite Hiter, group_elems_own by exact HG.
    rewrite mem_elem, map_map.
    rewrite (map_ext _ id) by reflexivity. rewrite map_id.
    change (elem (own G x)) with x.
    rewrite (proj2 (mem_In x (Set_ G)) Hx). exact Hs.
Qed.

Lemma Group_inverse_stranger (g : GroupElem E) :
  ~ In (elem g) (Set_ G) -> Group_inverse G g = Raise TypeError.
Proof.
  intros Hg. unfold Group_inverse. rewrite group_elems_own by exact HG.
  rewrite mem_elem, map_map.
  rewrite (map_ext _ id) by reflexivity. rewrite map_id.
  rewrite (proj2 (mem_not_In (elem g) (Set_ G)) Hg). reflexivity.
Qed.

Lemma inverse_unique (x a b : E) :
  In x (Set_ G) -> In a (Set_ G) -> In b (Set_ G) ->
  function (bin_op G) (x, a) = e_elem G -> function (bin_op G) (x, b) = e_elem G -> a = b.
Proof.
  intros Hx Ha Hb Hxa Hxb.
  apply (grp_cancel_l _ _ _ (vg_group G HG) x); auto. congruence.
Qed.

(** [g ** 0], [g ** 1] and [g ** -1]. *)
Lemma pow_zero (g : GroupElem E) : GroupElem_pow g (PyInt 0) = Ok (e (group g)).
Proof. rewrite pow_int. reflexivity. Qed.

Lemma pow_one (x : E) :
  In x (Set_ G) -> GroupElem_pow (own G x) (PyInt 1) = Ok (own G x).
Proof.
  intros Hx. rewrite pow_int. cbn [Z.eqb Z.ltb Z.compare Z.modulo Z.div_eucl Z.pos_div_eucl].
  change (1 - 1)%Z with 0%Z. rewrite pow_zero. cbn [bind group own].
  change (e G) with (own G (e_elem G)).
  rewrite (mul_own G HG) by (auto; apply (grp_e _ _ _ (vg_group G HG))).
  rewrite (grp_id_r _ _ _ (vg_group G HG)) by exact Hx. reflexivity.
Qed.

Lemma pow_minus_one (x : E) :
  In x (Set_ G) ->
  GroupElem_pow (own G x) (PyInt (-1)) = Group_inverse G (own G x).
Proof.
  intros Hx. rewrite pow_int. cbn [Z.eqb Z.ltb Z.compare group own].
  destruct (Group_inverse_own x Hx) as (xi & Hxi & _ & _ & Hinv).
  rewrite Hinv. cbn [bind]. change (- -1)%Z with 1%Z. apply pow_one, Hxi.
Qed.

(** The exception that every other exponent ends in: the float that
    [n / 2] yields is refused, unless [n] is too large to be divided. *)
Definition pow_error (n : Z) : exn :=
  if (2 * double_overflow <=? Z.abs n)%Z then OverflowError else TypeError.

Lemma pow_even_raises (x : E) (n : Z) :
  In x (Set_ G) -> (0 < n)%Z -> (n mod 2 = 0)%Z ->
  GroupElem_pow (own G x) (PyInt n) = Raise (pow_error n).
Proof.
  intros Hx Hpos Hev. rewrite pow_int.
  rewrite (proj2 (Z.eqb_neq n 0)) by lia.
  rewrite (proj2 (Z.ltb_ge n 0)) by lia.
  rewrite Hev. cbn [Z.eqb].
  rewrite (mul_own G HG) by assumption. cbn [bind].
  unfold int_truediv_2, pow_error.
  destruct (2 * double_overflow <=? Z.abs n)%Z; cbn [bind]; [reflexivity|].
  apply pow_float.
Qed.

Lemma double_overflow_even : (2 * double_overflow mod 2 = 0)%Z.
Proof. rewrite Z.mul_comm. apply Z_mod_mult. Qed.

Lemma pow_error_pred (n : Z) :
  (1 < n)%Z -> (n mod 2 = 1)%Z -> pow_error (n - 1) = pow_error n.
Proof.
  intros Hn Hodd. unfold pow_error.
  pose proof double_overflow_even as Hev.
  destruct (Z.leb_spec (2 * double_overflow) (Z.abs (n - 1)));
    destruct (Z.leb_spec (2 * double_overflow) (Z.abs n)); try reflexivity; exfalso.
  - lia.
  - assert (Heq : Z.abs n = (2 * double_overflow)%Z) by lia.
    rewrite Z.abs_eq in Heq by lia. rewrite Heq in Hodd. lia.
Qed.

Lemma pow_positive_raises (x : E) (n : Z) :
  In x (Set_ G) -> (1 < n)%Z ->
  GroupElem_pow (own G x) (PyInt n) = Raise (pow_error n).
Proof.
  intros Hx Hn.
  destruct (Z.eq_dec (n mod 2) 0) as [Hev|Hodd]; [apply pow_even_raises; auto; lia|].
  assert (Hmod : (n mod 2 = 1)%Z) by (pose proof (Z.mod_pos_bound n 2); lia).
  rewrite pow_int.
  rewrite (proj2 (Z.eqb_neq n 0)) by lia.
  rewrite (proj2 (Z.ltb_ge n 0)) by lia.
  rewrite Hmod. cbn [Z.eqb].
  rewrite pow_even_raises; auto; [|lia|].
  - cbn [bind]. rewrite pow_error_pred by assumption. reflexivity.
  - rewrite Zminus_mod, Hmod. reflexivity.
Qed.

Lemma pow_raises (x : E) (n : Z) :
  In x (Set_ G) -> (n < -1 \/ 1 < n)%Z ->
  GroupElem_pow (own G x) (PyInt n) = Raise (pow_error n).
Proof.
  intros Hx [Hneg|Hbig]; [|apply pow_positive_raises; assumption].
  rewrite pow_int.
  rewrite (proj2 (Z.eqb_neq n 0)) by lia.
  rewrite (proj2 (Z.ltb_lt n 0)) by lia.
  cbn [group own].
  destruct (Group_inverse_own x Hx) as (xi & Hxi & _ & _ & Hinv).
  rewrite Hinv. cbn [bind]. rewrite pow_positive_raises by (auto; lia).
  unfold pow_error. rewrite Z.abs_opp. reflexivity.
Qed.

End InverseFacts.

(** The right operand of [*] and [+]: a GroupElem, an int, or anything
    else. *)
Inductive operand (E : Type) : Type :=
| OpElem (g : GroupElem E)
| OpInt (n : Z)
| OpOther.

Arguments OpElem {E} g.
Arguments OpInt {E} n.
Arguments OpOther {E}.

Section Additive.
Context {E : Type} `{PyEq E}.

(** [GroupElem.__mul__] on any operand: an int is an exponent in an
    abelian group, whatever is not a GroupElem is refused. *)
Definition GroupElem_mul_any (self : GroupElem E) (other : operand E)
    : result (GroupElem E) :=
  match other with
  | OpInt n =>
      if abelian (group self) then GroupElem_pow self (PyInt n) else Raise TypeError
  | OpElem g => GroupElem_mul self g
  | OpOther => Raise TypeError
  end.

(** [GroupElem.__rmul__] on any operand. *)
Definition GroupElem_rmul_any (self : GroupElem E) (other : operand E)
    : result (GroupElem E) :=
  match other with
  | OpInt n =>
      if abelian (group self) then GroupElem_pow self (PyInt n) else Raise TypeError
  | OpElem g => GroupElem_rmul self g
  | OpOther => Raise TypeError
  end.

(** [GroupElem.__add__] *)
Definition GroupElem_add (self : GroupElem E) (other : operand E)
    : result (GroupElem E) :=
  if abelian (group self) then GroupElem_mul_any self other else Raise TypeError.

(** [GroupElem.__neg__] *)
Definition GroupElem_neg (self : GroupElem E) : result (GroupElem E) :=
  if negb (abelian (group self)) then Raise TypeError
  else GroupElem_pow self (PyInt (-1)).

(** [GroupElem.__sub__], for [other] a GroupElem: [other ** -1] is
    evaluated before the product. *)
Definition GroupElem_sub (self other : GroupElem E) : result (GroupElem E) :=
  if negb (abelian (group self)) then Raise TypeError
  else i <- GroupElem_pow other (PyInt (-1)) ;; GroupElem_mul self i.

End Additive.

Lemma S3_valid : valid_Group S3.
Proof. apply Group_of_valid, is_group_b_ok. vm_compute. reflexivity. Qed.

(** ** Lagrange's theorem for a subgroup *)

Section Lagrange.
Context {E : Type} `{PyEqOk E}.
Variables (S R : list E) (f : E * E -> E) (e0 : E).
Hypothesis HS : is_group S f e0.
Hypothesis HR : is_group R f e0.
Hypothesis HRS : incl R S.

(** The left coset of [R] by [g], and the cosets of all elements, each
    kept once. *)
Definition left_coset (g : E) : list E := map (fun h => f (g, h)) R.

Definition left_cosets : list (list E) :=
  @AlgSet.of_list _ PyEq_AlgSet (map left_coset S).

Lemma left_coset_NoDup (g : E) : In g S -> NoDup (left_coset g).
Proof.
  intros Hg. apply NoDup_map_on; [|apply (grp_NoDup _ _ _ HR)].
  intros x y Hx Hy. apply (grp_cancel_l _ _ _ HS); auto.
Qed.

Lemma left_coset_incl (g : E) : In g S -> incl (left_coset g) S.
Proof.
  intros Hg x Hx. apply in_map_iff in Hx. destruct Hx as (h & <- & Hh).
  apply (grp_closed _ _ _ HS); auto.
Qed.

Lemma left_coset_self (g : E) : In g S -> In g (left_coset g).
Proof.
  intros Hg. apply in_map_iff. exists e0.
  split; [apply (grp_id_r _ _ _ HS), Hg | apply (grp_e _ _ _ HR)].
Qed.

Lemma left_coset_absorb (a x : E) :
  In a S -> In x (left_coset a) -> forall y, In y (left_coset x) <-> In y (left_coset a).
Proof.
  intros Ha Hx.
  pose proof (left_coset_incl a Ha x Hx) as HxS.
  assert (Hincl : incl (left_coset x) (left_coset a)).
  { intros y Hy. apply in_map_iff in Hx, Hy.
    destruct Hx as (n & <- & Hn), Hy as (k & <- & Hk).
    apply in_map_iff. exists (f (n, k)). split; [|apply (grp_closed _ _ _ HR); assumption].
    apply (grp_assoc _ _ _ HS); auto. }
  intros y. split; [apply Hincl|].
  apply NoDup_length_incl; [apply left_coset_NoDup, HxS | | exact Hincl].
  unfold left_coset. rewrite !length_map. apply Nat.le_refl.
Qed.

Lemma left_cosets_member (c : list E) :
  In c left_cosets -> exists a, In a S /\ c = left_coset a.
Proof.
  intros Hc. apply (@In_of_list_inv _ PyEq_AlgSet) in Hc.
  apply in_map_iff in Hc. destruct Hc as (a & <- & Ha). eauto.
Qed.

Lemma left_cosets_distinct (c d : list E) (x : E) :
  In c left_cosets -> In d left_cosets -> In x c -> In x d -> c = d.
Proof.
  intros Hc Hd Hxc Hxd.
  destruct (left_cosets_member c Hc) as (a & Ha & ->).
  destruct (left_cosets_member d Hd) as (b & Hb & ->).
  apply (@distinct_of_list _ PyEq_AlgSet (map left_coset S)); auto.
  - intros u v Hu Hv. apply in_map_iff in Hu, Hv.
    destruct Hu as (gu & <- & Hgu), Hv as (gv & <- & Hgv).
    apply eq_true_iff_eq.
    change (AlgSet.eqb (left_coset gv) (left_coset gu) = true
            <-> AlgSet.eqb (left_coset gu) (left_coset gv) = true).
    rewrite !set_eqb_iff by (apply left_coset_NoDup; assumption).
    unfold same_set. split; intros Hs z; symmetry; apply Hs.
  - change (AlgSet.eqb (left_coset a) (left_coset b) = true).
    apply set_eqb_iff; try (apply left_coset_NoDup; assumption).
    intros y. rewrite <- (left_coset_absorb a x Ha Hxc y).
    apply (left_coset_absorb b x Hb Hxd).
Qed.

Lemma left_cosets_cover (g : E) : In g S -> exists c, In c left_cosets /\ In g c.
Proof.
  intros Hg.
  assert (Hm : @AlgSet.mem _ PyEq_AlgSet (left_coset g) left_cosets = true).
  { apply (@mem_of_list_any _ PyEq_AlgSet); [apply eqb_refl | apply in_map, Hg]. }
  apply (@mem_exists _ PyEq_AlgSet) in Hm. destruct Hm as (c & Hc & Heq).
  exists c. split; [exact Hc|].
  destruct (left_cosets_member c Hc) as (a & Ha & ->).
  change (AlgSet.eqb (left_coset g) (left_coset a) = true) in Heq.
  apply set_eqb_iff in Heq; try (apply left_coset_NoDup; assumption).
  apply Heq, left_coset_self, Hg.
Qed.

Lemma lagrange : length left_cosets * length R = length S.
Proof.
  rewrite <- (length_concat_const left_cosets).
  2:{ intros c Hc. destruct (left_cosets_member c Hc) as (a & _ & ->).
      unfold left_coset. apply length_map. }
  assert (Hnd : NoDup (concat left_cosets)).
  { apply NoDup_concat_disjoint.
    - apply (@NoDup_of_list_any _ PyEq_AlgSet). intros x _. apply eqb_refl.
    - intros c Hc. destruct (left_cosets_member c Hc) as (a & Ha & ->).
      apply left_coset_NoDup, Ha.
    - intros c d x. apply left_cosets_distinct. }
  apply Nat.le_antisymm; apply NoDup_incl_length; auto.
  - intros x Hx. apply in_concat in Hx. destruct Hx as (c & Hc & Hxc).
    destruct (left_cosets_member c Hc) as (a & Ha & ->).
    apply (left_coset_incl a Ha), Hxc.
  - apply (grp_NoDup _ _ _ HS).
  - intros x Hx. apply in_concat. destruct (left_cosets_cover x Hx) as (c & Hc & Hxc). eauto.
Qed.

Lemma subgroup_order_divides : Nat.divide (length R) (length S).
Proof. exists (length left_cosets). symmetry. apply lagrange. Qed.

End Lagrange.

(** ** Subgroups built by [generate], seen from the parent group *)

Lemma py_any_spec {A} (p : A -> result bool) (P : A -> Prop) (l : list A) :
  (forall x, In x l -> exists b, p x = Ok b /\ (b = true <-> P x)) ->
  exists b, py_any p l = Ok b /\ (b = true <-> exists x, In x l /\ P x).
Proof.
  induction l as [|x l IH]; intros Hp.
  - exists false. split; [reflexivity|]. split; [discriminate | intros (x & [] & _)].
  - destruct (Hp x (or_introl eq_refl)) as (b & Hb & HbP).
    simpl. rewrite Hb. cbn [bind]. destruct b.
    + exists true. split; [reflexivity|]. split; [|reflexivity].
      intros _. exists x. split; [simpl; auto | apply HbP; reflexivity].
    + destruct IH as (b' & Hb' & Hiff); [intros y Hy; apply Hp; simpl; auto|].
      exists b'. split; [exact Hb'|]. rewrite Hiff. split.
      * intros (y & Hy & HPy). exists y. simpl. auto.
      * intros (y & [<-|Hy] & HPy); [|eauto].
        apply HbP in HPy. discriminate.
Qed.

Section GenerateFacts.
Context {E : Type} `{PyEqOk E}.
Variable G : Group E.
Hypothesis HG : valid_Group G.

Lemma Group_contains_elem (g : GroupElem E) :
  Group_contains G g = AlgSet.mem (elem g) (Set_ G).
Proof.
  unfold Group_contains. rewrite group_elems_own by exact HG.
  rewrite mem_elem, map_map. rewrite (map_ext _ id) by reflexivity.
  rewrite map_id. reflexivity.
Qed.

Lemma Group_le_sub (R : list E) :
  is_group R (function (bin_op G)) (e_elem G) -> incl R (Set_ G) ->
  Group_le (Group_of R (function (bin_op G)) (e_elem G)) G = Ok true.
Proof.
  intros HR HRS. pose proof (Group_of_valid _ _ _ HR) as HK.
  rewrite (Group_le_spec G _ HG HK). f_equal. apply (le_b_iff G).
  split; [exact HRS|]. reflexivity.
Qed.

(** [G.generate(K)] for a subgroup [K] built on [G]'s operation: the
    elements that the iteration of [K] yields generate [K] again. *)
Lemma generate_subgroup_again (fuel : nat) (R : list E) :
  is_group R (function (bin_op G)) (e_elem G) -> incl R (Set_ G) ->
  length (Set_ G) <= fuel ->
  exists R', generate fuel G
               (map Wrapped (Group_iter (Group_of R (function (bin_op G)) (e_elem G))))
             = Ok (Group_of R' (function (bin_op G)) (e_elem G)) /\
             is_group R' (function (bin_op G)) (e_elem G) /\
             forall x, In x R' <-> In x R.
Proof.
  intros HR HRS Hfuel.
  set (K := Group_of R (function (bin_op G)) (e_elem G)).
  pose proof (Group_of_valid _ _ _ HR : valid_Group K) as HK.
  rewrite (Group_iter_list K HK).
  destruct (generate_tagged G K HG HK HRS (fun p => eq_refl) fuel
              (map Wrapped (map (own K) (iter_list K))))
    as (R' & Hgen & HR' & _ & Hiff).
  - discriminate.
  - apply Forall_forall. intros it Hit. rewrite map_map in Hit.
    apply in_map_iff in Hit. destruct Hit as (x & <- & Hx).
    apply (In_iter_list K x HK) in Hx. simpl. split; [right; reflexivity | exact Hx].
  - exact Hfuel.
  - exists R'. split; [exact Hgen|]. split; [exact HR'|].
    intros x. rewrite (Hiff x). rewrite !map_map. cbn [item_elem elem own].
    rewrite map_id. split.
    + apply generated_closed.
      * intros y Hy. apply (In_iter_list K y HK), Hy.
      * intros a b. apply (grp_closed _ _ _ HR).
    + intros Hx. apply gen_base. apply (In_iter_list K x HK), Hx.
Qed.

(** The order of an element: the size of the closure of [[x]]. *)
Lemma GroupElem_order_spec (fuel : nat) (x : E) :
  In x (Set_ G) -> length (Set_ G) <= fuel ->
  exists R, GroupElem_order fuel (own G x) = Ok (length R) /\
            is_group R (function (bin_op G)) (e_elem G) /\ incl R (Set_ G) /\
            forall y, In y R <-> generated (function (bin_op G)) [x] y.
Proof.
  intros Hx Hfuel. unfold GroupElem_order. cbn [group own].
  destruct (generate_tagged G G HG HG (incl_refl _) (fun p => eq_refl) fuel
              [Wrapped (own G x)]) as (R & Hgen & HR & HRS & Hiff).
  - discriminate.
  - constructor; [|constructor]. apply tagged_own, Hx.
  - exact Hfuel.
  - exists R. rewrite Hgen. cbn [bind]. split; [reflexivity|]. auto.
Qed.

End GenerateFacts.

Section CyclicFacts.
Context {E : Type} `{PyEqOk E}.

Lemma is_cyclic_spec (G : Group E) (fuel : nat) :
  valid_Group G -> length (Set_ G) <= fuel ->
  exists b : bool,
    is_cyclic fuel G = Ok b /\
    (b = true <->
     exists x, In x (Set_ G) /\
               forall y, In y (Set_ G) -> generated (function (bin_op G)) [x] y).
Proof.
  intros HG Hfuel. unfold is_cyclic.
  destruct (py_any_spec
              (fun g => n <- GroupElem_order fuel g ;; Ok (Nat.eqb n (Group_len G)))
              (fun g => forall y, In y (Set_ G) ->
                          generated (function (bin_op G)) [elem g] y)
              (Group_iter G)) as (b & Hb & Hiff).
  - intros g Hg. rewrite (Group_iter_list G HG) in Hg. apply in_map_iff in Hg.
    destruct Hg as (x & <- & Hx). apply (In_iter_list G x HG) in Hx.
    destruct (GroupElem_order_spec G HG fuel x Hx Hfuel) as (R & Hord & HR & HRS & HRiff).
    rewrite Hord. cbn [bind elem own]. eexists. split; [reflexivity|].
    unfold Group_len, AlgSet.len. rewrite Nat.eqb_eq. split.
    + intros Hlen y Hy. apply HRiff.
      apply (@NoDup_length_incl _ R (Set_ G) (grp_NoDup _ _ _ HR)); [lia | exact HRS | exact Hy].
    + intros Hall. apply Nat.le_antisymm.
      * apply NoDup_incl_length; [apply (grp_NoDup _ _ _ HR) | exact HRS].
      * apply NoDup_incl_length; [apply (valid_NoDup G HG)|].
        intros y Hy. apply HRiff, Hall, Hy.
  - exists b. split; [exact Hb|]. rewrite Hiff. split.
    + intros (g & Hg & Hall). rewrite (Group_iter_list G HG) in Hg.
      apply in_map_iff in Hg. destruct Hg as (x & <- & Hx).
      exists x. split; [apply (In_iter_list G x HG), Hx | exact Hall].
    + intros (x & Hx & Hall). exists (own G x). split; [|exact Hall].
      rewrite (Group_iter_list G HG). apply in_map. apply (In_iter_list G x HG), Hx.
Qed.

End CyclicFacts.

(** In [Zn(n)] every residue is a sum of ones. *)
Lemma Zn_generated (n y : Z) :
  (1 <= n)%Z -> (0 <= y < n)%Z -> generated (add_mod n) [(1 mod n)%Z] y.
Proof.
  intros Hn Hy.
  assert (Hk : forall k : nat, generated (add_mod n) [(1 mod n)%Z] (Z.of_nat (S k) mod n)%Z).
  { induction k as [|k IH]; [apply gen_base; simpl; auto|].
    replace (Z.of_nat (S (S k)) mod n)%Z
      with (add_mod n ((Z.of_nat (S k) mod n)%Z, (1 mod n)%Z)).
    - apply gen_mul; [exact IH | apply gen_base; simpl; auto].
    - unfold add_mod. cbn [fst snd]. rewrite <- Z.add_mod by lia.
      f_equal. lia. }
  destruct (Z.eq_dec y 0) as [->|Hy0].
  - specialize (Hk (Z.to_nat n - 1)).
    replace (Z.of_nat (S (Z.to_nat n - 1))) with n in Hk by lia.
    rewrite Z.mod_same in Hk by lia. exact Hk.
  - specialize (Hk (Z.to_nat y - 1)).
    replace (Z.of_nat (S (Z.to_nat y - 1))) with y in Hk by lia.
    rewrite (Z.mod_small y n) in Hk by lia. exact Hk.
Qed.

(** ** The kernel of a homomorphism is normal *)

Section KernelNormal.
Context {E1 E2 : Type}.
Variables (SD : list E1) (fD : E1 * E1 -> E1) (eD : E1).
Variables (SC : list E2) (fC : E2 * E2 -> E2) (eC : E2).
Hypothesis HD : is_group SD fD eD.
Hypothesis HC : is_group SC fC eC.
Variable phi : E1 -> E2.
Hypothesis phi_in : forall x, In x SD -> In (phi x) SC.
Hypothesis phi_law : forall a b, In a SD -> In b SD -> phi (fD (a, b)) = fC (phi a, phi b).
Variable K : list E1.
Hypothesis HKnd : NoDup K.
Hypothesis HK : forall x, In x K <-> In x SD /\ phi x = eC.

Lemma conjugate_in_kernel (g k : E1) :
  In g SD -> In k K ->
  exists k', In k' K /\ fD (g, k) = fD (k', g).
Proof.
  intros Hg Hk. apply HK in Hk. destruct Hk as [HkS Hke].
  destruct (grp_inv _ _ _ HD g Hg) as (gi & Hgi & Hggi & Hgig).
  assert (Hgk : In (fD (g, k)) SD) by (apply (grp_closed _ _ _ HD); assumption).
  exists (fD (fD (g, k), gi)). split.
  - apply HK. split; [apply (grp_closed _ _ _ HD); assumption|].
    rewrite phi_law, phi_law, Hke by assumption.
    rewrite (grp_id_r _ _ _ HC) by (apply phi_in, Hg).
    rewrite <- phi_law, Hggi by assumption.
    apply (phi_e SD fD eD SC fC eC HD HC phi phi_in phi_law).
  - rewrite <- (grp_assoc _ _ _ HD) by assumption.
    rewrite Hgig. symmetry. apply (grp_id_r _ _ _ HD), Hgk.
Qed.

Lemma kernel_cosets_agree (g : E1) :
  In g SD ->
  forall x, In x (map (fun h => fD (g, h)) K) <-> In x (map (fun h => fD (h, g)) K).
Proof.
  intros Hg.
  assert (HKS : incl K SD) by (intros x Hx; apply HK, Hx).
  assert (Hincl : incl (map (fun h => fD (g, h)) K) (map (fun h => fD (h, g)) K)).
  { intros x Hx. apply in_map_iff in Hx. destruct Hx as (k & <- & Hk).
    destruct (conjugate_in_kernel g k Hg Hk) as (k' & Hk' & Heq).
    apply in_map_iff. exists k'. auto. }
  intros x. split; [apply Hincl|].
  apply NoDup_length_incl; [| | exact Hincl].
  - apply NoDup_map_on; [|exact HKnd].
    intros a b Ha Hb. apply (grp_cancel_l _ _ _ HD); auto.
  - rewrite !length_map. apply Nat.le_refl.
Qed.

End KernelNormal.

(** ** What [GroupHomomorphism.__init__] accepts *)

Section HomInit.
Context {E1 E2 : Type} `{PyEqOk E1} `{PyEqOk E2}.
Variables (D : Group E1) (C : Group E2).
Hypothesis HD : valid_Group D.
Hypothesis HC : valid_Group C.
Variable fn : GroupElem E1 -> result (GroupElem E2).
Variable phi : E1 -> E2.

(** The callable returns a GroupElem with value [phi x] on every element
    [x] of the domain, wrapped by the codomain when the value is in it. *)
Hypothesis Hfn : forall x, In x (Set_ D) ->
  exists y, fn (own D x) = Ok y /\ elem y = phi x /\
            (In (phi x) (Set_ C) -> group y = C).

Lemma hom_inside_test :
  py_all (fun elem => y <- fn elem ;; Ok (Group_contains C y)) (Group_iter D)
  = Ok (forallb (fun g => AlgSet.mem (phi (elem g)) (Set_ C)) (Group_iter D)).
Proof.
  apply py_all_pure. intros g Hg. rewrite (Group_iter_list D HD) in Hg.
  apply in_map_iff in Hg. destruct Hg as (x & <- & Hx).
  apply (In_iter_list D x HD) in Hx.
  destruct (Hfn x Hx) as (y & Hy & Hey & _). rewrite Hy. cbn [bind elem own].
  rewrite (Group_contains_elem C HC), Hey. reflexivity.
Qed.

Lemma hom_inside_iff :
  forallb (fun g => AlgSet.mem (phi (elem g)) (Set_ C)) (Group_iter D) = true
  <-> forall x, In x (Set_ D) -> In (phi x) (Set_ C).
Proof.
  rewrite forallb_forall. split.
  - intros Hall x Hx. apply mem_In. apply (Hall (own D x)).
    rewrite (Group_iter_list D HD). apply in_map, (In_iter_list D x HD), Hx.
  - intros Hall g Hg. rewrite (Group_iter_list D HD) in Hg.
    apply in_map_iff in Hg. destruct Hg as (x & <- & Hx).
    apply mem_In, Hall, (In_iter_list D x HD), Hx.
Qed.

Hypothesis Hin : forall x, In x (Set_ D) -> In (phi x) (Set_ C).

Lemma fn_value (x : E1) : In x (Set_ D) -> fn (own D x) = Ok (own C (phi x)).
Proof.
  intros Hx. destruct (Hfn x Hx) as (y & Hy & Hey & Hgy).
  rewrite Hy. f_equal. destruct y as [v g]. cbn [elem group] in *.
  rewrite Hey, (Hgy (Hin x Hx)). reflexivity.
Qed.

Lemma hom_law_test :
  py_all (fun '(a, b) =>
            ab <- GroupElem_mul a b ;;
            l <- fn ab ;;
            fa <- fn a ;;
            fb <- fn b ;;
            r <- GroupElem_mul fa fb ;;
            Ok (py_eqb l r))
         (list_prod (Group_iter D) (Group_iter D))
  = Ok (forallb (fun '(a, b) =>
                   py_eqb (phi (function (bin_op D) (elem a, elem b)))
                          (function (bin_op C) (phi (elem a), phi (elem b))))
                (list_prod (Group_iter D) (Group_iter D))).
Proof.
  apply py_all_pure. intros [a b] Hab. apply in_prod_iff in Hab.
  destruct Hab as [Ha Hb]. rewrite (Group_iter_list D HD) in Ha, Hb.
  apply in_map_iff in Ha, Hb.
  destruct Ha as (x & <- & Hx), Hb as (y & <- & Hy).
  apply (In_iter_list D x HD) in Hx. apply (In_iter_list D y HD) in Hy.
  rewrite (mul_own D HD) by assumption. cbn [bind].
  rewrite fn_value by (apply (op_closed D HD); assumption). cbn [bind].
  rewrite !fn_value by assumption. cbn [bind].
  rewrite (mul_own C HC) by (apply Hin; assumption). reflexivity.
Qed.

Lemma hom_law_iff :
  forallb (fun '(a, b) =>
             py_eqb (phi (function (bin_op D) (elem a, elem b)))
                    (function (bin_op C) (phi (elem a), phi (elem b))))
          (list_prod (Group_iter D) (Group_iter D)) = true
  <-> forall a b, In a (Set_ D) -> In b (Set_ D) ->
        phi (function (bin_op D) (a, b)) = function (bin_op C) (phi a, phi b).
Proof.
  rewrite forallb_forall. split.
  - intros Hall a b Ha Hb. apply py_eqb_eq. apply (Hall (own D a, own D b)).
    rewrite (Group_iter_list D HD).
    apply in_prod; apply in_map, (In_iter_list D _ HD); assumption.
  - intros Hall [a b] Hab. apply in_prod_iff in Hab. destruct Hab as [Ha Hb].
    rewrite (Group_iter_list D HD) in Ha, Hb. apply in_map_iff in Ha, Hb.
    destruct Ha as (x & <- & Hx), Hb as (y & <- & Hy).
    apply py_eqb_eq. apply Hall; apply (In_iter_list D _ HD); assumption.
Qed.

End HomInit.

(** ** The product of two groups *)

Section ProductFacts.
Context {E1 E2 : Type} `{PyEqOk E1} `{PyEqOk E2}.
Variables (S1 : list E1) (f1 : E1 * E1 -> E1) (e1 : E1).
Variables (S2 : list E2) (f2 : E2 * E2 -> E2) (e2 : E2).
Hypothesis H1g : is_group S1 f1 e1.
Hypothesis H2g : is_group S2 f2 e2.

(** The componentwise operation, as the lambda of [Group.__mul__]. *)
Definition prod_op (x : (E1 * E2) * (E1 * E2)) : E1 * E2 :=
  (f1 (fst (fst x), fst (snd x)), f2 (snd (fst x), snd (snd x))).

Lemma prod_is_group : is_group (list_prod S1 S2) prod_op (e1, e2).
Proof.
  unfold prod_op. constructor.
  - apply NoDup_list_prod; [apply (grp_NoDup _ _ _ H1g) | apply (grp_NoDup _ _ _ H2g)].
  - apply in_prod; [apply (grp_e _ _ _ H1g) | apply (grp_e _ _ _ H2g)].
  - intros [a1 a2] [b1 b2] Ha Hb. apply in_prod_iff in Ha, Hb. cbn [fst snd].
    apply in_prod; [apply (grp_closed _ _ _ H1g) | apply (grp_closed _ _ _ H2g)]; tauto.
  - intros [a1 a2] [b1 b2] [c1 c2] Ha Hb Hc. apply in_prod_iff in Ha, Hb, Hc.
    cbn [fst snd].
    rewrite (grp_assoc _ _ _ H1g), (grp_assoc _ _ _ H2g) by tauto. reflexivity.
  - intros [a1 a2] Ha. apply in_prod_iff in Ha. cbn [fst snd].
    rewrite (grp_id_l _ _ _ H1g), (grp_id_l _ _ _ H2g) by tauto. reflexivity.
  - intros [a1 a2] Ha. apply in_prod_iff in Ha. cbn [fst snd].
    rewrite (grp_id_r _ _ _ H1g), (grp_id_r _ _ _ H2g) by tauto. reflexivity.
  - intros [a1 a2] Ha. apply in_prod_iff in Ha. destruct Ha as [Ha1 Ha2].
    destruct (grp_inv _ _ _ H1g a1 Ha1) as (b1 & Hb1 & Hab1 & Hba1).
    destruct (grp_inv _ _ _ H2g a2 Ha2) as (b2 & Hb2 & Hab2 & Hba2).
    exists (b1, b2). split; [apply in_prod; assumption|]. cbn [fst snd].
    rewrite Hab1, Hab2, Hba1, Hba2. auto.
Qed.

Lemma prod_abelian :
  abelian_check (list_prod S1 S2) prod_op = abelian_check S1 f1 && abelian_check S2 f2.
Proof.
  apply eq_true_iff_eq. unfold abelian_check, prod_op.
  rewrite andb_true_iff, !forallb_forall. split.
  - intros Hall. split.
    + intros [a b] Hab. apply in_prod_iff in Hab. apply py_eqb_eq.
      assert (Hin : In ((a, e2), (b, e2)) (list_prod (list_prod S1 S2) (list_prod S1 S2))).
      { apply in_prod; apply in_prod; try tauto; apply (grp_e _ _ _ H2g). }
      apply Hall in Hin. apply py_eqb_eq in Hin. cbn [fst snd] in Hin. congruence.
    + intros [a b] Hab. apply in_prod_iff in Hab. apply py_eqb_eq.
      assert (Hin : In ((e1, a), (e1, b)) (list_prod (list_prod S1 S2) (list_prod S1 S2))).
      { apply in_prod; apply in_prod; try tauto; apply (grp_e _ _ _ H1g). }
      apply Hall in Hin. apply py_eqb_eq in Hin. cbn [fst snd] in Hin. congruence.
  - intros [Ha1 Ha2] [[a1 a2] [b1 b2]] Hin. apply in_prod_iff in Hin.
    destruct Hin as [Ha Hb]. apply in_prod_iff in Ha, Hb. cbn [fst snd].
    apply py_eqb_eq. f_equal.
    + apply py_eqb_eq. apply (Ha1 (a1, b1)). apply in_prod; tauto.
    + apply py_eqb_eq. apply (Ha2 (a2, b2)). apply in_prod; tauto.
Qed.

End ProductFacts.

Lemma Group_mul_Ok {E1 E2 : Type} `{PyEqOk E1} `{PyEqOk E2}
    (G : Group E1) (K : Group E2) :
  valid_Group G -> valid_Group K ->
  Group_mul G K
  = Ok (Group_of (list_prod (Set_ G) (Set_ K))
                 (prod_op (function (bin_op G)) (function (bin_op K)))
                 (e_elem G, e_elem K)).
Proof.
  intros HG HK. unfold Group_mul.
  pose proof (prod_is_group _ _ _ _ _ _ (vg_group G HG) (vg_group K HK)) as HP.
  apply (Group_init_group (list_prod (Set_ G) (Set_ K))
           (mkFunction (AlgSet.prod (AlgSet.prod (Set_ G) (Set_ K))
                                    (AlgSet.prod (Set_ G) (Set_ K)))
                       (AlgSet.prod (Set_ G) (Set_ K))
                       (prod_op (function (bin_op G)) (function (bin_op K))))).
  - apply (grp_NoDup _ _ _ HP).
  - apply NoDup_list_prod; apply (grp_NoDup _ _ _ HP).
  - apply eqb_refl.
  - exact HP.
  - apply eqb_refl.
Qed.

(** ** Isomorphism as a relation between groups *)

Section IsomorphicDecided.
Context {E1 E2 : Type} `{PyEqOk E1} `{PyEqOk E2} `{PickOk E1}.
Variables (G : Group E1) (K : Group E2).
Hypothesis HG : valid_Group G.
Hypothesis HK : valid_Group K.

Lemma is_isomorphic_spec (fuel : nat) :
  length (Set_ G) <= fuel ->
  exists b, is_isomorphic fuel G K = Ok b /\ (b = true <-> isomorphic G K).
Proof.
  intros Hfuel. unfold is_isomorphic, find_isomorphism.
  destruct (Nat.eqb_spec (Group_len G) (Group_len K)) as [Hlen|Hlen]; cbn [negb orb].
  2:{ exists false. split; [reflexivity|]. split; [discriminate|].
      intros Hiso. exfalso. apply Hlen, (isomorphic_len G K HG HK Hiso). }
  destruct (Bool.eqb (abelian G) (abelian K)) eqn:Hab; cbn [negb].
  2:{ exists false. split; [reflexivity|]. split; [discriminate|].
      intros Hiso. exfalso. apply eqb_false_iff in Hab.
      apply Hab, (isomorphic_abelian G K HG HK Hiso). }
  destruct (generators_generating G HG fuel Hfuel) as (l & Hgens & Hlne & Hlnd & HlS & Hlgen).
  rewrite Hgens. cbn [bind]. rewrite length_map.
  destruct (iter_elems_perm K HK) as (rest & Hiter & _ & Hitnd & Hitall).
  rewrite Hiter, permutations_map.
  destruct (try_permutations_spec G K HG HK Hlen l Hlne Hlnd HlS Hlgen fuel Hfuel
              (permutations (length l) (e_elem K :: rest)))
    as (r & Hr & Hsome & Hnone).
  { intros Bl HBl. apply permutations_sound in HBl. destruct HBl as (HBlen & HBincl & HBnd).
    split; [auto|]. split; [|exact HBlen].
    intros y Hy. apply Hitall, HBincl, Hy. }
  rewrite Hr. cbn [bind]. eexists. split; [reflexivity|].
  destruct r as [h|].
  - split; [|reflexivity]. intros _.
    destruct (Hsome h eq_refl) as (_ & psi & Hpsi & _). exists psi. exact Hpsi.
  - split; [discriminate|]. intros (psi & Hpsi). exfalso.
    apply (Hnone eq_refl psi Hpsi). apply permutations_complete.
    + apply NoDup_map_on; [|exact Hlnd].
      intros x y Hx Hy. apply (iso_inj G K psi Hpsi); auto.
    + intros y Hy. apply in_map_iff in Hy. destruct Hy as (x & <- & Hx).
      apply Hitall, (iso_in G K psi Hpsi), HlS, Hx.
    + apply length_map.
Qed.

End IsomorphicDecided.

Section IsomorphicRelation.
Context {E1 E2 E3 : Type} `{PyEqOk E1} `{PyEqOk E2} `{PyEqOk E3}.

Lemma isomorphic_refl (G : Group E1) : isomorphic G G.
Proof.
  exists (fun x => x). constructor; auto. intros y Hy. exists y. auto.
Qed.

Lemma isomorphic_sym (G : Group E1) (K : Group E2) :
  valid_Group G -> valid_Group K -> isomorphic G K -> isomorphic K G.
Proof.
  intros HG HK (psi & [Hin Hlaw Hinj Hsurj]).
  set (inv := fun y => match find (fun x => py_eqb (psi x) y) (Set_ G) with
                       | Some x => x
                       | None => e_elem G
                       end).
  assert (Hinv : forall y, In y (Set_ K) -> In (inv y) (Set_ G) /\ psi (inv y) = y).
  { intros y Hy. unfold inv.
    destruct (find (fun x => py_eqb (psi x) y) (Set_ G)) as [x|] eqn:Hf.
    - apply find_some in Hf. destruct Hf as [Hx Hxy]. apply py_eqb_eq in Hxy. auto.
    - exfalso. destruct (Hsurj y Hy) as (x & Hx & Hxy).
      pose proof (find_none _ _ Hf x Hx) as Hno. cbn beta in Hno.
      rewrite Hxy, py_eqb_refl in Hno. discriminate. }
  exists inv. constructor.
  - intros y Hy. apply Hinv, Hy.
  - intros a b Ha Hb.
    assert (Hab : In (function (bin_op K) (a, b)) (Set_ K))
      by (apply (op_closed K HK); assumption).
    apply Hinj.
    + apply Hinv, Hab.
    + apply (op_closed G HG); apply Hinv; assumption.
    + rewrite Hlaw by (apply Hinv; assumption).
      rewrite (proj2 (Hinv _ Hab)), (proj2 (Hinv a Ha)), (proj2 (Hinv b Hb)). reflexivity.
  - intros a b Ha Hb Heq.
    rewrite <- (proj2 (Hinv a Ha)), <- (proj2 (Hinv b Hb)), Heq. reflexivity.
  - intros x Hx. exists (psi x). split; [apply Hin, Hx|].
    apply Hinj; [apply Hinv, Hin, Hx | exact Hx | apply Hinv, Hin, Hx].
Qed.

Lemma isomorphic_trans (G : Group E1) (K : Group E2) (L : Group E3) :
  isomorphic G K -> isomorphic K L -> isomorphic G L.
Proof.
  intros (psi & [Hin Hlaw Hinj Hsurj]) (chi & [Hin' Hlaw' Hinj' Hsurj']).
  exists (fun x => chi (psi x)). constructor.
  - auto.
  - intros a b Ha Hb. rewrite Hlaw, Hlaw' by auto. reflexivity.
  - intros x y Hx Hy Heq. apply Hinj; auto.
  - intros z Hz. destruct (Hsurj' z Hz) as (y & Hy & <-).
    destruct (Hsurj y Hy) as (x & Hx & <-). exists x. auto.
Qed.

End IsomorphicRelation.

Lemma product_swap_isomorphic {E1 E2 : Type} `{PyEqOk E1} `{PyEqOk E2}
    (S1 : list E1) (f1 : E1 * E1 -> E1) (e1 : E1)
    (S2 : list E2) (f2 : E2 * E2 -> E2) (e2 : E2) :
  isomorphic (Group_of (list_prod S1 S2) (prod_op f1 f2) (e1, e2))
             (Group_of (list_prod S2 S1) (prod_op f2 f1) (e2, e1)).
Proof.
  exists (fun p => (snd p, fst p)). constructor; cbn [Set_ Group_of bin_op function].
  - intros [a b] Hab. apply in_prod_iff in Hab. apply in_prod; tauto.
  - intros [a1 a2] [b1 b2] _ _. reflexivity.
  - intros [a1 a2] [b1 b2] _ _ [= -> ->]. reflexivity.
  - intros [b a] Hba. apply in_prod_iff in Hba. exists (a, b).
    split; [apply in_prod; tauto | reflexivity].
Qed.

Lemma trivial_is_group {E : Type} (S : list E) (f : E * E -> E) (e0 : E) :
  is_group S f e0 -> is_group [e0] f e0.
Proof.
  intros HG. pose proof (grp_e _ _ _ HG) as He.
  pose proof (grp_id_l _ _ _ HG e0 He) as Hee.
  constructor.
  - repeat constructor. simpl. tauto.
  - simpl. auto.
  - intros a b [<-|[]] [<-|[]]. simpl. auto.
  - intros a b c [<-|[]] [<-|[]] [<-|[]]. rewrite !Hee. reflexivity.
  - intros a [<-|[]]. exact Hee.
  - intros a [<-|[]]. exact Hee.
  - intros a [<-|[]]. exists e0. simpl. auto.
Qed.

(** ** The dihedral groups [Dn(n)] *)

#[export] Instance PyEq_string : PyEq string := String.eqb.

#[export] Instance PyEqOk_string : PyEqOk string.
Proof. intros x y. apply String.eqb_eq. Qed.

(** ["%d" % k] *)
Definition format_d (k : Z) : string :=
  DecimalString.NilZero.string_of_int (Z.to_int k).

(** [int(s)] on a string of decimal digits with an optional sign, the
    strings that ["%d"] produces; [multiply_symmetries] is applied to no
    other. *)
Definition int_of_digits (s : string) : Z :=
  match DecimalString.NilZero.int_of_string s with
  | Some d => Z.of_int d
  | None => 0%Z
  end.

(** ["%s%d" % (l, x)] for a one-letter [l] *)
Definition symmetry_name (l : ascii) (x : Z) : string := String l (format_d x).

(** The function [multiply_symmetries] of [Dn]; it is applied to pairs
    of names of the set only, which are not empty. *)
Definition multiply_symmetries (n : Z) (x : string * string) : string :=
  match fst x, snd x with
  | String l1 r1, String l2 r2 =>
      let x1 := int_of_digits r1 in
      let x2 := int_of_digits r2 in
      if Ascii.eqb l1 "R" then
        if Ascii.eqb l2 "R" then symmetry_name "R" ((x1 + x2) mod n)%Z
        else symmetry_name "S" ((x1 + x2) mod n)%Z
      else
        if Ascii.eqb l2 "R" then symmetry_name "S" ((x1 - x2) mod n)%Z
        else symmetry_name "R" ((x1 - x2) mod n)%Z
  | _, _ => EmptyString
  end.

(** [Dn(n)] *)
Definition Dn (n : Z) : result (Group string) :=
  let G := AlgSet.of_list
             (map (fun p => symmetry_name (fst p) (snd p))
                  (list_prod ["R"; "S"]%char (py_range n))) in
  Group_init (PySet G) (PyFunction (mkFunction (AlgSet.prod G G) G (multiply_symmetries n))).

Lemma int_of_format (k : Z) : int_of_digits (format_d k) = k.
Proof.
  unfold int_of_digits, format_d.
  rewrite DecimalString.NilZero.isi.
  - apply DecimalZ.of_to.
  - destruct k; simpl; try discriminate.
    intros [= Hp]. apply (DecimalPos.Unsigned.to_uint_nonnil _ Hp).
  - destruct k; simpl; try discriminate.
    intros [= Hp]. apply (DecimalPos.Unsigned.to_uint_nonnil _ Hp).
Qed.

(** A group carried along an encoding of its elements. *)
Lemma is_group_transport {A B : Type} (enc : A -> B) (dec : B -> A)
    (S : list A) (f : A * A -> A) (e0 : A) (g : B * B -> B) :
  is_group S f e0 ->
  (forall x, In x S -> dec (enc x) = x) ->
  (forall x y, In x S -> In y S -> g (enc x, enc y) = enc (f (x, y))) ->
  is_group (map enc S) g (enc e0).
Proof.
  intros HG Hdec Hg.
  assert (Hcl : forall a b, In a S -> In b S -> In (f (a, b)) S)
    by apply (grp_closed _ _ _ HG).
  constructor.
  - apply NoDup_map_on; [|apply (grp_NoDup _ _ _ HG)].
    intros x y Hx Hy Heq. rewrite <- (Hdec x Hx), <- (Hdec y Hy), Heq. reflexivity.
  - apply in_map, (grp_e _ _ _ HG).
  - intros a b Ha Hb. apply in_map_iff in Ha, Hb.
    destruct Ha as (x & <- & Hx), Hb as (y & <- & Hy).
    rewrite Hg by assumption. apply in_map, Hcl; assumption.
  - intros a b c Ha Hb Hc. apply in_map_iff in Ha, Hb, Hc.
    destruct Ha as (x & <- & Hx), Hb as (y & <- & Hy), Hc as (z & <- & Hz).
    rewrite (Hg y z), (Hg x y), !Hg by auto.
    rewrite (grp_assoc _ _ _ HG) by assumption. reflexivity.
  - intros a Ha. apply in_map_iff in Ha. destruct Ha as (x & <- & Hx).
    rewrite Hg by (auto; apply (grp_e _ _ _ HG)).
    rewrite (grp_id_l _ _ _ HG) by assumption. reflexivity.
  - intros a Ha. apply in_map_iff in Ha. destruct Ha as (x & <- & Hx).
    rewrite Hg by (auto; apply (grp_e _ _ _ HG)).
    rewrite (grp_id_r _ _ _ HG) by assumption. reflexivity.
  - intros a Ha. apply in_map_iff in Ha. destruct Ha as (x & <- & Hx).
    destruct (grp_inv _ _ _ HG x Hx) as (y & Hy & Hxy & Hyx).
    exists (enc y). split; [apply in_map, Hy|].
    rewrite !Hg by assumption. rewrite Hxy, Hyx. auto.
Qed.

(** The symmetries as pairs: a rotation ([true]) or a reflection, and its
    index. *)
Definition dihedral_set (n : Z) : list (bool * Z) :=
  list_prod [true; false] (py_range n).

Definition dihedral_op (n : Z) (x : (bool * Z) * (bool * Z)) : bool * Z :=
  let '((l1, x1), (l2, x2)) := x in
  if l1 then (l2, ((x1 + x2) mod n)%Z) else (negb l2, ((x1 - x2) mod n)%Z).

Lemma In_dihedral_set (n : Z) (l : bool) (k : Z) :
  In (l, k) (dihedral_set n) <-> (0 <= k < n)%Z.
Proof.
  unfold dihedral_set. rewrite in_prod_iff, In_py_range. simpl.
  destruct l; tauto.
Qed.

Lemma dihedral_is_group (n : Z) :
  (1 <= n)%Z -> is_group (dihedral_set n) (dihedral_op n) (true, 0%Z).
Proof.
  intros Hn.
  assert (Hb : forall z, (0 <= z mod n < n)%Z) by (intros z; apply Z.mod_pos_bound; lia).
  constructor.
  - apply NoDup_list_prod; [|apply NoDup_py_range].
    repeat constructor; simpl; intuition discriminate.
  - apply In_dihedral_set. lia.
  - intros [l1 x1] [l2 x2] _ _. unfold dihedral_op.
    destruct l1; apply In_dihedral_set, Hb.
  - intros [l1 x1] [l2 x2] [l3 x3] _ _ _. unfold dihedral_op.
    destruct l1, l2, l3; cbn [negb]; f_equal;
      rewrite ?Zplus_mod_idemp_l, ?Zplus_mod_idemp_r,
              ?Zminus_mod_idemp_l, ?Zminus_mod_idemp_r; f_equal; lia.
  - intros [l x] Hx. apply In_dihedral_set in Hx. unfold dihedral_op.
    f_equal. rewrite Z.add_0_l. apply Z.mod_small, Hx.
  - intros [l x] Hx. apply In_dihedral_set in Hx. unfold dihedral_op.
    destruct l; cbn [negb]; f_equal; rewrite ?Z.add_0_r, ?Z.sub_0_r; apply Z.mod_small, Hx.
  - intros [l x] Hx. apply In_dihedral_set in Hx. destruct l.
    + exists (true, ((n - x) mod n)%Z). split; [apply In_dihedral_set, Hb|].
      unfold dihedral_op. rewrite Zplus_mod_idemp_r, Zplus_mod_idemp_l.
      replace (x + (n - x))%Z with n by lia. replace (n - x + x)%Z with n by lia.
      rewrite Z.mod_same by lia. auto.
    + exists (false, x). split; [apply In_dihedral_set, Hx|].
      unfold dihedral_op. cbn [negb]. rewrite Z.sub_diag, Z.mod_0_l by lia. auto.
Qed.

Definition encode_symmetry (p : bool * Z) : string :=
  symmetry_name (if fst p then "R" else "S")%char (snd p).

Definition decode_symmetry (s : string) : bool * Z :=
  match s with
  | String c r => (Ascii.eqb c "R", int_of_digits r)
  | EmptyString => (true, 0%Z)
  end.

Lemma decode_encode (p : bool * Z) : decode_symmetry (encode_symmetry p) = p.
Proof.
  destruct p as [[|] k]; unfold encode_symmetry, decode_symmetry, symmetry_name;
    cbn [fst snd]; rewrite int_of_format; reflexivity.
Qed.

Lemma multiply_encoded (n : Z) (p q : bool * Z) :
  multiply_symmetries n (encode_symmetry p, encode_symmetry q)
  = encode_symmetry (dihedral_op n (p, q)).
Proof.
  destruct p as [[|] x1], q as [[|] x2];
    unfold multiply_symmetries, encode_symmetry, symmetry_name, dihedral_op;
    cbn [fst snd negb]; rewrite !int_of_format; reflexivity.
Qed.

Lemma Dn_set (n : Z) :
  map (fun p => symmetry_name (fst p) (snd p)) (list_prod ["R"; "S"]%char (py_range n))
  = map encode_symmetry (dihedral_set n).
Proof.
  unfold dihedral_set. cbn [list_prod]. rewrite !map_app, !map_map. reflexivity.
Qed.

Lemma Dn_is_group (n : Z) :
  (1 <= n)%Z ->
  is_group (map encode_symmetry (dihedral_set n)) (multiply_symmetries n)
           (encode_symmetry (true, 0%Z)).
Proof.
  intros Hn.
  apply (is_group_transport encode_symmetry decode_symmetry _ _ _ _
           (dihedral_is_group n Hn)).
  - intros x _. apply decode_encode.
  - intros x y _ _. apply multiply_encoded.
Qed.

Lemma Dn_Ok (n : Z) :
  (1 <= n)%Z ->
  Dn n = Ok (Group_of (map encode_symmetry (dihedral_set n)) (multiply_symmetries n)
                      (encode_symmetry (true, 0%Z))).
Proof.
  intros Hn. pose proof (Dn_is_group n Hn) as HG. unfold Dn.
  rewrite Dn_set. rewrite of_list_NoDup_id by apply (grp_NoDup _ _ _ HG).
  apply (Group_init_group _
           (mkFunction (AlgSet.prod (map encode_symmetry (dihedral_set n))
                                    (map encode_symmetry (dihedral_set n)))
                       (map encode_symmetry (dihedral_set n)) (multiply_symmetries n))).
  - apply (grp_NoDup _ _ _ HG).
  - apply NoDup_list_prod; apply (grp_NoDup _ _ _ HG).
  - apply eqb_refl.
  - exact HG.
  - apply eqb_refl.
Qed.

Lemma Dn_empty (n : Z) : (n <= 0)%Z -> Dn n = Raise ValueError.
Proof.
  intros Hn. unfold Dn, py_range.
  assert (Hz : Z.to_nat n = 0) by lia. rewrite Hz. reflexivity.
Qed.

Lemma Dn_commutes_iff (n : Z) :
  (1 <= n)%Z ->
  ((forall a b, In a (dihedral_set n) -> In b (dihedral_set n) ->
      dihedral_op n (a, b) = dihedral_op n (b, a)) <-> (n <= 2)%Z).
Proof.
  intros Hn. split.
  - intros Hc. destruct (Z_le_gt_dec n 2) as [Hle|Hgt]; [exact Hle|]. exfalso.
    specialize (Hc (true, 1%Z) (false, 0%Z)).
    unfold dihedral_op in Hc. cbn [negb] in Hc.
    rewrite Z.add_0_r in Hc. change (0 - 1)%Z with (-1)%Z in Hc.
    assert (H1 : (1 mod n = 1)%Z) by (apply Z.mod_small; lia).
    assert (H2 : (-1 mod n = n - 1)%Z).
    { replace (-1)%Z with (n - 1 + (-1) * n)%Z by lia.
      rewrite Z_mod_plus_full. apply Z.mod_small. lia. }
    rewrite H1, H2 in Hc.
    assert (Heq : (false, 1%Z) = (false, (n - 1)%Z))
      by (apply Hc; apply In_dihedral_set; lia).
    injection Heq as Heq. lia.
  - intros Hle [l1 x1] [l2 x2] Ha Hb.
    apply In_dihedral_set in Ha, Hb.
    assert (Hn12 : n = 1%Z \/ n = 2%Z) by lia.
    assert (Hx1 : x1 = 0%Z \/ x1 = 1%Z) by lia.
    assert (Hx2 : x2 = 0%Z \/ x2 = 1%Z) by lia.
    destruct Hn12 as [-> | ->], Hx1 as [-> | ->], Hx2 as [-> | ->], l1, l2;
      try reflexivity; lia.
Qed.

(** ** The symmetric groups [Sn(n)] *)

(** A monoid in which every element has a right inverse is a group. *)
Lemma right_inverses_is_group {E : Type} (S : list E) (f : E * E -> E) (e0 : E) :
  NoDup S -> In e0 S ->
  (forall a b, In a S -> In b S -> In (f (a, b)) S) ->
  (forall a b c, In a S -> In b S -> In c S -> f (a, f (b, c)) = f (f (a, b), c)) ->
  (forall a, In a S -> f (e0, a) = a) ->
  (forall a, In a S -> f (a, e0) = a) ->
  (forall a, In a S -> exists b, In b S /\ f (a, b) = e0) ->
  is_group S f e0.
Proof.
  intros Hnd He Hcl Has Hl Hr Hinv. constructor; auto.
  intros a Ha. destruct (Hinv a Ha) as (b & Hb & Hab).
  destruct (Hinv b Hb) as (c & Hc & Hbc).
  exists b. split; [exact Hb|]. split; [exact Hab|].
  assert (Hac : a = c).
  { rewrite <- (Hr a Ha), <- Hbc, Has, Hab by assumption. apply Hl, Hc. }
  rewrite Hac. exact Hbc.
Qed.

Lemma map_nth_seq_id {A} (l : list A) (d : A) :
  map (fun i => nth i l d) (seq 0 (length l)) = l.
Proof.
  induction l as [|a l IH]; [reflexivity|].
  cbn [length seq map nth]. f_equal.
  rewrite <- seq_shift, map_map. exact IH.
Qed.

Lemma map_inj_on {A B} (g : A -> B) (l l' : list A) :
  (forall x y, In x l -> In y l' -> g x = g y -> x = y) ->
  map g l = map g l' -> l = l'.
Proof.
  revert l'. induction l as [|a l IH]; intros [|b l'] Hinj Heq; try discriminate.
  - reflexivity.
  - simpl in Heq. injection Heq as Hab Heq. f_equal.
    + apply Hinj; simpl; auto.
    + apply IH; [|exact Heq]. intros x y Hx Hy. apply Hinj; simpl; auto.
Qed.

(** The tuples of [Sn(n)], and the rule of its [Function]:
    [tuple(x[0][j] for j in x[1])]. *)
Definition Sn_set (n : Z) : list (list Z) :=
  AlgSet.of_list (permutations (Z.to_nat n) (py_range n)).

Definition compose_tuples (x : list Z * list Z) : list Z :=
  map (fun j => nth (Z.to_nat j) (fst x) 0%Z) (snd x).

Definition perm_of (n : Z) (p : list Z) : Prop :=
  length p = Z.to_nat n /\ NoDup p /\ forall x, In x p -> (0 <= x < n)%Z.

Section SnFacts.
Variable n : Z.

Lemma In_Sn_set (p : list Z) : In p (Sn_set n) <-> perm_of n p.
Proof.
  unfold Sn_set, perm_of. rewrite In_of_list. split.
  - intros Hp. apply permutations_sound in Hp. destruct Hp as (Hlen & Hincl & Hnd).
    split; [exact Hlen|]. split; [apply Hnd, NoDup_py_range|].
    intros x Hx. apply In_py_range, Hincl, Hx.
  - intros (Hlen & Hnd & Hr). apply permutations_complete; auto.
    intros x Hx. apply In_py_range, Hr, Hx.
Qed.

Lemma idx_range (p : list Z) (j : Z) :
  perm_of n p -> (0 <= j < n)%Z -> (0 <= nth (Z.to_nat j) p 0 < n)%Z.
Proof.
  intros (Hlen & _ & Hr) Hj. apply Hr, nth_In. lia.
Qed.

Lemma idx_inj (p : list Z) (i j : Z) :
  perm_of n p -> (0 <= i < n)%Z -> (0 <= j < n)%Z ->
  nth (Z.to_nat i) p 0%Z = nth (Z.to_nat j) p 0%Z -> i = j.
Proof.
  intros (Hlen & Hnd & _) Hi Hj Heq.
  apply Z2Nat.inj; try lia.
  apply (proj1 (NoDup_nth p 0%Z) Hnd); [lia | lia | exact Heq].
Qed.

Lemma compose_perm (p q : list Z) :
  perm_of n p -> perm_of n q -> perm_of n (compose_tuples (p, q)).
Proof.
  intros Hp Hq. pose proof Hq as (Hlen & Hnd & Hr).
  unfold compose_tuples. cbn [fst snd]. split; [|split].
  - rewrite length_map. exact Hlen.
  - apply NoDup_map_on; [|exact Hnd].
    intros x y Hx Hy. apply (idx_inj p); auto.
  - intros x Hx. apply in_map_iff in Hx. destruct Hx as (j & <- & Hj).
    apply idx_range; auto.
Qed.

Lemma compose_assoc (p q r : list Z) :
  perm_of n q -> perm_of n r ->
  compose_tuples (p, compose_tuples (q, r)) = compose_tuples (compose_tuples (p, q), r).
Proof.
  intros (Hlen & _ & _) (_ & _ & Hr). unfold compose_tuples. cbn [fst snd].
  rewrite map_map. apply map_ext_in. intros j Hj. apply Hr in Hj. symmetry.
  rewrite (nth_indep (map (fun j0 => nth (Z.to_nat j0) p 0%Z) q) 0%Z
             (nth (Z.to_nat 0) p 0%Z)) by (rewrite length_map; lia).
  apply (map_nth (fun j0 => nth (Z.to_nat j0) p 0%Z)).
Qed.

Lemma range_perm : perm_of n (py_range n).
Proof.
  split; [apply length_py_range|]. split; [apply NoDup_py_range|].
  intros x. apply In_py_range.
Qed.

Lemma idx_py_range (j : Z) : (0 <= j < n)%Z -> nth (Z.to_nat j) (py_range n) 0%Z = j.
Proof.
  intros Hj. unfold py_range.
  change 0%Z with (Z.of_nat 0) at 1. rewrite map_nth, seq_nth by lia. lia.
Qed.

Lemma compose_id_l (q : list Z) : perm_of n q -> compose_tuples (py_range n, q) = q.
Proof.
  intros (_ & _ & Hr). unfold compose_tuples. cbn [fst snd].
  rewrite <- (map_id q) at 2. apply map_ext_in. intros j Hj. apply idx_py_range, Hr, Hj.
Qed.

Lemma compose_id_r (p : list Z) : perm_of n p -> compose_tuples (p, py_range n) = p.
Proof.
  intros (Hlen & _ & _). unfold compose_tuples, py_range. cbn [fst snd].
  rewrite map_map. rewrite <- Hlen.
  transitivity (map (fun i => nth i p 0%Z) (seq 0 (length p)));
    [|apply map_nth_seq_id].
  apply map_ext. intros i. rewrite Nat2Z.id. reflexivity.
Qed.

Lemma Sn_is_group : is_group (Sn_set n) compose_tuples (py_range n).
Proof.
  assert (Hnd : NoDup (Sn_set n)) by apply NoDup_of_list.
  assert (Hcl : forall a b, In a (Sn_set n) -> In b (Sn_set n) ->
                  In (compose_tuples (a, b)) (Sn_set n)).
  { intros a b Ha Hb. apply In_Sn_set. apply compose_perm; apply In_Sn_set; assumption. }
  apply right_inverses_is_group; auto.
  - apply In_Sn_set, range_perm.
  - intros a b c _ Hb Hc. apply compose_assoc; apply In_Sn_set; assumption.
  - intros a Ha. apply compose_id_l, In_Sn_set, Ha.
  - intros a Ha. apply compose_id_r, In_Sn_set, Ha.
  - intros a Ha.
    apply (inj_on_surj (fun q => compose_tuples (a, q)) (Sn_set n) Hnd).
    + intros q Hq. apply Hcl; assumption.
    + intros q q' Hq Hq' Heq. apply In_Sn_set in Ha, Hq, Hq'.
      unfold compose_tuples in Heq. cbn [fst snd] in Heq.
      apply (map_inj_on _ _ _ (fun x y Hx Hy => idx_inj a x y Ha
               (proj2 (proj2 Hq) x Hx) (proj2 (proj2 Hq') y Hy)) Heq).
    + apply In_Sn_set, range_perm.
Qed.

Lemma Sn_Ok : Sn n = Ok (Group_of (Sn_set n) compose_tuples (py_range n)).
Proof.
  unfold Sn. fold (Sn_set n).
  apply (Group_init_group (Sn_set n)
           (mkFunction (AlgSet.prod (Sn_set n) (Sn_set n)) (Sn_set n) compose_tuples)).
  - apply NoDup_of_list.
  - apply NoDup_list_prod; apply NoDup_of_list.
  - apply eqb_refl.
  - apply Sn_is_group.
  - apply eqb_refl.
Qed.

End SnFacts.

(** The number of tuples that [itertools.permutations] yields. *)
Fixpoint falling (m r : nat) : nat :=
  match r with
  | O => 1
  | S r' => m * falling (m - 1) r'
  end.

Lemma falling_fact (m : nat) : falling m m = fact m.
Proof.
  induction m as [|m IH]; [reflexivity|].
  cbn [falling fact]. rewrite Nat.sub_succ, Nat.sub_0_r, IH. reflexivity.
Qed.

Lemma length_select {A} (l : list A) : length (select l) = length l.
Proof. induction l as [|a l IH]; simpl; [reflexivity|]. rewrite length_map, IH. reflexivity. Qed.

Lemma select_rest_length {A} (l : list A) (x : A) (rest : list A) :
  In (x, rest) (select l) -> length rest = length l - 1.
Proof.
  intros Hin. apply select_spec in Hin. destruct Hin as (l1 & l2 & -> & ->).
  rewrite !length_app. simpl. lia.
Qed.

Lemma length_flat_map_const {A B} (g : A -> list B) (l : list A) (c : nat) :
  (forall x, In x l -> length (g x) = c) -> length (flat_map g l) = length l * c.
Proof.
  induction l as [|a l IH]; simpl; intros Hc; [reflexivity|].
  rewrite length_app, Hc, IH by auto. reflexivity.
Qed.

Lemma length_permutations {A} (r : nat) (l : list A) :
  length (permutations r l) = falling (length l) r.
Proof.
  revert l. induction r as [|r IH]; intros l; [reflexivity|].
  cbn [permutations falling].
  rewrite (length_flat_map_const _ _ (falling (length l - 1) r)).
  - rewrite length_select. reflexivity.
  - intros [x rest] Hin. cbn [fst snd]. rewrite length_map, IH.
    rewrite (select_rest_length l x rest Hin). reflexivity.
Qed.

Lemma select_NoDup {A} (l : list A) (x : A) (rest : list A) :
  NoDup l -> In (x, rest) (select l) -> NoDup rest.
Proof.
  intros Hnd Hin. apply select_spec in Hin. destruct Hin as (l1 & l2 & -> & ->).
  apply NoDup_remove_1 in Hnd. exact Hnd.
Qed.

Lemma select_heads {A} (l : list A) : map fst (select l) = l.
Proof.
  induction l as [|a l IH]; simpl; [reflexivity|].
  rewrite map_map. cbn [fst]. f_equal. exact IH.
Qed.

Lemma NoDup_flat_map_heads {A} (sel : list (A * list A)) (g : list A -> list (list A)) :
  NoDup (map fst sel) ->
  (forall x rest, In (x, rest) sel -> NoDup (g rest)) ->
  NoDup (flat_map (fun p => map (cons (fst p)) (g (snd p))) sel).
Proof.
  induction sel as [|[x rest] sel IH]; simpl; intros Hnd Hg; [constructor|].
  inversion Hnd as [|? ? Hx Hnd']; subst.
  apply NoDup_app.
  - apply NoDup_map_on; [|apply (Hg x rest); auto].
    intros a b _ _ [= ->]. reflexivity.
  - apply IH; [exact Hnd'|]. intros y r Hin. apply (Hg y r). auto.
  - intros t Ht Ht'. apply in_map_iff in Ht. destruct Ht as (t1 & <- & _).
    apply in_flat_map in Ht'. destruct Ht' as ([y r] & Hin & Hy).
    apply in_map_iff in Hy. destruct Hy as (t2 & [= -> _] & _).
    apply Hx. apply (in_map fst) in Hin. exact Hin.
Qed.

Lemma NoDup_permutations {A} (r : nat) (l : list A) :
  NoDup l -> NoDup (permutations r l).
Proof.
  revert l. induction r as [|r IH]; intros l Hnd.
  - repeat constructor. simpl. tauto.
  - cbn [permutations].
    apply (NoDup_flat_map_heads (select l) (permutations r)).
    + rewrite (select_heads l). exact Hnd.
    + intros x rest Hin. apply IH. apply (select_NoDup l x rest Hnd Hin).
Qed.

Lemma length_Sn_set (n : Z) : length (Sn_set n) = fact (Z.to_nat n).
Proof.
  unfold Sn_set.
  rewrite of_list_NoDup_id by apply NoDup_permutations, NoDup_py_range.
  rewrite length_permutations, length_py_range. apply falling_fact.
Qed.

(** A group on the numbers 7 and 8, disjoint from [Zn(6)]. *)
Definition Z2_on_7_8 : Group Z :=
  Group_of [7; 8]%Z (fun x => if (fst x =? snd x)%Z then 7%Z else 8%Z) 7%Z.

Lemma Z2_on_7_8_valid : valid_Group Z2_on_7_8.
Proof. apply Group_of_valid, is_group_b_ok. reflexivity. Qed.

(** Two permutations that do not commute, for [n >= 3]: the exchange of
    0 and 1 and the exchange of 1 and 2. *)
Definition swap01 (n : Z) : list Z :=
  1%Z :: 0%Z :: map Z.of_nat (seq 2 (Z.to_nat n - 2)).

Definition swap12 (n : Z) : list Z :=
  0%Z :: 2%Z :: 1%Z :: map Z.of_nat (seq 3 (Z.to_nat n - 3)).

Lemma swap01_perm (n : Z) : (3 <= n)%Z -> perm_of n (swap01 n).
Proof.
  intros Hn. unfold swap01, perm_of. split; [|split].
  - cbn [length]. rewrite length_map, length_seq. lia.
  - constructor; [|constructor].
    + simpl. rewrite in_map_iff. intros [H|(k & Hk & Hin)]; [discriminate|].
      apply in_seq in Hin. lia.
    + rewrite in_map_iff. intros (k & Hk & Hin). apply in_seq in Hin. lia.
    + apply NoDup_map_on; [|apply seq_NoDup]. intros x y _ _. apply Nat2Z.inj.
  - intros x [<-|[<-|Hx]]; try lia.
    apply in_map_iff in Hx. destruct Hx as (k & <- & Hin). apply in_seq in Hin. lia.
Qed.

Lemma swap12_perm (n : Z) : (3 <= n)%Z -> perm_of n (swap12 n).
Proof.
  intros Hn. unfold swap12, perm_of. split; [|split].
  - cbn [length]. rewrite length_map, length_seq. lia.
  - constructor; [|constructor; [|constructor]].
    + simpl. rewrite in_map_iff. intros [H|[H|(k & Hk & Hin)]]; try discriminate.
      apply in_seq in Hin. lia.
    + simpl. rewrite in_map_iff. intros [H|(k & Hk & Hin)]; [discriminate|].
      apply in_seq in Hin. lia.
    + rewrite in_map_iff. intros (k & Hk & Hin). apply in_seq in Hin. lia.
    + apply NoDup_map_on; [|apply seq_NoDup]. intros x y _ _. apply Nat2Z.inj.
  - intros x [<-|[<-|[<-|Hx]]]; try lia.
    apply in_map_iff in Hx. destruct Hx as (k & <- & Hin). apply in_seq in Hin. lia.
Qed.

Lemma swaps_do_not_commute (n : Z) :
  compose_tuples (swap01 n, swap12 n) <> compose_tuples (swap12 n, swap01 n).
Proof. unfold compose_tuples, swap01, swap12. cbn [fst snd map]. intros H. inversion H. Qed.

Lemma Sn_small_abelian (n : Z) :
  (n <= 2)%Z -> abelian_check (Sn_set n) compose_tuples = true.
Proof.
  intros Hn.
  assert (Hcases : (n <= 0 \/ n = 1 \/ n = 2)%Z) by lia.
  destruct Hcases as [Hn0|[->| ->]]; [|reflexivity|reflexivity].
  unfold Sn_set, py_range. assert (Hz : Z.to_nat n = 0) by lia. rewrite Hz. reflexivity.
Qed.

(** A second group on [{0, 1, 2}]: addition modulo 3 shifted by one, with
    identity 1. *)
Definition shifted_add (x : Z * Z) : Z := ((fst x + snd x - 1) mod 3)%Z.

Definition Z3_shifted : Group Z := Group_of [0; 1; 2]%Z shifted_add 1%Z.

Lemma Z3_shifted_valid : valid_Group Z3_shifted.
Proof. apply Group_of_valid, is_group_b_ok. reflexivity. Qed.

(** The callable [lambda x: x]: it hands back the GroupElem it is given,
    which the domain owns. *)
Definition return_argument (g : GroupElem Z) : result (GroupElem Z) := Ok g.

(** * The claims *)

(** C10: iterating over a valid Group yields the identity first, then the
    remaining elements, every element of the group exactly once: the
    iteration is the list of the group's own wrappers of [e :: rest], where
    [rest] has no identity and no repetition and [e :: rest] holds exactly
    the elements of the underlying set. *)
Theorem Group_iter_identity_first {E : Type} `{PyEqOk E} (G : Group E) :
  valid_Group G ->
  exists rest : list E,
    Group_iter G = e G :: map (own G) rest /\
    ~ In (e_elem G) rest /\
    NoDup (e_elem G :: rest) /\
    (forall x, In x (e_elem G :: rest) <-> In x (Set_ G)).
Proof.
  intros HG. destruct (iter_elems_perm G HG) as (rest & Hiter & Hrest).
  exists rest. split; [exact Hiter | exact Hrest].
Qed.

Lemma Group_iter_identity_first_witness :
  exists rest : list Z,
    Group_iter Z3 = e Z3 :: map (own Z3) rest /\
    ~ In (e_elem Z3) rest /\
    NoDup (e_elem Z3 :: rest) /\
    (forall x, In x (e_elem Z3 :: rest) <-> In x (Set_ Z3)).
Proof. apply (Group_iter_identity_first Z3 Z3_valid). Defined.

(** C7: in a valid Group, [inverse(g)] returns an element [a] of the group
    with [g * a == e] and [a * g == e]. *)
Theorem Group_inverse_two_sided {E : Type} `{PyEqOk E} (G : Group E) (x : E) :
  valid_Group G -> In x (Set_ G) ->
  exists a : GroupElem E,
    Group_inverse G (own G x) = Ok a /\
    In a (group_elems G) /\
    GroupElem_mul (own G x) a = Ok (e G) /\
    GroupElem_mul a (own G x) = Ok (e G).
Proof.
  intros HG Hx.
  pose proof (vg_group G HG) as Hgrp.
  destruct (iter_elems_perm G HG) as (rest & Hiter & _ & _ & Hall).
  destruct (grp_inv _ _ _ Hgrp x Hx) as (b & Hb & Hxb & _).
  destruct (inverse_search_own G HG x (e_elem G :: rest)) as (a & Ha & Hxa & Hs).
  - exact Hx.
  - intros y Hy. apply Hall, Hy.
  - exists b. split; [apply Hall, Hb | exact Hxb].
  - assert (HaS : In a (Set_ G)) by (apply Hall, Ha).
    exists (own G a). split; [|split; [|split]].
    + unfold Group_inverse. rewrite Hiter, group_elems_own by exact HG.
      rewrite mem_elem, map_map.
      rewrite (map_ext _ id) by reflexivity. rewrite map_id.
      change (elem (own G x)) with x.
      rewrite (proj2 (mem_In x (Set_ G)) Hx). exact Hs.
    + rewrite group_elems_own by exact HG. apply in_map, HaS.
    + rewrite (mul_own G HG) by assumption. unfold e. rewrite <- Hxa. reflexivity.
    + rewrite (mul_own G HG) by assumption. unfold e.
      rewrite (grp_right_inv_unique _ _ _ Hgrp x a Hx HaS Hxa). reflexivity.
Qed.

Lemma Group_inverse_two_sided_witness :
  exists a : GroupElem Z,
    Group_inverse Z3 (own Z3 1%Z) = Ok a /\
    In a (group_elems Z3) /\
    GroupElem_mul (own Z3 1%Z) a = Ok (e Z3) /\
    GroupElem_mul a (own Z3 1%Z) = Ok (e Z3).
Proof.
  apply (Group_inverse_two_sided Z3 1%Z Z3_valid). simpl. auto.
Defined.

(** C2: [g ** 2] should be [g * g]; the code evaluates [(g * g) ** (2 / 2)],
    where [2 / 2] is the float [1.0], and raises [TypeError].  Evaluated
    on the element 1 of [Zn(3)]. *)
Theorem GroupElem_pow_two_raises :
  GroupElem_pow (own Z3 1%Z) (PyInt 2) = Raise TypeError /\
  GroupElem_mul (own Z3 1%Z) (own Z3 1%Z) = Ok (own Z3 2%Z).
Proof.
  split; [|reflexivity].
  rewrite pow_int. cbn. apply pow_float.
Qed.

(** C3: the constructor should refuse a set and operation that are not a
    group.  On [{0, 1}] with [a * b = b] every element is a left identity
    and 0 is a right inverse of every element for the identity 0 that the
    search finds, so all three checks pass and a Group is returned; it has
    no two-sided identity ([1 * 0 = 0]), and 1 has no left inverse. *)
Theorem Group_init_accepts_second_arg_op :
  second_arg_Group = Ok (mkGroup false [0; 1]%Z 0%Z second_arg_op) /\
  function second_arg_op (1, 0)%Z = 0%Z /\
  (forall e0, ~ is_group [0; 1]%Z (function second_arg_op) e0) /\
  (forall b, function second_arg_op (b, 1)%Z <> 0%Z).
Proof.
  split; [reflexivity|]. split; [reflexivity|]. split.
  - intros e0 HG. pose proof (grp_e _ _ _ HG) as He.
    pose proof (grp_id_r _ _ _ HG 0%Z) as H0.
    pose proof (grp_id_r _ _ _ HG 1%Z) as H1.
    simpl in *. assert (e0 = 0%Z) by tauto. assert (e0 = 1%Z) by tauto. congruence.
  - intros b. simpl. discriminate.
Qed.

(** C4, as the code has it: on a non-empty collection of elements of a valid
    Group [G], [generate] returns the smallest subgroup of [G] that holds
    them, a valid Group on the closure of the items under the operation; it
    raises [ValueError] on the empty collection and on a collection with a
    GroupElem that is not among the elements of [G]; an unwrapped value
    outside the set of [G] fails earlier, in the conversion to a GroupElem,
    with [TypeError]; and [generate([G.e])] has order 1. *)
Theorem generate_smallest_subgroup {E : Type} `{PyEqOk E}
    (G : Group E) (fuel : nat) (items : list (gen_item E)) :
  valid_Group G -> length (Set_ G) <= fuel ->
  (items <> [] -> Forall (owned G) items ->
   exists K : Group E,
     generate fuel G items = Ok K /\
     valid_Group K /\ incl (Set_ K) (Set_ G) /\ e_elem K = e_elem G /\
     (forall p, function (bin_op K) p = function (bin_op G) p) /\
     (forall it, In it items -> In (item_elem it) (Set_ K)) /\
     (forall L : list E,
        (forall it, In it items -> In (item_elem it) L) ->
        closed (function (bin_op G)) L -> incl (Set_ K) L)) /\
  (items = [] -> generate fuel G items = Raise ValueError) /\
  ((forall x, In (Raw x) items -> In x (Set_ G)) ->
   (exists g, In (Wrapped g) items /\ ~ In (elem g) (Set_ G)) ->
   generate fuel G items = Raise ValueError) /\
  ((exists x, In (Raw x) items /\ ~ In x (Set_ G)) ->
   generate fuel G items = Raise TypeError) /\
  (exists K : Group E,
     generate fuel G [Wrapped (e G)] = Ok K /\ Group_len K = 1).
Proof.
  intros HG Hfuel. split; [|split; [|split; [|split]]].
  - intros Hne Hown.
    destruct (generate_tagged G G HG HG (incl_refl _) (fun p => eq_refl) fuel items)
      as (R & Hgen & Hgrp & HRS & HR); auto.
    { eapply Forall_impl; [|exact Hown]. apply owned_item_ok. }
    exists (Group_of R (function (bin_op G)) (e_elem G)).
    split; [exact Hgen|]. split; [apply Group_of_valid, Hgrp|].
    split; [exact HRS|]. split; [reflexivity|]. split; [reflexivity|]. split.
    + intros it Hit. apply HR, gen_base, in_map, Hit.
    + intros L HL Hcl x Hx. apply HR in Hx.
      apply (generated_closed (function (bin_op G)) (map item_elem items) L); auto.
      intros y Hy. apply in_map_iff in Hy. destruct Hy as (it & <- & Hit). auto.
  - intros ->. apply generate_empty.
  - apply generate_wrapped_stranger, HG.
  - apply generate_raw_stranger.
  - destruct (generate_tagged G G HG HG (incl_refl _) (fun p => eq_refl) fuel [Wrapped (e G)])
      as (R & Hgen & Hgrp & HRS & HR); auto.
    { discriminate. }
    { repeat constructor; simpl; auto. apply (grp_e _ _ _ (vg_group G HG)). }
    exists (Group_of R (function (bin_op G)) (e_elem G)). split; [exact Hgen|].
    unfold Group_len, AlgSet.len. simpl.
    pose proof (grp_NoDup _ _ _ Hgrp) as Hnd. pose proof (grp_e _ _ _ Hgrp) as He.
    assert (Hall : forall x, In x R -> x = e_elem G).
    { intros x Hx. apply (generated_identity G HG), HR, Hx. }
    destruct R as [|a [|b R]]; simpl in *; [contradiction | reflexivity |].
    exfalso. inversion Hnd as [|? ? Hnot _]; subst. apply Hnot.
    rewrite (Hall a), (Hall b); simpl; auto.
Qed.

Lemma generate_smallest_subgroup_witness :
  (exists K : Group Z,
     generate 3 Z3 [Raw 1%Z] = Ok K /\
     valid_Group K /\ incl (Set_ K) (Set_ Z3) /\ e_elem K = e_elem Z3 /\
     (forall p, function (bin_op K) p = function (bin_op Z3) p) /\
     (forall it, In it [Raw 1%Z] -> In (item_elem it) (Set_ K)) /\
     (forall L : list Z,
        (forall it, In it [Raw 1%Z] -> In (item_elem it) L) ->
        closed (function (bin_op Z3)) L -> incl (Set_ K) L)) /\
  generate 3 Z3 [] = Raise ValueError /\
  generate 3 Z3 [Wrapped (own Z6 5%Z)] = Raise ValueError /\
  generate 3 Z3 [Raw 5%Z] = Raise TypeError.
Proof.
  assert (Hlen : length (Set_ Z3) <= 3) by (simpl; lia).
  split; [|split; [|split]].
  - apply (proj1 (generate_smallest_subgroup Z3 3 [Raw 1%Z] Z3_valid Hlen)).
    + discriminate.
    + constructor; [simpl; auto | constructor].
  - apply (proj1 (proj2 (generate_smallest_subgroup Z3 3 [] Z3_valid Hlen))).
    reflexivity.
  - apply (proj1 (proj2 (proj2
             (generate_smallest_subgroup Z3 3 [Wrapped (own Z6 5%Z)] Z3_valid Hlen)))).
    + intros x [Hx|[]]. discriminate.
    + exists (own Z6 5%Z). split; [simpl; auto|]. simpl. lia.
  - apply (proj1 (proj2 (proj2 (proj2
             (generate_smallest_subgroup Z3 3 [Raw 5%Z] Z3_valid Hlen))))).
    exists 5%Z. split; [simpl; auto|]. simpl. lia.
Defined.

(** C4, the claim as stated fails: the collection [[5]] is not a subset of
    the elements of [Zn(3)], and [generate] raises [TypeError] on it, not
    [ValueError]. *)
Lemma generate_stranger_TypeError :
  AlgSet.mem 5%Z (Set_ Z3) = false /\
  generate 3 Z3 [Raw 5%Z] = Raise TypeError /\
  generate 3 Z3 [Raw 5%Z] <> Raise ValueError.
Proof. split; [reflexivity|]. split; [reflexivity | discriminate]. Qed.

(** C5: for a valid Group [G], whatever element [pick] selects,
    [generators()] returns at most [floor(log2 |G|) + 1] elements of [G]
    that generate it: every element of [G] is a product of returned
    elements, and the subgroup that [generate] builds from them has the
    elements of [G], hence its order.  The identity is not among them
    unless [G] has order 1. *)
Theorem generators_bound_and_span {E : Type} `{PyEqOk E} `{PickOk E}
    (G : Group E) (fuel : nat) :
  valid_Group G -> length (Set_ G) <= fuel ->
  exists gens : list (GroupElem E),
    generators fuel G = Ok gens /\
    gens <> [] /\
    length gens <= Nat.log2 (Group_len G) + 1 /\
    Forall (fun g => group g = G /\ In (elem g) (Set_ G)) gens /\
    (forall x, In x (Set_ G) -> generated (function (bin_op G)) (map elem gens) x) /\
    (exists K : Group E,
       generate fuel G (map Wrapped gens) = Ok K /\
       (forall x, In x (Set_ K) <-> In x (Set_ G)) /\
       Group_len K = Group_len G) /\
    (Group_len G <> 1 -> forall g, In g gens -> elem g <> e_elem G).
Proof.
  intros HG Hfuel. pose proof (vg_group G HG) as Hgrp.
  pose proof (grp_e _ _ _ Hgrp) as He.
  destruct (generators_spec G HG fuel Hfuel) as (xs & R & Hinv & Hlen & Hone & Hgens).
  destruct Hinv as [HRg HRS HRgen Hxs Hne Hxnd Hpow].
  unfold Group_len, AlgSet.len.
  assert (HS1 : 1 <= length (Set_ G)).
  { destruct (Set_ G); [contradiction | simpl; lia]. }
  set (l := if Nat.eqb (length (Set_ G)) 1 then [e_elem G] else xs) in *.
  assert (Hl : incl l (Set_ G)).
  { unfold l. destruct (Nat.eqb (length (Set_ G)) 1); [|exact Hxs].
    intros y [<-|[]]. exact He. }
  assert (Hlne : l <> []).
  { unfold l. destruct (Nat.eqb_spec (length (Set_ G)) 1) as [Hl1|Hl1]; [discriminate|].
    intros ->. simpl in Hpow.
    assert (Hle : length R <= 1); [|lia].
    apply (NoDup_all_equal R (e_elem G)); [apply (grp_NoDup _ _ _ HRg)|].
    intros x Hx. apply (generated_identity G HG), HRgen, Hx. }
  assert (Hel : map elem (map (own G) l) = l).
  { rewrite map_map. simpl. apply map_id. }
  assert (Hspan : forall x, In x (Set_ G) -> generated (function (bin_op G)) l x).
  { destruct (generators_generating G HG fuel Hfuel) as (l' & Hgens' & _ & _ & _ & Hall).
    rewrite Hgens in Hgens'. injection Hgens' as Hll.
    apply (f_equal (map elem)) in Hll. rewrite !map_map in Hll. simpl in Hll.
    rewrite !map_id in Hll. rewrite Hll. exact Hall. }
  exists (map (own G) l). split; [exact Hgens|].
  split; [destruct l; [congruence | discriminate]|].
  split; [|split; [|split; [|split]]].
  - rewrite length_map. unfold l.
    destruct (Nat.eqb (length (Set_ G)) 1); [simpl; lia|].
    assert (length xs <= Nat.log2 (length (Set_ G))); [|lia].
    apply Nat.log2_le_pow2; lia.
  - apply Forall_forall. intros g Hg. apply in_map_iff in Hg.
    destruct Hg as (x & <- & Hx). simpl. auto.
  - rewrite Hel. exact Hspan.
  - destruct (generate_tagged G G HG HG (incl_refl _) (fun p => eq_refl) fuel
                (map Wrapped (map (own G) l)))
      as (R' & Hgen & HR'g & HR'S & HR'gen); auto.
    { destruct l; [congruence | discriminate]. }
    { apply Forall_forall. intros it Hit. rewrite map_map in Hit.
      apply in_map_iff in Hit. destruct Hit as (x & <- & Hx).
      apply owned_item_ok. simpl. auto. }
    exists (Group_of R' (function (bin_op G)) (e_elem G)). split; [exact Hgen|].
    simpl. rewrite !map_map in HR'gen. simpl in HR'gen. rewrite map_id in HR'gen.
    assert (HSR' : incl (Set_ G) R').
    { intros x Hx. apply HR'gen, Hspan, Hx. }
    split; [intros x; split; [apply HR'S | apply HSR']|].
    apply Nat.le_antisymm.
    + apply NoDup_incl_length; [apply (grp_NoDup _ _ _ HR'g) | exact HR'S].
    + apply NoDup_incl_length; [apply (grp_NoDup _ _ _ Hgrp) | exact HSR'].
  - intros Hn1 g Hg. apply in_map_iff in Hg. destruct Hg as (x & <- & Hx). simpl.
    unfold l in Hx. destruct (Nat.eqb_spec (length (Set_ G)) 1) as [Hl1|Hl1]; [contradiction|].
    intros ->. contradiction.
Qed.

Lemma generators_bound_and_span_witness :
  exists gens : list (GroupElem Z),
    @generators Z _ pick_first 6 Z6 = Ok gens /\
    gens <> [] /\
    length gens <= Nat.log2 (Group_len Z6) + 1 /\
    Forall (fun g => group g = Z6 /\ In (elem g) (Set_ Z6)) gens /\
    (forall x, In x (Set_ Z6) -> generated (function (bin_op Z6)) (map elem gens) x) /\
    (exists K : Group Z,
       generate 6 Z6 (map Wrapped gens) = Ok K /\
       (forall x, In x (Set_ K) <-> In x (Set_ Z6)) /\
       Group_len K = Group_len Z6) /\
    (Group_len Z6 <> 1 -> forall g, In g gens -> elem g <> e_elem Z6).
Proof.
  apply (@generators_bound_and_span Z _ _ pick_first pick_first_ok Z6 6 Z6_valid).
  simpl. lia.
Defined.

(** C8: every constructed GroupHomomorphism should satisfy
    [len(h.kernel()) * len(h.image()) == len(h.domain)].  The constructor
    compares the values of the GroupElems that the callable returns and
    multiplies them in the group that owns them, so it accepts
    [lambda x: x] from [Zn(3)] to the group on [{0, 1, 2}] with the
    operation [(a + b - 1) mod 3] and the identity 1, which is not a
    homomorphism between the two ([1 * 1] is 2 in the first and 1 in the
    second).  [image()] returns a Group of order 3, and [kernel()] collects
    [{1}], which addition modulo 3 does not close, and raises
    [TypeError]. *)
Theorem GroupHomomorphism_accepts_foreign_elements :
  Zn 3 = Ok Z3 /\
  Group_init (PySet [0; 1; 2]%Z)
             (PyFunction (mkFunction (AlgSet.prod [0; 1; 2]%Z [0; 1; 2]%Z) [0; 1; 2]%Z
                                     shifted_add))
  = Ok Z3_shifted /\
  valid_Group Z3_shifted /\
  GroupHomomorphism_init Z3 Z3_shifted return_argument
  = Ok (mkGroupHomomorphism Z3 Z3_shifted return_argument) /\
  function (bin_op Z3) (1, 1)%Z = 2%Z /\
  function (bin_op Z3_shifted) (1, 1)%Z = 1%Z /\
  kernel_elems (mkGroupHomomorphism Z3 Z3_shifted return_argument) (Group_iter Z3)
  = Ok [1%Z] /\
  kernel (mkGroupHomomorphism Z3 Z3_shifted return_argument) = Raise TypeError /\
  (exists I, image (mkGroupHomomorphism Z3 Z3_shifted return_argument) = Ok I /\
             Group_len I = 3) /\
  ~ (exists K I,
       kernel (mkGroupHomomorphism Z3 Z3_shifted return_argument) = Ok K /\
       image (mkGroupHomomorphism Z3 Z3_shifted return_argument) = Ok I /\
       Group_len K * Group_len I
       = Group_len (hom_domain (mkGroupHomomorphism Z3 Z3_shifted return_argument))).
Proof.
  assert (Hk : kernel (mkGroupHomomorphism Z3 Z3_shifted return_argument) = Raise TypeError)
    by reflexivity.
  split; [reflexivity|]. split; [reflexivity|]. split; [exact Z3_shifted_valid|].
  split; [reflexivity|]. split; [reflexivity|]. split; [reflexivity|].
  split; [reflexivity|]. split; [exact Hk|]. split.
  - eexists. split; reflexivity.
  - intros (K & I & HK & _). rewrite Hk in HK. discriminate.
Qed.

(** C1: for valid Groups [G] and [K], whatever element [pick] selects,
    [G.find_isomorphism(K)] returns a GroupHomomorphism from [G] to [K]
    whose callable is a bijection of the elements when the groups are
    isomorphic, and [None] when they are not; unequal orders or different
    abelian flags give [None] at once; [is_isomorphic] is the boolean of the
    answer. *)
Theorem find_isomorphism_correct {E1 E2 : Type} `{PyEqOk E1} `{PyEqOk E2} `{PickOk E1}
    (G : Group E1) (K : Group E2) (fuel : nat) :
  valid_Group G -> valid_Group K -> length (Set_ G) <= fuel ->
  exists r : option (GroupHomomorphism E1 E2),
    find_isomorphism fuel G K = Ok r /\
    (isomorphic G K -> exists h, r = Some h /\ is_isomorphism G K h) /\
    (~ isomorphic G K -> r = None) /\
    (Group_len G <> Group_len K \/ abelian G <> abelian K -> r = None) /\
    is_isomorphic fuel G K = Ok (match r with Some _ => true | None => false end).
Proof.
  intros HG HK Hfuel.
  assert (Hmain : exists r : option (GroupHomomorphism E1 E2),
            find_isomorphism fuel G K = Ok r /\
            (isomorphic G K -> exists h, r = Some h /\ is_isomorphism G K h) /\
            (~ isomorphic G K -> r = None) /\
            (Group_len G <> Group_len K \/ abelian G <> abelian K -> r = None)).
  { unfold find_isomorphism.
    destruct (Nat.eqb_spec (Group_len G) (Group_len K)) as [Hlen|Hlen]; cbn [negb orb].
    2:{ exists None. split; [reflexivity|]. split; [|auto].
        intros Hiso. exfalso. apply Hlen, (isomorphic_len G K HG HK Hiso). }
    destruct (Bool.eqb (abelian G) (abelian K)) eqn:Hab; cbn [negb].
    2:{ exists None. split; [reflexivity|]. split; [|auto].
        intros Hiso. exfalso. apply eqb_false_iff in Hab.
        apply Hab, (isomorphic_abelian G K HG HK Hiso). }
    apply eqb_prop in Hab.
    destruct (generators_generating G HG fuel Hfuel) as (l & Hgens & Hlne & Hlnd & HlS & Hlgen).
    rewrite Hgens. cbn [bind]. rewrite length_map.
    destruct (iter_elems_perm K HK) as (rest & Hiter & _ & Hitnd & Hitall).
    rewrite Hiter, permutations_map.
    destruct (try_permutations_spec G K HG HK Hlen l Hlne Hlnd HlS Hlgen fuel Hfuel
                (permutations (length l) (e_elem K :: rest)))
      as (r & Hr & Hsome & Hnone).
    { intros Bl HBl. apply permutations_sound in HBl. destruct HBl as (HBlen & HBincl & HBnd).
      split; [auto|]. split; [|exact HBlen].
      intros y Hy. apply Hitall, HBincl, Hy. }
    exists r. split; [exact Hr|].
    assert (Hiso_r : isomorphic G K -> exists h, r = Some h /\ is_isomorphism G K h).
    { intros (psi & Hpsi). destruct r as [h|]; [exists h; auto|].
      exfalso. apply (Hnone eq_refl psi Hpsi).
      apply permutations_complete.
      - apply NoDup_map_on; [|exact Hlnd].
        intros x y Hx Hy. apply (iso_inj G K psi Hpsi); auto.
      - intros y Hy. apply in_map_iff in Hy. destruct Hy as (x & <- & Hx).
        apply Hitall, (iso_in G K psi Hpsi), HlS, Hx.
      - apply length_map. }
    split; [exact Hiso_r|]. split.
    - intros Hniso. destruct r as [h|]; [|reflexivity].
      exfalso. apply Hniso. destruct (Hsome h eq_refl) as (_ & psi & Hpsi & _).
      exists psi. exact Hpsi.
    - intros [Hne|Hne]; contradiction. }
  destruct Hmain as (r & Hr & Hyes & Hno & Hfast).
  exists r. split; [exact Hr|]. split; [exact Hyes|]. split; [exact Hno|]. split; [exact Hfast|].
  unfold is_isomorphic. rewrite Hr. reflexivity.
Qed.

Lemma find_isomorphism_correct_witness :
  exists r : option (GroupHomomorphism Z Z),
    @find_isomorphism Z Z _ _ pick_first 3 Z3 Z3 = Ok r /\
    (isomorphic Z3 Z3 -> exists h, r = Some h /\ is_isomorphism Z3 Z3 h) /\
    (~ isomorphic Z3 Z3 -> r = None) /\
    (Group_len Z3 <> Group_len Z3 \/ abelian Z3 <> abelian Z3 -> r = None) /\
    @is_isomorphic Z Z _ _ pick_first 3 Z3 Z3
    = Ok (match r with Some _ => true | None => false end).
Proof.
  apply (@find_isomorphism_correct Z Z _ _ _ _ pick_first pick_first_ok
           Z3 Z3 3 Z3_valid Z3_valid).
  simpl. lia.
Defined.

(** C9: for a valid Group [G], [subgroups()] returns subgroups of [G], one
    for every subgroup of [G], no two with the same elements; for [Sn(3)],
    of order 6, it returns 6 subgroups: the trivial one, three of order 2,
    one of order 3 and the whole group. *)
Theorem subgroups_all_distinct {E : Type} `{PyEqOk E} (G : Group E) (fuel : nat) :
  valid_Group G -> 2 ^ length (Set_ G) <= fuel ->
  (exists sgs : list (Group E),
     subgroups fuel G = Ok sgs /\
     (forall K, In K sgs ->
        valid_Group K /\ incl (Set_ K) (Set_ G) /\ e_elem K = e_elem G /\
        forall p, function (bin_op K) p = function (bin_op G) p) /\
     (forall L : list E,
        is_group L (function (bin_op G)) (e_elem G) -> incl L (Set_ G) ->
        exists K, In K sgs /\ forall x, In x (Set_ K) <-> In x L) /\
     ForallOrdPairs
       (fun K1 K2 => ~ (forall x, In x (Set_ K1) <-> In x (Set_ K2))) sgs) /\
  (Sn 3 = Ok S3 /\ Group_len S3 = 6 /\
   exists sgs3 : list (Group (list Z)),
     subgroups 64 S3 = Ok sgs3 /\ length sgs3 = 6 /\
     map Group_len sgs3 = [1; 2; 2; 3; 2; 6]).
Proof.
  intros HG Hfuel. split.
  - destruct (subgroups_spec G HG fuel Hfuel) as (sgs & Hsgs & Hl & Hnd & Hall).
    exists sgs. split; [exact Hsgs|]. split; [|split].
    + intros K HK. destruct (Hl K HK) as (R & -> & HR).
      split; [apply sub_rec_valid, HR|]. split; [apply HR|]. split; reflexivity.
    + intros L HL HLS. destruct (Hall L (conj HL HLS)) as (R & HR & _ & Hsame).
      exists (sub_rec G R). split; [exact HR | exact Hsame].
    + apply (lattice_distinct G sgs Hl Hnd).
  - split; [exact Sn_3|]. split; [reflexivity|].
    exists S3_subgroups. split; [exact subgroups_S3|]. split; reflexivity.
Qed.

Lemma subgroups_all_distinct_witness :
  (exists sgs : list (Group Z),
     subgroups 8 Z3 = Ok sgs /\
     (forall K, In K sgs ->
        valid_Group K /\ incl (Set_ K) (Set_ Z3) /\ e_elem K = e_elem Z3 /\
        forall p, function (bin_op K) p = function (bin_op Z3) p) /\
     (forall L : list Z,
        is_group L (function (bin_op Z3)) (e_elem Z3) -> incl L (Set_ Z3) ->
        exists K, In K sgs /\ forall x, In x (Set_ K) <-> In x L) /\
     ForallOrdPairs
       (fun K1 K2 => ~ (forall x, In x (Set_ K1) <-> In x (Set_ K2))) sgs) /\
  (Sn 3 = Ok S3 /\ Group_len S3 = 6 /\
   exists sgs3 : list (Group (list Z)),
     subgroups 64 S3 = Ok sgs3 /\ length sgs3 = 6 /\
     map Group_len sgs3 = [1; 2; 2; 3; 2; 6]).
Proof.
  apply (subgroups_all_distinct Z3 8 Z3_valid). simpl. lia.
Defined.

(** C6: for valid Groups [G] and [N], the operator [G / N] raises
    [TypeError]: class [Group] defines the quotient under the name
    [__div__], which Python 3 does not consult for [/].  The method itself,
    called by its name, raises [ValueError] when [N] is not a normal
    subgroup of [G], and otherwise returns the quotient: its elements are
    the cosets of [N], each once, with the group axioms up to equality of
    sets and of order [|G| / |N|].  For [Zn(6)] and the subgroup generated
    by 2, of order 3, the method returns a group of order 2 and the
    operator raises [TypeError]. *)
Theorem quotient_operator_unsupported {E : Type} `{PyEqOk E} `{PickOk E} (G N : Group E) :
  valid_Group G -> valid_Group N ->
  Group_truediv G N = Raise TypeError /\
  (~ normal_subgroup G N -> Group_div G N = Raise ValueError) /\
  (normal_subgroup G N ->
   exists Q, Group_div G N = Ok Q /\ quotient_of G N Q /\
             group_upto same_set (Set_ Q) (function (bin_op Q)) (e_elem Q) /\
             Group_len Q * Group_len N = Group_len G) /\
  (forall P' : Pick Z, @PickOk Z P' ->
   Zn 6 = Ok Z6 /\ generate 6 Z6 [Raw 2%Z] = Ok Z6_gen2 /\ Group_len Z6_gen2 = 3 /\
   @Group_truediv Z _ P' Z6 Z6_gen2 = Raise TypeError /\
   exists Q, @Group_div Z _ P' Z6 Z6_gen2 = Ok Q /\ Group_len Q = 2).
Proof.
  intros HG HN. split; [reflexivity|]. split; [|split].
  - apply (Group_div_not_normal G N HG HN).
  - intros Hn. destruct (Group_div_normal G N HG HN Hn) as (Q & HQ & Hquo).
    exists Q. split; [exact HQ|]. split; [exact Hquo|]. split.
    + apply (quotient_group_upto G N HG HN Hn Q Hquo).
    + apply (qo_order G N Q Hquo).
  - intros P' PO. split; [exact Zn_6|]. split; [exact generate_Z6_2|].
    split; [reflexivity|]. split; [reflexivity|].
    destruct (Z6_quotient_order P' PO) as (Q & HQ & _ & Hlen). eauto.
Qed.

Lemma quotient_operator_unsupported_witness :
  @Group_truediv Z _ pick_first Z6 Z6_gen2 = Raise TypeError /\
  (~ normal_subgroup Z6 Z6_gen2 -> @Group_div Z _ pick_first Z6 Z6_gen2 = Raise ValueError) /\
  (normal_subgroup Z6 Z6_gen2 ->
   exists Q, @Group_div Z _ pick_first Z6 Z6_gen2 = Ok Q /\ quotient_of Z6 Z6_gen2 Q /\
             group_upto same_set (Set_ Q) (function (bin_op Q)) (e_elem Q) /\
             Group_len Q * Group_len Z6_gen2 = Group_len Z6) /\
  (forall P' : Pick Z, @PickOk Z P' ->
   Zn 6 = Ok Z6 /\ generate 6 Z6 [Raw 2%Z] = Ok Z6_gen2 /\ Group_len Z6_gen2 = 3 /\
   @Group_truediv Z _ P' Z6 Z6_gen2 = Raise TypeError /\
   exists Q, @Group_div Z _ P' Z6 Z6_gen2 = Ok Q /\ Group_len Q = 2).
Proof.
  apply (@quotient_operator_unsupported Z _ _ pick_first pick_first_ok Z6 Z6_gen2).
  - apply Group_of_valid, is_group_b_ok. reflexivity.
  - apply Group_of_valid, is_group_b_ok. reflexivity.
Defined.

(** * Further properties of the code *)

(** X1: a Group that [__init__] returns keeps the set and the operation
    it was given; the operation is closed and associative on the set, the
    identity recorded is a left identity, every element has a right inverse
    for it, and the abelian flag says whether the operation commutes. *)
Theorem Group_init_guarantees {E : Type} `{PyEqOk E}
    (S : AlgSet.t E) (F : Function (E * E) E) (G0 : Group E) :
  Group_init (PySet S) (PyFunction F) = Ok G0 ->
  Set_ G0 = S /\ bin_op G0 = F /\ In (e_elem G0) S /\
  (forall a b, In a S -> In b S -> In (function F (a, b)) S) /\
  (forall a b c, In a S -> In b S -> In c S ->
     function F (a, function F (b, c)) = function F (function F (a, b), c)) /\
  (forall a, In a S -> function F (e_elem G0, a) = a) /\
  (forall a, In a S -> exists b, In b S /\ function F (a, b) = e_elem G0) /\
  (abelian G0 = true <->
   forall a b, In a S -> In b S -> function F (a, b) = function F (b, a)).
Proof.
  intros Hinit.
  destruct (Group_init_Ok_inv S F G0 Hinit) as (HS & HF & He & _ & _ & Has & Hid & Hinv).
  split; [exact HS|]. split; [exact HF|]. split; [exact He|].
  split; [apply (Group_init_Ok_closed S F G0 Hinit)|].
  split; [exact Has|]. split; [exact Hid|]. split; [exact Hinv|].
  rewrite (Group_init_Ok_abelian S F G0 Hinit). unfold abelian_check.
  rewrite forallb_forall. split.
  - intros Hall a b Ha Hb. apply py_eqb_eq. apply (Hall (a, b)). apply in_prod; assumption.
  - intros Hc [a b] Hab. apply in_prod_iff in Hab. apply py_eqb_eq. apply Hc; tauto.
Qed.

Lemma Group_init_guarantees_witness :
  Set_ Z3 = [0; 1; 2]%Z /\ bin_op Z3 = bin_op Z3 /\ In (e_elem Z3) [0; 1; 2]%Z /\
  (forall a b, In a [0; 1; 2]%Z -> In b [0; 1; 2]%Z ->
     In (function (bin_op Z3) (a, b)) [0; 1; 2]%Z) /\
  (forall a b c, In a [0; 1; 2]%Z -> In b [0; 1; 2]%Z -> In c [0; 1; 2]%Z ->
     function (bin_op Z3) (a, function (bin_op Z3) (b, c))
     = function (bin_op Z3) (function (bin_op Z3) (a, b), c)) /\
  (forall a, In a [0; 1; 2]%Z -> function (bin_op Z3) (e_elem Z3, a) = a) /\
  (forall a, In a [0; 1; 2]%Z ->
     exists b, In b [0; 1; 2]%Z /\ function (bin_op Z3) (a, b) = e_elem Z3) /\
  (abelian Z3 = true <->
   forall a b, In a [0; 1; 2]%Z -> In b [0; 1; 2]%Z ->
     function (bin_op Z3) (a, b) = function (bin_op Z3) (b, a)).
Proof.
  apply (Group_init_guarantees [0; 1; 2]%Z (bin_op Z3) Z3). reflexivity.
Defined.

(** X2: when a duplicate-free set, an operation with domain [S * S] and
    codomain [S], and an element [e] satisfy the two-sided group axioms,
    [__init__] returns the Group with that set, that operation and the
    identity [e]; in particular it rebuilds a valid Group from its own
    [Set] and [bin_op]. *)
Theorem Group_init_accepts_groups {E : Type} `{PyEqOk E}
    (S : AlgSet.t E) (F : Function (E * E) E) (e0 : E) :
  is_group S (function F) e0 ->
  NoDup (domain F) ->
  AlgSet.eqb (domain F) (AlgSet.prod S S) = true ->
  AlgSet.eqb (codomain F) S = true ->
  exists G0, Group_init (PySet S) (PyFunction F) = Ok G0 /\
             Set_ G0 = S /\ bin_op G0 = F /\ e_elem G0 = e0 /\ valid_Group G0 /\
             Group_init (PySet (Set_ G0)) (PyFunction (bin_op G0)) = Ok G0.
Proof.
  intros HG HD HDS HC. pose proof (grp_NoDup _ _ _ HG) as HS.
  assert (Hv : valid_Group (mkGroup (abelian_check S (function F)) S e0 F)).
  { constructor; simpl; auto. }
  eexists. split; [apply (Group_init_group S F HS HD HDS e0 HG HC)|].
  split; [reflexivity|]. split; [reflexivity|]. split; [reflexivity|].
  split; [exact Hv|]. apply (valid_Group_init _ Hv).
Qed.

Lemma Group_init_accepts_groups_witness :
  exists G0, Group_init (PySet (Set_ Z3)) (PyFunction (bin_op Z3)) = Ok G0 /\
             Set_ G0 = Set_ Z3 /\ bin_op G0 = bin_op Z3 /\ e_elem G0 = 0%Z /\
             valid_Group G0 /\
             Group_init (PySet (Set_ G0)) (PyFunction (bin_op G0)) = Ok G0.
Proof.
  apply (Group_init_accepts_groups (Set_ Z3) (bin_op Z3) 0%Z).
  - apply is_group_b_ok. reflexivity.
  - apply (vg_dom_NoDup Z3 Z3_valid).
  - reflexivity.
  - reflexivity.
Defined.

(** X3: for every [n >= 1], [Zn(n)] returns a valid abelian Group on
    [0, ..., n - 1], of order [n], with identity 0 and addition modulo [n];
    for [n <= 0] the set is empty, no identity is found and [Zn(n)] raises
    [ValueError]. *)
Theorem Zn_cyclic_group_or_ValueError (n : Z) :
  ((1 <= n)%Z ->
   exists G, Zn n = Ok G /\ valid_Group G /\
             (forall x, In x (Set_ G) <-> (0 <= x < n)%Z) /\
             Group_len G = Z.to_nat n /\ e_elem G = 0%Z /\ abelian G = true /\
             forall a b, function (bin_op G) (a, b) = ((a + b) mod n)%Z) /\
  ((n <= 0)%Z -> Zn n = Raise ValueError).
Proof.
  split; [|apply Zn_empty].
  intros Hn. exists (Group_of (py_range n) (add_mod n) 0%Z).
  split; [apply Zn_Ok, Hn|]. split; [apply Group_of_valid, Zn_is_group, Hn|].
  split; [intros x; apply In_py_range|].
  split; [apply length_py_range|]. split; [reflexivity|].
  split; [apply Zn_abelian|]. reflexivity.
Qed.

(** X4: in a valid Group, [inverse] undoes itself and reverses products:
    [inverse(inverse(g))] is [g], [inverse(e)] is [e], and
    [inverse(g * h)] is [inverse(h) * inverse(g)]; on a GroupElem whose
    value is not in the set of the group it raises [TypeError]. *)
Theorem Group_inverse_involution {E : Type} `{PyEqOk E} (G : Group E) (x y : E) :
  valid_Group G -> In x (Set_ G) -> In y (Set_ G) ->
  (exists gi, Group_inverse G (own G x) = Ok gi /\ Group_inverse G gi = Ok (own G x)) /\
  Group_inverse G (e G) = Ok (e G) /\
  (exists xy xi yi,
     GroupElem_mul (own G x) (own G y) = Ok xy /\
     Group_inverse G (own G x) = Ok xi /\ Group_inverse G (own G y) = Ok yi /\
     exists r, Group_inverse G xy = Ok r /\ GroupElem_mul yi xi = Ok r) /\
  (forall g, ~ In (elem g) (Set_ G) -> Group_inverse G g = Raise TypeError).
Proof.
  intros HG Hx Hy. pose proof (vg_group G HG) as Hgrp.
  pose proof (grp_e _ _ _ Hgrp) as He.
  destruct (Group_inverse_own G HG x Hx) as (xi & Hxi & Hxxi & Hxix & Hinvx).
  destruct (Group_inverse_own G HG y Hy) as (yi & Hyi & Hyyi & Hyiy & Hinvy).
  split; [|split; [|split]].
  - exists (own G xi). split; [exact Hinvx|].
    destruct (Group_inverse_own G HG xi Hxi) as (x' & Hx' & Hxix' & _ & Hinv').
    rewrite Hinv'. f_equal. f_equal.
    apply (inverse_unique G HG xi x' x); auto.
  - destruct (Group_inverse_own G HG (e_elem G) He) as (ei & Hei & Heei & _ & Hinve).
    change (e G) with (own G (e_elem G)). rewrite Hinve. f_equal. f_equal.
    rewrite <- Heei. symmetry. apply (grp_id_l _ _ _ Hgrp), Hei.
  - assert (Hxy : In (function (bin_op G) (x, y)) (Set_ G))
      by (apply (op_closed G HG); assumption).
    destruct (Group_inverse_own G HG _ Hxy) as (r & Hr & Hxyr & _ & Hinvxy).
    exists (own G (function (bin_op G) (x, y))), (own G xi), (own G yi).
    split; [apply (mul_own G HG); assumption|].
    split; [exact Hinvx|]. split; [exact Hinvy|].
    exists (own G r). split; [exact Hinvxy|].
    rewrite (mul_own G HG) by assumption. f_equal. f_equal.
    apply (inverse_unique G HG (function (bin_op G) (x, y))); auto.
    + apply (op_closed G HG); assumption.
    + rewrite <- (grp_assoc _ _ _ Hgrp x y) by (auto; apply (op_closed G HG); auto).
      rewrite (grp_assoc _ _ _ Hgrp y yi xi) by assumption.
      rewrite Hyyi, (grp_id_l _ _ _ Hgrp xi Hxi). exact Hxxi.
  - apply (Group_inverse_stranger G HG).
Qed.

Lemma Group_inverse_involution_witness :
  (exists gi, Group_inverse Z6 (own Z6 2%Z) = Ok gi /\
              Group_inverse Z6 gi = Ok (own Z6 2%Z)) /\
  Group_inverse Z6 (e Z6) = Ok (e Z6) /\
  (exists xy xi yi,
     GroupElem_mul (own Z6 2%Z) (own Z6 5%Z) = Ok xy /\
     Group_inverse Z6 (own Z6 2%Z) = Ok xi /\ Group_inverse Z6 (own Z6 5%Z) = Ok yi /\
     exists r, Group_inverse Z6 xy = Ok r /\ GroupElem_mul yi xi = Ok r) /\
  (forall g, ~ In (elem g) (Set_ Z6) -> Group_inverse Z6 g = Raise TypeError).
Proof.
  apply (Group_inverse_involution Z6 2%Z 5%Z Z6_valid); simpl; auto 10.
Defined.

(** X5: for an element [g] of a valid Group, [g ** 0] is the identity,
    [g ** 1] is [g] and [g ** -1] is [inverse(g)]; every other integer
    exponent raises: [TypeError], from the float that [n / 2] passes to the
    recursive call, or [OverflowError] when [n] is too large for that
    division. *)
Theorem GroupElem_pow_small_exponents_only {E : Type} `{PyEqOk E}
    (G : Group E) (x : E) (n : Z) :
  valid_Group G -> In x (Set_ G) ->
  GroupElem_pow (own G x) (PyInt 0) = Ok (e G) /\
  GroupElem_pow (own G x) (PyInt 1) = Ok (own G x) /\
  GroupElem_pow (own G x) (PyInt (-1)) = Group_inverse G (own G x) /\
  ((n < -1 \/ 1 < n)%Z ->
   GroupElem_pow (own G x) (PyInt n)
   = Raise (if (2 * double_overflow <=? Z.abs n)%Z then OverflowError else TypeError)).
Proof.
  intros HG Hx. split; [apply pow_zero|]. split; [apply (pow_one G HG x Hx)|].
  split; [apply (pow_minus_one G HG x Hx)|].
  intros Hn. apply (pow_raises G HG x n Hx Hn).
Qed.

Lemma GroupElem_pow_small_exponents_only_witness :
  GroupElem_pow (own Z6 2%Z) (PyInt 0) = Ok (e Z6) /\
  GroupElem_pow (own Z6 2%Z) (PyInt 1) = Ok (own Z6 2%Z) /\
  GroupElem_pow (own Z6 2%Z) (PyInt (-1)) = Group_inverse Z6 (own Z6 2%Z) /\
  ((5 < -1 \/ 1 < 5)%Z ->
   GroupElem_pow (own Z6 2%Z) (PyInt 5)
   = Raise (if (2 * double_overflow <=? Z.abs 5)%Z then OverflowError else TypeError)).
Proof.
  apply (GroupElem_pow_small_exponents_only Z6 2%Z 5%Z Z6_valid). simpl. auto.
Defined.

(** X6: the additive notation needs an abelian group.  In a valid
    abelian Group, [g + h] is [g * h], [-g] is [inverse(g)], [g - h] is
    [g * inverse(h)], so [g - g] and [g + (-g)] are the identity; in a Group
    that is not abelian, [g + h], [-g], [g - h] and [g * n] for an int [n]
    all raise [TypeError]. *)
Theorem additive_notation_abelian_only {E : Type} `{PyEqOk E} (G : Group E) (x y : E) :
  valid_Group G -> In x (Set_ G) -> In y (Set_ G) ->
  (abelian G = true ->
   GroupElem_add (own G x) (OpElem (own G y)) = GroupElem_mul (own G x) (own G y) /\
   GroupElem_neg (own G x) = Group_inverse G (own G x) /\
   (exists yi, Group_inverse G (own G y) = Ok yi /\
               GroupElem_sub (own G x) (own G y) = GroupElem_mul (own G x) yi) /\
   GroupElem_sub (own G x) (own G x) = Ok (e G) /\
   (exists xn, GroupElem_neg (own G x) = Ok xn /\
               GroupElem_add (own G x) (OpElem xn) = Ok (e G))) /\
  (abelian G = false ->
   (forall o, GroupElem_add (own G x) o = Raise TypeError) /\
   GroupElem_neg (own G x) = Raise TypeError /\
   GroupElem_sub (own G x) (own G y) = Raise TypeError /\
   (forall n, GroupElem_mul_any (own G x) (OpInt n) = Raise TypeError) /\
   (forall n, GroupElem_rmul_any (own G x) (OpInt n) = Raise TypeError)).
Proof.
  intros HG Hx Hy. split; intros Hab.
  - destruct (Group_inverse_own G HG x Hx) as (xi & Hxi & Hxxi & _ & Hinvx).
    destruct (Group_inverse_own G HG y Hy) as (yi & Hyi & _ & _ & Hinvy).
    assert (Hsubx : GroupElem_sub (own G x) (own G x) = Ok (e G)).
    { unfold GroupElem_sub. cbn [group own]. rewrite Hab. cbn [negb].
      rewrite (pow_minus_one G HG x Hx), Hinvx. cbn [bind].
      rewrite (mul_own G HG) by assumption. rewrite Hxxi. reflexivity. }
    split; [|split; [|split; [|split]]].
    + unfold GroupElem_add. cbn [group own]. rewrite Hab. reflexivity.
    + unfold GroupElem_neg. cbn [group own]. rewrite Hab. cbn [negb].
      apply (pow_minus_one G HG x Hx).
    + exists (own G yi). split; [exact Hinvy|].
      unfold GroupElem_sub. cbn [group own]. rewrite Hab. cbn [negb].
      rewrite (pow_minus_one G HG y Hy), Hinvy. reflexivity.
    + exact Hsubx.
    + exists (own G xi). split.
      * unfold GroupElem_neg. cbn [group own]. rewrite Hab. cbn [negb].
        rewrite (pow_minus_one G HG x Hx). exact Hinvx.
      * unfold GroupElem_add. cbn [group own]. rewrite Hab.
        cbn [GroupElem_mul_any]. rewrite (mul_own G HG) by assumption.
        rewrite Hxxi. reflexivity.
  - split; [|split; [|split; [|split]]].
    + intros o. unfold GroupElem_add. cbn [group own]. rewrite Hab. reflexivity.
    + unfold GroupElem_neg. cbn [group own]. rewrite Hab. reflexivity.
    + unfold GroupElem_sub. cbn [group own]. rewrite Hab. reflexivity.
    + intros n. unfold GroupElem_mul_any. cbn [group own]. rewrite Hab. reflexivity.
    + intros n. unfold GroupElem_rmul_any. cbn [group own]. rewrite Hab. reflexivity.
Qed.

Lemma additive_notation_abelian_only_witness :
  (GroupElem_add (own Z6 2%Z) (OpElem (own Z6 5%Z)) = Ok (own Z6 1%Z) /\
   GroupElem_sub (own Z6 2%Z) (own Z6 2%Z) = Ok (e Z6)) /\
  (GroupElem_neg (own S3 [0; 2; 1]%Z) = Raise TypeError /\
   GroupElem_sub (own S3 [0; 2; 1]%Z) (own S3 [1; 0; 2]%Z) = Raise TypeError).
Proof.
  split.
  - destruct (additive_notation_abelian_only Z6 2%Z 5%Z Z6_valid) as [Hab _];
      [simpl; auto 10 | simpl; auto 10 |].
    destruct (Hab eq_refl) as (Hadd & _ & _ & Hsub & _).
    split; [rewrite Hadd; reflexivity | exact Hsub].
  - destruct (additive_notation_abelian_only S3 [0; 2; 1]%Z [1; 0; 2]%Z S3_valid)
      as [_ Hno]; [simpl; auto 10 | simpl; auto 10 |].
    destruct (Hno eq_refl) as (_ & Hneg & Hsub & _).
    split; [exact Hneg | exact Hsub].
Defined.

(** X7: the subgroup that [generate] returns, seen from the parent: for a
    valid Group [G] and a non-empty collection of its elements,
    [K = G.generate(items)] satisfies [K <= G], every element that [K]
    yields is [in G], the order of [K] divides the order of [G], and
    [G.generate(K)] has the elements of [K] again. *)
Theorem generate_returns_subgroup_of_parent {E : Type} `{PyEqOk E}
    (G : Group E) (fuel : nat) (items : list (gen_item E)) :
  valid_Group G -> length (Set_ G) <= fuel ->
  items <> [] -> Forall (owned G) items ->
  exists K : Group E,
    generate fuel G items = Ok K /\
    Group_le K G = Ok true /\
    (forall g, In g (Group_iter K) -> Group_contains G g = true) /\
    Nat.divide (Group_len K) (Group_len G) /\
    exists K' : Group E,
      generate fuel G (map Wrapped (Group_iter K)) = Ok K' /\
      forall x, In x (Set_ K') <-> In x (Set_ K).
Proof.
  intros HG Hfuel Hne Hown.
  destruct (generate_tagged G G HG HG (incl_refl _) (fun p => eq_refl) fuel items)
    as (R & Hgen & HR & HRS & _); auto.
  { eapply Forall_impl; [|exact Hown]. apply owned_item_ok. }
  pose proof (Group_of_valid _ _ _ HR) as HK.
  exists (Group_of R (function (bin_op G)) (e_elem G)).
  split; [exact Hgen|]. split; [apply (Group_le_sub G HG R HR HRS)|]. split; [|split].
  - intros g Hg. rewrite (Group_iter_list _ HK) in Hg. apply in_map_iff in Hg.
    destruct Hg as (x & <- & Hx). apply (In_iter_list _ x HK) in Hx.
    rewrite (Group_contains_elem G HG). apply mem_In, HRS, Hx.
  - apply (subgroup_order_divides (Set_ G) R (function (bin_op G)) (e_elem G)
             (vg_group G HG) HR HRS).
  - destruct (generate_subgroup_again G HG fuel R HR HRS Hfuel) as (R' & Hgen' & _ & Hiff).
    exists (Group_of R' (function (bin_op G)) (e_elem G)). split; [exact Hgen' | exact Hiff].
Qed.

Lemma generate_returns_subgroup_of_parent_witness :
  exists K : Group Z,
    generate 6 Z6 [Raw 2%Z] = Ok K /\
    Group_le K Z6 = Ok true /\
    (forall g, In g (Group_iter K) -> Group_contains Z6 g = true) /\
    Nat.divide (Group_len K) (Group_len Z6) /\
    exists K' : Group Z,
      generate 6 Z6 (map Wrapped (Group_iter K)) = Ok K' /\
      forall x, In x (Set_ K') <-> In x (Set_ K).
Proof.
  apply (generate_returns_subgroup_of_parent Z6 6 [Raw 2%Z] Z6_valid).
  - simpl. lia.
  - discriminate.
  - constructor; [simpl; auto 10 | constructor].
Defined.

(** X8: the order of an element [g] of a valid Group [G] is at least 1,
    divides the order of [G], and is 1 exactly for the identity. *)
Theorem GroupElem_order_divides_group_order {E : Type} `{PyEqOk E}
    (G : Group E) (fuel : nat) (x : E) :
  valid_Group G -> length (Set_ G) <= fuel -> In x (Set_ G) ->
  exists k : nat,
    GroupElem_order fuel (own G x) = Ok k /\
    1 <= k /\ Nat.divide k (Group_len G) /\
    (k = 1 <-> x = e_elem G).
Proof.
  intros HG Hfuel Hx.
  destruct (GroupElem_order_spec G HG fuel x Hx Hfuel) as (R & Hord & HR & HRS & Hiff).
  pose proof (grp_NoDup _ _ _ HR) as Hnd. pose proof (grp_e _ _ _ HR) as He.
  assert (HxR : In x R) by (apply Hiff, gen_base; simpl; auto).
  exists (length R). split; [exact Hord|]. split; [|split].
  - destruct R; [contradiction | simpl; lia].
  - apply (subgroup_order_divides (Set_ G) R (function (bin_op G)) (e_elem G)
             (vg_group G HG) HR HRS).
  - split.
    + intros Hlen. destruct R as [|a [|b R]]; simpl in Hlen; try discriminate.
      destruct He as [<-|[]], HxR as [<-|[]]. reflexivity.
    + intros ->. apply Nat.le_antisymm.
      * apply (NoDup_all_equal R (e_elem G) Hnd).
        intros y Hy. apply (generated_identity G HG), Hiff, Hy.
      * destruct R; [contradiction | simpl; lia].
Qed.

Lemma GroupElem_order_divides_group_order_witness :
  exists k : nat,
    GroupElem_order 6 (own Z6 2%Z) = Ok k /\
    1 <= k /\ Nat.divide k (Group_len Z6) /\
    (k = 1 <-> 2%Z = e_elem Z6).
Proof.
  apply (GroupElem_order_divides_group_order Z6 6 2%Z Z6_valid).
  - simpl. lia.
  - simpl. auto.
Defined.

(** X9: [is_cyclic] decides whether one element generates the group: on
    a valid Group it returns [True] exactly when the closure of some single
    element under the operation is the whole set; in particular
    [Zn(n).is_cyclic()] is [True] for every [n >= 1]. *)
Theorem is_cyclic_iff_one_generator {E : Type} `{PyEqOk E} (G : Group E) (fuel : nat) :
  valid_Group G -> length (Set_ G) <= fuel ->
  (exists b : bool,
     is_cyclic fuel G = Ok b /\
     (b = true <->
      exists x, In x (Set_ G) /\
                forall y, In y (Set_ G) -> generated (function (bin_op G)) [x] y)) /\
  (forall (n : Z) (fuel' : nat), (1 <= n)%Z -> Z.to_nat n <= fuel' ->
     exists Gn, Zn n = Ok Gn /\ is_cyclic fuel' Gn = Ok true).
Proof.
  intros HG Hfuel. split; [apply (is_cyclic_spec G fuel HG Hfuel)|].
  intros n fuel' Hn Hfuel'.
  exists (Group_of (py_range n) (add_mod n) 0%Z). split; [apply Zn_Ok, Hn|].
  pose proof (Group_of_valid _ _ _ (Zn_is_group n Hn)) as HZ.
  destruct (is_cyclic_spec _ fuel' HZ) as (b & Hb & Hiff).
  { cbn [Set_ Group_of]. rewrite length_py_range. exact Hfuel'. }
  rewrite Hb. f_equal. apply Hiff. exists (1 mod n)%Z. split.
  - apply In_py_range. apply Z.mod_pos_bound. lia.
  - intros y Hy. apply In_py_range in Hy. apply Zn_generated; assumption.
Qed.

Lemma is_cyclic_iff_one_generator_witness :
  (exists b : bool,
     is_cyclic 6 S3 = Ok b /\
     (b = true <->
      exists x, In x (Set_ S3) /\
                forall y, In y (Set_ S3) -> generated (function (bin_op S3)) [x] y)) /\
  (forall (n : Z) (fuel' : nat), (1 <= n)%Z -> Z.to_nat n <= fuel' ->
     exists Gn, Zn n = Ok Gn /\ is_cyclic fuel' Gn = Ok true).
Proof.
  apply (is_cyclic_iff_one_generator S3 6 S3_valid). simpl. lia.
Defined.

(** X10: [N <= G] decides the subgroup relation between valid Groups: it
    returns [True] exactly when every element of [N] is an element of [G]
    and the two operations agree on the pairs of [N]; [G <= G] is [True],
    and [K <= N] and [N <= G] give [K <= G]. *)
Theorem Group_le_decides_subgroup {E : Type} `{PyEqOk E} (G N K : Group E) :
  valid_Group G -> valid_Group N -> valid_Group K ->
  (exists b, Group_le N G = Ok b /\
             (b = true <->
              incl (Set_ N) (Set_ G) /\
              forall a b', In a (Set_ N) -> In b' (Set_ N) ->
                function (bin_op N) (a, b') = function (bin_op G) (a, b'))) /\
  Group_le G G = Ok true /\
  (Group_le K N = Ok true -> Group_le N G = Ok true -> Group_le K G = Ok true).
Proof.
  intros HG HN HK. split; [|split].
  - exists (le_b G N). split; [apply (Group_le_spec G N HG HN) | apply (le_b_iff G N)].
  - rewrite (Group_le_spec G G HG HG). f_equal. apply (le_b_iff G G).
    split; [apply incl_refl | reflexivity].
  - rewrite (Group_le_spec N K HN HK), (Group_le_spec G N HG HN), (Group_le_spec G K HG HK).
    intros [= HKN] [= HNG]. f_equal.
    apply (le_b_iff N K) in HKN. apply (le_b_iff G N) in HNG. apply (le_b_iff G K).
    destruct HKN as [Hi1 Hf1], HNG as [Hi2 Hf2]. split.
    + intros x Hx. apply Hi2, Hi1, Hx.
    + intros a b Ha Hb. rewrite Hf1 by assumption. apply Hf2; apply Hi1; assumption.
Qed.

Lemma Group_le_decides_subgroup_witness :
  (exists b, Group_le Z6_gen2 Z6 = Ok b /\
             (b = true <->
              incl (Set_ Z6_gen2) (Set_ Z6) /\
              forall a b', In a (Set_ Z6_gen2) -> In b' (Set_ Z6_gen2) ->
                function (bin_op Z6_gen2) (a, b') = function (bin_op Z6) (a, b'))) /\
  Group_le Z6 Z6 = Ok true /\
  (Group_le Z6_gen2 Z6_gen2 = Ok true -> Group_le Z6_gen2 Z6 = Ok true ->
   Group_le Z6_gen2 Z6 = Ok true).
Proof.
  apply (Group_le_decides_subgroup Z6 Z6_gen2 Z6_gen2 Z6_valid Z6_gen2_valid Z6_gen2_valid).
Defined.

(** X11: [N.is_normal_subgroup(G)] decides normality between valid
    Groups: it returns [True] exactly when [N] is a subgroup of [G] and the
    left and right cosets of [N] by every element of [G] have the same
    elements; a result [True] implies [N <= G], and in an abelian [G] every
    subgroup is normal. *)
Theorem is_normal_subgroup_decides {E : Type} `{PyEqOk E} (G N : Group E) :
  valid_Group G -> valid_Group N ->
  exists b, is_normal_subgroup N G = Ok b /\
            (b = true <->
             subgroup_of G N /\
             forall g x, In g (Set_ G) ->
               ((exists h, In h (Set_ N) /\ x = function (bin_op G) (g, h)) <->
                (exists h, In h (Set_ N) /\ x = function (bin_op G) (h, g)))) /\
            (b = true -> Group_le N G = Ok true) /\
            (abelian G = true -> Group_le N G = Ok true -> b = true).
Proof.
  intros HG HN. destruct (is_normal_subgroup_spec G N HG HN) as (b & Hb & Hiff).
  assert (Hco : normal_subgroup G N <->
            subgroup_of G N /\
            forall g x, In g (Set_ G) ->
              ((exists h, In h (Set_ N) /\ x = function (bin_op G) (g, h)) <->
               (exists h, In h (Set_ N) /\ x = function (bin_op G) (h, g)))).
  { unfold normal_subgroup, same_set, lcoset, rcoset.
    split; intros [Hs Hn]; (split; [exact Hs|]).
    - intros g x Hg. specialize (Hn g Hg x). rewrite !in_map_iff in Hn.
      split; intros (h & Hh & ->).
      + destruct (proj1 Hn) as (h' & <- & Hh'); [exists h; auto|]. exists h'. auto.
      + destruct (proj2 Hn) as (h' & <- & Hh'); [exists h; auto|]. exists h'. auto.
    - intros g Hg x. rewrite !in_map_iff. specialize (Hn g x Hg).
      split; intros (h & <- & Hh).
      + destruct (proj1 Hn) as (h' & Hh' & ->); [exists h; auto|]. exists h'. auto.
      + destruct (proj2 Hn) as (h' & Hh' & ->); [exists h; auto|]. exists h'. auto. }
  exists b. split; [exact Hb|]. split; [rewrite Hiff; exact Hco|]. split.
  - intros Hbt. apply Hiff in Hbt. rewrite (Group_le_spec G N HG HN). f_equal.
    apply (le_b_iff G N), Hbt.
  - intros Hab. rewrite (Group_le_spec G N HG HN). intros [= Hle].
    apply (le_b_iff G N) in Hle. apply Hiff. split; [exact Hle|].
    rewrite (vg_abelian G HG) in Hab. unfold abelian_check in Hab.
    rewrite forallb_forall in Hab.
    intros g Hg x. unfold lcoset, rcoset. rewrite !in_map_iff.
    assert (Hc : forall h, In h (Set_ N) ->
               function (bin_op G) (g, h) = function (bin_op G) (h, g)).
    { intros h Hh. apply py_eqb_eq. apply (Hab (g, h)).
      apply in_prod; [exact Hg | apply (proj1 Hle), Hh]. }
    split; intros (h & <- & Hh); exists h; (split; [|exact Hh]);
      [symmetry|]; apply Hc, Hh.
Qed.

Lemma is_normal_subgroup_decides_witness :
  exists b, is_normal_subgroup Z6_gen2 Z6 = Ok b /\
            (b = true <->
             subgroup_of Z6 Z6_gen2 /\
             forall g x, In g (Set_ Z6) ->
               ((exists h, In h (Set_ Z6_gen2) /\ x = function (bin_op Z6) (g, h)) <->
                (exists h, In h (Set_ Z6_gen2) /\ x = function (bin_op Z6) (h, g)))) /\
            (b = true -> Group_le Z6_gen2 Z6 = Ok true) /\
            (abelian Z6 = true -> Group_le Z6_gen2 Z6 = Ok true -> b = true).
Proof.
  apply (is_normal_subgroup_decides Z6 Z6_gen2 Z6_valid Z6_gen2_valid).
Defined.

(** X12: for a GroupHomomorphism [h] that its constructor accepted,
    between valid Groups and with a callable that returns elements of the
    codomain, [h.kernel()] is a normal subgroup of the domain and
    [h.image()] is a subgroup of the codomain, as [is_normal_subgroup] and
    [<=] report them. *)
Theorem kernel_normal_image_subgroup {E1 E2 : Type} `{PyEqOk E1} `{PyEqOk E2}
    (D : Group E1) (C : Group E2)
    (fn : GroupElem E1 -> result (GroupElem E2)) (h : GroupHomomorphism E1 E2) :
  valid_Group D -> valid_Group C ->
  GroupHomomorphism_init D C fn = Ok h ->
  (forall x y, In x (Set_ D) -> fn (own D x) = Ok y -> group y = C) ->
  exists (K : Group E1) (I : Group E2),
    kernel h = Ok K /\ image h = Ok I /\
    is_normal_subgroup K (hom_domain h) = Ok true /\
    Group_le I (hom_codomain h) = Ok true.
Proof.
  intros HD HC Hinit Hown.
  destruct (kernel_image_spec D C HD HC fn h Hinit Hown)
    as (Kl & Il & HK & HI & HKg & HIg & HKiff & HIiff & _).
  pose proof (Group_of_valid _ _ _ HKg) as HKv.
  exists (Group_of Kl (function (bin_op D)) (e_elem D)).
  exists (Group_of Il (function (bin_op C)) (e_elem C)).
  split; [exact HK|]. split; [exact HI|].
  rewrite (hom_domain_h D C fn h Hinit), (hom_codomain_h D C fn h Hinit). split.
  - destruct (is_normal_subgroup_spec D _ HD HKv) as (b & Hb & Hiff).
    rewrite Hb. f_equal. apply Hiff. split.
    + split; [intros x Hx; apply HKiff, Hx | reflexivity].
    + intros g Hg.
      assert (Hin : forall x, In x (Set_ D) -> In (hom_map D C fn x) (Set_ C))
        by (intros x Hx; apply (fn_own D C HD HC fn h Hinit Hown x Hx)).
      exact (kernel_cosets_agree (Set_ D) (function (bin_op D)) (e_elem D)
               (Set_ C) (function (bin_op C)) (e_elem C)
               (vg_group D HD) (vg_group C HC) (hom_map D C fn) Hin
               (hom_map_law D C HD HC fn h Hinit Hown)
               Kl (grp_NoDup _ _ _ HKg) HKiff g Hg).
  - apply (Group_le_sub C HC Il HIg).
    intros y Hy. apply HIiff in Hy. destruct Hy as (x & Hx & <-).
    apply (fn_own D C HD HC fn h Hinit Hown x Hx).
Qed.

Lemma kernel_normal_image_subgroup_witness :
  exists (K I : Group Z),
    kernel (mkGroupHomomorphism Z6 Z3 mod3) = Ok K /\
    image (mkGroupHomomorphism Z6 Z3 mod3) = Ok I /\
    is_normal_subgroup K (hom_domain (mkGroupHomomorphism Z6 Z3 mod3)) = Ok true /\
    Group_le I (hom_codomain (mkGroupHomomorphism Z6 Z3 mod3)) = Ok true.
Proof.
  apply (kernel_normal_image_subgroup Z6 Z3 mod3 (mkGroupHomomorphism Z6 Z3 mod3)
           Z6_valid Z3_valid).
  - reflexivity.
  - intros x y _. unfold mod3, GroupElem_init.
    destruct (negb _); [discriminate|]. intros [= <-]. reflexivity.
Defined.

(** X13: what [GroupHomomorphism.__init__] accepts, for valid Groups and
    a callable that returns on every element [x] of the domain a GroupElem
    of value [phi x], owned by the codomain ([y.group] is the codomain)
    whenever [phi x] is in the codomain's set: it raises [TypeError] when
    some [phi x] is outside the codomain, [ValueError] when all are inside
    but [phi (a * b) = phi a * phi b], with the product of the codomain,
    fails for some pair, and otherwise returns the homomorphism with the
    two groups and the callable. *)
Theorem GroupHomomorphism_init_decides {E1 E2 : Type} `{PyEqOk E1} `{PyEqOk E2}
    (D : Group E1) (C : Group E2)
    (fn : GroupElem E1 -> result (GroupElem E2)) (phi : E1 -> E2) :
  valid_Group D -> valid_Group C ->
  (forall x, In x (Set_ D) ->
     exists y, fn (own D x) = Ok y /\ elem y = phi x /\
               (In (phi x) (Set_ C) -> group y = C)) ->
  ((exists x, In x (Set_ D) /\ ~ In (phi x) (Set_ C)) ->
   GroupHomomorphism_init D C fn = Raise TypeError) /\
  ((forall x, In x (Set_ D) -> In (phi x) (Set_ C)) ->
   (exists a b, In a (Set_ D) /\ In b (Set_ D) /\
      phi (function (bin_op D) (a, b)) <> function (bin_op C) (phi a, phi b)) ->
   GroupHomomorphism_init D C fn = Raise ValueError) /\
  ((forall x, In x (Set_ D) -> In (phi x) (Set_ C)) ->
   (forall a b, In a (Set_ D) -> In b (Set_ D) ->
      phi (function (bin_op D) (a, b)) = function (bin_op C) (phi a, phi b)) ->
   GroupHomomorphism_init D C fn = Ok (mkGroupHomomorphism D C fn)).
Proof.
  intros HD HC Hfn. unfold GroupHomomorphism_init.
  rewrite (hom_inside_test D C HD HC fn phi Hfn).
  split; [|split].
  - intros (x & Hx & Hout). cbn [bind].
    destruct (forallb _ (Group_iter D)) eqn:Hall; [|reflexivity].
    exfalso. apply Hout. apply (hom_inside_iff D C HD phi); assumption.
  - intros Hin (a & b & Ha & Hb & Hne). cbn [bind].
    rewrite (proj2 (hom_inside_iff D C HD phi) Hin). cbn [negb].
    rewrite (hom_law_test D C HD HC fn phi Hfn Hin). cbn [bind].
    destruct (forallb _ (list_prod _ _)) eqn:Hall; [|reflexivity].
    exfalso. apply Hne. apply (proj1 (hom_law_iff D C HD phi) Hall); assumption.
  - intros Hin Hlaw. cbn [bind].
    rewrite (proj2 (hom_inside_iff D C HD phi) Hin). cbn [negb].
    rewrite (hom_law_test D C HD HC fn phi Hfn Hin). cbn [bind].
    rewrite (proj2 (hom_law_iff D C HD phi) Hlaw). reflexivity.
Qed.

Lemma GroupHomomorphism_init_decides_witness :
  GroupHomomorphism_init Z6 Z3 mod3 = Ok (mkGroupHomomorphism Z6 Z3 mod3) /\
  GroupHomomorphism_init Z3 Z3 (fun g => Ok (own Z3 ((elem g + 1) mod 3)%Z))
  = Raise ValueError /\
  GroupHomomorphism_init Z3 Z3 (fun g => Ok (own Z6 5%Z)) = Raise TypeError.
Proof.
  split; [|split].
  - assert (Hfn : forall x, In x (Set_ Z6) ->
              exists y, mod3 (own Z6 x) = Ok y /\ elem y = (x mod 3)%Z /\
                        (In (x mod 3)%Z (Set_ Z3) -> group y = Z3)).
    { intros x Hx. simpl in Hx.
      repeat (destruct Hx as [<-|Hx];
              [eexists; split; [reflexivity|]; split; [reflexivity|];
               intros _; reflexivity|]).
      contradiction. }
    apply (proj2 (proj2 (GroupHomomorphism_init_decides Z6 Z3 mod3 (fun x => (x mod 3)%Z)
                           Z6_valid Z3_valid Hfn))).
    + intros x Hx. simpl in Hx.
      repeat (destruct Hx as [<-|Hx]; [simpl; auto|]). contradiction.
    + intros a b Ha Hb. simpl in Ha, Hb.
      repeat (destruct Ha as [<-|Ha]; [repeat (destruct Hb as [<-|Hb]; [reflexivity|]);
                                       contradiction|]).
      contradiction.
  - assert (Hfn : forall x, In x (Set_ Z3) ->
              exists y, Ok (own Z3 ((elem (own Z3 x) + 1) mod 3)%Z) = Ok y /\
                        elem y = ((x + 1) mod 3)%Z /\
                        (In ((x + 1) mod 3)%Z (Set_ Z3) -> group y = Z3)).
    { intros x _. eexists. split; [reflexivity|]. split; [reflexivity|].
      intros _. reflexivity. }
    apply (proj1 (proj2 (GroupHomomorphism_init_decides Z3 Z3
                           (fun g => Ok (own Z3 ((elem g + 1) mod 3)%Z))
                           (fun x => ((x + 1) mod 3)%Z) Z3_valid Z3_valid Hfn))).
    + intros x Hx. simpl in Hx.
      repeat (destruct Hx as [<-|Hx]; [simpl; auto|]). contradiction.
    + exists 0%Z, 0%Z. simpl. split; [auto|]. split; [auto|]. discriminate.
  - assert (Hfn : forall x, In x (Set_ Z3) ->
              exists y, Ok (own Z6 5%Z) = Ok y /\ elem y = 5%Z /\
                        (In 5%Z (Set_ Z3) -> group y = Z3)).
    { intros x _. eexists. split; [reflexivity|]. split; [reflexivity|].
      intros [Hc|[Hc|[Hc|[]]]]; discriminate. }
    apply (proj1 (GroupHomomorphism_init_decides Z3 Z3
                    (fun g => Ok (own Z6 5%Z)) (fun x => 5%Z) Z3_valid Z3_valid Hfn)).
    exists 0%Z. simpl. split; [auto|]. intros [Hc|[Hc|[Hc|[]]]]; discriminate.
Defined.



(** X15: the product [G * K] of two valid Groups is a valid Group on the
    pairs, of order [len(G) * len(K)], with the identity [(e_G, e_K)] and
    the componentwise operation; it is abelian exactly when both factors
    are. *)
Theorem Group_product_is_group {E1 E2 : Type} `{PyEqOk E1} `{PyEqOk E2}
    (G : Group E1) (K : Group E2) :
  valid_Group G -> valid_Group K ->
  exists P : Group (E1 * E2),
    Group_mul G K = Ok P /\ valid_Group P /\
    (forall a b, In (a, b) (Set_ P) <-> In a (Set_ G) /\ In b (Set_ K)) /\
    Group_len P = Group_len G * Group_len K /\
    e_elem P = (e_elem G, e_elem K) /\
    (forall a1 a2 b1 b2,
       function (bin_op P) ((a1, a2), (b1, b2))
       = (function (bin_op G) (a1, b1), function (bin_op K) (a2, b2))) /\
    abelian P = abelian G && abelian K.
Proof.
  intros HG HK. eexists. split; [apply (Group_mul_Ok G K HG HK)|].
  split; [|split; [|split; [|split; [|split]]]].
  - apply Group_of_valid, prod_is_group; [apply (vg_group G HG) | apply (vg_group K HK)].
  - intros a b. cbn [Set_ Group_of]. apply in_prod_iff.
  - unfold Group_len, AlgSet.len. cbn [Set_ Group_of]. apply length_prod.
  - reflexivity.
  - reflexivity.
  - cbn [abelian Group_of].
    rewrite (prod_abelian _ _ _ _ _ _ (vg_group G HG) (vg_group K HK)).
    rewrite (vg_abelian G HG), (vg_abelian K HK). reflexivity.
Qed.

Lemma Group_product_is_group_witness :
  exists P : Group (Z * Z),
    Group_mul Z3 Z6 = Ok P /\ valid_Group P /\
    (forall a b, In (a, b) (Set_ P) <-> In a (Set_ Z3) /\ In b (Set_ Z6)) /\
    Group_len P = Group_len Z3 * Group_len Z6 /\
    e_elem P = (e_elem Z3, e_elem Z6) /\
    (forall a1 a2 b1 b2,
       function (bin_op P) ((a1, a2), (b1, b2))
       = (function (bin_op Z3) (a1, b1), function (bin_op Z6) (a2, b2))) /\
    abelian P = abelian Z3 && abelian Z6.
Proof. apply (Group_product_is_group Z3 Z6 Z3_valid Z6_valid). Defined.

(** X16: [is_isomorphic] is an equivalence on valid Groups: [G] is
    isomorphic to itself; when [G.is_isomorphic(K)] is [True] so is
    [K.is_isomorphic(G)]; and [True] for [G], [K] and for [K], [L] gives
    [True] for [G], [L]; this whatever elements [pick] selects. *)
Theorem is_isomorphic_equivalence {E1 E2 E3 : Type}
    `{PyEqOk E1} `{PyEqOk E2} `{PyEqOk E3} `{PickOk E1} `{PickOk E2}
    (G : Group E1) (K : Group E2) (L : Group E3) (fuel : nat) :
  valid_Group G -> valid_Group K -> valid_Group L ->
  length (Set_ G) <= fuel -> length (Set_ K) <= fuel ->
  is_isomorphic fuel G G = Ok true /\
  (is_isomorphic fuel G K = Ok true -> is_isomorphic fuel K G = Ok true) /\
  (is_isomorphic fuel G K = Ok true -> is_isomorphic fuel K L = Ok true ->
   is_isomorphic fuel G L = Ok true).
Proof.
  intros HG HK HL HfG HfK.
  destruct (is_isomorphic_spec G G HG HG fuel HfG) as (b1 & Hb1 & Hi1).
  destruct (is_isomorphic_spec G K HG HK fuel HfG) as (b2 & Hb2 & Hi2).
  destruct (is_isomorphic_spec K G HK HG fuel HfK) as (b3 & Hb3 & Hi3).
  destruct (is_isomorphic_spec K L HK HL fuel HfK) as (b4 & Hb4 & Hi4).
  destruct (is_isomorphic_spec G L HG HL fuel HfG) as (b5 & Hb5 & Hi5).
  rewrite Hb1, Hb2, Hb3, Hb4, Hb5. split; [|split].
  - f_equal. apply Hi1, isomorphic_refl.
  - intros [= ->]. f_equal. apply Hi3, (isomorphic_sym G K HG HK), Hi2. reflexivity.
  - intros [= ->] [= ->]. f_equal. apply Hi5.
    apply (isomorphic_trans G K L); [apply Hi2 | apply Hi4]; reflexivity.
Qed.

Lemma is_isomorphic_equivalence_witness :
  @is_isomorphic Z Z _ _ pick_first 6 Z3 Z3 = Ok true /\
  (@is_isomorphic Z Z _ _ pick_first 6 Z3 Z3 = Ok true ->
   @is_isomorphic Z Z _ _ pick_first 6 Z3 Z3 = Ok true) /\
  (@is_isomorphic Z Z _ _ pick_first 6 Z3 Z3 = Ok true ->
   @is_isomorphic Z Z _ _ pick_first 6 Z3 Z6 = Ok true ->
   @is_isomorphic Z Z _ _ pick_first 6 Z3 Z6 = Ok true).
Proof.
  apply (@is_isomorphic_equivalence Z Z Z _ _ _ _ _ _ pick_first pick_first_ok
           pick_first pick_first_ok Z3 Z3 Z6 6 Z3_valid Z3_valid Z6_valid);
    simpl; lia.
Defined.

(** X17: the product of two valid Groups does not depend on the order
    of the factors, up to isomorphism: [(G * K).is_isomorphic(K * G)] is
    [True]. *)
Theorem Group_product_commutes {E1 E2 : Type} `{PyEqOk E1} `{PyEqOk E2}
    {P : Pick (E1 * E2)} {PO : PickOk (E1 * E2)}
    (G : Group E1) (K : Group E2) (fuel : nat) :
  valid_Group G -> valid_Group K ->
  length (Set_ G) * length (Set_ K) <= fuel ->
  exists (GK : Group (E1 * E2)) (KG : Group (E2 * E1)),
    Group_mul G K = Ok GK /\ Group_mul K G = Ok KG /\
    is_isomorphic fuel GK KG = Ok true.
Proof.
  intros HG HK Hfuel.
  pose proof (vg_group G HG) as HGg. pose proof (vg_group K HK) as HKg.
  eexists. eexists. split; [apply (Group_mul_Ok G K HG HK)|].
  split; [apply (Group_mul_Ok K G HK HG)|].
  destruct (is_isomorphic_spec
              (Group_of (list_prod (Set_ G) (Set_ K))
                 (prod_op (function (bin_op G)) (function (bin_op K)))
                 (e_elem G, e_elem K))
              (Group_of (list_prod (Set_ K) (Set_ G))
                 (prod_op (function (bin_op K)) (function (bin_op G)))
                 (e_elem K, e_elem G))
              (Group_of_valid _ _ _ (prod_is_group _ _ _ _ _ _ HGg HKg))
              (Group_of_valid _ _ _ (prod_is_group _ _ _ _ _ _ HKg HGg)) fuel)
    as (b & Hb & Hiff).
  - cbn [Set_ Group_of]. rewrite length_prod. exact Hfuel.
  - rewrite Hb. f_equal. apply Hiff, product_swap_isomorphic.
Qed.

Lemma Group_product_commutes_witness :
  exists (GK KG : Group (Z * Z)),
    Group_mul Z3 Z6 = Ok GK /\ Group_mul Z6 Z3 = Ok KG /\
    @is_isomorphic (Z * Z) (Z * Z) _ _ pick_first 18 GK KG = Ok true.
Proof.
  apply (@Group_product_commutes Z Z _ _ _ _ pick_first pick_first_ok
           Z3 Z6 18 Z3_valid Z6_valid).
  simpl. lia.
Defined.

(** X18: every Group that [subgroups()] returns on a valid Group [G] is
    a subgroup as [<=] reports it, its order divides the order of [G], and
    in an abelian [G] it is normal; the trivial subgroup and a subgroup
    with all the elements of [G] are among them. *)
Theorem subgroups_are_subgroups {E : Type} `{PyEqOk E} (G : Group E) (fuel : nat) :
  valid_Group G -> 2 ^ length (Set_ G) <= fuel ->
  exists sgs : list (Group E),
    subgroups fuel G = Ok sgs /\
    (forall K, In K sgs ->
       Group_le K G = Ok true /\
       Nat.divide (Group_len K) (Group_len G) /\
       (abelian G = true -> is_normal_subgroup K G = Ok true)) /\
    (exists T, In T sgs /\ forall x, In x (Set_ T) <-> x = e_elem G) /\
    (exists W, In W sgs /\ forall x, In x (Set_ W) <-> In x (Set_ G)).
Proof.
  intros HG Hfuel. pose proof (vg_group G HG) as Hgrp.
  destruct (subgroups_spec G HG fuel Hfuel) as (sgs & Hsgs & Hl & _ & Hall).
  exists sgs. split; [exact Hsgs|]. split; [|split].
  - intros K HK. destruct (Hl K HK) as (R & -> & HR & HRS).
    pose proof (Group_of_valid _ _ _ HR : valid_Group (sub_rec G R)) as HKv.
    assert (Hle : Group_le (sub_rec G R) G = Ok true) by apply (Group_le_sub G HG R HR HRS).
    split; [exact Hle|]. split.
    + apply (subgroup_order_divides (Set_ G) R (function (bin_op G)) (e_elem G) Hgrp HR HRS).
    + intros Hab. destruct (is_normal_subgroup_spec G _ HG HKv) as (b & Hb & Hiff).
      rewrite Hb. f_equal. apply Hiff. split.
      * split; [exact HRS | reflexivity].
      * rewrite (vg_abelian G HG) in Hab. unfold abelian_check in Hab.
        rewrite forallb_forall in Hab.
        intros g Hg x. unfold lcoset, rcoset. rewrite !in_map_iff.
        assert (Hc : forall k, In k R ->
                   function (bin_op G) (g, k) = function (bin_op G) (k, g)).
        { intros k Hk. apply py_eqb_eq. apply (Hab (g, k)).
          apply in_prod; [exact Hg | apply HRS, Hk]. }
        split; intros (k & <- & Hk); exists k; (split; [|exact Hk]);
          [symmetry|]; apply Hc, Hk.
  - destruct (Hall [e_elem G]) as (R & HR & _ & Hsame).
    { split; [apply (trivial_is_group _ _ _ Hgrp)|].
      intros x [<-|[]]. apply (grp_e _ _ _ Hgrp). }
    exists (sub_rec G R). split; [exact HR|].
    intros x. rewrite (Hsame x). simpl. split; [intros [->|[]]; reflexivity | auto].
  - destruct (Hall (Set_ G)) as (R & HR & _ & Hsame).
    { split; [exact Hgrp | apply incl_refl]. }
    exists (sub_rec G R). split; [exact HR | exact Hsame].
Qed.

Lemma subgroups_are_subgroups_witness :
  exists sgs : list (Group Z),
    subgroups 8 Z3 = Ok sgs /\
    (forall K, In K sgs ->
       Group_le K Z3 = Ok true /\
       Nat.divide (Group_len K) (Group_len Z3) /\
       (abelian Z3 = true -> is_normal_subgroup K Z3 = Ok true)) /\
    (exists T, In T sgs /\ forall x, In x (Set_ T) <-> x = e_elem Z3) /\
    (exists W, In W sgs /\ forall x, In x (Set_ W) <-> In x (Set_ Z3)).
Proof.
  apply (subgroups_are_subgroups Z3 8 Z3_valid). simpl. lia.
Defined.

(** X19: for every [n >= 1], [Dn(n)] returns a valid Group of order
    [2 * n] on the names ["R0", ..., "S<n-1>"], with identity ["R0"]; it is
    abelian exactly for [n <= 2]; for [n <= 0] the set is empty and [Dn(n)]
    raises [ValueError]. *)
Theorem Dn_dihedral_group_or_ValueError (n : Z) :
  ((1 <= n)%Z ->
   exists G, Dn n = Ok G /\ valid_Group G /\
             (forall s, In s (Set_ G) <->
                exists l k, (l = "R"%char \/ l = "S"%char) /\ (0 <= k < n)%Z /\
                            s = symmetry_name l k) /\
             Group_len G = 2 * Z.to_nat n /\
             e_elem G = "R0"%string /\
             (abelian G = true <-> (n <= 2)%Z)) /\
  ((n <= 0)%Z -> Dn n = Raise ValueError).
Proof.
  split; [|apply Dn_empty].
  intros Hn. pose proof (Dn_is_group n Hn) as HG.
  eexists. split; [apply (Dn_Ok n Hn)|].
  split; [apply Group_of_valid, HG|]. split; [|split; [|split]].
  - intros s. cbn [Set_ Group_of]. rewrite in_map_iff. split.
    + intros ([l k] & <- & Hin). apply In_dihedral_set in Hin.
      exists (if l then "R" else "S")%char, k.
      split; [destruct l; auto|]. split; [exact Hin | reflexivity].
    + intros (l & k & Hl & Hk & ->).
      destruct Hl as [-> | ->]; [exists (true, k) | exists (false, k)];
        (split; [reflexivity | apply In_dihedral_set, Hk]).
  - unfold Group_len, AlgSet.len. cbn [Set_ Group_of].
    rewrite length_map. unfold dihedral_set.
    rewrite length_prod, length_py_range. reflexivity.
  - reflexivity.
  - cbn [abelian Group_of]. rewrite abelian_check_spec, <- (Dn_commutes_iff n Hn). split.
    + intros Hc a b Ha Hb.
      rewrite <- (decode_encode (dihedral_op n (a, b))),
              <- (decode_encode (dihedral_op n (b, a))).
      rewrite <- !multiply_encoded. f_equal. apply Hc; apply in_map; assumption.
    + intros Hc a b Ha Hb. apply in_map_iff in Ha, Hb.
      destruct Ha as (x & <- & Hx), Hb as (y & <- & Hy).
      rewrite !multiply_encoded. f_equal. apply Hc; assumption.
Qed.

(** X20: for every [n], [Sn(n)] returns a valid Group whose elements are
    the tuples of length [n] that hold each of [0, ..., n - 1] once, of
    order [n!], with the identity [(0, ..., n - 1)] and the composition
    [(p * q)[i] = p[q[i]]]; it is abelian exactly for [n <= 2]. *)
Theorem Sn_symmetric_group (n : Z) :
  exists G, Sn n = Ok G /\ valid_Group G /\
            (forall p, In p (Set_ G) <->
               length p = Z.to_nat n /\ NoDup p /\ forall x, In x p -> (0 <= x < n)%Z) /\
            Group_len G = fact (Z.to_nat n) /\
            e_elem G = py_range n /\
            (forall p q i, In p (Set_ G) -> In q (Set_ G) -> i < Z.to_nat n ->
               nth i (function (bin_op G) (p, q)) 0%Z
               = nth (Z.to_nat (nth i q 0%Z)) p 0%Z) /\
            (abelian G = true <-> (n <= 2)%Z).
Proof.
  eexists. split; [apply (Sn_Ok n)|].
  split; [apply Group_of_valid, Sn_is_group|]. split; [|split; [|split; [|split]]].
  - intros p. apply In_Sn_set.
  - apply length_Sn_set.
  - reflexivity.
  - intros p q i Hp Hq Hi. cbn [Set_ Group_of bin_op function] in *.
    apply In_Sn_set in Hq. destruct Hq as (Hlen & _ & _).
    unfold compose_tuples. cbn [fst snd].
    rewrite (nth_indep (map (fun j => nth (Z.to_nat j) p 0%Z) q) 0%Z
               (nth (Z.to_nat 0) p 0%Z)) by (rewrite length_map; lia).
    apply (map_nth (fun j => nth (Z.to_nat j) p 0%Z)).
  - cbn [abelian Group_of]. split.
    + intros Hab. destruct (Z_le_gt_dec n 2) as [Hle|Hgt]; [exact Hle|]. exfalso.
      apply (swaps_do_not_commute n).
      apply (proj1 (abelian_check_spec _ _) Hab); apply In_Sn_set; [apply swap01_perm | apply swap12_perm]; lia.
    + apply Sn_small_abelian.
Qed.

(** X21: multiplication across groups.  For a valid Group [G] and a
    valid [K <= G], the product of an element of [G] and an element of [K],
    in either order, is their product in [G]: [g * k] is wrapped by [G], and
    [k * g] by [K] when [g] is in [K] and by [G] otherwise, through the
    fallback to [__rmul__].  For two valid Groups of which neither holds the
    other operand, [*] raises [TypeError]. *)
Theorem GroupElem_mul_across_groups {E : Type} `{PyEqOk E} (G K : Group E) (g k : E) :
  valid_Group G -> valid_Group K -> Group_le K G = Ok true ->
  In g (Set_ G) -> In k (Set_ K) ->
  GroupElem_mul (own G g) (own K k) = Ok (own G (function (bin_op G) (g, k))) /\
  GroupElem_mul (own K k) (own G g)
  = Ok (mkGroupElem (function (bin_op G) (k, g))
                    (if AlgSet.mem g (Set_ K) then K else G)) /\
  (forall (L : Group E) (a b : E),
     valid_Group L -> In a (Set_ G) -> In b (Set_ L) ->
     ~ In b (Set_ G) -> ~ In a (Set_ L) ->
     GroupElem_mul (own G a) (own L b) = Raise TypeError).
Proof.
  intros HG HK Hle Hg Hk.
  rewrite (Group_le_spec G K HG HK) in Hle. injection Hle as Hle.
  apply (le_b_iff G K) in Hle.
  split; [apply (mul_G_N G K HG Hle g k Hg Hk)|]. split.
  - unfold GroupElem_mul. cbn [elem group own].
    destruct (AlgSet.mem g (Set_ K)) eqn:Hm.
    + apply mem_In in Hm. rewrite (call_op K HK) by assumption. cbn [bind].
      rewrite (GroupElem_init_own K) by (apply (op_closed K HK); assumption).
      unfold own. rewrite (proj2 Hle) by assumption. reflexivity.
    + apply mem_not_In in Hm.
      rewrite (Function_call_out (Set_ K) (bin_op K) (valid_NoDup K HK)
                 (vg_dom_NoDup K HK) (vg_dom K HK)) by tauto.
      cbn [bind]. unfold GroupElem_rmul. cbn [elem group own].
      rewrite (call_op G HG) by (auto; apply (proj1 Hle), Hk). cbn [bind].
      rewrite (GroupElem_init_own G)
        by (apply (op_closed G HG); auto; apply (proj1 Hle), Hk).
      reflexivity.
  - intros L a b HL Ha Hb HbG HaL. unfold GroupElem_mul. cbn [elem group own].
    rewrite (Function_call_out (Set_ G) (bin_op G) (valid_NoDup G HG)
               (vg_dom_NoDup G HG) (vg_dom G HG)) by tauto.
    cbn [bind]. unfold GroupElem_rmul. cbn [elem group own].
    rewrite (Function_call_out (Set_ L) (bin_op L) (valid_NoDup L HL)
               (vg_dom_NoDup L HL) (vg_dom L HL)) by tauto.
    reflexivity.
Qed.

Lemma GroupElem_mul_across_groups_witness :
  (GroupElem_mul (own Z6 1%Z) (own Z6_gen2 4%Z) = Ok (own Z6 5%Z) /\
   GroupElem_mul (own Z6_gen2 4%Z) (own Z6 1%Z) = Ok (own Z6 5%Z) /\
   GroupElem_mul (own Z6_gen2 4%Z) (own Z6 2%Z) = Ok (own Z6_gen2 0%Z)) /\
  GroupElem_mul (own Z6 5%Z) (own Z2_on_7_8 7%Z) = Raise TypeError.
Proof.
  assert (Hle : Group_le Z6_gen2 Z6 = Ok true) by reflexivity.
  assert (H1 : In 1%Z (Set_ Z6)) by (simpl; auto 10).
  assert (H2 : In 2%Z (Set_ Z6)) by (simpl; auto 10).
  assert (H4 : In 4%Z (Set_ Z6_gen2)) by (simpl; auto 10).
  pose proof (GroupElem_mul_across_groups Z6 Z6_gen2 1%Z 4%Z
                Z6_valid Z6_gen2_valid Hle H1 H4) as (Ha & Hb & Hc).
  pose proof (GroupElem_mul_across_groups Z6 Z6_gen2 2%Z 4%Z
                Z6_valid Z6_gen2_valid Hle H2 H4) as (_ & Hd & _).
  split; [split; [|split]|].
  - exact Ha.
  - exact Hb.
  - exact Hd.
  - apply (Hc Z2_on_7_8 5%Z 7%Z Z2_on_7_8_valid); simpl; auto 10; lia.
Defined.

(** X22: for a GroupHomomorphism accepted by its constructor, between
    valid Groups and with a callable whose results the codomain owns
    ([y.group] is the codomain), [h.kernel()] has order 1 exactly when the
    callable sends distinct elements of the domain to distinct values, and
    exactly when [h.image()] has the order of the domain. *)
Theorem kernel_trivial_iff_injective {E1 E2 : Type} `{PyEqOk E1} `{PyEqOk E2}
    (D : Group E1) (C : Group E2)
    (fn : GroupElem E1 -> result (GroupElem E2)) (h : GroupHomomorphism E1 E2) :
  valid_Group D -> valid_Group C ->
  GroupHomomorphism_init D C fn = Ok h ->
  (forall x y, In x (Set_ D) -> fn (own D x) = Ok y -> group y = C) ->
  exists (K : Group E1) (I : Group E2),
    kernel h = Ok K /\ image h = Ok I /\
    (Group_len K = 1 <->
     forall a b ya yb, In a (Set_ D) -> In b (Set_ D) ->
       fn (own D a) = Ok ya -> fn (own D b) = Ok yb -> elem ya = elem yb -> a = b) /\
    (Group_len K = 1 <-> Group_len I = Group_len D).
Proof.
  intros HD HC Hinit Hown.
  pose proof (vg_group D HD) as HDg. pose proof (vg_group C HC) as HCg.
  pose proof (fn_own D C HD HC fn h Hinit Hown) as Hfn.
  pose proof (hom_map_law D C HD HC fn h Hinit Hown) as Hlaw.
  assert (Hin : forall z, In z (Set_ D) -> In (hom_map D C fn z) (Set_ C))
    by (intros z Hz; apply Hfn, Hz).
  pose proof (phi_e _ _ _ _ _ _ HDg HCg (hom_map D C fn) Hin Hlaw) as Hphie.
  destruct (kernel_image_spec D C HD HC fn h Hinit Hown)
    as (Kl & Il & HK & HI & HKg & HIg & HKiff & HIiff & Hord).
  exists (Group_of Kl (function (bin_op D)) (e_elem D)).
  exists (Group_of Il (function (bin_op C)) (e_elem C)).
  split; [exact HK|]. split; [exact HI|].
  unfold Group_len, AlgSet.len. cbn [Set_ Group_of].
  pose proof (grp_e _ _ _ HKg) as HeK. pose proof (grp_NoDup _ _ _ HKg) as HKnd.
  split.
  - split.
    + intros Hlen a b ya yb Ha Hb Hya Hyb Heq.
      rewrite (proj1 (Hfn a Ha)) in Hya. rewrite (proj1 (Hfn b Hb)) in Hyb.
      injection Hya as <-. injection Hyb as <-. cbn [elem own] in Heq.
      destruct (grp_inv _ _ _ HDg b Hb) as (bi & Hbi & Hbbi & _).
      assert (Hk : In (function (bin_op D) (a, bi)) Kl).
      { apply HKiff. split; [apply (op_closed D HD); assumption|].
        rewrite Hlaw, Heq, <- Hlaw, Hbbi by assumption. exact Hphie. }
      destruct Kl as [|k [|k' Kl]]; simpl in Hlen; try discriminate.
      destruct HeK as [HeK|[]], Hk as [Hk|[]].
      apply (grp_cancel_r _ _ _ HDg bi); auto. congruence.
    + intros Hinj. apply Nat.le_antisymm.
      * apply (NoDup_all_equal Kl (e_elem D) HKnd).
        intros x Hx. apply HKiff in Hx. destruct Hx as [Hx Hxe].
        apply (Hinj x (e_elem D) (own C (hom_map D C fn x))
                 (own C (hom_map D C fn (e_elem D)))); auto.
        -- apply (grp_e _ _ _ HDg).
        -- apply Hfn, Hx.
        -- apply Hfn, (grp_e _ _ _ HDg).
        -- cbn [elem own]. congruence.
      * destruct Kl; [contradiction | simpl; lia].
  - pose proof (grp_e _ _ _ HDg) as HeD.
    assert (Hpos : 1 <= length (Set_ D)) by (destruct (Set_ D); [contradiction | simpl; lia]).
    split; intros Hlen; nia.
Qed.

Lemma kernel_trivial_iff_injective_witness :
  exists (K I : Group Z),
    kernel (mkGroupHomomorphism Z6 Z3 mod3) = Ok K /\
    image (mkGroupHomomorphism Z6 Z3 mod3) = Ok I /\
    (Group_len K = 1 <->
     forall a b ya yb, In a (Set_ Z6) -> In b (Set_ Z6) ->
       mod3 (own Z6 a) = Ok ya -> mod3 (own Z6 b) = Ok yb -> elem ya = elem yb -> a = b) /\
    (Group_len K = 1 <-> Group_len I = Group_len Z6).
Proof.
  apply (kernel_trivial_iff_injective Z6 Z3 mod3 (mkGroupHomomorphism Z6 Z3 mod3)
           Z6_valid Z3_valid).
  - reflexivity.
  - intros x y _. unfold mod3, GroupElem_init.
    destruct (negb _); [discriminate|]. intros [= <-]. reflexivity.
Defined.

(** X23: a valid Group of prime order: every element other than the
    identity has the order of the group, [is_cyclic()] is [True], and
    [subgroups()] returns exactly two subgroups. *)
Theorem prime_order_group_cyclic {E : Type} `{PyEqOk E} (G : Group E) (fuel : nat) :
  valid_Group G -> 2 ^ length (Set_ G) <= fuel ->
  2 <= Group_len G ->
  (forall d, Nat.divide d (Group_len G) -> d = 1 \/ d = Group_len G) ->
  (forall x, In x (Set_ G) -> x <> e_elem G ->
     GroupElem_order fuel (own G x) = Ok (Group_len G)) /\
  is_cyclic fuel G = Ok true /\
  exists sgs, subgroups fuel G = Ok sgs /\ length sgs = 2.
Proof.
  intros HG Hfuel Hp2 Hprime. pose proof (vg_group G HG) as Hgrp.
  pose proof (grp_e _ _ _ Hgrp) as He. pose proof (grp_NoDup _ _ _ Hgrp) as Hnd.
  unfold Group_len, AlgSet.len in *.
  assert (Hfuel' : length (Set_ G) <= fuel).
  { pose proof (Nat.pow_gt_lin_r 2 (length (Set_ G))). lia. }
  assert (Hsize : forall R, is_group R (function (bin_op G)) (e_elem G) -> incl R (Set_ G) ->
            (length R = 1 /\ (forall x, In x R <-> In x [e_elem G])) \/
            (length R = length (Set_ G) /\ (forall x, In x R <-> In x (Set_ G)))).
  { intros R HR HRS. pose proof (grp_e _ _ _ HR) as HeR.
    destruct (Hprime (length R)) as [H1|Hall].
    - apply (subgroup_order_divides (Set_ G) R _ _ Hgrp HR HRS).
    - left. split; [exact H1|]. destruct R as [|a [|b R]]; simpl in H1; try discriminate.
      destruct HeR as [->|[]]. intros x. tauto.
    - right. split; [exact Hall|]. intros x. split; [apply HRS|].
      apply (@NoDup_length_incl _ R (Set_ G) (grp_NoDup _ _ _ HR)); [lia | exact HRS]. }
  assert (Hord : forall x, In x (Set_ G) -> x <> e_elem G ->
            GroupElem_order fuel (own G x) = Ok (length (Set_ G)) /\
            forall y, In y (Set_ G) -> generated (function (bin_op G)) [x] y).
  { intros x Hx Hne.
    destruct (GroupElem_order_spec G HG fuel x Hx Hfuel') as (R & Ho & HR & HRS & Hiff).
    assert (HxR : In x R) by (apply Hiff, gen_base; simpl; auto).
    destruct (Hsize R HR HRS) as [[_ H1]|[Hlen Hall]].
    - exfalso. apply H1 in HxR. destruct HxR as [Heq|[]]. congruence.
    - rewrite Ho, Hlen. split; [reflexivity|]. intros y Hy. apply Hiff, Hall, Hy. }
  split; [intros x Hx Hne; apply (Hord x Hx Hne)|]. split.
  - destruct (is_cyclic_spec G fuel HG Hfuel') as (b & Hb & Hiff).
    rewrite Hb. f_equal. apply Hiff.
    assert (Hex : exists x, In x (Set_ G) /\ x <> e_elem G).
    { destruct (Set_ G) as [|a [|b' S']] eqn:HS; simpl in Hp2; try lia.
      destruct (py_eq_dec a (e_elem G)) as [Ha|Ha].
      - exists b'. split; [simpl; auto|]. intros Hb'. inversion Hnd as [|? ? Hnot _]; subst.
        apply Hnot. simpl. left. congruence.
      - exists a. split; [simpl; auto | exact Ha]. }
    destruct Hex as (x & Hx & Hne). exists x. split; [exact Hx | apply (Hord x Hx Hne)].
  - destruct (subgroups_spec G HG fuel Hfuel) as (sgs & Hsgs & Hl & Hknd & Hall).
    exists sgs. split; [exact Hsgs|].
    assert (HeS : incl [e_elem G] (Set_ G)) by (intros x [<-|[]]; exact He).
    set (kT := sub_key G (sub_rec G [e_elem G])).
    set (kW := sub_key G (sub_rec G (Set_ G))).
    assert (Hkeys : incl (map (sub_key G) sgs) [kT; kW]).
    { intros k Hk. apply in_map_iff in Hk. destruct Hk as (K & <- & HK).
      destruct (Hl K HK) as (R & -> & HR & HRS).
      destruct (Hsize R HR HRS) as [[_ Hs]|[_ Hs]].
      - left. symmetry. apply (sub_key_same G R [e_elem G] HRS HeS). exact Hs.
      - right. left. symmetry.
        apply (sub_key_same G R (Set_ G) HRS (incl_refl _)). exact Hs. }
    assert (HT : In kT (map (sub_key G) sgs)).
    { destruct (Hall [e_elem G]) as (R & HR & [_ HRS] & Hsame).
      - split; [apply (trivial_is_group _ _ _ Hgrp) | exact HeS].
      - apply in_map_iff. exists (sub_rec G R). split; [|exact HR].
        apply (sub_key_same G R [e_elem G] HRS HeS). exact Hsame. }
    assert (HW : In kW (map (sub_key G) sgs)).
    { destruct (Hall (Set_ G)) as (R & HR & [_ HRS] & Hsame).
      - split; [exact Hgrp | apply incl_refl].
      - apply in_map_iff. exists (sub_rec G R). split; [|exact HR].
        apply (sub_key_same G R (Set_ G) HRS (incl_refl _)). exact Hsame. }
    assert (Hne : kT <> kW).
    { intros Heq. apply (sub_key_same G [e_elem G] (Set_ G) HeS (incl_refl _)) in Heq.
      assert (Hle : length (Set_ G) <= 1); [|lia].
      apply (NoDup_all_equal (Set_ G) (e_elem G) Hnd).
      intros x Hx. apply Heq in Hx. destruct Hx as [<-|[]]. reflexivity. }
    rewrite <- (length_map (sub_key G) sgs). apply Nat.le_antisymm.
    + apply (@NoDup_incl_length _ (map (sub_key G) sgs) [kT; kW] Hknd Hkeys).
    + apply (@NoDup_incl_length _ [kT; kW] (map (sub_key G) sgs)).
      * constructor; [simpl; intuition congruence | repeat constructor; simpl; tauto].
      * intros k [<-|[<-|[]]]; assumption.
Qed.

Lemma prime_order_group_cyclic_witness :
  (forall x, In x (Set_ Z3) -> x <> e_elem Z3 ->
     GroupElem_order 8 (own Z3 x) = Ok (Group_len Z3)) /\
  is_cyclic 8 Z3 = Ok true /\
  exists sgs, subgroups 8 Z3 = Ok sgs /\ length sgs = 2.
Proof.
  apply (prime_order_group_cyclic Z3 8 Z3_valid).
  - simpl. lia.
  - change (2 <= 3). lia.
  - intros d Hd. change (Group_len Z3) with 3 in *.
    assert (Hle : d <= 3) by (apply Nat.divide_pos_le; [lia | exact Hd]).
    destruct Hd as [k Hk].
    assert (Hd : d = 0 \/ d = 1 \/ d = 2 \/ d = 3) by lia.
    destruct Hd as [-> | [-> | [-> | ->]]]; lia.
Defined.

(** X24: for a GroupHomomorphism [h] that its constructor accepted, between
    valid Groups and with a callable whose results the codomain owns
    ([y.group] is the codomain), [kernel()] and [image()] return valid
    Groups and [len(h.kernel()) * len(h.image()) == len(h.domain)]. *)
Theorem kernel_image_orders {E1 E2 : Type} `{PyEqOk E1} `{PyEqOk E2}
    (D : Group E1) (C : Group E2)
    (fn : GroupElem E1 -> result (GroupElem E2)) (h : GroupHomomorphism E1 E2) :
  valid_Group D -> valid_Group C ->
  GroupHomomorphism_init D C fn = Ok h ->
  (forall x y, In x (Set_ D) -> fn (own D x) = Ok y -> group y = C) ->
  exists (K : Group E1) (I : Group E2),
    kernel h = Ok K /\ image h = Ok I /\
    valid_Group K /\ valid_Group I /\
    Group_len K * Group_len I = Group_len (hom_domain h).
Proof.
  intros HD HC Hinit Hown.
  destruct (kernel_image_spec D C HD HC fn h Hinit Hown)
    as (Kl & Il & HK & HI & HKg & HIg & _ & _ & Hord).
  exists (Group_of Kl (function (bin_op D)) (e_elem D)).
  exists (Group_of Il (function (bin_op C)) (e_elem C)).
  split; [exact HK|]. split; [exact HI|].
  split; [apply Group_of_valid, HKg|]. split; [apply Group_of_valid, HIg|].
  rewrite (hom_domain_h D C fn h Hinit). exact Hord.
Qed.

Lemma kernel_image_orders_witness :
  exists (K I : Group Z),
    kernel (mkGroupHomomorphism Z6 Z3 mod3) = Ok K /\
    image (mkGroupHomomorphism Z6 Z3 mod3) = Ok I /\
    valid_Group K /\ valid_Group I /\
    Group_len K * Group_len I = Group_len (hom_domain (mkGroupHomomorphism Z6 Z3 mod3)).
Proof.
  apply (kernel_image_orders Z6 Z3 mod3 (mkGroupHomomorphism Z6 Z3 mod3) Z6_valid Z3_valid).
  - reflexivity.
  - intros x y _. unfold mod3, GroupElem_init.
    destruct (negb _); [discriminate|]. intros [= <-]. reflexivity.
Defined.
